(** * A segregated-fit allocator with boundary tags (mm.c)

    Shallow embedding of [mm.c]: the heap is a flat byte store, block
    pointers are addresses, and the two static arrays [first] / [last]
    are maps from segment index to pointer.  Every function of the C
    file is transcribed with explicit state passing; the one loop whose
    length depends on the heap, the walk along a free list, takes fuel.

    Target conventions, as the block picture at the top of [mm.c] has
    them: a word ([unsigned int]), a pointer and [size_t] are all four
    bytes wide (head, prev and next occupy bytes 0-3, 4-7 and 8-11 of a
    block), and words are stored little-endian.  Arithmetic on [size_t]
    wraps modulo 2^32 and is written out with [wrap]; addresses are
    plain integers, and a load or store is defined at every address.
    The model therefore follows the C code as long as its accesses stay
    inside the heap of memlib, which the heap invariants guarantee for
    the calls made on blocks of the heap; where the code leaves the heap
    the model has no fault, and the properties then only say where the
    access goes ([outside_heap]).

    The file has three parts: the code, the notions used to state its
    properties (free lists, heap invariants, concrete heaps), and the
    properties themselves. *)

From Stdlib Require Import ZArith Lia List Bool.
Import ListNotations.
Open Scope Z_scope.

(** ** Constants and macros *)

Definition FREE : Z := 0.
Definition ALLOCATED : Z := 1.
Definition WORD : Z := 4.
Definition OVERHEAD : Z := 16.
Definition MAX_SEG : Z := 13.
Definition NULL : Z := 0.

(** Reduction of an unsigned 32-bit result. *)
Definition wrap (x : Z) : Z := x mod 2 ^ 32.

(** [#define ALIGN(size) (((size) + 0x7) & ~0x7)] *)
Definition ALIGN (size : Z) : Z := Z.land (wrap (size + 7)) (Z.lnot 7).

(** [#define PACK(size, state) ((size)|(state))] *)
Definition PACK (size state : Z) : Z := Z.lor size state.

(** ** The byte store *)

Definition memory := Z -> Z.

Definition load_byte (m : memory) (a : Z) : Z := m a mod 256.

Definition load_word (m : memory) (a : Z) : Z :=
  load_byte m a + 2 ^ 8 * load_byte m (a + 1)
  + 2 ^ 16 * load_byte m (a + 2) + 2 ^ 24 * load_byte m (a + 3).

Definition store_byte (m : memory) (a v : Z) : memory :=
  fun x => if x =? a then v mod 256 else m x.

Definition store_word (m : memory) (a v : Z) : memory :=
  fun x =>
    if x =? a then v mod 256
    else if x =? a + 1 then (v / 2 ^ 8) mod 256
    else if x =? a + 2 then (v / 2 ^ 16) mod 256
    else if x =? a + 3 then (v / 2 ^ 24) mod 256
    else m x.

(** [memmove(dst, src, n)]: the bytes of the source range as they were
    before the call end up in the destination range, overlapping or not.
    [memcpy] is only defined by C on ranges that do not overlap, where it
    has the same effect. *)
Definition memmove (m : memory) (dst src n : Z) : memory :=
  fun x => if (dst <=? x) && (x <? dst + n) then m (x - dst + src) else m x.

Definition memcpy (m : memory) (dst src n : Z) : memory := memmove m dst src n.

(** ** Allocator state: the heap of memlib and the two static arrays *)

Record heap : Type := mkHeap {
  mem : memory;
  mem_brk : Z;
  mem_max_addr : Z;
  first : Z -> Z;
  last : Z -> Z
}.

Definition set_mem (st : heap) (m : memory) : heap :=
  mkHeap m (mem_brk st) (mem_max_addr st) (first st) (last st).

Definition set_first (st : heap) (seg v : Z) : heap :=
  mkHeap (mem st) (mem_brk st) (mem_max_addr st)
         (fun i => if i =? seg then v else first st i) (last st).

Definition set_last (st : heap) (seg v : Z) : heap :=
  mkHeap (mem st) (mem_brk st) (mem_max_addr st)
         (first st) (fun i => if i =? seg then v else last st i).

(** Modelled from the spec: [heap_extend(n)] of the heap collaborator
    ([mem_sbrk] of memlib, which is not part of [mm.c]).  It appends [n]
    bytes to the end of the heap and returns the base address of the new
    region, or the failure value [(void * )-1] when the heap cannot grow;
    a failed call leaves the heap as it was. *)
Definition mem_sbrk (st : heap) (incr : Z) : Z * heap :=
  if (incr <? 0) || (mem_max_addr st <? mem_brk st + incr) then (-1, st)
  else (mem_brk st,
        mkHeap (mem st) (mem_brk st + incr) (mem_max_addr st)
               (first st) (last st)).

(** [#define VALUE(p) ( *(unsigned int * )(p))], as a read and as an
    assignment target. *)
Definition VALUE (st : heap) (p : Z) : Z := load_word (mem st) p.

Definition set_VALUE (st : heap) (p v : Z) : heap :=
  set_mem st (store_word (mem st) p v).

Definition UNPACK_SIZE (st : heap) (p : Z) : Z := Z.land (VALUE st p) (Z.lnot 7).
Definition UNPACK_STATE (st : heap) (p : Z) : Z := Z.land (VALUE st p) 1.

Definition REPACK_SIZE (st : heap) (p size : Z) : heap :=
  set_VALUE st p (PACK size (UNPACK_STATE st p)).

Definition REPACK_STATE (st : heap) (p state : Z) : heap :=
  set_VALUE st p (PACK (UNPACK_SIZE st p) state).

(** Pointer magic for block pointers. *)
Definition HEADER (bp : Z) : Z := bp - OVERHEAD + WORD.
Definition FOOTER (st : heap) (bp : Z) : Z :=
  bp - OVERHEAD + UNPACK_SIZE st (HEADER bp).
Definition NEXT_HEADER (st : heap) (bp : Z) : Z :=
  bp - OVERHEAD + WORD + UNPACK_SIZE st (HEADER bp).
Definition PREV_FOOTER (bp : Z) : Z := bp - OVERHEAD.
Definition NEXT_BLOCK (st : heap) (bp : Z) : Z :=
  bp + UNPACK_SIZE st (HEADER bp).
Definition PREV_BLOCK (st : heap) (bp : Z) : Z :=
  bp - UNPACK_SIZE st (PREV_FOOTER bp).

(** Pointer magic for the explicit free lists. *)
Definition NEXT_FREE (st : heap) (bp : Z) : Z := VALUE st (bp - WORD).
Definition PREV_FREE (st : heap) (bp : Z) : Z := VALUE st (bp - 2 * WORD).
Definition set_NEXT_FREE (st : heap) (bp v : Z) : heap :=
  set_VALUE st (bp - WORD) v.
Definition set_PREV_FREE (st : heap) (bp v : Z) : heap :=
  set_VALUE st (bp - 2 * WORD) v.

(** ** list_find *)

Fixpoint list_find_from (n : nat) (seg limit size : Z) : Z :=
  match n with
  | O => 0
  | S n' =>
      if seg <? MAX_SEG then
        if size <=? limit then seg
        else list_find_from n' (seg + 1) (wrap (limit * 2)) size
      else 0
  end.

Definition list_find (size : Z) : Z := list_find_from 13 1 2 size.

(** ** list_add *)

Definition list_add (st : heap) (bp : Z) : heap :=
  let seg := list_find (UNPACK_SIZE st (HEADER bp)) in
  if last st seg =? NULL then
    (* empty list, initialise *)
    let st := set_last st seg bp in
    let st := set_first st seg bp in
    let st := set_NEXT_FREE st bp NULL in
    set_PREV_FREE st bp NULL
  else
    (* append to existing list *)
    let st := set_NEXT_FREE st (last st seg) bp in
    let st := set_PREV_FREE st bp (last st seg) in
    let st := set_NEXT_FREE st bp NULL in
    set_last st seg bp.

(** ** list_remove *)

Definition list_remove (st : heap) (bp : Z) : heap :=
  let prev := PREV_FREE st bp in
  let next := NEXT_FREE st bp in
  let seg := list_find (UNPACK_SIZE st (HEADER bp)) in
  (* adjust previous block or first *)
  let st := if negb (prev =? NULL) then set_NEXT_FREE st prev next
            else set_first st seg next in
  (* adjust next block or last *)
  if negb (next =? NULL) then set_PREV_FREE st next prev
  else set_last st seg prev.

(** ** coalesce *)

Definition coalesce_left (st : heap) (bp : Z) : Z * heap :=
  if UNPACK_STATE st (PREV_FOOTER bp) =? FREE then
    let bp := PREV_BLOCK st bp in
    let st := list_remove st bp in
    let newsize :=
      wrap (UNPACK_SIZE st (HEADER bp) + UNPACK_SIZE st (NEXT_HEADER st bp)) in
    let st := REPACK_SIZE st (HEADER bp) newsize in
    let st := REPACK_SIZE st (FOOTER st bp) newsize in
    (bp, st)
  else (bp, st).

Definition coalesce_right (st : heap) (bp : Z) : heap :=
  if UNPACK_STATE st (NEXT_HEADER st bp) =? FREE then
    let st := list_remove st (NEXT_BLOCK st bp) in
    let newsize :=
      wrap (UNPACK_SIZE st (HEADER bp) + UNPACK_SIZE st (NEXT_HEADER st bp)) in
    let st := REPACK_SIZE st (HEADER bp) newsize in
    REPACK_SIZE st (FOOTER st bp) newsize
  else st.

Definition coalesce (st : heap) (bp : Z) : Z * heap :=
  let (bp, st) := coalesce_left st bp in
  let st := coalesce_right st bp in
  (bp, list_add st bp).

(** ** split *)

Definition split (st : heap) (bp size : Z) : heap :=
  let oldsize := UNPACK_SIZE st (HEADER bp) in
  (* not enough to split off *)
  if oldsize <? wrap (size + OVERHEAD) then st
  else
    (* resize blocks *)
    let st := set_VALUE st (HEADER bp) (PACK size ALLOCATED) in
    let st := set_VALUE st (FOOTER st bp) (PACK size ALLOCATED) in
    let st := set_VALUE st (NEXT_HEADER st bp) (PACK (wrap (oldsize - size)) FREE) in
    let st := set_VALUE st (FOOTER st (NEXT_BLOCK st bp))
                        (PACK (wrap (oldsize - size)) FREE) in
    (* coalesce leftover *)
    snd (coalesce st (NEXT_BLOCK st bp)).

(** ** find_block

    The walk along a free list follows links stored in the heap, so it
    takes fuel: [None] is a walk that has not finished within it. *)

Fixpoint walk (fuel : nat) (st : heap) (bp size : Z) : option Z :=
  match fuel with
  | O => None
  | S fuel' =>
      if bp =? NULL then Some NULL
      else if size <=? UNPACK_SIZE st (HEADER bp) then Some bp
      else walk fuel' st (NEXT_FREE st bp) size
  end.

Fixpoint search_from (n : nat) (fuel : nat) (st : heap) (seg size : Z)
  : option Z :=
  match n with
  | O => Some NULL
  | S n' =>
      if seg <? MAX_SEG then
        match walk fuel st (first st seg) size with
        | None => None
        | Some bp =>
            if bp =? NULL then search_from n' fuel st (seg + 1) size
            else Some bp
        end
      else Some NULL
  end.

Definition find_block (fuel : nat) (st : heap) (size : Z) : option Z :=
  let seg := list_find size in
  (* search through lists *)
  match (if 0 <? seg then search_from 13 fuel st seg size else Some NULL) with
  | None => None
  | Some bp =>
      if negb (bp =? NULL) then Some bp
      else
        (* couldn't find, try special list for large blocks *)
        walk fuel st (first st 0) size
  end.

(** ** new_block *)

Definition new_block (st : heap) (size : Z) : Z * heap :=
  (* extend heap to accomodate new block *)
  let (bp, st) := mem_sbrk st size in
  if bp =? -1 then (NULL, st)
  else
    (* take over space of old terminal block *)
    let bp := bp + OVERHEAD - 2 * WORD in
    let st := set_VALUE st (HEADER bp) (PACK size FREE) in
    let st := set_VALUE st (FOOTER st bp) (PACK size FREE) in
    (* recreate terminal block *)
    let st := set_VALUE st (NEXT_HEADER st bp) (PACK 0 ALLOCATED) in
    (* merge with trailing free block if possible *)
    coalesce st bp.

(** ** mm_init *)

Fixpoint clear_lists (n : nat) (seg : Z) (st : heap) : heap :=
  match n with
  | O => st
  | S n' =>
      if seg <? MAX_SEG then
        clear_lists n' (seg + 1) (set_last (set_first st seg NULL) seg NULL)
      else st
  end.

Definition mm_init (st : heap) : Z * heap :=
  (* allocate initial fake edge blocks *)
  let (p, st) := mem_sbrk st (OVERHEAD + 2 * WORD) in
  let p := p + OVERHEAD in
  let st := set_VALUE st (HEADER p) (PACK OVERHEAD ALLOCATED) in
  let st := set_VALUE st (FOOTER st p) (PACK OVERHEAD ALLOCATED) in
  let p := NEXT_BLOCK st p in
  let st := set_VALUE st (HEADER p) (PACK 0 ALLOCATED) in
  (* set up explicit lists *)
  let st := clear_lists 13 0 st in
  (0, st).

(** ** mm_malloc *)

Definition mm_malloc (fuel : nat) (st : heap) (size : Z) : option (Z * heap) :=
  (* ignore empty case *)
  if size =? 0 then Some (NULL, st)
  else
    (* adjust to actual block size, including header/footer and padding *)
    let size := ALIGN (size + OVERHEAD) in
    (* find a block big enough to use *)
    match find_block fuel st size with
    | None => None
    | Some bp =>
        let (bp, st') := if bp =? NULL then new_block st size else (bp, st) in
        if bp =? NULL then Some (NULL, st')
        else
          (* mark as allocated *)
          let st := list_remove st' bp in
          let st := REPACK_STATE st (HEADER bp) ALLOCATED in
          let st := REPACK_STATE st (FOOTER st bp) ALLOCATED in
          let st := split st bp size in
          (* block is ready for user *)
          Some (bp, st)
    end.

(** ** mm_free *)

Definition mm_free (st : heap) (bp : Z) : heap :=
  (* set block as free *)
  let st := REPACK_STATE st (HEADER bp) FREE in
  let st := REPACK_STATE st (FOOTER st bp) FREE in
  (* merge with adjacent free blocks *)
  snd (coalesce st bp).

(** ** mm_realloc *)

Definition mm_realloc (fuel : nat) (st : heap) (bp size : Z)
  : option (Z * heap) :=
  (* special cases *)
  if bp =? NULL then mm_malloc fuel st size
  else if size =? 0 then Some (NULL, mm_free st bp)
  else
    (* adjust to actual block size, including header/footer and padding *)
    let newsize := ALIGN (size + OVERHEAD) in
    let oldsize := UNPACK_SIZE st (HEADER bp) in
    if wrap (newsize + OVERHEAD) <? oldsize then
      (* shrink by splitting if possible *)
      Some (bp, split st bp size)
    else if newsize <? oldsize then
      (* only slightly smaller, can't shrink, so do nothing *)
      Some (bp, st)
    else
      let cosize := wrap (oldsize + UNPACK_SIZE st (NEXT_HEADER st bp)) in
      if (UNPACK_STATE st (NEXT_HEADER st bp) =? FREE) && (newsize <=? cosize)
      then
        (* grow in place by absorbing next free block and then splitting *)
        let st := list_remove st (NEXT_BLOCK st bp) in
        let st := set_VALUE st (HEADER bp) (PACK cosize ALLOCATED) in
        let st := set_VALUE st (FOOTER st bp) (PACK cosize ALLOCATED) in
        Some (bp, split st bp newsize)
      else
        let cosize := wrap (oldsize + UNPACK_SIZE st (PREV_FOOTER bp)) in
        if (UNPACK_STATE st (PREV_FOOTER bp) =? FREE) && (newsize <=? cosize)
        then
          (* absorb previous block *)
          let bp2 := PREV_BLOCK st bp in
          let st := list_remove st bp2 in
          let st := set_VALUE st (HEADER bp2) (PACK cosize ALLOCATED) in
          let st := set_VALUE st (FOOTER st bp2) (PACK cosize ALLOCATED) in
          (* move data backwards *)
          let st := set_mem st (memmove (mem st) bp2 bp (wrap (oldsize - OVERHEAD))) in
          (* split *)
          Some (bp2, split st bp2 newsize)
        else
          (* no easy way out, allocate another block, copy data over *)
          match mm_malloc fuel st size with
          | None => None
          | Some (bp2, st) =>
              if negb (bp2 =? NULL) then
                let st := set_mem st (memcpy (mem st) bp2 bp (wrap (oldsize - OVERHEAD))) in
                Some (bp2, mm_free st bp)
              else Some (bp2, st)
          end.

(** * Notions used to state the properties *)

(** ** Free lists as the search of [find_block] sees them *)

(** [free_list st bp l]: following [NEXT_FREE] from [bp] visits exactly
    the blocks of [l], in this order, and then reaches null. *)
Inductive free_list (st : heap) : Z -> list Z -> Prop :=
| free_list_end : free_list st NULL []
| free_list_node bp l :
    bp <> NULL ->
    free_list st (NEXT_FREE st bp) l ->
    free_list st bp (bp :: l).

(** The bucket of a size in the words of the specification: the smallest
    [i] in [1 .. MAX_SEG - 1] with [size <= 2^i], or 0 when the size
    exceeds [2^(MAX_SEG - 1)]. *)
Definition bucket_of_spec (size seg : Z) : Prop :=
  (size <= 2 ^ (MAX_SEG - 1) ->
   1 <= seg <= MAX_SEG - 1 /\ size <= 2 ^ seg /\
   forall i, 1 <= i < seg -> 2 ^ i < size) /\
  (2 ^ (MAX_SEG - 1) < size -> seg = 0).

(** Buckets [seg], [seg + 1], ..., [MAX_SEG - 1]. *)
Definition buckets_from (seg : Z) : list Z :=
  map Z.of_nat (seq (Z.to_nat seg) (13 - Z.to_nat seg)).

(** The order in which the specification has [find_block] visit the
    buckets. *)
Definition search_order (seg : Z) : list Z :=
  if 0 <? seg then buckets_from seg ++ [0] else [0].

Definition fits (st : heap) (size bp : Z) : bool :=
  size <=? UNPACK_SIZE st (HEADER bp).

(** First fit over a sequence of blocks; null when none is large enough. *)
Definition first_fit (st : heap) (size : Z) (l : list Z) : Z :=
  match find (fits st size) l with
  | Some bp => bp
  | None => NULL
  end.

(** ** The heap invariants

    [heap_inv] collects the invariants that are to hold between two API
    calls: header and footer of a block agree and sizes are multiples of
    8 that are at least 16 ([block_ok]); the blocks tile the heap between
    the left sentinel and the terminator ([tiles]); no two neighbours are
    both free ([no_adjacent_free]); every list is doubly linked from
    [first] to [last] ([dlist]); and a block is in the list of its size
    exactly when it is free ([inv_members]). *)

(** A block of the heap walk: payload address, size and state. *)
Definition block : Type := (Z * Z * Z)%type.

(** Header and footer of a block hold the same size and state, and the
    size is a multiple of 8 and at least 16. *)
Definition block_ok (st : heap) (b : block) : Prop :=
  let '(bp, size, state) := b in
  OVERHEAD <= size /\ size mod 8 = 0 /\
  (state = FREE \/ state = ALLOCATED) /\
  VALUE st (HEADER bp) = PACK size state /\
  VALUE st (bp - OVERHEAD + size) = PACK size state.

(** [tiles st p bl q]: the blocks [bl] lie one after the other, without
    gaps, from the payload address [p] up to [q]. *)
Inductive tiles (st : heap) : Z -> list block -> Z -> Prop :=
| tiles_end p : tiles st p [] p
| tiles_block p size state bl q :
    block_ok st (p, size, state) ->
    tiles st (p + size) bl q ->
    tiles st p ((p, size, state) :: bl) q.

Fixpoint no_adjacent_free (bl : list block) : Prop :=
  match bl with
  | (_, _, s1) :: rest =>
      match rest with
      | (_, _, s2) :: _ => ~ (s1 = FREE /\ s2 = FREE)
      | [] => True
      end /\ no_adjacent_free rest
  | [] => True
  end.

(** [dlist st prev l hd tl]: [l] is a doubly linked list whose first
    node is [hd] and whose last node is [tl]; the node before the first
    one is [prev] and the node after the last one is null. *)
Fixpoint dlist (st : heap) (prev : Z) (l : list Z) (hd tl : Z) : Prop :=
  match l with
  | [] => hd = NULL /\ tl = prev
  | x :: l' =>
      hd = x /\ x <> NULL /\ PREV_FREE st x = prev /\
      dlist st x l' (NEXT_FREE st x) tl
  end.

(** The invariants that hold between API calls, for a heap that starts
    at [lo], with the sequence [bl] of its blocks between the two
    sentinels and the content [L seg] of every free list. *)
Record heap_inv (lo : Z) (st : heap) (bl : list block) (L : Z -> list Z)
  : Prop := {
  inv_base : 0 < lo /\ lo mod 8 = 0;
  inv_space : mem_brk st <= mem_max_addr st /\ mem_max_addr st < 2 ^ 32;
  inv_left_sentinel :
    VALUE st (lo + 4) = PACK OVERHEAD ALLOCATED /\
    VALUE st (lo + 16) = PACK OVERHEAD ALLOCATED;
  inv_tiles : tiles st (lo + 32) bl (mem_brk st + 8);
  inv_terminator : VALUE st (mem_brk st - 4) = PACK 0 ALLOCATED;
  inv_coalesced : no_adjacent_free bl;
  inv_lists :
    forall seg, 0 <= seg < MAX_SEG ->
      dlist st NULL (L seg) (first st seg) (last st seg) /\ NoDup (L seg);
  inv_members :
    forall seg bp, 0 <= seg < MAX_SEG ->
      (In bp (L seg) <->
       exists size, In (bp, size, FREE) bl /\ list_find size = seg)
}.

Definition heap_ok (lo : Z) (st : heap) : Prop :=
  exists bl L, heap_inv lo st bl L.

(** ** Sizes, guards and intermediate states *)

(** Rounding up to a multiple of 8, on the integers. *)
Definition align_up (x : Z) : Z := (x + 7) / 8 * 8.

(** The guards of [mm_realloc] that lead to its last resort, the call of
    [mm_malloc]. *)
Definition relocates (st : heap) (bp size : Z) : bool :=
  let newsize := ALIGN (size + OVERHEAD) in
  let oldsize := UNPACK_SIZE st (HEADER bp) in
  negb (bp =? NULL) && negb (size =? 0)
  && negb (wrap (newsize + OVERHEAD) <? oldsize)
  && negb (newsize <? oldsize)
  && negb ((UNPACK_STATE st (NEXT_HEADER st bp) =? FREE)
           && (newsize <=? wrap (oldsize + UNPACK_SIZE st (NEXT_HEADER st bp))))
  && negb ((UNPACK_STATE st (PREV_FOOTER bp) =? FREE)
           && (newsize <=? wrap (oldsize + UNPACK_SIZE st (PREV_FOOTER bp)))).

(** The block at [bp] and its two neighbours have sizes of a heap that
    fits the 32-bit address space. *)
Definition sizes_fit (st : heap) (bp : Z) : Prop :=
  UNPACK_SIZE st (HEADER bp) + UNPACK_SIZE st (NEXT_HEADER st bp)
  + UNPACK_SIZE st (PREV_FOOTER bp) + OVERHEAD < 2 ^ 32.

(** What [mm_malloc] does with the block it has chosen. *)
Definition place (st : heap) (bp size : Z) : heap :=
  let st := list_remove st bp in
  let st := REPACK_STATE st (HEADER bp) ALLOCATED in
  let st := REPACK_STATE st (FOOTER st bp) ALLOCATED in
  split st bp size.

(** The link words of a list node [q] lie outside the header and the
    next header of the block [bp] of size [size]. *)
Definition outside (bp size q : Z) : Prop :=
  q <= bp - 12 \/ bp + size <= q.

(** The heap after a successful [mem_sbrk(size)] and the three stores of
    [new_block], before its call of [coalesce]. *)
Definition grown (st : heap) (size : Z) : heap :=
  set_VALUE
    (set_VALUE
       (set_VALUE
          (mkHeap (mem st) (mem_brk st + size) (mem_max_addr st)
                  (first st) (last st))
          (mem_brk st - 4) (PACK size FREE))
       (mem_brk st - 8 + size) (PACK size FREE))
    (mem_brk st - 4 + size) (PACK 0 ALLOCATED).

(** [r] is null, or a node of one of the lists [L] that is large enough
    for [size]. *)
Definition in_some_list (st : heap) (size : Z) (L : Z -> list Z) (r : Z)
  : Prop :=
  r = NULL
  \/ exists seg, 0 <= seg < MAX_SEG /\ In r (L seg)
                 /\ size <= UNPACK_SIZE st (HEADER r).

(** ** Concrete heaps and traces *)

(** A fresh heap of memlib: zeroed memory starting at address [lo], with
    room for [cap] bytes, and (stale) null list heads. *)
Definition fresh (lo cap : Z) : heap :=
  mkHeap (fun _ => 0) lo (lo + cap) (fun _ => NULL) (fun _ => NULL).

(** A trace of API calls is written as a program in the option monad of
    the fuelled calls. *)
Definition and_then {A : Type} (r : option (Z * heap))
           (k : Z -> heap -> option A) : option A :=
  match r with
  | Some (p, st) => k p st
  | None => None
  end.

Notation "'call' p , st <- r ; k" :=
  (and_then r (fun p st => k))
    (at level 10, p name, st name, r at level 100, k at level 200).

(** A client storing one byte into memory it was handed. *)
Definition client_store (st : heap) (addr byte : Z) : heap :=
  set_mem st (store_byte (mem st) addr byte).

(** A client filling [n] bytes from [addr] with one value. *)
Fixpoint client_fill (st : heap) (addr : Z) (n : nat) (byte : Z) : heap :=
  match n with
  | O => st
  | S n' => client_fill (client_store st addr byte) (addr + 1) n' byte
  end.

(** The payload bytes [addr .. addr + n - 1]. *)
Definition bytes_at (st : heap) (addr : Z) (n : nat) : list Z :=
  map (fun i => load_byte (mem st) (addr + Z.of_nat i)) (seq 0 n).

(** Running a trace to its final state. *)
Definition state_after (r : option (Z * heap)) : heap :=
  match r with
  | Some (_, st) => st
  | None => fresh 0 0
  end.

(** The heap right after [mm_init] on a fresh 64 KiB heap at address
    1000: the first block handed out has payload address 1032. *)
Definition heap0 : heap := snd (mm_init (fresh 1000 65536)).

(** A heap with no room left: one 24-byte block at 1032, break at the
    limit. *)
Definition full_heap : heap :=
  match mm_malloc 5 (snd (mm_init (fresh 1000 48))) 8 with
  | Some (_, st) => st
  | None => fresh 1000 48
  end.

(** A heap of memlib too small for the 24 bytes of [mm_init]: room for
    10 bytes at address 1000. *)
Definition tiny_heap : heap := fresh 1000 10.

(** The memory the allocator may touch is the heap of memlib, the bytes
    from its base [lo] up to the break.  A word access at [p] is outside
    of it when it starts below the base or ends above the break. *)
Definition outside_heap (lo : Z) (st : heap) (p : Z) : Prop :=
  p < lo \/ mem_brk st < p + WORD.

(** [a = mm_malloc(32); b = mm_malloc(32); mm_free(b)]: the block of [a]
    (payload 1032, size 48) is followed by a free block. *)
Definition heap_a_free_b : heap :=
  state_after (call a, st <- mm_malloc 9 heap0 32;
               call b, st <- mm_malloc 9 st 32;
               Some (a, mm_free st b)).

(** The free lists of [heap_a_free_b]: one block, 1080, in bucket 6. *)
Definition lists_a_free_b (seg : Z) : list Z :=
  if seg =? 6 then [1080] else [].

(** [a = mm_malloc(32); b = mm_malloc(32); mm_free(a)]: the block of [b]
    (payload 1080, size 48) lies between the free block of [a] (payload
    1032) and the terminator. *)
Definition heap_free_a_b : heap :=
  state_after (call a, st <- mm_malloc 9 heap0 32;
               call b, st <- mm_malloc 9 st 32;
               Some (b, mm_free st a)).

Definition blocks_free_a_b : list block :=
  [(1032, 48, FREE); (1080, 48, ALLOCATED)].

Definition lists_free_a_b (seg : Z) : list Z :=
  if seg =? 6 then [1032] else [].

(** [a = mm_malloc(1024)]: one allocated block of size 1040 at 1032. *)
Definition heap_a : heap := state_after (mm_malloc 9 heap0 1024).

(** [a = mm_malloc(1024); mm_realloc(a, 8)]. *)
Definition heap_a_shrunk : heap := state_after (mm_realloc 9 heap_a 1032 8).

(** [a = mm_malloc(1024)] with the first 16 bytes of [a] set to 0xAA by
    the client. *)
Definition heap_a_filled : heap := client_fill heap_a 1032 16 170.

(** ** Intermediate heaps of an operation *)

(** A segment of a doubly linked list: as [dlist], with [nxt] for the
    pointer after the last node. *)
Fixpoint dseg (st : heap) (prev : Z) (l : list Z) (hd tl nxt : Z) : Prop :=
  match l with
  | [] => hd = nxt /\ tl = prev
  | x :: l' =>
      hd = x /\ x <> NULL /\ PREV_FREE st x = prev /\
      dseg st x l' (NEXT_FREE st x) tl nxt
  end.

(** Nodes that are pairwise at least 16 bytes apart. *)
Definition spaced_nodes (l : list Z) : Prop :=
  forall x y, In x l -> In y l -> x = y \/ x + 16 <= y \/ y + 16 <= x.

(** One list of the table replaced. *)
Definition upd (L : Z -> list Z) (seg : Z) (l : list Z) : Z -> list Z :=
  fun i => if i =? seg then l else L i.

(** The bytes of the block [bp] of size [size]: header, payload, footer. *)
Definition in_block (bp size x : Z) : Prop :=
  bp - 12 <= x < bp - 12 + size.

(** [x] is a byte of a block of [bl] in state [state]. *)
Definition in_blocks (bl : list block) (state x : Z) : Prop :=
  exists bp size, In (bp, size, state) bl /\ in_block bp size x.

(** The heap in the middle of an operation: as [heap_inv], but the free
    blocks that satisfy [d] (detached blocks) are in no list, and two
    neighbours may both be free when one of them is detached. *)
Record heap_pre (lo : Z) (st : heap) (bl : list block) (L : Z -> list Z)
       (d : Z -> Prop) : Prop := {
  pre_base : 0 < lo /\ lo mod 8 = 0;
  pre_space : mem_brk st <= mem_max_addr st /\ mem_max_addr st < 2 ^ 32;
  pre_left_sentinel :
    VALUE st (lo + 4) = PACK OVERHEAD ALLOCATED /\
    VALUE st (lo + 16) = PACK OVERHEAD ALLOCATED;
  pre_tiles : tiles st (lo + 32) bl (mem_brk st + 8);
  pre_terminator : VALUE st (mem_brk st - 4) = PACK 0 ALLOCATED;
  pre_coalesced :
    forall p1 sz1 p2 sz2,
      In (p1, sz1, FREE) bl -> In (p2, sz2, FREE) bl -> p2 = p1 + sz1 ->
      d p1 \/ d p2;
  pre_lists :
    forall seg, 0 <= seg < MAX_SEG ->
      dlist st NULL (L seg) (first st seg) (last st seg) /\ NoDup (L seg);
  pre_members :
    forall seg bp, 0 <= seg < MAX_SEG ->
      (In bp (L seg) <->
       exists size, In (bp, size, FREE) bl /\ list_find size = seg /\ ~ d bp)
}.

(** The allocated blocks of a heap walk, as (payload address, size). *)
Definition allocated (bl : list block) (bp size : Z) : Prop :=
  In (bp, size, ALLOCATED) bl.

(** The two stores by which [mm_malloc] and [mm_free] set the state of a
    block. *)
Definition mark (st : heap) (bp state : Z) : heap :=
  let st := REPACK_STATE st (HEADER bp) state in
  REPACK_STATE st (FOOTER st bp) state.

(** The four stores of [split], before its call of [coalesce]. *)
Definition carve (st : heap) (bp size : Z) : heap :=
  let oldsize := UNPACK_SIZE st (HEADER bp) in
  let st := set_VALUE st (HEADER bp) (PACK size ALLOCATED) in
  let st := set_VALUE st (FOOTER st bp) (PACK size ALLOCATED) in
  let st := set_VALUE st (NEXT_HEADER st bp) (PACK (wrap (oldsize - size)) FREE) in
  set_VALUE st (FOOTER st (NEXT_BLOCK st bp)) (PACK (wrap (oldsize - size)) FREE).

(** The two stores by which [coalesce] gives the block [bp] the space of
    its right neighbour. *)
Definition absorb (st : heap) (bp : Z) : heap :=
  let newsize :=
    wrap (UNPACK_SIZE st (HEADER bp) + UNPACK_SIZE st (NEXT_HEADER st bp)) in
  let st := REPACK_SIZE st (HEADER bp) newsize in
  REPACK_SIZE st (FOOTER st bp) newsize.

(** ** Clients of the allocator *)

(** [served lo st live]: the heap [st] is reached from [mm_init], on a
    heap that starts at [lo], by calls of [mm_malloc], of [mm_free], of
    [mm_realloc] for a size that does not make it split the block to
    shrink it, and by stores of the client into the bytes it has asked
    for.  [live] lists the blocks handed out and not yet freed, each
    with its payload address and the number of bytes asked for. *)
Inductive served (lo : Z) : heap -> list (Z * Z) -> Prop :=
| served_init st :
    lo = mem_brk st -> 0 < lo -> lo mod 8 = 0 ->
    lo + 24 <= mem_max_addr st -> mem_max_addr st < 2 ^ 32 ->
    served lo (snd (mm_init st)) []
| served_malloc st live fuel n bp st' :
    served lo st live -> 0 <= n -> n + 23 < 2 ^ 32 ->
    mm_malloc fuel st n = Some (bp, st') ->
    served lo st' (if bp =? NULL then live else (bp, n) :: live)
| served_realloc st live fuel bp m n bp2 st' :
    served lo st live -> In (bp, m) live -> 0 < n -> n + 39 < 2 ^ 32 ->
    UNPACK_SIZE st (HEADER bp) <= ALIGN (n + OVERHEAD) + OVERHEAD ->
    mm_realloc fuel st bp n = Some (bp2, st') ->
    served lo st'
      (if bp2 =? NULL then live
       else (bp2, n) :: filter (fun e => negb (fst e =? bp)) live)
| served_free st live bp n :
    served lo st live -> In (bp, n) live ->
    served lo (mm_free st bp) (filter (fun e => negb (fst e =? bp)) live)
| served_store st live bp n x v :
    served lo st live -> In (bp, n) live -> bp <= x < bp + n ->
    served lo (client_store st x v) live.

(** The live blocks of a client are the allocated blocks of the heap walk,
    each at least 16 bytes larger than what was asked for, and no payload
    address is listed twice. *)
Definition live_ok (bl : list block) (live : list (Z * Z)) : Prop :=
  (forall bp n, In (bp, n) live ->
     exists size, In (bp, size, ALLOCATED) bl /\ n + 16 <= size) /\
  (forall bp size, In (bp, size, ALLOCATED) bl -> In bp (map fst live)) /\
  NoDup (map fst live).

(** [a = mm_malloc(32); b = mm_malloc(32); c = mm_malloc(32); mm_free(b)]:
    the free block of [b] (payload 1080) lies between the allocated
    blocks of [a] (payload 1032) and [c] (payload 1128). *)
Definition heap_a_c : heap :=
  state_after (call a, st <- mm_malloc 9 heap0 32;
               call b, st <- mm_malloc 9 st 32;
               call c, st <- mm_malloc 9 st 32;
               Some (c, mm_free st b)).

Definition blocks_a_c : list block :=
  [(1032, 48, ALLOCATED); (1080, 48, FREE); (1128, 48, ALLOCATED)].

Definition lists_a_c (seg : Z) : list Z :=
  if seg =? 6 then [1080] else [].

(** The two stores by which [mm_realloc] makes the block [bp] an
    allocated block of size [cosize]. *)
Definition annex (st : heap) (bp cosize : Z) : heap :=
  let st := set_VALUE st (HEADER bp) (PACK cosize ALLOCATED) in
  set_VALUE st (FOOTER st bp) (PACK cosize ALLOCATED).

(** What a reallocation of the block [bp] of size [oldsize] for [n]
    bytes has to leave when it returns [bp2]: a heap that satisfies the
    invariants, in which the block of [bp2] is allocated with room for
    [n] bytes and holds the payload of the old block, and in which the
    other allocated blocks are as they were; [bp2] is [bp] or was not
    allocated before. *)
Definition realloc_post (lo : Z) (st : heap) (bl : list block)
           (bp oldsize n bp2 : Z) (st' : heap) : Prop :=
  exists bl' L' size',
    heap_inv lo st' bl' L' /\ n + OVERHEAD <= size' /\
    (bp2 = bp \/ forall sq, ~ In (bp2, sq, ALLOCATED) bl) /\
    (forall q sq, In (q, sq, ALLOCATED) bl' <->
                  (In (q, sq, ALLOCATED) bl /\ q <> bp)
                  \/ (q = bp2 /\ sq = size')) /\
    (forall i, 0 <= i < oldsize - OVERHEAD ->
               mem st' (bp2 + i) = mem st (bp + i)) /\
    (forall q sq x, In (q, sq, ALLOCATED) bl -> q <> bp -> in_block q sq x ->
                    mem st' x = mem st x).

(** * Properties *)

(** ** Arithmetic of the macros *)

Lemma wrap_range x : 0 <= wrap x < 2 ^ 32.
Proof. unfold wrap. apply Z.mod_pos_bound. lia. Qed.

Lemma wrap_small x : 0 <= x < 2 ^ 32 -> wrap x = x.
Proof. intros H. unfold wrap. apply Z.mod_small. exact H. Qed.

Lemma wrap_le x : 0 <= x -> wrap x <= x.
Proof. intros H. unfold wrap. apply Z.mod_le; lia. Qed.

Lemma land_lnot7 x : Z.land x (Z.lnot 7) = x - x mod 8.
Proof.
  rewrite <- Z.ldiff_land.
  change 7 with (Z.ones 3).
  rewrite Z.ldiff_ones_r by lia.
  rewrite Z.shiftr_div_pow2, Z.shiftl_mul_pow2 by lia.
  change (2 ^ 3) with 8.
  pose proof (Z.div_mod x 8). lia.
Qed.

Lemma land_1 x : Z.land x 1 = x mod 2.
Proof. change 1 with (Z.ones 1). rewrite Z.land_ones by lia. reflexivity. Qed.

Lemma land_low_bits size state :
  size mod 8 = 0 -> 0 <= state < 8 -> Z.land size state = 0.
Proof.
  intros Hs Hst.
  assert (E : state = Z.land (Z.ones 3) state).
  { rewrite Z.land_comm, Z.land_ones by lia. symmetry. apply Z.mod_small.
    simpl. lia. }
  rewrite E, Z.land_assoc, (Z.land_ones size 3) by lia.
  change (2 ^ 3) with 8. rewrite Hs. apply Z.land_0_l.
Qed.

Lemma PACK_add size state :
  size mod 8 = 0 -> 0 <= state < 8 -> PACK size state = size + state.
Proof.
  intros Hs Hst. unfold PACK.
  pose proof (land_low_bits size state Hs Hst) as H.
  rewrite <- Z.lxor_lor by exact H.
  symmetry. apply Z.add_nocarry_lxor. exact H.
Qed.

Lemma ALIGN_spec size :
  ALIGN size = wrap (size + 7) - wrap (size + 7) mod 8.
Proof. unfold ALIGN. apply land_lnot7. Qed.

Lemma ALIGN_mod8 size : ALIGN size mod 8 = 0.
Proof.
  rewrite ALIGN_spec.
  pose proof (Z.div_mod (wrap (size + 7)) 8).
  replace (wrap (size + 7) - wrap (size + 7) mod 8)
    with (wrap (size + 7) / 8 * 8) by lia.
  apply Z.mod_mul. lia.
Qed.

Lemma ALIGN_range size : 0 <= ALIGN size < 2 ^ 32.
Proof.
  rewrite ALIGN_spec. pose proof (wrap_range (size + 7)).
  pose proof (Z.mod_pos_bound (wrap (size + 7)) 8).
  pose proof (Z.mod_le (wrap (size + 7)) 8). lia.
Qed.

(** Without wrap-around [ALIGN] is rounding up to a multiple of 8. *)
Lemma ALIGN_round_up size :
  0 <= size -> size + 7 < 2 ^ 32 ->
  size <= ALIGN size < size + 8.
Proof.
  intros H0 H1. rewrite ALIGN_spec, wrap_small by lia.
  pose proof (Z.mod_pos_bound (size + 7) 8). lia.
Qed.

(** ** Loads and stores *)

Lemma load_byte_range m a : 0 <= load_byte m a < 256.
Proof. unfold load_byte. apply Z.mod_pos_bound. lia. Qed.

Lemma load_word_range m a : 0 <= load_word m a < 2 ^ 32.
Proof.
  unfold load_word.
  pose proof (load_byte_range m a). pose proof (load_byte_range m (a + 1)).
  pose proof (load_byte_range m (a + 2)). pose proof (load_byte_range m (a + 3)).
  lia.
Qed.

Lemma load_store_same m a v : load_word (store_word m a v) a = wrap v.
Proof.
  unfold load_word, load_byte, store_word, wrap.
  rewrite Z.eqb_refl.
  replace (a + 1 =? a) with false by (symmetry; apply Z.eqb_neq; lia).
  replace (a + 2 =? a) with false by (symmetry; apply Z.eqb_neq; lia).
  replace (a + 3 =? a) with false by (symmetry; apply Z.eqb_neq; lia).
  replace (a + 2 =? a + 1) with false by (symmetry; apply Z.eqb_neq; lia).
  replace (a + 3 =? a + 1) with false by (symmetry; apply Z.eqb_neq; lia).
  replace (a + 3 =? a + 2) with false by (symmetry; apply Z.eqb_neq; lia).
  rewrite !Z.eqb_refl.
  rewrite !Z.mod_mod by lia.
  change (2 ^ 8) with 256. change (2 ^ 16) with 65536.
  change (2 ^ 24) with 16777216. change (2 ^ 32) with 4294967296.
  Z.div_mod_to_equations. lia.
Qed.

Lemma load_store_other m a v b :
  b + 4 <= a \/ a + 4 <= b -> load_word (store_word m a v) b = load_word m b.
Proof.
  intros H. unfold load_word, load_byte, store_word.
  repeat match goal with
         | |- context [?x =? ?y] =>
             replace (x =? y) with false by (symmetry; apply Z.eqb_neq; lia)
         end.
  reflexivity.
Qed.

Lemma VALUE_set_same st p v : VALUE (set_VALUE st p v) p = wrap v.
Proof. apply load_store_same. Qed.

Lemma VALUE_set_other st p v q :
  q + 4 <= p \/ p + 4 <= q -> VALUE (set_VALUE st p v) q = VALUE st q.
Proof. apply load_store_other. Qed.

Lemma VALUE_range st p : 0 <= VALUE st p < 2 ^ 32.
Proof. apply load_word_range. Qed.

Lemma UNPACK_SIZE_spec st p : UNPACK_SIZE st p = VALUE st p - VALUE st p mod 8.
Proof. apply land_lnot7. Qed.

Lemma UNPACK_SIZE_range st p : 0 <= UNPACK_SIZE st p < 2 ^ 32.
Proof.
  rewrite UNPACK_SIZE_spec. pose proof (VALUE_range st p).
  pose proof (Z.mod_pos_bound (VALUE st p) 8).
  pose proof (Z.mod_le (VALUE st p) 8). lia.
Qed.

Lemma UNPACK_SIZE_mod8 st p : UNPACK_SIZE st p mod 8 = 0.
Proof.
  rewrite UNPACK_SIZE_spec.
  pose proof (Z.div_mod (VALUE st p) 8).
  replace (VALUE st p - VALUE st p mod 8) with (VALUE st p / 8 * 8) by lia.
  apply Z.mod_mul. lia.
Qed.

Lemma UNPACK_STATE_spec st p : UNPACK_STATE st p = VALUE st p mod 2.
Proof. apply land_1. Qed.

(** ** mm_init *)

Lemma clear_lists_below n : forall seg st i,
  i < seg ->
  first (clear_lists n seg st) i = first st i /\
  last (clear_lists n seg st) i = last st i.
Proof.
  induction n as [|n IH]; intros seg st i Hi; simpl; [tauto|].
  destruct (seg <? MAX_SEG); [|tauto].
  destruct (IH (seg + 1) (set_last (set_first st seg NULL) seg NULL) i) as [F L];
    [lia|].
  rewrite F, L. simpl.
  replace (i =? seg) with false by (symmetry; apply Z.eqb_neq; lia).
  tauto.
Qed.

Lemma clear_lists_clears n : forall seg st i,
  seg <= i < seg + Z.of_nat n -> i < MAX_SEG ->
  first (clear_lists n seg st) i = NULL /\
  last (clear_lists n seg st) i = NULL.
Proof.
  induction n as [|n IH]; intros seg st i Hi Hmax; [lia|].
  simpl clear_lists.
  replace (seg <? MAX_SEG) with true by (symmetry; apply Z.ltb_lt; lia).
  destruct (Z.eq_dec i seg) as [->|Hne].
  - destruct (clear_lists_below n (seg + 1)
                (set_last (set_first st seg NULL) seg NULL) seg) as [F L]; [lia|].
    rewrite F, L. simpl. rewrite Z.eqb_refl. tauto.
  - apply IH; lia.
Qed.

Lemma mm_init_lists st seg :
  0 <= seg < MAX_SEG ->
  first (snd (mm_init st)) seg = NULL /\ last (snd (mm_init st)) seg = NULL.
Proof.
  intros Hseg. unfold mm_init.
  destruct (mem_sbrk st (OVERHEAD + 2 * WORD)) as [p st1]. cbn [snd].
  apply clear_lists_clears; [|exact (proj2 Hseg)].
  change (Z.of_nat 13) with 13. unfold MAX_SEG in Hseg. lia.
Qed.

(** The stores of [mm_init] when [mem_sbrk] fails.  The failure value
    [(void * )-1] is used as the base of the new region: [p] is
    [-1 + 16 = 15], the header of the left sentinel is the word at
    address 3, its footer the word at 15, and the terminator the word at
    19, whatever the heap is. *)
Lemma mm_init_failed_extension st :
  mem_sbrk st (OVERHEAD + 2 * WORD) = (-1, st) ->
  VALUE (snd (mm_init st)) 3 = PACK OVERHEAD ALLOCATED /\
  VALUE (snd (mm_init st)) 15 = PACK OVERHEAD ALLOCATED /\
  VALUE (snd (mm_init st)) 19 = PACK 0 ALLOCATED /\
  mem_brk (snd (mm_init st)) = mem_brk st /\
  (forall x, ~ 3 <= x < 7 -> ~ 15 <= x < 23 ->
             mem (snd (mm_init st)) x = mem st x).
Proof.
  intros Hfail. unfold mm_init. rewrite Hfail. cbn [snd].
  change (-1 + OVERHEAD) with 15. change (HEADER 15) with 3.
  change (PACK OVERHEAD ALLOCATED) with 17. change (PACK 0 ALLOCATED) with 1.
  set (st1 := set_VALUE st 3 17).
  assert (H3 : VALUE st1 3 = 17) by (unfold st1; rewrite VALUE_set_same; reflexivity).
  assert (Hs : UNPACK_SIZE st1 3 = 16) by (unfold UNPACK_SIZE; rewrite H3; reflexivity).
  assert (Hf : FOOTER st1 15 = 15)
    by (unfold FOOTER; change (HEADER 15) with 3; rewrite Hs; reflexivity).
  rewrite Hf. set (st2 := set_VALUE st1 15 17).
  assert (H3' : VALUE st2 3 = 17)
    by (unfold st2; rewrite VALUE_set_other; [exact H3|lia]).
  assert (Hn : NEXT_BLOCK st2 15 = 31).
  { unfold NEXT_BLOCK, UNPACK_SIZE. change (HEADER 15) with 3.
    rewrite H3'. reflexivity. }
  rewrite Hn. change (HEADER 31) with 19. set (st3 := set_VALUE st2 19 1).
  assert (Hm : forall s, mem (clear_lists 13 0 s) = mem s).
  { intros s. generalize 0. generalize 13%nat. intros n. revert s.
    induction n as [|n IH]; intros s seg; simpl; [reflexivity|].
    destruct (seg <? MAX_SEG); [|reflexivity]. rewrite IH. reflexivity. }
  assert (Hb : forall s, mem_brk (clear_lists 13 0 s) = mem_brk s).
  { intros s. generalize 0. generalize 13%nat. intros n. revert s.
    induction n as [|n IH]; intros s seg; simpl; [reflexivity|].
    destruct (seg <? MAX_SEG); [|reflexivity]. rewrite IH. reflexivity. }
  assert (Hv : forall s a, VALUE (clear_lists 13 0 s) a = VALUE s a)
    by (intros s a; unfold VALUE; rewrite Hm; reflexivity).
  split; [|split; [|split; [|split]]].
  - rewrite Hv. unfold st3. rewrite VALUE_set_other; [exact H3'|lia].
  - rewrite Hv. unfold st3, st2. rewrite VALUE_set_other by lia.
    rewrite VALUE_set_same. reflexivity.
  - rewrite Hv. unfold st3. rewrite VALUE_set_same. reflexivity.
  - rewrite Hb. reflexivity.
  - intros x Hx1 Hx2. rewrite Hm. unfold st3, st2, st1, set_VALUE, set_mem, store_word.
    cbn [mem].
    repeat match goal with
           | |- context [?a =? ?b] => destruct (Z.eqb_spec a b); [lia|]
           end.
    reflexivity.
Qed.

(** C10 (the code at the failing input).  On a heap of memlib with room
    for 10 bytes at address 1000, [mem_sbrk(24)] fails and leaves the
    heap empty.  [mm_init] does not test its result: it goes on with
    [p = (char * )-1 + 16 = 15], and its first assignment
    [VALUE(HEADER(p)) = PACK(OVERHEAD, ALLOCATED)] is a store of 17 to
    the word at address 3, followed by stores to the words at 15 and
    19.  The three words are outside the heap, which ends at 1000 as
    before: the call goes through memory that is not the allocator's
    before it can reach [return 0].  On the same heap [new_block], the
    other caller of [mem_sbrk], tests the result and returns null
    without a store. *)
Theorem mm_init_stores_outside_heap_when_extension_fails :
  mem_sbrk tiny_heap (OVERHEAD + 2 * WORD) = (-1, tiny_heap) /\
  HEADER (-1 + OVERHEAD) = 3 /\
  VALUE tiny_heap 3 = 0 /\
  VALUE (snd (mm_init tiny_heap)) 3 = PACK OVERHEAD ALLOCATED /\
  VALUE (snd (mm_init tiny_heap)) 15 = PACK OVERHEAD ALLOCATED /\
  VALUE (snd (mm_init tiny_heap)) 19 = PACK 0 ALLOCATED /\
  mem_brk (snd (mm_init tiny_heap)) = 1000 /\
  outside_heap 1000 (snd (mm_init tiny_heap)) 3 /\
  outside_heap 1000 (snd (mm_init tiny_heap)) 15 /\
  outside_heap 1000 (snd (mm_init tiny_heap)) 19 /\
  new_block tiny_heap (OVERHEAD + 2 * WORD) = (NULL, tiny_heap).
Proof.
  assert (Hfail : mem_sbrk tiny_heap (OVERHEAD + 2 * WORD) = (-1, tiny_heap))
    by reflexivity.
  destruct (mm_init_failed_extension tiny_heap Hfail)
    as (H3 & H15 & H19 & Hbrk & _).
  split; [exact Hfail|]. split; [reflexivity|]. split; [reflexivity|].
  split; [exact H3|]. split; [exact H15|]. split; [exact H19|].
  split; [rewrite Hbrk; reflexivity|].
  unfold outside_heap.
  split; [left; lia|]. split; [left; lia|]. split; [left; lia|].
  unfold new_block. rewrite Hfail. reflexivity.
Qed.

(** ** Boundary behaviour of the API *)

(** C6.  [mm_malloc(0)] returns null and leaves the whole state (break
    included) as it was; [mm_realloc(NULL, n)] is [mm_malloc(n)]; and
    [mm_realloc(p, 0)] for a non-null [p] is [mm_free(p)] with result
    null. *)
Theorem api_boundary_cases :
  forall fuel st n p,
    p <> NULL ->
    mm_malloc fuel st 0 = Some (NULL, st) /\
    mm_realloc fuel st NULL n = mm_malloc fuel st n /\
    mm_realloc fuel st p 0 = Some (NULL, mm_free st p).
Proof.
  intros fuel st n p Hp. repeat split.
  unfold mm_realloc.
  replace (p =? NULL) with false by (symmetry; apply Z.eqb_neq; exact Hp).
  reflexivity.
Qed.

Lemma api_boundary_cases_witness :
  1032 <> NULL /\
  mm_malloc 5 (fresh 1000 4096) 0 = Some (NULL, fresh 1000 4096) /\
  mm_realloc 5 (fresh 1000 4096) NULL 24 = mm_malloc 5 (fresh 1000 4096) 24 /\
  mm_realloc 5 (fresh 1000 4096) 1032 0
  = Some (NULL, mm_free (fresh 1000 4096) 1032).
Proof.
  split; [unfold NULL; lia|].
  apply (api_boundary_cases 5 (fresh 1000 4096) 24 1032). unfold NULL. lia.
Defined.

(** ** Failure of the heap extension *)

Lemma new_block_fails st size :
  mem_sbrk st size = (-1, st) -> new_block st size = (NULL, st).
Proof. intros H. unfold new_block. rewrite H. reflexivity. Qed.

Lemma mm_malloc_fails fuel st size :
  size <> 0 ->
  find_block fuel st (ALIGN (size + OVERHEAD)) = Some NULL ->
  mem_sbrk st (ALIGN (size + OVERHEAD)) = (-1, st) ->
  mm_malloc fuel st size = Some (NULL, st).
Proof.
  intros Hsz Hfind Hfail. unfold mm_malloc.
  replace (size =? 0) with false by (symmetry; apply Z.eqb_neq; exact Hsz).
  rewrite Hfind. simpl. rewrite (new_block_fails _ _ Hfail). reflexivity.
Qed.

(** C5.  When no free block fits and [mem_sbrk] fails (it returns -1 and
    leaves the heap of memlib as it was), [mm_malloc] returns null with
    the state it was given, and so does [mm_realloc] on each of its two
    ways into [mm_malloc] (a null pointer, or the last resort after the
    in-place cases): memory, break and both list arrays are those of
    before the call, the block of [bp] and its payload included, so
    whatever held of the heap before still holds. *)
Theorem failed_extension_changes_nothing :
  forall fuel st size bp,
    size <> 0 ->
    find_block fuel st (ALIGN (size + OVERHEAD)) = Some NULL ->
    mem_sbrk st (ALIGN (size + OVERHEAD)) = (-1, st) ->
    bp = NULL \/ relocates st bp size = true ->
    mm_malloc fuel st size = Some (NULL, st) /\
    mm_realloc fuel st bp size = Some (NULL, st).
Proof.
  intros fuel st size bp Hsz Hfind Hfail Hbp.
  pose proof (mm_malloc_fails fuel st size Hsz Hfind Hfail) as Hm.
  split; [exact Hm|].
  destruct Hbp as [->|Hrel]; [exact Hm|].
  unfold relocates in Hrel.
  repeat (apply andb_prop in Hrel; destruct Hrel as [Hrel ?]).
  repeat match goal with
         | H : negb _ = true |- _ => apply negb_true_iff in H
         end.
  unfold mm_realloc.
  repeat match goal with
         | H : ?b = false |- _ => rewrite H; clear H
         end.
  rewrite Hm. reflexivity.
Qed.

Lemma failed_extension_changes_nothing_witness :
  100 <> 0 /\
  find_block 5 full_heap (ALIGN (100 + OVERHEAD)) = Some NULL /\
  mem_sbrk full_heap (ALIGN (100 + OVERHEAD)) = (-1, full_heap) /\
  (1032 = NULL \/ relocates full_heap 1032 100 = true) /\
  mm_malloc 5 full_heap 100 = Some (NULL, full_heap) /\
  mm_realloc 5 full_heap 1032 100 = Some (NULL, full_heap).
Proof.
  assert (H1 : 100 <> 0) by lia.
  assert (H2 : find_block 5 full_heap (ALIGN (100 + OVERHEAD)) = Some NULL)
    by (vm_compute; reflexivity).
  assert (H3 : mem_sbrk full_heap (ALIGN (100 + OVERHEAD)) = (-1, full_heap)).
  { unfold mem_sbrk.
    replace ((ALIGN (100 + OVERHEAD) <? 0)
             || (mem_max_addr full_heap
                 <? mem_brk full_heap + ALIGN (100 + OVERHEAD)))
      with true by (vm_compute; reflexivity).
    reflexivity. }
  assert (H4 : 1032 = NULL \/ relocates full_heap 1032 100 = true)
    by (right; vm_compute; reflexivity).
  repeat (split; [assumption|]).
  exact (failed_extension_changes_nothing 5 full_heap 100 1032 H1 H2 H3 H4).
Defined.

(** ** Reallocation to the size a block already has *)

(** A request whose aligned size is the current size of the block passes
    both shrink tests (they are strict) and goes on to the grow cases. *)
Lemma realloc_same_size_guards st p s :
  ALIGN (s + OVERHEAD) = UNPACK_SIZE st (HEADER p) ->
  sizes_fit st p ->
  (wrap (ALIGN (s + OVERHEAD) + OVERHEAD) <? UNPACK_SIZE st (HEADER p)) = false /\
  (ALIGN (s + OVERHEAD) <? UNPACK_SIZE st (HEADER p)) = false /\
  (ALIGN (s + OVERHEAD)
   <=? wrap (UNPACK_SIZE st (HEADER p) + UNPACK_SIZE st (NEXT_HEADER st p))) = true /\
  (ALIGN (s + OVERHEAD)
   <=? wrap (UNPACK_SIZE st (HEADER p) + UNPACK_SIZE st (PREV_FOOTER p))) = true.
Proof.
  intros E Hfit. unfold sizes_fit, OVERHEAD in *. rewrite E.
  pose proof (UNPACK_SIZE_range st (HEADER p)).
  pose proof (UNPACK_SIZE_range st (NEXT_HEADER st p)).
  pose proof (UNPACK_SIZE_range st (PREV_FOOTER p)).
  rewrite !wrap_small by lia.
  repeat split; first [apply Z.ltb_ge | apply Z.leb_le]; lia.
Qed.

(** C1 (amended).  Let the aligned size of the request [s] equal the
    current size of the allocated block [p].  Then [mm_realloc(p, s)]
    returns [p] when the block after [p] is free; when that block is
    allocated and the block before [p] is free it returns the payload
    address of the block before; and when both are allocated it returns
    what [mm_malloc(s)] returns. *)
Theorem realloc_same_size_result :
  forall fuel st p s,
    p <> NULL -> s <> 0 ->
    ALIGN (s + OVERHEAD) = UNPACK_SIZE st (HEADER p) ->
    sizes_fit st p ->
    option_map fst (mm_realloc fuel st p s)
    = if UNPACK_STATE st (NEXT_HEADER st p) =? FREE then Some p
      else if UNPACK_STATE st (PREV_FOOTER p) =? FREE
           then Some (PREV_BLOCK st p)
           else option_map fst (mm_malloc fuel st s).
Proof.
  intros fuel st p s Hp Hs E Hfit.
  destruct (realloc_same_size_guards st p s E Hfit) as (G1 & G2 & G3 & G4).
  unfold mm_realloc.
  replace (p =? NULL) with false by (symmetry; apply Z.eqb_neq; exact Hp).
  replace (s =? 0) with false by (symmetry; apply Z.eqb_neq; exact Hs).
  rewrite G1, G2, G3, G4, !andb_true_r.
  destruct (UNPACK_STATE st (NEXT_HEADER st p) =? FREE); [reflexivity|].
  destruct (UNPACK_STATE st (PREV_FOOTER p) =? FREE); [reflexivity|].
  destruct (mm_malloc fuel st s) as [[bp2 st2]|]; [|reflexivity].
  destruct (negb (bp2 =? NULL)); reflexivity.
Qed.

Lemma realloc_same_size_result_witness :
  1032 <> NULL /\ 32 <> 0 /\
  ALIGN (32 + OVERHEAD) = UNPACK_SIZE heap_a_free_b (HEADER 1032) /\
  sizes_fit heap_a_free_b 1032 /\
  option_map fst (mm_realloc 9 heap_a_free_b 1032 32) = Some 1032.
Proof.
  assert (H1 : 1032 <> NULL) by (unfold NULL; lia).
  assert (H2 : 32 <> 0) by lia.
  assert (H3 : ALIGN (32 + OVERHEAD) = UNPACK_SIZE heap_a_free_b (HEADER 1032))
    by (vm_compute; reflexivity).
  assert (H4 : sizes_fit heap_a_free_b 1032) by (vm_compute; reflexivity).
  repeat (split; [assumption|]).
  rewrite (realloc_same_size_result 9 heap_a_free_b 1032 32 H1 H2 H3 H4).
  vm_compute. reflexivity.
Defined.

(** ** A heap on which a same-size reallocation moves the block *)

Ltac seg_cases seg H :=
  unfold MAX_SEG in H;
  let Hc := fresh "Hc" in
  assert (Hc : seg = 0 \/ seg = 1 \/ seg = 2 \/ seg = 3 \/ seg = 4 \/ seg = 5
               \/ seg = 6 \/ seg = 7 \/ seg = 8 \/ seg = 9 \/ seg = 10
               \/ seg = 11 \/ seg = 12) by lia;
  repeat (destruct Hc as [->|Hc]); try subst seg.

Lemma heap_free_a_b_ok : heap_ok 1000 heap_free_a_b.
Proof.
  exists blocks_free_a_b, lists_free_a_b.
  assert (Hbrk : mem_brk heap_free_a_b = 1120) by (vm_compute; reflexivity).
  assert (Hmax : mem_max_addr heap_free_a_b = 66536) by (vm_compute; reflexivity).
  constructor.
  - split; [lia|reflexivity].
  - rewrite Hbrk, Hmax. change (2 ^ 32) with 4294967296. lia.
  - split; vm_compute; reflexivity.
  - rewrite Hbrk. unfold blocks_free_a_b.
    apply tiles_block.
    { unfold block_ok, OVERHEAD. split; [lia|].
      repeat split; try (vm_compute; reflexivity). left. reflexivity. }
    change (1000 + 32 + 48) with 1080. apply tiles_block.
    { unfold block_ok, OVERHEAD. split; [lia|].
      repeat split; try (vm_compute; reflexivity). right. reflexivity. }
    change (1080 + 48) with (1120 + 8). apply tiles_end.
  - vm_compute. reflexivity.
  - simpl. split; [|split; exact I]. intros [_ H]. discriminate H.
  - intros seg Hseg. unfold lists_free_a_b.
    seg_cases seg Hseg; cbn [Z.eqb Pos.eqb dlist]; unfold NULL;
      (split; [|repeat constructor; simpl; tauto]);
      repeat split; try (vm_compute; reflexivity); lia.
  - intros seg bp Hseg. unfold lists_free_a_b, blocks_free_a_b. split.
    + destruct (Z.eqb_spec seg 6) as [->|Hne]; [|contradiction].
      intros [<-|[]]. exists 48. split; [left; reflexivity|reflexivity].
    + intros (size & [E|[E|[]]] & Hf).
      * injection E as <- <-. rewrite <- Hf.
        change (list_find 48 =? 6) with true. left. reflexivity.
      * discriminate E.
Qed.

(** C1 as stated fails.  After [a = mm_malloc(32); b = mm_malloc(32);
    mm_free(a)] the heap satisfies the invariants, the allocated block
    of [b] has size 48 = ALIGN(32 + 16), its right neighbour is the
    terminator and its left neighbour is free; [mm_realloc(b, 32)]
    returns [a], not [b]. *)
Lemma realloc_same_size_moves_left :
  (call a, st <- mm_malloc 9 heap0 32;
   call b, st <- mm_malloc 9 st 32;
   call q, st' <- mm_realloc 9 (mm_free st a) b 32;
   Some (a, b, q))
  = Some (1032, 1080, 1032)
  /\ heap_ok 1000 heap_free_a_b
  /\ UNPACK_STATE heap_free_a_b (HEADER 1080) = ALLOCATED
  /\ ALIGN (32 + OVERHEAD) = UNPACK_SIZE heap_free_a_b (HEADER 1080)
  /\ option_map fst (mm_realloc 9 heap_free_a_b 1080 32) = Some 1032
  /\ 1032 <> 1080.
Proof.
  split; [vm_compute; reflexivity|].
  split; [exact heap_free_a_b_ok|].
  repeat split; try (vm_compute; reflexivity). lia.
Qed.

(** ** The shrink case of mm_realloc splits at the user size *)

(** In its shrink case [mm_realloc] hands the size it was called with to
    [split], aligned or not. *)
Lemma mm_realloc_shrink fuel st bp size :
  bp <> NULL -> size <> 0 ->
  wrap (ALIGN (size + OVERHEAD) + OVERHEAD) < UNPACK_SIZE st (HEADER bp) ->
  mm_realloc fuel st bp size = Some (bp, split st bp size).
Proof.
  intros Hbp Hsz Hlt. unfold mm_realloc.
  replace (bp =? NULL) with false by (symmetry; apply Z.eqb_neq; exact Hbp).
  replace (size =? 0) with false by (symmetry; apply Z.eqb_neq; exact Hsz).
  replace (wrap (ALIGN (size + OVERHEAD) + OVERHEAD) <? UNPACK_SIZE st (HEADER bp))
    with true by (symmetry; apply Z.ltb_lt; exact Hlt).
  reflexivity.
Qed.

Lemma heap_a_ok : heap_ok 1000 heap_a.
Proof.
  exists [(1032, 1040, ALLOCATED)], (fun _ => []).
  assert (Hbrk : mem_brk heap_a = 2064) by (vm_compute; reflexivity).
  assert (Hmax : mem_max_addr heap_a = 66536) by (vm_compute; reflexivity).
  constructor.
  - split; [lia|reflexivity].
  - rewrite Hbrk, Hmax. change (2 ^ 32) with 4294967296. lia.
  - split; vm_compute; reflexivity.
  - rewrite Hbrk. apply tiles_block.
    { unfold block_ok, OVERHEAD. split; [lia|].
      repeat split; try (vm_compute; reflexivity). right. reflexivity. }
    change (1000 + 32 + 1040) with (2064 + 8). apply tiles_end.
  - vm_compute. reflexivity.
  - simpl. split; exact I.
  - intros seg Hseg.
    seg_cases seg Hseg; cbn [dlist]; unfold NULL;
      (split; [|constructor]); split; vm_compute; reflexivity.
  - intros seg bp _. split; [contradiction|].
    intros (size & [E|[]] & _). discriminate E.
Qed.

Lemma heap_a_shrunk_not_ok : ~ heap_ok 1000 heap_a_shrunk.
Proof.
  intros (bl & L & Hinv).
  assert (Hbrk : mem_brk heap_a_shrunk = 2064) by (vm_compute; reflexivity).
  assert (Hhd : VALUE heap_a_shrunk (HEADER (1000 + 32)) = 9)
    by (vm_compute; reflexivity).
  pose proof (inv_tiles _ _ _ _ Hinv) as Ht.
  remember (1000 + 32) as p0 eqn:Ep0.
  remember (mem_brk heap_a_shrunk + 8) as q0 eqn:Eq0.
  destruct Ht as [p|p size state bl' q Hok Ht'].
  - lia.
  - destruct Hok as (H16 & H8 & Hs & Hh & _).
    subst p. rewrite Hhd in Hh. unfold OVERHEAD, FREE, ALLOCATED in *.
    rewrite PACK_add in Hh by lia.
    Z.div_mod_to_equations. lia.
Qed.

(** C2 (the code at the failing input).  [a = mm_malloc(1024)] is a block
    of size 1040 in a heap that satisfies the invariants;
    [mm_realloc(a, 8)] takes the shrink case and calls [split(a, 8)],
    which writes [PACK(8, ALLOCATED)] into the header of [a]: the call
    returns [a] and leaves a block of size 8, in a heap that no longer
    satisfies the invariants. *)
Theorem shrink_split_leaves_block_of_size_8 :
  (call a, st0 <- mm_malloc 9 heap0 1024;
   call q, st <- mm_realloc 9 st0 a 8;
   Some (a, UNPACK_SIZE st0 (HEADER a), q,
         VALUE st (HEADER a), UNPACK_SIZE st (HEADER a)))
  = Some (1032, 1040, 1032, 9, 8)
  /\ heap_ok 1000 heap_a
  /\ mm_realloc 9 heap_a 1032 8 = Some (1032, split heap_a 1032 8)
  /\ UNPACK_SIZE heap_a_shrunk (HEADER 1032) = 8
  /\ ~ heap_ok 1000 heap_a_shrunk.
Proof.
  split; [vm_compute; reflexivity|].
  split; [exact heap_a_ok|].
  split.
  { apply mm_realloc_shrink; [unfold NULL; lia|lia|].
    vm_compute. reflexivity. }
  split; [vm_compute; reflexivity|].
  exact heap_a_shrunk_not_ok.
Qed.

(** C3 (the code at the failing input).  [mm_realloc(a, 16)] on the block
    of size 1040 has [newsize = 32] and takes the shrink case, which
    calls [split] with 16; after the call the block of [a] has size 16,
    the user size, and the free remainder of 1024 bytes starts at
    1048. *)
Theorem shrink_split_retains_user_size :
  (call a, st0 <- mm_malloc 9 heap0 1024;
   call q, st <- mm_realloc 9 st0 a 16;
   Some (a, UNPACK_SIZE st0 (HEADER a), q, ALIGN (16 + OVERHEAD),
         UNPACK_SIZE st (HEADER a), first st 10,
         UNPACK_SIZE st (HEADER (first st 10))))
  = Some (1032, 1040, 1032, 32, 16, 1048, 1024)
  /\ heap_ok 1000 heap_a
  /\ mm_realloc 9 heap_a 1032 16 = Some (1032, split heap_a 1032 16).
Proof.
  split; [vm_compute; reflexivity|].
  split; [exact heap_a_ok|].
  apply mm_realloc_shrink; [unfold NULL; lia|lia|].
  vm_compute. reflexivity.
Qed.

Lemma heap_a_filled_ok : heap_ok 1000 heap_a_filled.
Proof.
  exists [(1032, 1040, ALLOCATED)], (fun _ => []).
  assert (Hbrk : mem_brk heap_a_filled = 2064) by (vm_compute; reflexivity).
  assert (Hmax : mem_max_addr heap_a_filled = 66536)
    by (vm_compute; reflexivity).
  constructor.
  - split; [lia|reflexivity].
  - rewrite Hbrk, Hmax. change (2 ^ 32) with 4294967296. lia.
  - split; vm_compute; reflexivity.
  - rewrite Hbrk. apply tiles_block.
    { unfold block_ok, OVERHEAD. split; [lia|].
      repeat split; try (vm_compute; reflexivity). right. reflexivity. }
    change (1000 + 32 + 1040) with (2064 + 8). apply tiles_end.
  - vm_compute. reflexivity.
  - simpl. split; exact I.
  - intros seg Hseg.
    seg_cases seg Hseg; cbn [dlist]; unfold NULL;
      (split; [|constructor]); split; vm_compute; reflexivity.
  - intros seg bp _. split; [contradiction|].
    intros (size & [E|[]] & _). discriminate E.
Qed.

(** C4 (the code at the failing input).  The client fills the first 16
    bytes of [a] with 0xAA, which leaves the heap within its invariants,
    and shrinks the block to 16 bytes.  The call returns [a], and of the
    16 bytes the first four now hold the footer word 17 and the next
    four the header word 1024 of the remainder; the last eight, the
    links of the remainder, are cleared. *)
Theorem shrink_split_overwrites_payload :
  (call a, st <- mm_malloc 9 heap0 1024;
   let st0 := client_fill st a 16 170 in
   call q, st <- mm_realloc 9 st0 a 16;
   Some (a, q, bytes_at st0 a 16, bytes_at st q 16))
  = Some (1032, 1032,
          [170; 170; 170; 170; 170; 170; 170; 170;
           170; 170; 170; 170; 170; 170; 170; 170],
          [17; 0; 0; 0; 0; 4; 0; 0; 0; 0; 0; 0; 0; 0; 0; 0])
  /\ heap_ok 1000 heap_a_filled
  /\ UNPACK_STATE heap_a_filled (HEADER 1032) = ALLOCATED
  /\ mm_realloc 9 heap_a_filled 1032 16
     = Some (1032, split heap_a_filled 1032 16).
Proof.
  split; [vm_compute; reflexivity|].
  split; [exact heap_a_filled_ok|].
  split; [vm_compute; reflexivity|].
  apply mm_realloc_shrink; [unfold NULL; lia|lia|].
  vm_compute. reflexivity.
Qed.

(** C8 (the code at the failing input).  After [mm_realloc(a, 16)] the 16
    bytes of [a] are the footer of [a] and the header and the two links
    of the free remainder.  The client stores the address [a - 4] in the
    last four of its bytes, which is the next link of the remainder.
    [mm_malloc(1008)] unlinks the remainder and makes that address the
    head of its list; the header position of [a - 4] is the footer of
    the block of [c], so [mm_malloc(8)] takes it for a block of size 24
    and returns [a - 4] = 1052, which is 4 modulo 8. *)
Theorem shrink_split_leads_to_misaligned_block :
  (call c, st <- mm_malloc 9 heap0 8;
   call a, st <- mm_malloc 9 st 1024;
   call a', st <- mm_realloc 9 st a 16;
   let st := set_VALUE st (a' + 12) (a' - 4) in
   call p, st <- mm_malloc 9 st 1008;
   call q, st <- mm_malloc 9 st 8;
   Some (c, a, a', p, q, q mod 8))
  = Some (1032, 1056, 1056, 1072, 1052, 4).
Proof. vm_compute. reflexivity. Qed.

(** ** find_block *)

Lemma pow2_lt_mono a b : 0 <= a < b -> 2 ^ a < 2 ^ b.
Proof. intros H. apply Z.pow_lt_mono_r; lia. Qed.

Lemma pow2_le_mono a b : 0 <= a <= b -> 2 ^ a <= 2 ^ b.
Proof. intros H. apply Z.pow_le_mono_r; lia. Qed.

Lemma list_find_from_spec size n : forall seg limit,
  limit = 2 ^ seg -> 1 <= seg -> MAX_SEG <= seg + Z.of_nat n ->
  (forall i, 1 <= i < seg -> 2 ^ i < size) ->
  bucket_of_spec size (list_find_from n seg limit size).
Proof.
  unfold bucket_of_spec, MAX_SEG. change (2 ^ (13 - 1)) with 4096.
  assert (Hend : forall seg, 13 <= seg ->
            (forall i, 1 <= i < seg -> 2 ^ i < size) ->
            (size <= 4096 ->
             1 <= 0 <= 13 - 1 /\ size <= 2 ^ 0 /\
             (forall i, 1 <= i < 0 -> 2 ^ i < size)) /\
            (4096 < size -> 0 = 0)).
  { intros seg Hseg Hlow. split; [|reflexivity].
    intros Hsz. exfalso.
    assert (2 ^ 12 < size) by (apply Hlow; lia).
    change (2 ^ 12) with 4096 in *. lia. }
  induction n as [|n IH]; intros seg limit Hl Hseg Hn Hlow.
  - simpl. apply (Hend seg); [lia|exact Hlow].
  - simpl list_find_from. unfold MAX_SEG.
    destruct (Z.ltb_spec seg 13) as [Hlt|Hge]; [|apply (Hend seg); assumption].
    pose proof (pow2_le_mono seg 12) as Hup.
    pose proof (pow2_le_mono 0 seg) as Hdown.
    change (2 ^ 12) with 4096 in Hup. change (2 ^ 0) with 1 in Hdown.
    destruct (Z.leb_spec size limit) as [Hle|Hgt].
    + subst limit. split.
      * intros _. split; [lia|]. split; [exact Hle|exact Hlow].
      * intros Hbig. exfalso. lia.
    + apply IH; try lia.
      * subst limit. rewrite wrap_small.
        -- rewrite Z.pow_add_r by lia. lia.
        -- change (2 ^ 32) with 4294967296. lia.
      * intros i Hi. destruct (Z.eq_dec i seg) as [->|]; [lia|].
        apply Hlow. lia.
Qed.

Lemma list_find_spec size : bucket_of_spec size (list_find size).
Proof.
  unfold list_find. apply list_find_from_spec.
  - reflexivity.
  - lia.
  - unfold MAX_SEG. lia.
  - intros i Hi. lia.
Qed.

Lemma list_find_range size : 0 <= list_find size < MAX_SEG.
Proof.
  destruct (list_find_spec size) as [A B]. unfold MAX_SEG in *.
  destruct (Z.le_gt_cases size (2 ^ (13 - 1))) as [H|H].
  - destruct (A H) as (? & _). lia.
  - rewrite (B ltac:(lia)). lia.
Qed.

Lemma buckets_from_step seg :
  0 <= seg < MAX_SEG -> buckets_from seg = seg :: buckets_from (seg + 1).
Proof.
  unfold MAX_SEG, buckets_from. intros H.
  replace (Z.to_nat (seg + 1)) with (S (Z.to_nat seg)) by lia.
  replace (13 - Z.to_nat seg)%nat with (S (13 - S (Z.to_nat seg))) by lia.
  simpl. f_equal. lia.
Qed.

Lemma buckets_from_end seg : MAX_SEG <= seg -> buckets_from seg = [].
Proof.
  unfold MAX_SEG, buckets_from. intros H.
  replace (13 - Z.to_nat seg)%nat with O by lia. reflexivity.
Qed.

Lemma free_list_not_null st bp l q : free_list st bp l -> In q l -> q <> NULL.
Proof.
  induction 1 as [|bp l Hbp _ IH]; intros Hin; [contradiction|].
  destruct Hin as [<-|Hin]; auto.
Qed.

Section FirstFit.

Variable st : heap.
Variable size : Z.

Lemma first_fit_in l : first_fit st size l <> NULL ->
  In (first_fit st size l) l /\ size <= UNPACK_SIZE st (HEADER (first_fit st size l)).
Proof.
  unfold first_fit. destruct (find (fits st size) l) as [bp|] eqn:E.
  - intros _. apply find_some in E. destruct E as [Hin Hfit].
    split; [exact Hin|]. apply Z.leb_le. exact Hfit.
  - intros H. contradiction.
Qed.

Lemma first_fit_null l :
  (forall q, In q l -> q <> NULL) ->
  (first_fit st size l = NULL <->
   forall bp, In bp l -> UNPACK_SIZE st (HEADER bp) < size).
Proof.
  intros Hnn. unfold first_fit.
  destruct (find (fits st size) l) as [bp|] eqn:E.
  - apply find_some in E. destruct E as [Hin Hfit].
    apply Z.leb_le in Hfit. split.
    + intros ->. exfalso. exact (Hnn _ Hin eq_refl).
    + intros H. specialize (H bp Hin). lia.
  - split; [|reflexivity]. intros _ bp Hin.
    pose proof (find_none _ _ E bp Hin) as Hf.
    apply Z.leb_gt in Hf. exact Hf.
Qed.

Lemma first_fit_app l1 l2 :
  (forall q, In q l1 -> q <> NULL) ->
  first_fit st size (l1 ++ l2)
  = if first_fit st size l1 =? NULL then first_fit st size l2
    else first_fit st size l1.
Proof.
  intros Hnn. unfold first_fit.
  induction l1 as [|x l1 IH]; [reflexivity|].
  simpl. destruct (fits st size x) eqn:Hx.
  - replace (x =? NULL) with false; [reflexivity|].
    symmetry. apply Z.eqb_neq. apply Hnn. left. reflexivity.
  - apply IH. intros q Hq. apply Hnn. right. exact Hq.
Qed.

(** One list walk of [find_block], given enough fuel for the list. *)
Lemma walk_first_fit l : forall fuel bp,
  free_list st bp l -> (length l < fuel)%nat ->
  walk fuel st bp size = Some (first_fit st size l).
Proof.
  induction l as [|x l IH]; intros fuel bp Hl Hfuel;
    inversion Hl; subst; (destruct fuel as [|fuel]; [simpl in Hfuel; lia|]).
  - reflexivity.
  - simpl walk.
    replace (x =? NULL) with false by (symmetry; apply Z.eqb_neq; assumption).
    unfold first_fit. simpl find. unfold fits at 1.
    destruct (size <=? UNPACK_SIZE st (HEADER x)); [reflexivity|].
    apply IH; [assumption | simpl in Hfuel; lia].
Qed.

Variable L : Z -> list Z.
Variable fuel : nat.
Hypothesis lists_ok :
  forall seg, 0 <= seg < MAX_SEG -> free_list st (first st seg) (L seg).
Hypothesis fuel_ok :
  forall seg, 0 <= seg < MAX_SEG -> (length (L seg) < fuel)%nat.

Lemma members_not_null segs q :
  (forall seg, In seg segs -> 0 <= seg < MAX_SEG) ->
  In q (flat_map L segs) -> q <> NULL.
Proof.
  intros Hsegs Hin. apply in_flat_map in Hin. destruct Hin as (seg & Hs & Hq).
  apply (free_list_not_null st (first st seg) (L seg)).
  - apply lists_ok. apply Hsegs. exact Hs.
  - exact Hq.
Qed.

Lemma buckets_from_range seg s :
  0 <= seg -> In s (buckets_from seg) -> 0 <= s < MAX_SEG.
Proof.
  unfold buckets_from, MAX_SEG. intros Hseg Hin.
  apply in_map_iff in Hin. destruct Hin as (k & <- & Hk).
  apply in_seq in Hk. lia.
Qed.

(** The loop over the buckets [seg .. MAX_SEG - 1]. *)
Lemma search_from_first_fit n : forall seg,
  0 <= seg -> MAX_SEG <= seg + Z.of_nat n ->
  search_from n fuel st seg size
  = Some (first_fit st size (flat_map L (buckets_from seg))).
Proof.
  induction n as [|n IH]; intros seg Hseg Hn.
  - simpl. rewrite buckets_from_end by lia. reflexivity.
  - simpl search_from. destruct (Z.ltb_spec seg MAX_SEG) as [Hlt|Hge].
    + rewrite (walk_first_fit (L seg)) by (auto with zarith).
      rewrite buckets_from_step by lia. simpl flat_map.
      rewrite first_fit_app.
      * destruct (first_fit st size (L seg) =? NULL); [|reflexivity].
        apply IH; lia.
      * intros q Hq. eapply free_list_not_null; [apply lists_ok|exact Hq]. lia.
    + rewrite buckets_from_end by lia. reflexivity.
Qed.

Lemma find_block_search_order :
  find_block fuel st size
  = Some (first_fit st size (flat_map L (search_order (list_find size)))).
Proof.
  unfold find_block, search_order.
  pose proof (list_find_range size) as Hr.
  destruct (Z.ltb_spec 0 (list_find size)) as [Hpos|Hzero].
  - rewrite search_from_first_fit by (unfold MAX_SEG in *; simpl; lia).
    rewrite flat_map_app, first_fit_app.
    + simpl flat_map. rewrite app_nil_r.
      destruct (first_fit st size (flat_map L (buckets_from (list_find size))) =? NULL);
        simpl.
      * apply walk_first_fit; [apply lists_ok | apply fuel_ok]; unfold MAX_SEG; lia.
      * reflexivity.
    + intros q Hq. apply (members_not_null (buckets_from (list_find size))).
      * intros s Hs. apply (buckets_from_range (list_find size)); [lia|exact Hs].
      * exact Hq.
  - simpl. rewrite app_nil_r.
    apply walk_first_fit; [apply lists_ok | apply fuel_ok]; unfold MAX_SEG; lia.
Qed.

Lemma search_order_range s :
  In s (search_order (list_find size)) -> 0 <= s < MAX_SEG.
Proof.
  unfold search_order. pose proof (list_find_range size) as Hr.
  destruct (0 <? list_find size).
  - intros Hin. apply in_app_or in Hin. destruct Hin as [Hin|[<-|[]]].
    + apply (buckets_from_range (list_find size)); [lia|exact Hin].
    + unfold MAX_SEG. lia.
  - intros [<-|[]]. unfold MAX_SEG. lia.
Qed.

End FirstFit.

(** C7.  Let every bucket [seg] hold a well-formed list [L seg] and let
    the fuel exceed the length of each.  Then the bucket [list_find size]
    is the smallest [i] in [1 .. 12] with [size <= 2^i], or 0 above
    [2^12]; [find_block size] finishes and returns the first block of
    size at least [size] in the sequence of bucket [seg] head to tail,
    then [seg + 1 .. 12] (when [seg > 0]), then bucket 0; and it returns
    null exactly when every block of these lists is smaller than
    [size]. *)
Theorem find_block_first_fit :
  forall fuel st size (L : Z -> list Z),
    (forall seg, 0 <= seg < MAX_SEG -> free_list st (first st seg) (L seg)) ->
    (forall seg, 0 <= seg < MAX_SEG -> (length (L seg) < fuel)%nat) ->
    let searched := flat_map L (search_order (list_find size)) in
    bucket_of_spec size (list_find size) /\
    find_block fuel st size = Some (first_fit st size searched) /\
    (first_fit st size searched <> NULL ->
     In (first_fit st size searched) searched /\
     size <= UNPACK_SIZE st (HEADER (first_fit st size searched))) /\
    (first_fit st size searched = NULL <->
     forall bp, In bp searched -> UNPACK_SIZE st (HEADER bp) < size).
Proof.
  intros fuel st size L Hlists Hfuel searched.
  split; [apply list_find_spec|].
  split; [apply find_block_search_order; assumption|].
  split; [apply first_fit_in|].
  apply first_fit_null.
  intros q Hq. apply (members_not_null st L Hlists (search_order (list_find size))).
  - intros s Hs. apply (search_order_range size). exact Hs.
  - exact Hq.
Qed.

Lemma find_block_first_fit_witness :
  (forall seg, 0 <= seg < MAX_SEG ->
     free_list heap_a_free_b (first heap_a_free_b seg) (lists_a_free_b seg)) /\
  (forall seg, 0 <= seg < MAX_SEG -> (length (lists_a_free_b seg) < 9)%nat) /\
  list_find 24 = 5 /\
  find_block 9 heap_a_free_b 24 = Some 1080.
Proof.
  assert (H1 : forall seg, 0 <= seg < MAX_SEG ->
     free_list heap_a_free_b (first heap_a_free_b seg) (lists_a_free_b seg)).
  { intros seg Hseg. unfold MAX_SEG in Hseg.
    assert (Hc : seg = 0 \/ seg = 1 \/ seg = 2 \/ seg = 3 \/ seg = 4 \/ seg = 5
                 \/ seg = 6 \/ seg = 7 \/ seg = 8 \/ seg = 9 \/ seg = 10
                 \/ seg = 11 \/ seg = 12) by lia.
    repeat (destruct Hc as [->|Hc]); try subst seg;
      match goal with
      | |- free_list ?st ?p ?l =>
          let v := eval vm_compute in p in
          let l' := eval vm_compute in l in
          change (free_list st v l')
      end;
      try apply free_list_end.
    apply free_list_node; [unfold NULL; lia|].
    replace (NEXT_FREE heap_a_free_b 1080) with NULL by (vm_compute; reflexivity).
    apply free_list_end. }
  assert (H2 : forall seg, 0 <= seg < MAX_SEG ->
                 (length (lists_a_free_b seg) < 9)%nat).
  { intros seg _. unfold lists_a_free_b. destruct (seg =? 6); simpl; lia. }
  split; [exact H1|]. split; [exact H2|]. split; [reflexivity|].
  destruct (find_block_first_fit 9 heap_a_free_b 24 lists_a_free_b H1 H2)
    as (_ & E & _).
  rewrite E. vm_compute. reflexivity.
Defined.

(** * The block handed out by mm_malloc *)

(** ** Words that hold a size and a state *)

Lemma unpack_PACK st p size state :
  VALUE st p = PACK size state ->
  size mod 8 = 0 -> state = FREE \/ state = ALLOCATED ->
  UNPACK_SIZE st p = size /\ UNPACK_STATE st p = state.
Proof.
  unfold FREE, ALLOCATED. intros E Hs Hst.
  rewrite UNPACK_SIZE_spec, UNPACK_STATE_spec, E, PACK_add by lia.
  destruct Hst; subst state; split; Z.div_mod_to_equations; lia.
Qed.

Lemma VALUE_PACK_odd st p size :
  VALUE st p = PACK size ALLOCATED -> size mod 8 = 0 ->
  UNPACK_STATE st p = ALLOCATED.
Proof.
  intros E Hs. apply (unpack_PACK st p size ALLOCATED); auto.
Qed.

(** ** What the list operations store *)

Lemma VALUE_set_first st seg v a : VALUE (set_first st seg v) a = VALUE st a.
Proof. reflexivity. Qed.

Lemma VALUE_set_last st seg v a : VALUE (set_last st seg v) a = VALUE st a.
Proof. reflexivity. Qed.

Ltac frame :=
  repeat first [ rewrite VALUE_set_first
               | rewrite VALUE_set_last
               | rewrite VALUE_set_other by (simpl; lia)
               | reflexivity ].

Lemma list_remove_VALUE st bp a :
  PREV_FREE st bp = NULL \/ a + 4 <= PREV_FREE st bp - 4 \/ PREV_FREE st bp <= a ->
  NEXT_FREE st bp = NULL \/ a + 4 <= NEXT_FREE st bp - 8 \/ NEXT_FREE st bp - 4 <= a ->
  VALUE (list_remove st bp) a = VALUE st a.
Proof.
  intros Hp Hn. unfold list_remove, set_NEXT_FREE, set_PREV_FREE, WORD.
  destruct (Z.eqb_spec (PREV_FREE st bp) NULL) as [Ep|Ep];
    destruct (Z.eqb_spec (NEXT_FREE st bp) NULL) as [En|En]; simpl;
    frame.
Qed.

Lemma list_remove_last st bp seg :
  last (list_remove st bp) seg
  = if (NEXT_FREE st bp =? NULL)
       && (seg =? list_find (UNPACK_SIZE st (HEADER bp)))
    then PREV_FREE st bp else last st seg.
Proof.
  unfold list_remove.
  destruct (PREV_FREE st bp =? NULL); destruct (NEXT_FREE st bp =? NULL);
    simpl; reflexivity.
Qed.

Lemma list_add_VALUE st bp a :
  last st (list_find (UNPACK_SIZE st (HEADER bp))) = NULL
  \/ a + 4 <= last st (list_find (UNPACK_SIZE st (HEADER bp))) - 4
  \/ last st (list_find (UNPACK_SIZE st (HEADER bp))) <= a ->
  a + 4 <= bp - 8 \/ bp <= a ->
  VALUE (list_add st bp) a = VALUE st a.
Proof.
  intros Hl Ha. unfold list_add, set_NEXT_FREE, set_PREV_FREE, WORD.
  destruct (Z.eqb_spec (last st (list_find (UNPACK_SIZE st (HEADER bp)))) NULL)
    as [E|E]; simpl;
    frame.
Qed.

Lemma list_add_links st bp :
  NEXT_FREE (list_add st bp) bp = NULL /\
  PREV_FREE (list_add st bp) bp
  = wrap (last st (list_find (UNPACK_SIZE st (HEADER bp)))).
Proof.
  unfold list_add, NEXT_FREE, PREV_FREE, set_NEXT_FREE, set_PREV_FREE, WORD.
  destruct (Z.eqb_spec (last st (list_find (UNPACK_SIZE st (HEADER bp)))) NULL)
    as [E|E]; cbv zeta; split.
  - rewrite VALUE_set_other by lia. apply VALUE_set_same.
  - rewrite VALUE_set_same, E. reflexivity.
  - rewrite VALUE_set_last. apply VALUE_set_same.
  - rewrite VALUE_set_last, VALUE_set_other by lia. apply VALUE_set_same.
Qed.

Lemma list_add_last st bp seg :
  last (list_add st bp) seg
  = if seg =? list_find (UNPACK_SIZE st (HEADER bp)) then bp else last st seg.
Proof.
  unfold list_add.
  destruct (last st (list_find (UNPACK_SIZE st (HEADER bp))) =? NULL);
    simpl; reflexivity.
Qed.

Lemma HEADER_eq bp : HEADER bp = bp - 12.
Proof. unfold HEADER, OVERHEAD, WORD. lia. Qed.

Lemma unpack_sum st p size state :
  VALUE st p = size + state -> size mod 8 = 0 -> 0 <= state < 2 ->
  UNPACK_SIZE st p = size /\ UNPACK_STATE st p = state.
Proof.
  intros E Hs Hst. rewrite UNPACK_SIZE_spec, UNPACK_STATE_spec, E.
  split; Z.div_mod_to_equations; lia.
Qed.

Lemma UNPACK_SIZE_same st st' p q :
  VALUE st p = VALUE st' q -> UNPACK_SIZE st p = UNPACK_SIZE st' q.
Proof. intros E. unfold UNPACK_SIZE. rewrite E. reflexivity. Qed.

Lemma UNPACK_STATE_same st st' p q :
  VALUE st p = VALUE st' q -> UNPACK_STATE st p = UNPACK_STATE st' q.
Proof. intros E. unfold UNPACK_STATE. rewrite E. reflexivity. Qed.

Lemma UNPACK_STATE_range st p : 0 <= UNPACK_STATE st p < 2.
Proof. rewrite UNPACK_STATE_spec. apply Z.mod_pos_bound. lia. Qed.

Lemma store_PACK st p size state :
  size mod 8 = 0 -> 0 <= state < 2 -> 0 <= size -> size + state < 2 ^ 32 ->
  VALUE (set_VALUE st p (PACK size state)) p = size + state.
Proof.
  intros Hs Hst H0 H1. rewrite VALUE_set_same, PACK_add by lia.
  apply wrap_small. lia.
Qed.

(** A word keeps its size when its state is repacked, and its state when
    its size is. *)
Lemma REPACK_STATE_same st p state :
  0 <= state < 2 ->
  VALUE (REPACK_STATE st p state) p = UNPACK_SIZE st p + state.
Proof.
  intros Hst. unfold REPACK_STATE.
  pose proof (UNPACK_SIZE_range st p). pose proof (UNPACK_SIZE_mod8 st p).
  apply store_PACK; try lia.
  rewrite UNPACK_SIZE_spec in *. pose proof (VALUE_range st p).
  Z.div_mod_to_equations. lia.
Qed.

Lemma REPACK_STATE_other st p state a :
  a + 4 <= p \/ p + 4 <= a ->
  VALUE (REPACK_STATE st p state) a = VALUE st a.
Proof. intros H. unfold REPACK_STATE. apply VALUE_set_other. exact H. Qed.

Lemma REPACK_SIZE_same st p size :
  size mod 8 = 0 -> 0 <= size < 2 ^ 32 ->
  VALUE (REPACK_SIZE st p size) p = size + UNPACK_STATE st p.
Proof.
  intros Hs Hr. unfold REPACK_SIZE.
  pose proof (UNPACK_STATE_range st p).
  apply store_PACK; try lia.
  Z.div_mod_to_equations. lia.
Qed.

Lemma REPACK_SIZE_other st p size a :
  a + 4 <= p \/ p + 4 <= a ->
  VALUE (REPACK_SIZE st p size) a = VALUE st a.
Proof. intros H. unfold REPACK_SIZE. apply VALUE_set_other. exact H. Qed.

(** ** coalesce without a free neighbour *)

Lemma coalesce_left_skip st bp :
  UNPACK_STATE st (PREV_FOOTER bp) = ALLOCATED -> coalesce_left st bp = (bp, st).
Proof. intros H. unfold coalesce_left. rewrite H. reflexivity. Qed.

Lemma coalesce_right_skip st bp :
  UNPACK_STATE st (NEXT_HEADER st bp) = ALLOCATED -> coalesce_right st bp = st.
Proof. intros H. unfold coalesce_right. rewrite H. reflexivity. Qed.

Lemma coalesce_skip st bp :
  UNPACK_STATE st (PREV_FOOTER bp) = ALLOCATED ->
  UNPACK_STATE st (NEXT_HEADER st bp) = ALLOCATED ->
  coalesce st bp = (bp, list_add st bp).
Proof.
  intros Hl Hr. unfold coalesce.
  rewrite (coalesce_left_skip _ _ Hl), (coalesce_right_skip _ _ Hr).
  reflexivity.
Qed.

(** ** split *)

(** Splitting the allocated block [bp] of size [sz] at [asize], when the
    word after the block is the header of an allocated block and no list
    tail has its link words near the header of [bp]. *)
Lemma split_header st bp asize sz :
  UNPACK_SIZE st (HEADER bp) = sz ->
  24 <= asize -> asize mod 8 = 0 -> asize + 16 < 2 ^ 32 ->
  UNPACK_STATE st (bp - 12 + sz) = ALLOCATED ->
  (forall seg, 0 <= seg < MAX_SEG ->
               last st seg = NULL \/ outside bp sz (last st seg)) ->
  UNPACK_SIZE (split st bp asize) (HEADER bp)
  = if sz <? asize + 16 then sz else asize.
Proof.
  intros Hsz Ha Ha8 Hfit Hnext Hlast.
  pose proof (UNPACK_SIZE_range st (HEADER bp)) as Hr.
  pose proof (UNPACK_SIZE_mod8 st (HEADER bp)) as Hm.
  rewrite Hsz in Hr, Hm.
  unfold split. rewrite Hsz. unfold OVERHEAD at 1.
  rewrite (wrap_small (asize + 16)) by lia.
  destruct (Z.ltb_spec sz (asize + 16)) as [Hlt|Hge]; [exact Hsz|].
  rewrite (wrap_small (sz - asize)) by lia.
  unfold ALLOCATED, FREE in *.
  (* header of bp *)
  set (s4 := set_VALUE st (HEADER bp) (PACK asize 1)).
  assert (V4 : VALUE s4 (bp - 12) = asize + 1).
  { unfold s4. rewrite HEADER_eq. apply store_PACK; lia. }
  assert (S4 : UNPACK_SIZE s4 (HEADER bp) = asize).
  { rewrite HEADER_eq. apply (unpack_sum s4 _ asize 1); auto; lia. }
  (* footer of bp *)
  assert (F4 : FOOTER s4 bp = bp - 16 + asize).
  { unfold FOOTER, OVERHEAD. rewrite S4. reflexivity. }
  rewrite F4.
  set (s5 := set_VALUE s4 (bp - 16 + asize) (PACK asize 1)).
  assert (V5 : VALUE s5 (bp - 12) = asize + 1).
  { unfold s5. rewrite VALUE_set_other by lia. exact V4. }
  assert (S5 : UNPACK_SIZE s5 (HEADER bp) = asize).
  { rewrite HEADER_eq. apply (unpack_sum s5 _ asize 1); auto; lia. }
  assert (N5 : NEXT_HEADER s5 bp = bp - 12 + asize).
  { unfold NEXT_HEADER, OVERHEAD, WORD. rewrite S5. lia. }
  rewrite N5.
  (* header of the remainder *)
  set (s6 := set_VALUE s5 (bp - 12 + asize) (PACK (sz - asize) 0)).
  assert (V6 : VALUE s6 (bp - 12) = asize + 1).
  { unfold s6. rewrite VALUE_set_other by lia. exact V5. }
  assert (S6 : UNPACK_SIZE s6 (HEADER bp) = asize).
  { rewrite HEADER_eq. apply (unpack_sum s6 _ asize 1); auto; lia. }
  assert (B6 : NEXT_BLOCK s6 bp = bp + asize).
  { unfold NEXT_BLOCK. rewrite S6. reflexivity. }
  rewrite B6.
  assert (Hrm : (sz - asize) mod 8 = 0).
  { Z.div_mod_to_equations. lia. }
  assert (R6 : VALUE s6 (bp + asize - 12) = sz - asize + 0).
  { unfold s6. replace (bp + asize - 12) with (bp - 12 + asize) by lia.
    apply store_PACK; lia. }
  assert (RS6 : UNPACK_SIZE s6 (HEADER (bp + asize)) = sz - asize).
  { rewrite HEADER_eq. apply (unpack_sum s6 _ (sz - asize) 0); auto; lia. }
  assert (RF6 : FOOTER s6 (bp + asize) = bp - 16 + sz).
  { unfold FOOTER, OVERHEAD. rewrite RS6. lia. }
  rewrite RF6.
  (* footer of the remainder *)
  set (s7 := set_VALUE s6 (bp - 16 + sz) (PACK (sz - asize) 0)).
  assert (V7 : VALUE s7 (bp - 12) = asize + 1).
  { unfold s7. rewrite VALUE_set_other by lia. exact V6. }
  assert (R7 : VALUE s7 (bp + asize - 12) = sz - asize + 0).
  { unfold s7. rewrite VALUE_set_other by lia. exact R6. }
  assert (RS7 : UNPACK_SIZE s7 (HEADER (bp + asize)) = sz - asize).
  { rewrite HEADER_eq. apply (unpack_sum s7 _ (sz - asize) 0); auto; lia. }
  assert (PF7 : UNPACK_STATE s7 (PREV_FOOTER (bp + asize)) = 1).
  { unfold PREV_FOOTER, OVERHEAD.
    apply (unpack_sum s7 _ asize 1); auto; try lia.
    unfold s7. rewrite VALUE_set_other by lia.
    unfold s6. rewrite VALUE_set_other by lia.
    unfold s5. replace (bp + asize - 16) with (bp - 16 + asize) by lia.
    apply store_PACK; lia. }
  assert (NH7 : NEXT_HEADER s7 (bp + asize) = bp - 12 + sz).
  { unfold NEXT_HEADER, OVERHEAD, WORD. rewrite RS7. lia. }
  assert (NS7 : UNPACK_STATE s7 (bp - 12 + sz) = 1).
  { rewrite <- Hnext. apply UNPACK_STATE_same.
    unfold s7, s6, s5, s4. rewrite HEADER_eq. frame. }
  assert (B7 : NEXT_BLOCK s7 bp = bp + asize).
  { unfold NEXT_BLOCK. rewrite HEADER_eq.
    rewrite (proj1 (unpack_sum s7 _ asize 1 V7 Ha8 ltac:(lia))). reflexivity. }
  (* coalesce merges nothing *)
  rewrite B7, coalesce_skip; [|exact PF7|rewrite NH7; exact NS7].
  cbn [snd].
  (* list_add *)
  apply (unpack_sum _ _ asize 1); auto; try lia.
  rewrite HEADER_eq, list_add_VALUE; [exact V7| |lia].
  rewrite RS7.
  change (last s7 ?seg) with (last st seg).
  unfold outside in Hlast.
  destruct (Hlast (list_find (sz - asize)) (list_find_range _)) as [E|[E|E]];
    lia.
Qed.

(** ** Placing a request in a block taken from a free list *)

Lemma place_header st bp asize sz :
  UNPACK_SIZE st (HEADER bp) = sz -> 16 <= sz ->
  24 <= asize -> asize mod 8 = 0 -> asize + 16 < 2 ^ 32 ->
  PREV_FREE st bp = NULL \/ outside bp sz (PREV_FREE st bp) ->
  NEXT_FREE st bp = NULL \/ outside bp sz (NEXT_FREE st bp) ->
  UNPACK_STATE st (bp - 12 + sz) = ALLOCATED ->
  (forall seg, 0 <= seg < MAX_SEG ->
      last st seg = NULL \/ outside bp sz (last st seg)
      \/ (last st seg = bp /\ NEXT_FREE st bp = NULL /\ seg = list_find sz)) ->
  UNPACK_SIZE (place st bp asize) (HEADER bp)
  = if sz <? asize + 16 then sz else asize.
Proof.
  intros Hsz H16 Ha Ha8 Hfit Hprev Hnext Hright Hlast.
  pose proof (UNPACK_SIZE_range st (HEADER bp)) as Hr.
  pose proof (UNPACK_SIZE_mod8 st (HEADER bp)) as Hm.
  rewrite Hsz in Hr, Hm.
  unfold outside in *. unfold place. unfold ALLOCATED in *.
  set (s1 := list_remove st bp).
  assert (V1 : forall a, a = bp - 12 \/ a = bp - 12 + sz ->
                         VALUE s1 a = VALUE st a).
  { intros a Ha'. unfold s1. apply list_remove_VALUE; lia. }
  assert (L1 : forall seg, 0 <= seg < MAX_SEG ->
                last s1 seg = NULL
                \/ last s1 seg <= bp - 12 \/ bp + sz <= last s1 seg).
  { intros seg Hseg. unfold s1. rewrite list_remove_last, Hsz.
    destruct (Z.eqb_spec (NEXT_FREE st bp) NULL) as [En|En];
      destruct (Z.eqb_spec seg (list_find sz)) as [Es|Es]; simpl.
    - destruct Hprev as [->|Hp]; [left; reflexivity | right; exact Hp].
    - destruct (Hlast seg Hseg) as [E|[E|(_ & _ & E)]];
        [auto|auto|contradiction].
    - destruct (Hlast seg Hseg) as [E|[E|(_ & E & _)]];
        [auto|auto|contradiction].
    - destruct (Hlast seg Hseg) as [E|[E|(_ & E & _)]];
        [auto|auto|contradiction]. }
  assert (S1 : UNPACK_SIZE s1 (HEADER bp) = sz).
  { rewrite <- Hsz. apply UNPACK_SIZE_same. rewrite HEADER_eq. apply V1. lia. }
  set (s2 := REPACK_STATE s1 (HEADER bp) 1).
  assert (V2 : VALUE s2 (bp - 12) = sz + 1).
  { unfold s2. rewrite <- S1, HEADER_eq. apply REPACK_STATE_same. lia. }
  assert (S2 : UNPACK_SIZE s2 (HEADER bp) = sz).
  { rewrite HEADER_eq. apply (unpack_sum s2 _ sz 1); auto; lia. }
  assert (F2 : FOOTER s2 bp = bp - 16 + sz).
  { unfold FOOTER, OVERHEAD. rewrite S2. reflexivity. }
  rewrite F2.
  set (s3 := REPACK_STATE s2 (bp - 16 + sz) 1).
  assert (V3 : VALUE s3 (bp - 12) = sz + 1).
  { unfold s3. rewrite REPACK_STATE_other by lia. exact V2. }
  assert (S3 : UNPACK_SIZE s3 (HEADER bp) = sz).
  { rewrite HEADER_eq. apply (unpack_sum s3 _ sz 1); auto; lia. }
  apply split_header; auto; [].
  unfold ALLOCATED. rewrite <- Hright. apply UNPACK_STATE_same.
    unfold s3. rewrite REPACK_STATE_other by lia.
    unfold s2. rewrite HEADER_eq, REPACK_STATE_other by lia.
    apply V1. lia.
Qed.

(** ** Geometry of the block sequence *)

Lemma block_ok_size st bp size state :
  block_ok st (bp, size, state) ->
  16 <= size /\ size mod 8 = 0 /\
  UNPACK_SIZE st (HEADER bp) = size /\ UNPACK_STATE st (HEADER bp) = state.
Proof.
  unfold block_ok, OVERHEAD. intros (H16 & H8 & Hs & Hh & _).
  split; [exact H16|]. split; [exact H8|].
  apply unpack_PACK; assumption.
Qed.

Lemma tiles_le st p bl q : tiles st p bl q -> p <= q.
Proof.
  induction 1 as [p|p size state bl q Hok _ IH]; [lia|].
  destruct (block_ok_size _ _ _ _ Hok) as (H16 & _). lia.
Qed.

Lemma tiles_in st p bl e : tiles st p bl e ->
  forall q size state, In (q, size, state) bl ->
    block_ok st (q, size, state) /\ p <= q /\ q + size <= e.
Proof.
  induction 1 as [p|p size state bl e Hok Ht IH]; intros q sz s Hin;
    [contradiction|].
  pose proof (tiles_le _ _ _ _ Ht) as Hle.
  destruct (block_ok_size _ _ _ _ Hok) as (H16 & _).
  destruct Hin as [E|Hin].
  - injection E as <- <- <-. split; [exact Hok|]. lia.
  - destruct (IH _ _ _ Hin) as (Hb & Hl & Hr). split; [exact Hb|]. lia.
Qed.

Lemma tiles_disjoint st p bl e : tiles st p bl e ->
  forall q1 sz1 s1 q2 sz2 s2,
    In (q1, sz1, s1) bl -> In (q2, sz2, s2) bl ->
    q1 = q2 \/ q1 + sz1 <= q2 \/ q2 + sz2 <= q1.
Proof.
  induction 1 as [p|p size state bl e Hok Ht IH];
    intros q1 sz1 s1 q2 sz2 s2 H1 H2; [contradiction|].
  destruct H1 as [E1|H1]; destruct H2 as [E2|H2].
  - injection E1 as <- <- <-. injection E2 as <- <- <-. left. reflexivity.
  - injection E1 as <- <- <-.
    destruct (tiles_in _ _ _ _ Ht _ _ _ H2) as (_ & Hl & _). right. left. lia.
  - injection E2 as <- <- <-.
    destruct (tiles_in _ _ _ _ Ht _ _ _ H1) as (_ & Hl & _). right. right. lia.
  - eapply IH; eassumption.
Qed.

(** The word after a free block is the header of an allocated block or
    of the terminator. *)
Lemma tiles_right_neighbour st p bl e : tiles st p bl e ->
  no_adjacent_free bl ->
  UNPACK_STATE st (e - 12) = ALLOCATED ->
  forall q size, In (q, size, FREE) bl ->
    UNPACK_STATE st (q - 12 + size) = ALLOCATED.
Proof.
  induction 1 as [p|p size state bl e Hok Ht IH]; intros Hadj Hend q sz Hin;
    [contradiction|].
  destruct Hin as [E|Hin].
  - injection E as <- <- ->.
    inversion Ht as [p'|p' size' state' bl' e' Hok' Ht']; subst.
    + replace (p - 12 + size) with (p + size - 12) by lia. exact Hend.
    + destruct Hadj as [Hne _].
      destruct (block_ok_size _ _ _ _ Hok') as (_ & _ & _ & Hs').
      rewrite HEADER_eq in Hs'.
      replace (p - 12 + size) with (p + size - 12) by lia. rewrite Hs'.
      destruct Hok' as (_ & _ & [->| ->] & _); [|reflexivity].
      exfalso. apply Hne. split; reflexivity.
  - apply IH; [|exact Hend|exact Hin].
    destruct bl as [|[[? ?] ?] bl]; [exact I|]. destruct Hadj as [_ Hadj].
    exact Hadj.
Qed.

(** The block sequence is empty or ends with a block that reaches [e]. *)
Lemma tiles_last st p bl e : tiles st p bl e ->
  (bl = [] /\ e = p)
  \/ exists q size state, In (q, size, state) bl /\ q + size = e.
Proof.
  induction 1 as [p|p size state bl e Hok Ht IH]; [left; split; reflexivity|].
  right. destruct IH as [[-> ->]|(q & sz & s & Hin & He)].
  - exists p, size, state. split; [left; reflexivity|reflexivity].
  - exists q, sz, s. split; [right; exact Hin|exact He].
Qed.

(** ** Doubly linked lists *)

Lemma dlist_free_list st l : forall prev hd tl,
  dlist st prev l hd tl -> free_list st hd l.
Proof.
  induction l as [|x l IH]; intros prev hd tl H; simpl in H.
  - destruct H as [-> _]. apply free_list_end.
  - destruct H as (-> & Hx & _ & H). apply free_list_node; [exact Hx|].
    eapply IH. exact H.
Qed.

Lemma dlist_links st l : forall prev hd tl,
  dlist st prev l hd tl -> NoDup l ->
  forall x, In x l ->
    (PREV_FREE st x = prev \/ (In (PREV_FREE st x) l /\ PREV_FREE st x <> x))
    /\ (NEXT_FREE st x = NULL \/ (In (NEXT_FREE st x) l /\ NEXT_FREE st x <> x)).
Proof.
  induction l as [|x0 l IH]; intros prev hd tl H Hnd x Hin; [contradiction|].
  simpl in H. destruct H as (-> & Hx0 & Hprev & H).
  apply NoDup_cons_iff in Hnd. destruct Hnd as [Hnotin Hnd'].
  destruct Hin as [<-|Hin].
  - split; [left; exact Hprev|].
    destruct l as [|y l]; simpl in H.
    + left. destruct H as [E _]. exact E.
    + right. destruct H as (E & _). rewrite E. split; [right; left; reflexivity|].
      intros ->. apply Hnotin. left. reflexivity.
  - destruct (IH _ _ _ H Hnd' x Hin) as [Hp Hn]. split.
    + right. destruct Hp as [Hp|[Hp Hne]].
      * rewrite Hp. split; [left; reflexivity|].
        intros ->. apply Hnotin. exact Hin.
      * split; [right; exact Hp|exact Hne].
    + destruct Hn as [Hn|[Hn Hne]]; [left; exact Hn|].
      right. split; [right; exact Hn|exact Hne].
Qed.

Lemma dlist_tail st l : forall prev hd tl,
  dlist st prev l hd tl ->
  (l = [] /\ tl = prev) \/ (In tl l /\ NEXT_FREE st tl = NULL).
Proof.
  induction l as [|x l IH]; intros prev hd tl H; simpl in H.
  - left. destruct H as [_ ->]. split; reflexivity.
  - right. destruct H as (-> & Hx & _ & H).
    destruct (IH _ _ _ H) as [[-> ->]|[Hin Hn]].
    + simpl in H. destruct H as [E _]. split; [left; reflexivity|exact E].
    + split; [right; exact Hin|exact Hn].
Qed.

(** ** What find_block returns is a node of a list *)

Lemma walk_in st size l : forall fuel bp r,
  free_list st bp l -> walk fuel st bp size = Some r ->
  r = NULL \/ (In r l /\ size <= UNPACK_SIZE st (HEADER r)).
Proof.
  induction l as [|x l IH]; intros fuel bp r Hl Hw;
    inversion Hl as [|? ? Hx Hrest]; subst;
    (destruct fuel as [|fuel]; [discriminate Hw|]); simpl in Hw.
  - left. congruence.
  - replace (x =? NULL) with false in Hw
      by (symmetry; apply Z.eqb_neq; assumption).
    destruct (Z.leb_spec size (UNPACK_SIZE st (HEADER x))) as [Hle|Hgt].
    + injection Hw as <-. right. split; [left; reflexivity|exact Hle].
    + destruct (IH _ _ _ Hrest Hw) as [E|[Hin Hs]]; [left; exact E|].
      right. split; [right; exact Hin|exact Hs].
Qed.

Section FoundInLists.

Variable st : heap.
Variable size : Z.
Variable L : Z -> list Z.
Variable fuel : nat.
Hypothesis lists_ok :
  forall seg, 0 <= seg < MAX_SEG -> free_list st (first st seg) (L seg).

Lemma search_from_in n : forall seg r,
  0 <= seg -> search_from n fuel st seg size = Some r -> in_some_list st size L r.
Proof.
  induction n as [|n IH]; intros seg r Hseg Hs; simpl in Hs.
  - left. congruence.
  - destruct (Z.ltb_spec seg MAX_SEG) as [Hlt|Hge]; [|left; congruence].
    destruct (walk fuel st (first st seg) size) as [bp|] eqn:Hw;
      [|discriminate Hs].
    destruct (Z.eqb_spec bp NULL) as [E|E].
    + apply (IH (seg + 1)); [lia|exact Hs].
    + injection Hs as <-.
      destruct (walk_in _ _ _ _ _ _ (lists_ok seg ltac:(lia)) Hw) as [E'|[Hin Hsz]];
        [contradiction|].
      right. exists seg. split; [lia|]. split; assumption.
Qed.

Lemma find_block_in r : find_block fuel st size = Some r -> in_some_list st size L r.
Proof.
  unfold find_block. intros H.
  destruct (if 0 <? list_find size
            then search_from 13 fuel st (list_find size) size
            else Some NULL) as [bp|] eqn:Hs; [|discriminate H].
  assert (Hbp : in_some_list st size L bp).
  { destruct (0 <? list_find size).
    - apply (search_from_in 13 (list_find size)); [|exact Hs].
      pose proof (list_find_range size). lia.
    - left. congruence. }
  destruct (Z.eqb_spec bp NULL) as [E|E]; simpl in H.
  - destruct (walk_in _ _ _ _ _ _ (lists_ok 0 ltac:(unfold MAX_SEG; lia)) H)
      as [E'|[Hin Hsz]]; [left; exact E'|].
    right. exists 0. split; [unfold MAX_SEG; lia|]. split; assumption.
  - injection H as <-. exact Hbp.
Qed.

End FoundInLists.

(** ** Consequences of the heap invariants *)

Section Invariant.

Variable lo : Z.
Variable st : heap.
Variable bl : list block.
Variable L : Z -> list Z.
Hypothesis Hinv : heap_inv lo st bl L.

Lemma inv_free_lists seg :
  0 <= seg < MAX_SEG -> free_list st (first st seg) (L seg).
Proof.
  intros Hseg. destruct (inv_lists _ _ _ _ Hinv seg Hseg) as [Hd _].
  eapply dlist_free_list. exact Hd.
Qed.

(** A node of a free list is a free block of the heap walk. *)
Lemma member_block seg bp :
  0 <= seg < MAX_SEG -> In bp (L seg) ->
  In (bp, UNPACK_SIZE st (HEADER bp), FREE) bl /\
  list_find (UNPACK_SIZE st (HEADER bp)) = seg /\
  16 <= UNPACK_SIZE st (HEADER bp) /\
  lo + 32 <= bp /\ bp + UNPACK_SIZE st (HEADER bp) <= mem_brk st + 8.
Proof.
  intros Hseg Hin.
  apply (inv_members _ _ _ _ Hinv seg bp Hseg) in Hin.
  destruct Hin as (size & Hin & Hfind).
  destruct (tiles_in _ _ _ _ (inv_tiles _ _ _ _ Hinv) _ _ _ Hin)
    as (Hok & Hl & Hr).
  destruct (block_ok_size _ _ _ _ Hok) as (H16 & _ & Hs & _).
  rewrite Hs. repeat split; assumption.
Qed.

(** Two different blocks are apart: the links of the one are outside the
    header and next header of the other. *)
Lemma blocks_apart bp size state seg q :
  In (bp, size, state) bl ->
  0 <= seg < MAX_SEG -> In q (L seg) -> q <> bp ->
  q <= bp - 16 \/ bp + size <= q.
Proof.
  intros Hb Hseg Hq Hne.
  destruct (member_block seg q Hseg Hq) as (Hqb & _ & H16 & _).
  destruct (tiles_disjoint _ _ _ _ (inv_tiles _ _ _ _ Hinv) _ _ _ _ _ _ Hqb Hb)
    as [E|[E|E]]; [contradiction|lia|lia].
Qed.

Lemma member_links seg bp :
  0 <= seg < MAX_SEG -> In bp (L seg) ->
  (PREV_FREE st bp = NULL
   \/ (In (PREV_FREE st bp) (L seg) /\ PREV_FREE st bp <> bp))
  /\ (NEXT_FREE st bp = NULL
      \/ (In (NEXT_FREE st bp) (L seg) /\ NEXT_FREE st bp <> bp)).
Proof.
  intros Hseg Hin. destruct (inv_lists _ _ _ _ Hinv seg Hseg) as [Hd Hnd].
  exact (dlist_links _ _ _ _ _ Hd Hnd bp Hin).
Qed.

Lemma last_member seg :
  0 <= seg < MAX_SEG ->
  last st seg = NULL
  \/ (In (last st seg) (L seg) /\ NEXT_FREE st (last st seg) = NULL).
Proof.
  intros Hseg. destruct (inv_lists _ _ _ _ Hinv seg Hseg) as [Hd _].
  destruct (dlist_tail _ _ _ _ _ Hd) as [[_ E]|H]; [left; exact E|right; exact H].
Qed.

Lemma terminator_allocated :
  UNPACK_STATE st (mem_brk st + 8 - 12) = ALLOCATED.
Proof.
  replace (mem_brk st + 8 - 12) with (mem_brk st - 4) by lia.
  apply (VALUE_PACK_odd _ _ 0); [|reflexivity].
  exact (inv_terminator _ _ _ _ Hinv).
Qed.

(** Placing a request in a node of a free list. *)
Lemma found_block_header seg bp asize :
  0 <= seg < MAX_SEG -> In bp (L seg) ->
  24 <= asize -> asize mod 8 = 0 -> asize + 16 < 2 ^ 32 ->
  UNPACK_SIZE (place st bp asize) (HEADER bp)
  = if UNPACK_SIZE st (HEADER bp) <? asize + 16
    then UNPACK_SIZE st (HEADER bp) else asize.
Proof.
  intros Hseg Hin Ha Ha8 Hfit.
  destruct (member_block seg bp Hseg Hin) as (Hb & Hfind & H16 & Hlo & Hhi).
  destruct (member_links seg bp Hseg Hin) as [Hp Hn].
  apply place_header; auto.
  - destruct Hp as [Hp|[Hp Hne]]; [left; exact Hp|right].
    unfold outside.
    destruct (blocks_apart _ _ _ seg _ Hb Hseg Hp Hne); lia.
  - destruct Hn as [Hn|[Hn Hne]]; [left; exact Hn|right].
    unfold outside.
    destruct (blocks_apart _ _ _ seg _ Hb Hseg Hn Hne); lia.
  - apply (tiles_right_neighbour _ _ _ _ (inv_tiles _ _ _ _ Hinv)).
    + exact (inv_coalesced _ _ _ _ Hinv).
    + exact terminator_allocated.
    + exact Hb.
  - intros seg' Hseg'.
    destruct (last_member seg' Hseg') as [E|[Hl Hnl]]; [left; exact E|].
    right. destruct (Z.eq_dec (last st seg') bp) as [E|Hne].
    + right. rewrite E in Hnl. split; [exact E|]. split; [exact Hnl|].
      rewrite E in Hl.
      destruct (member_block seg' bp Hseg' Hl) as (_ & Hf & _).
      symmetry. exact Hf.
    + left. unfold outside.
      destruct (blocks_apart _ _ _ seg' _ Hb Hseg' Hl Hne); lia.
Qed.

End Invariant.

(** ** Placing a request in a block obtained from new_block *)

Section NewBlock.

Variable lo : Z.
Variable st : heap.
Variable bl : list block.
Variable L : Z -> list Z.
Hypothesis Hinv : heap_inv lo st bl L.

Variable asize : Z.
Hypothesis Ha : 24 <= asize.
Hypothesis Ha8 : asize mod 8 = 0.
Hypothesis Hfit : asize + 16 < 2 ^ 32.


Lemma brk_low : lo + 24 <= mem_brk st.
Proof.
  pose proof (tiles_le _ _ _ _ (inv_tiles _ _ _ _ Hinv)). lia.
Qed.

Lemma grown_old a : a + 4 <= mem_brk st - 4 -> VALUE (grown st asize) a = VALUE st a.
Proof. intros H. unfold grown. frame. Qed.

Lemma grown_header : VALUE (grown st asize) (mem_brk st - 4) = asize + 0.
Proof.
  unfold grown. rewrite !VALUE_set_other by lia.
  apply store_PACK; unfold FREE; lia.
Qed.

Lemma grown_footer : VALUE (grown st asize) (mem_brk st - 8 + asize) = asize + 0.
Proof.
  unfold grown. rewrite VALUE_set_other by lia.
  apply store_PACK; unfold FREE; lia.
Qed.

Lemma grown_terminator : VALUE (grown st asize) (mem_brk st - 4 + asize) = 0 + 1.
Proof. unfold grown. apply store_PACK; unfold ALLOCATED; try reflexivity; lia. Qed.

(** Every node of a free list lies below the old break. *)
Lemma member_below seg q :
  0 <= seg < MAX_SEG -> In q (L seg) -> lo + 32 <= q <= mem_brk st - 8.
Proof.
  intros Hseg Hq.
  destruct (member_block _ _ _ _ Hinv seg q Hseg Hq) as (_ & _ & H16 & Hl & Hh).
  lia.
Qed.

Lemma last_below seg :
  0 <= seg < MAX_SEG ->
  last st seg = NULL \/ lo + 32 <= last st seg <= mem_brk st - 8.
Proof.
  intros Hseg.
  destruct (last_member _ _ _ _ Hinv seg Hseg) as [E|[Hin _]]; [left; exact E|].
  right. exact (member_below seg _ Hseg Hin).
Qed.

Hypothesis Hroom : mem_brk st + asize <= mem_max_addr st.

Lemma space_bound : 0 < lo /\ mem_brk st + asize < 2 ^ 32.
Proof.
  destruct (inv_base _ _ _ _ Hinv) as [Hlo _].
  destruct (inv_space _ _ _ _ Hinv) as [_ Hmax]. lia.
Qed.

(** No free block before the break: the new block is added as it is. *)
Lemma new_block_alone :
  UNPACK_STATE st (mem_brk st - 8) = ALLOCATED ->
  coalesce (grown st asize) (mem_brk st + 8) = (mem_brk st + 8, list_add (grown st asize) (mem_brk st + 8)) /\
  UNPACK_SIZE (place (list_add (grown st asize) (mem_brk st + 8)) (mem_brk st + 8) asize)
              (HEADER (mem_brk st + 8)) = asize.
Proof.
  intros Hprev. destruct space_bound as [Hlo Hsp].
  assert (Hsz : UNPACK_SIZE (grown st asize) (HEADER (mem_brk st + 8)) = asize).
  { rewrite HEADER_eq. replace (mem_brk st + 8 - 12) with (mem_brk st - 4) by lia.
    apply (unpack_sum _ _ asize 0); [exact grown_header|exact Ha8|lia]. }
  split.
  - apply coalesce_skip.
    + unfold PREV_FOOTER, OVERHEAD.
      replace (mem_brk st + 8 - 16) with (mem_brk st - 8) by lia.
      rewrite <- Hprev. apply UNPACK_STATE_same. apply grown_old. lia.
    + unfold NEXT_HEADER, OVERHEAD, WORD. rewrite Hsz.
      replace (mem_brk st + 8 - 16 + 4 + asize) with (mem_brk st - 4 + asize) by lia.
      apply (unpack_sum _ _ 0 1); [exact grown_terminator|reflexivity|lia].
  - set (s1 := list_add (grown st asize) (mem_brk st + 8)).
    assert (Hlast : forall seg, 0 <= seg < MAX_SEG ->
              last (grown st asize) seg = NULL \/ lo + 32 <= last (grown st asize) seg <= mem_brk st - 8).
    { intros seg Hseg. exact (last_below seg Hseg). }
    pose proof (Hlast (list_find asize) (list_find_range _)) as Hl0.
    assert (V1 : forall a, mem_brk st - 4 <= a -> a + 4 <= mem_brk st \/ mem_brk st + 8 <= a ->
                           VALUE s1 a = VALUE (grown st asize) a).
    { intros a Ha1 Ha2. unfold s1. apply list_add_VALUE; rewrite ?Hsz; lia. }
    assert (S1 : UNPACK_SIZE s1 (HEADER (mem_brk st + 8)) = asize).
    { rewrite <- Hsz. apply UNPACK_SIZE_same. rewrite HEADER_eq.
      apply V1; lia. }
    destruct (list_add_links (grown st asize) (mem_brk st + 8)) as [Hn Hp].
    fold s1 in Hn, Hp. rewrite Hsz in Hp.
    rewrite (place_header s1 (mem_brk st + 8) asize asize); auto; try lia.
    + destruct (asize <? asize + 16); reflexivity.
    + rewrite Hp. unfold outside.
      destruct Hl0 as [->|Hl0]; [left; reflexivity|right].
      rewrite wrap_small by lia. lia.
    + replace (mem_brk st + 8 - 12 + asize) with (mem_brk st - 4 + asize) by lia.
      apply (unpack_sum _ _ 0 1); [|reflexivity|lia].
      rewrite V1 by lia. exact grown_terminator.
    + intros seg Hseg. unfold s1. rewrite list_add_last, Hsz.
      destruct (Z.eqb_spec seg (list_find asize)) as [E|E].
      * right. right. split; [reflexivity|]. split; [exact Hn|exact E].
      * destruct (Hlast seg Hseg) as [E'|E']; [left; exact E'|].
        right. left. unfold outside. lia.
Qed.

(** A free block before the break: it absorbs the new space. *)
Lemma new_block_merged :
  UNPACK_STATE st (mem_brk st - 8) = FREE ->
  exists Lb st1,
    coalesce (grown st asize) (mem_brk st + 8) = (Lb, st1) /\ Lb <> NULL /\
    UNPACK_SIZE (place st1 Lb asize) (HEADER Lb) = asize.
Proof.
  intros Hprev. destruct space_bound as [Hlo Hsp].
  (* the last block of the heap walk *)
  destruct (tiles_last _ _ _ _ (inv_tiles _ _ _ _ Hinv))
    as [[_ He]|(Lb & szL & sL & Hin & He)].
  { exfalso. destruct (inv_left_sentinel _ _ _ _ Hinv) as [_ Hf].
    replace (lo + 16) with (mem_brk st - 8) in Hf by lia.
    apply VALUE_PACK_odd in Hf; [|reflexivity].
    rewrite Hf in Hprev. discriminate Hprev. }
  destruct (tiles_in _ _ _ _ (inv_tiles _ _ _ _ Hinv) _ _ _ Hin)
    as (Hok & HLlo & _).
  destruct (block_ok_size _ _ _ _ Hok) as (H16 & HL8 & HszL & HstL).
  assert (HsL : sL = FREE).
  { destruct Hok as (_ & _ & Hs & _ & Hf). unfold OVERHEAD in Hf.
    replace (Lb - 16 + szL) with (mem_brk st - 8) in Hf by lia.
    destruct (unpack_PACK _ _ _ _ Hf HL8 Hs) as [_ E]. congruence. }
  rewrite HsL in Hin, Hok, HstL. clear HsL sL.
  assert (HfL : UNPACK_SIZE st (mem_brk st - 8) = szL).
  { destruct Hok as (_ & _ & Hs & _ & Hf). unfold OVERHEAD in Hf.
    replace (Lb - 16 + szL) with (mem_brk st - 8) in Hf by lia.
    exact (proj1 (unpack_PACK _ _ _ _ Hf HL8 Hs)). }
  set (segL := list_find szL).
  assert (HsegL : 0 <= segL < MAX_SEG) by apply list_find_range.
  assert (HinL : In Lb (L segL)).
  { apply (inv_members _ _ _ _ Hinv segL Lb HsegL).
    exists szL. split; [exact Hin|reflexivity]. }
  (* nodes other than Lb lie below it *)
  assert (Hbelow : forall seg q, 0 <= seg < MAX_SEG -> In q (L seg) ->
                                 q <> Lb -> lo + 32 <= q <= Lb - 16).
  { intros seg q Hseg Hq Hne.
    pose proof (member_below seg q Hseg Hq).
    destruct (blocks_apart _ _ _ _ Hinv _ _ _ seg q Hin Hseg Hq Hne); lia. }
  destruct (member_links _ _ _ _ Hinv segL Lb HsegL HinL) as [HpL HnL].
  assert (HpL' : PREV_FREE st Lb = NULL \/ lo + 32 <= PREV_FREE st Lb <= Lb - 16).
  { destruct HpL as [E|[Hq Hne]]; [left; exact E|right].
    exact (Hbelow segL _ HsegL Hq Hne). }
  assert (HnL' : NEXT_FREE st Lb = NULL \/ lo + 32 <= NEXT_FREE st Lb <= Lb - 16).
  { destruct HnL as [E|[Hq Hne]]; [left; exact E|right].
    exact (Hbelow segL _ HsegL Hq Hne). }
  (* the state seen by coalesce *)
  assert (PL : PREV_FREE (grown st asize) Lb = PREV_FREE st Lb).
  { unfold PREV_FREE, WORD. apply grown_old. lia. }
  assert (NL : NEXT_FREE (grown st asize) Lb = NEXT_FREE st Lb).
  { unfold NEXT_FREE, WORD. apply grown_old. lia. }
  assert (HL : UNPACK_SIZE (grown st asize) (HEADER Lb) = szL).
  { rewrite <- HszL. apply UNPACK_SIZE_same. rewrite HEADER_eq.
    apply grown_old. lia. }
  assert (PB : PREV_BLOCK (grown st asize) (mem_brk st + 8) = Lb).
  { unfold PREV_BLOCK, PREV_FOOTER, OVERHEAD.
    replace (mem_brk st + 8 - 16) with (mem_brk st - 8) by lia.
    rewrite (UNPACK_SIZE_same (grown st asize) st (mem_brk st - 8) (mem_brk st - 8)), HfL
      by (apply grown_old; lia). lia. }
  set (st_f := list_remove (grown st asize) Lb).
  assert (Vf : forall a, Lb - 12 <= a -> VALUE st_f a = VALUE (grown st asize) a).
  { intros a Ha'. unfold st_f. apply list_remove_VALUE; rewrite ?PL, ?NL; lia. }
  assert (Lf : forall seg, 0 <= seg < MAX_SEG ->
            last st_f seg = NULL \/ lo + 32 <= last st_f seg <= Lb - 16).
  { intros seg Hseg. unfold st_f. rewrite list_remove_last, NL, PL, HL.
    fold segL.
    destruct (Z.eqb_spec (NEXT_FREE st Lb) NULL) as [En|En];
      destruct (Z.eqb_spec seg segL) as [Es|Es]; simpl; try exact HpL'.
    all: change (last (grown st asize) seg) with (last st seg);
      destruct (last_member _ _ _ _ Hinv seg Hseg) as [E|[Hl Hn]];
      [left; exact E|right];
      apply (Hbelow seg _ Hseg Hl); intros E; rewrite E in Hl, Hn.
    - destruct (member_block _ _ _ _ Hinv seg Lb Hseg Hl) as (_ & Hf & _).
      rewrite HszL in Hf. fold segL in Hf. congruence.
    - contradiction.
    - contradiction. }
  assert (Sf : UNPACK_SIZE st_f (HEADER Lb) = szL).
  { rewrite <- HL. apply UNPACK_SIZE_same. rewrite HEADER_eq. apply Vf. lia. }
  assert (Nf : NEXT_HEADER st_f Lb = mem_brk st - 4).
  { unfold NEXT_HEADER, OVERHEAD, WORD. rewrite Sf. lia. }
  assert (Sn : UNPACK_SIZE st_f (mem_brk st - 4) = asize).
  { apply (unpack_sum _ _ asize 0); [|exact Ha8|lia].
    rewrite Vf by lia. exact grown_header. }
  set (newsize := szL + asize).
  assert (Hnew : wrap (UNPACK_SIZE st_f (HEADER Lb)
                       + UNPACK_SIZE st_f (NEXT_HEADER st_f Lb)) = newsize).
  { rewrite Nf, Sf, Sn. apply wrap_small. unfold newsize. lia. }
  assert (Hn8 : newsize mod 8 = 0).
  { unfold newsize. Z.div_mod_to_equations. lia. }
  set (st_g := REPACK_SIZE st_f (HEADER Lb) newsize).
  assert (Vg : VALUE st_g (Lb - 12) = newsize + 0).
  { unfold st_g. rewrite HEADER_eq.
    rewrite REPACK_SIZE_same; [|exact Hn8|unfold newsize; lia].
    f_equal. rewrite (UNPACK_STATE_same st_f st (Lb - 12) (Lb - 12)).
    - rewrite <- HEADER_eq. exact HstL.
    - rewrite Vf by lia. apply grown_old. lia. }
  assert (Sg : UNPACK_SIZE st_g (HEADER Lb) = newsize).
  { rewrite HEADER_eq. apply (unpack_sum _ _ newsize 0); auto; lia. }
  assert (Fg : FOOTER st_g Lb = mem_brk st - 8 + asize).
  { unfold FOOTER, OVERHEAD. rewrite Sg. unfold newsize. lia. }
  set (st_h := REPACK_SIZE st_g (mem_brk st - 8 + asize) newsize).
  assert (CL : coalesce_left (grown st asize) (mem_brk st + 8) = (Lb, st_h)).
  { unfold coalesce_left. unfold PREV_FOOTER at 1. unfold OVERHEAD at 1.
    replace (mem_brk st + 8 - 16) with (mem_brk st - 8) by lia.
    rewrite (UNPACK_STATE_same (grown st asize) st (mem_brk st - 8) (mem_brk st - 8)), Hprev
      by (apply grown_old; lia).
    change (FREE =? FREE) with true. cbv iota.
    rewrite PB. fold st_f. rewrite Hnew. fold st_g. rewrite Fg. reflexivity. }
  assert (Vh : VALUE st_h (Lb - 12) = newsize + 0).
  { unfold st_h. rewrite REPACK_SIZE_other by lia. exact Vg. }
  assert (Sh : UNPACK_SIZE st_h (HEADER Lb) = newsize).
  { rewrite HEADER_eq. apply (unpack_sum _ _ newsize 0); auto; lia. }
  assert (Th : VALUE st_h (mem_brk st - 4 + asize) = 0 + 1).
  { unfold st_h. rewrite REPACK_SIZE_other by lia.
    unfold st_g. rewrite HEADER_eq, REPACK_SIZE_other by lia.
    rewrite Vf by lia. exact grown_terminator. }
  assert (Nh : NEXT_HEADER st_h Lb = mem_brk st - 4 + asize).
  { unfold NEXT_HEADER, OVERHEAD, WORD. rewrite Sh. unfold newsize. lia. }
  assert (CR : coalesce_right st_h Lb = st_h).
  { apply coalesce_right_skip. rewrite Nh.
    apply (unpack_sum _ _ 0 1); [exact Th|reflexivity|lia]. }
  assert (Lh : forall seg, 0 <= seg < MAX_SEG ->
            last st_h seg = NULL \/ lo + 32 <= last st_h seg <= Lb - 16).
  { intros seg Hseg. exact (Lf seg Hseg). }
  exists Lb, (list_add st_h Lb).
  split; [unfold coalesce; rewrite CL, CR; reflexivity|].
  split; [unfold NULL; lia|].
  (* the merged block at the tail of its list *)
  set (s1 := list_add st_h Lb).
  pose proof (Lh (list_find newsize) (list_find_range _)) as Hl0.
  assert (V1 : forall a, Lb - 12 <= a -> a + 4 <= Lb - 8 \/ Lb <= a ->
                         VALUE s1 a = VALUE st_h a).
  { intros a Ha1 Ha2. unfold s1. apply list_add_VALUE; rewrite ?Sh; lia. }
  assert (S1 : UNPACK_SIZE s1 (HEADER Lb) = newsize).
  { rewrite <- Sh. apply UNPACK_SIZE_same. rewrite HEADER_eq. apply V1; lia. }
  destruct (list_add_links st_h Lb) as [Hn Hp].
  fold s1 in Hn, Hp. rewrite Sh in Hp.
  rewrite (place_header s1 Lb asize newsize); auto; try (unfold newsize; lia).
  - replace (newsize <? asize + 16) with false; [reflexivity|].
    symmetry. apply Z.ltb_ge. unfold newsize. lia.
  - rewrite Hp. unfold outside.
    destruct Hl0 as [->|Hl0]; [left; reflexivity|right].
    rewrite wrap_small by lia. lia.
  - replace (Lb - 12 + newsize) with (mem_brk st - 4 + asize)
      by (unfold newsize; lia).
    apply (unpack_sum _ _ 0 1); [|reflexivity|lia].
    rewrite V1 by lia. exact Th.
  - intros seg Hseg. unfold s1. rewrite list_add_last, Sh.
    destruct (Z.eqb_spec seg (list_find newsize)) as [E|E].
    + right. right. split; [reflexivity|]. split; [exact Hn|exact E].
    + destruct (Lh seg Hseg) as [E'|E']; [left; exact E'|].
      right. left. unfold outside. lia.
Qed.

End NewBlock.

(** [new_block] on a heap that can grow: the three stores, then coalesce. *)
Lemma new_block_grows st size :
  0 < mem_brk st -> 8 <= size -> size mod 8 = 0 -> size < 2 ^ 32 ->
  mem_brk st + size <= mem_max_addr st ->
  new_block st size = coalesce (grown st size) (mem_brk st + 8).
Proof.
  intros Hbrk Hs Hs8 Hlt Hroom. unfold new_block, mem_sbrk.
  replace (size <? 0) with false by (symmetry; apply Z.ltb_ge; lia).
  replace (mem_max_addr st <? mem_brk st + size) with false
    by (symmetry; apply Z.ltb_ge; lia).
  cbn [orb].
  replace (mem_brk st =? -1) with false by (symmetry; apply Z.eqb_neq; lia).
  replace (mem_brk st + OVERHEAD - 2 * WORD) with (mem_brk st + 8)
    by (unfold OVERHEAD, WORD; lia).
  replace (HEADER (mem_brk st + 8)) with (mem_brk st - 4)
    by (rewrite HEADER_eq; lia).
  set (sa := mkHeap (mem st) (mem_brk st + size) (mem_max_addr st)
                    (first st) (last st)).
  set (sb := set_VALUE sa (mem_brk st - 4) (PACK size FREE)).
  assert (Sb : UNPACK_SIZE sb (mem_brk st - 4) = size).
  { apply (unpack_sum _ _ size 0); [|exact Hs8|lia].
    unfold sb. apply store_PACK; unfold FREE; lia. }
  assert (Fb : FOOTER sb (mem_brk st + 8) = mem_brk st - 8 + size).
  { unfold FOOTER, OVERHEAD. rewrite HEADER_eq.
    replace (mem_brk st + 8 - 12) with (mem_brk st - 4) by lia.
    rewrite Sb. lia. }
  rewrite Fb.
  set (sc := set_VALUE sb (mem_brk st - 8 + size) (PACK size FREE)).
  assert (Sc : UNPACK_SIZE sc (mem_brk st - 4) = size).
  { rewrite <- Sb. apply UNPACK_SIZE_same. unfold sc.
    apply VALUE_set_other. lia. }
  assert (Nc : NEXT_HEADER sc (mem_brk st + 8) = mem_brk st - 4 + size).
  { unfold NEXT_HEADER, OVERHEAD, WORD.
    replace (HEADER (mem_brk st + 8)) with (mem_brk st - 4)
      by (rewrite HEADER_eq; lia).
    rewrite Sc. lia. }
  rewrite Nc. reflexivity.
Qed.

Lemma align_up_ALIGN n :
  0 <= n -> n + 7 < 2 ^ 32 -> ALIGN n = align_up n.
Proof.
  intros H0 H1. rewrite ALIGN_spec, wrap_small by lia. unfold align_up.
  Z.div_mod_to_equations. lia.
Qed.

Lemma align_up_bounds n : n <= align_up n < n + 8 /\ align_up n mod 8 = 0.
Proof.
  unfold align_up. split; [Z.div_mod_to_equations; lia|].
  apply Z.mod_mul. lia.
Qed.

(** The block that [mm_malloc] hands out, in a heap that satisfies the
    invariants and for a request whose block size does not wrap. *)
Lemma mm_malloc_header lo st bl L fuel n bp st' :
  heap_inv lo st bl L ->
  0 < n -> align_up (n + OVERHEAD) + OVERHEAD < 2 ^ 32 ->
  mm_malloc fuel st n = Some (bp, st') -> bp <> NULL ->
  UNPACK_SIZE st' (HEADER bp) < align_up (n + OVERHEAD) + OVERHEAD.
Proof.
  intros Hinv Hn Hfit Hm Hbp. unfold OVERHEAD in *.
  destruct (align_up_bounds (n + 16)) as [Hb Hb8].
  assert (H24 : 24 <= align_up (n + 16))
    by (revert Hb Hb8; generalize (align_up (n + 16)); intros;
        Z.div_mod_to_equations; lia).
  unfold mm_malloc in Hm.
  replace (n =? 0) with false in Hm by (symmetry; apply Z.eqb_neq; lia).
  unfold OVERHEAD in Hm. rewrite align_up_ALIGN in Hm by lia.
  set (asize := align_up (n + 16)) in *.
  destruct (find_block fuel st asize) as [r|] eqn:Hfind; [|discriminate Hm].
  apply (find_block_in st asize L fuel (inv_free_lists _ _ _ _ Hinv)) in Hfind.
  destruct (Z.eqb_spec r NULL) as [Er|Er].
  - (* the heap is extended *)
    pose proof (brk_low _ _ _ _ Hinv) as Hlow.
    destruct (inv_base _ _ _ _ Hinv) as [Hlo _].
    unfold new_block in Hm at 1.
    destruct (Z.le_gt_cases (mem_brk st + asize) (mem_max_addr st)) as [Hroom|Hfull].
    + fold (new_block st asize) in Hm.
      rewrite new_block_grows in Hm by lia.
      pose proof (UNPACK_STATE_range st (mem_brk st - 8)) as Hs.
      destruct (Z.eq_dec (UNPACK_STATE st (mem_brk st - 8)) FREE) as [Ef|Ef].
      * destruct (new_block_merged lo st bl L Hinv asize H24 Hb8 Hfit
                    Hroom Ef) as (Lb & st1 & Hc & HLb & Hsz).
        rewrite Hc in Hm.
        replace (Lb =? NULL) with false in Hm
          by (symmetry; apply Z.eqb_neq; exact HLb).
        injection Hm as <- <-. fold (place st1 Lb asize). rewrite Hsz. lia.
      * assert (Ea : UNPACK_STATE st (mem_brk st - 8) = ALLOCATED)
          by (unfold FREE, ALLOCATED in *; lia).
        destruct (new_block_alone lo st bl L Hinv asize H24 Hb8 Hfit
                    Hroom Ea) as (Hc & Hsz).
        rewrite Hc in Hm.
        replace (mem_brk st + 8 =? NULL) with false in Hm
          by (symmetry; apply Z.eqb_neq; unfold NULL; lia).
        injection Hm as <- <-.
        fold (place (list_add (grown st asize) (mem_brk st + 8))
                    (mem_brk st + 8) asize).
        rewrite Hsz. lia.
    + exfalso. unfold mem_sbrk in Hm.
      replace (mem_max_addr st <? mem_brk st + asize) with true in Hm
        by (symmetry; apply Z.ltb_lt; lia).
      rewrite orb_true_r in Hm. simpl in Hm. injection Hm as <- _.
      apply Hbp. reflexivity.
  - (* a block of a free list is taken *)
    replace (r =? NULL) with false in Hm
      by (symmetry; apply Z.eqb_neq; exact Er).
    injection Hm as <- <-. fold (place st r asize).
    destruct Hfind as [E|(seg & Hseg & Hin & Hsz)]; [contradiction|].
    rewrite (found_block_header lo st bl L Hinv seg r asize Hseg Hin H24 Hb8 Hfit).
    destruct (Z.ltb_spec (UNPACK_SIZE st (HEADER r)) (asize + 16)); lia.
Qed.

Lemma in_buckets_from_0 seg : 0 <= seg < MAX_SEG -> In seg (buckets_from 0).
Proof.
  unfold MAX_SEG, buckets_from. intros H. apply in_map_iff.
  exists (Z.to_nat seg). split; [lia|]. apply in_seq. simpl. lia.
Qed.

(** With fuel above the length of every free list, [mm_malloc] returns. *)
Lemma mm_malloc_returns lo st n :
  heap_ok lo st ->
  exists fuel0, forall fuel, (fuel0 <= fuel)%nat -> mm_malloc fuel st n <> None.
Proof.
  intros (bl & L & Hinv).
  set (lens := map (fun seg => length (L seg)) (buckets_from 0)).
  exists (S (list_max lens)). intros fuel Hfuel.
  assert (Hlen : forall seg, 0 <= seg < MAX_SEG -> (length (L seg) < fuel)%nat).
  { intros seg Hseg.
    assert (Hall : Forall (fun k => (k <= list_max lens)%nat) lens)
      by (apply list_max_le; lia).
    rewrite Forall_forall in Hall.
    specialize (Hall (length (L seg))).
    assert (In (length (L seg)) lens).
    { unfold lens. apply (in_map (fun seg => length (L seg))).
      apply in_buckets_from_0. exact Hseg. }
    specialize (Hall H). lia. }
  unfold mm_malloc. destruct (n =? 0); [discriminate|].
  rewrite (find_block_search_order st _ L fuel (inv_free_lists _ _ _ _ Hinv) Hlen).
  destruct (first_fit st _ _ =? NULL).
  - destruct (new_block st _) as [bp st1]. cbv beta iota.
    destruct (bp =? NULL); discriminate.
  - cbv beta iota.
    destruct (first_fit st _ _ =? NULL); discriminate.
Qed.

(** C9.  In a heap that satisfies the invariants, a non-null result of
    [mm_malloc(n)], [0 < n], is a block whose size is strictly less than
    [align_up(n + OVERHEAD) + OVERHEAD], that is, at most
    [align_up(n + OVERHEAD) + 8]: [split] leaves the block whole only
    when fewer than [OVERHEAD] bytes would remain.  (With enough fuel
    the call does return, [mm_malloc_returns].) *)
Theorem malloc_fragmentation_bound :
  forall lo st n fuel bp st',
    heap_ok lo st -> 0 < n < 2 ^ 32 ->
    mm_malloc fuel st n = Some (bp, st') -> bp <> NULL ->
    UNPACK_SIZE st' (HEADER bp) < align_up (n + OVERHEAD) + OVERHEAD /\
    UNPACK_SIZE st' (HEADER bp) <= align_up (n + OVERHEAD) + 8.
Proof.
  intros lo st n fuel bp st' (bl & L & Hinv) Hn Hm Hbp.
  assert (Hlt : UNPACK_SIZE st' (HEADER bp) < align_up (n + OVERHEAD) + OVERHEAD).
  { destruct (Z.lt_ge_cases (align_up (n + OVERHEAD) + OVERHEAD) (2 ^ 32))
      as [Hfit|Hwrap].
    - apply (mm_malloc_header lo st bl L fuel n bp st'); auto. lia.
    - pose proof (UNPACK_SIZE_range st' (HEADER bp)). lia. }
  split; [exact Hlt|].
  pose proof (UNPACK_SIZE_mod8 st' (HEADER bp)) as H8.
  destruct (align_up_bounds (n + OVERHEAD)) as [_ A8].
  unfold OVERHEAD in *.
  revert Hlt H8 A8. generalize (UNPACK_SIZE st' (HEADER bp)).
  generalize (align_up (n + 16)). intros. Z.div_mod_to_equations. lia.
Qed.

(** The heap right after [mm_init] satisfies the invariants, with no
    block between the sentinels and every list empty. *)
Lemma heap0_ok : heap_ok 1000 heap0.
Proof.
  exists [], (fun _ => []).
  assert (Hbrk : mem_brk heap0 = 1024) by (vm_compute; reflexivity).
  assert (Hmax : mem_max_addr heap0 = 66536) by (vm_compute; reflexivity).
  constructor.
  - split; [lia|reflexivity].
  - rewrite Hbrk, Hmax. change (2 ^ 32) with 4294967296. lia.
  - split; vm_compute; reflexivity.
  - rewrite Hbrk. apply tiles_end.
  - vm_compute. reflexivity.
  - exact I.
  - intros seg Hseg. split; [|constructor].
    destruct (mm_init_lists (fresh 1000 65536) seg Hseg) as [F La].
    simpl. split; assumption.
  - intros seg bp _. split; [contradiction|].
    intros (size & [] & _).
Qed.

Lemma malloc_fragmentation_bound_witness :
  heap_ok 1000 heap_free_a_b /\ 0 < 8 < 2 ^ 32 /\
  match mm_malloc 9 heap_free_a_b 8 with
  | Some (bp, st') =>
      bp = 1032 /\ bp <> NULL /\
      UNPACK_SIZE st' (HEADER bp) < align_up (8 + OVERHEAD) + OVERHEAD /\
      UNPACK_SIZE st' (HEADER bp) <= align_up (8 + OVERHEAD) + 8
  | None => False
  end.
Proof.
  assert (H1 : heap_ok 1000 heap_free_a_b) by exact heap_free_a_b_ok.
  assert (H2 : 0 < 8 < 2 ^ 32) by (change (2 ^ 32) with 4294967296; lia).
  split; [exact H1|]. split; [exact H2|].
  assert (Hp : option_map fst (mm_malloc 9 heap_free_a_b 8) = Some 1032)
    by (vm_compute; reflexivity).
  destruct (mm_malloc 9 heap_free_a_b 8) as [[bp st']|] eqn:E;
    [|discriminate Hp].
  assert (H0 : bp = 1032) by (simpl in Hp; congruence).
  assert (H3 : bp <> NULL) by (rewrite H0; unfold NULL; lia).
  split; [exact H0|]. split; [exact H3|].
  exact (malloc_fragmentation_bound 1000 heap_free_a_b 8 9 bp st' H1 H2 E H3).
Defined.

(** * The invariants through the operations *)

Lemma testbit_1_high n : 0 <= n -> n <> 0 -> Z.testbit 1 n = false.
Proof. intros H0 Hn. apply Z.bits_above_log2; simpl; lia. Qed.

Lemma lor_state_bits size state :
  0 <= size -> state = FREE \/ state = ALLOCATED ->
  Z.lor size state = size + (if Z.odd size then 0 else state).
Proof.
  unfold FREE, ALLOCATED. intros H0 [->| ->].
  - rewrite Z.lor_0_r. destruct (Z.odd size); lia.
  - destruct (Z.odd size) eqn:Ho.
    + rewrite Z.add_0_r. apply Z.bits_inj'. intros n Hn. rewrite Z.lor_spec.
      destruct (Z.eq_dec n 0) as [->|Hne].
      * rewrite Z.bit0_odd, Ho. reflexivity.
      * rewrite testbit_1_high by assumption. apply orb_false_r.
    + assert (Hl : Z.land size 1 = 0).
      { apply Z.bits_inj'. intros n Hn. rewrite Z.land_spec, Z.bits_0.
        destruct (Z.eq_dec n 0) as [->|Hne].
        - rewrite Z.bit0_odd, Ho. reflexivity.
        - rewrite testbit_1_high by assumption. apply andb_false_r. }
      rewrite <- Z.lxor_lor by exact Hl.
      symmetry. apply Z.add_nocarry_lxor. exact Hl.
Qed.

(** ** The break *)

Lemma brk_list_remove st bp : mem_brk (list_remove st bp) = mem_brk st.
Proof.
  unfold list_remove.
  destruct (negb (PREV_FREE st bp =? NULL));
    destruct (negb (NEXT_FREE st bp =? NULL)); reflexivity.
Qed.

Lemma brk_list_add st bp : mem_brk (list_add st bp) = mem_brk st.
Proof.
  unfold list_add.
  destruct (last st (list_find (UNPACK_SIZE st (HEADER bp))) =? NULL);
    reflexivity.
Qed.

Lemma brk_coalesce st bp : mem_brk (snd (coalesce st bp)) = mem_brk st.
Proof.
  unfold coalesce, coalesce_left, coalesce_right.
  destruct (UNPACK_STATE st (PREV_FOOTER bp) =? FREE); cbv beta iota zeta.
  - match goal with
    | |- context [if ?c then _ else _] => destruct c
    end; cbn [snd]; rewrite brk_list_add; unfold REPACK_SIZE; simpl;
      rewrite ?brk_list_remove; simpl; rewrite ?brk_list_remove; reflexivity.
  - match goal with
    | |- context [if ?c then _ else _] => destruct c
    end; cbn [snd]; rewrite brk_list_add; unfold REPACK_SIZE; simpl;
      rewrite ?brk_list_remove; reflexivity.
Qed.

Lemma brk_split st bp size : mem_brk (split st bp size) = mem_brk st.
Proof.
  unfold split.
  destruct (UNPACK_SIZE st (HEADER bp) <? wrap (size + OVERHEAD));
    [reflexivity|].
  rewrite brk_coalesce. reflexivity.
Qed.

Lemma brk_place st bp size : mem_brk (place st bp size) = mem_brk st.
Proof.
  unfold place. rewrite brk_split. unfold REPACK_STATE. simpl.
  apply brk_list_remove.
Qed.

Lemma brk_mm_free st bp : mem_brk (mm_free st bp) = mem_brk st.
Proof. unfold mm_free. rewrite brk_coalesce. reflexivity. Qed.

Lemma brk_new_block st size :
  mem_brk (snd (new_block st size))
  = if fst (new_block st size) =? NULL then mem_brk (snd (new_block st size))
    else mem_brk st + size.
Proof.
  destruct (fst (new_block st size) =? NULL) eqn:E; [reflexivity|].
  revert E. unfold new_block, mem_sbrk.
  destruct ((size <? 0) || (mem_max_addr st <? mem_brk st + size)).
  - simpl. discriminate.
  - destruct (mem_brk st =? -1); [simpl; discriminate|].
    intros _. rewrite brk_coalesce. reflexivity.
Qed.

Lemma brk_new_block_le st size :
  0 <= size -> mem_brk st <= mem_brk (snd (new_block st size)).
Proof.
  intros H. unfold new_block, mem_sbrk.
  destruct ((size <? 0) || (mem_max_addr st <? mem_brk st + size)).
  - simpl. lia.
  - destruct (mem_brk st =? -1); [simpl; lia|].
    rewrite brk_coalesce. simpl. lia.
Qed.

Lemma mm_malloc_cases fuel st n bp st' :
  n <> 0 -> mm_malloc fuel st n = Some (bp, st') ->
  exists r, find_block fuel st (ALIGN (n + OVERHEAD)) = Some r /\
    ((r <> NULL /\ bp = r /\ st' = place st r (ALIGN (n + OVERHEAD)))
     \/ (r = NULL /\ fst (new_block st (ALIGN (n + OVERHEAD))) = NULL
         /\ bp = NULL /\ st' = snd (new_block st (ALIGN (n + OVERHEAD))))
     \/ (r = NULL /\ bp = fst (new_block st (ALIGN (n + OVERHEAD)))
         /\ bp <> NULL
         /\ st' = place (snd (new_block st (ALIGN (n + OVERHEAD)))) bp
                        (ALIGN (n + OVERHEAD)))).
Proof.
  intros Hn Hm. unfold mm_malloc in Hm.
  replace (n =? 0) with false in Hm by (symmetry; apply Z.eqb_neq; exact Hn).
  destruct (find_block fuel st (ALIGN (n + OVERHEAD))) as [r|]; [|discriminate Hm].
  exists r. split; [reflexivity|].
  destruct (Z.eqb_spec r NULL) as [Er|Er].
  - right. destruct (new_block st (ALIGN (n + OVERHEAD))) as [b s1]. cbn [fst snd].
    destruct (Z.eqb_spec b NULL) as [Eb|Eb].
    + left. injection Hm as <- <-. auto.
    + right. injection Hm as <- <-. auto.
  - left. replace (r =? NULL) with false in Hm
      by (symmetry; apply Z.eqb_neq; exact Er).
    injection Hm as <- <-. auto.
Qed.

(** The break after [mm_malloc], by the result of [find_block]. *)
Lemma mm_malloc_brk :
  forall fuel st n bp st',
    n <> 0 -> mm_malloc fuel st n = Some (bp, st') ->
    exists r, find_block fuel st (ALIGN (n + OVERHEAD)) = Some r /\
      (r <> NULL -> bp = r /\ mem_brk st' = mem_brk st) /\
      (r = NULL -> bp <> NULL ->
       mem_brk st' = mem_brk st + ALIGN (n + OVERHEAD)).
Proof.
  intros fuel st n bp st' Hn Hm.
  destruct (mm_malloc_cases fuel st n bp st' Hn Hm) as (r & Hr & Hc).
  exists r. split; [exact Hr|].
  destruct Hc as [(Hne & Eb & Es)|[(Er & Hf & Eb & Es)|(Er & Eb & Hb & Es)]];
    subst st'.
  - split; [intros _; split; [exact Eb|apply brk_place]|].
    intros H1. contradiction.
  - split; [intros H1; contradiction|]. intros _ H2. contradiction.
  - split; [intros H1; contradiction|]. intros _ _.
    rewrite brk_place, brk_new_block.
    replace (fst (new_block st (ALIGN (n + OVERHEAD))) =? NULL) with false;
      [reflexivity|]. symmetry. apply Z.eqb_neq. rewrite <- Eb. exact Hb.
Qed.

Lemma brk_mm_malloc_le fuel st n bp st' :
  mm_malloc fuel st n = Some (bp, st') -> mem_brk st <= mem_brk st'.
Proof.
  intros Hm. destruct (Z.eq_dec n 0) as [->|Hn].
  - unfold mm_malloc in Hm. simpl in Hm. injection Hm as _ <-. lia.
  - pose proof (ALIGN_range (n + OVERHEAD)) as Ha.
    destruct (mm_malloc_cases fuel st n bp st' Hn Hm) as (r & Hr & Hc).
    destruct Hc as [(Hne & Eb & Es)|[(Er & Hf & Eb & Es)|(Er & Eb & Hb & Es)]];
      subst st'.
    + rewrite brk_place. lia.
    + apply brk_new_block_le. lia.
    + rewrite brk_place. apply brk_new_block_le. lia.
Qed.

Lemma brk_clear_lists n : forall seg st,
  mem_brk (clear_lists n seg st) = mem_brk st.
Proof.
  induction n as [|n IH]; intros seg st; simpl; [reflexivity|].
  destruct (seg <? MAX_SEG); [|reflexivity]. rewrite IH. reflexivity.
Qed.

Lemma brk_mm_init_le st : mem_brk st <= mem_brk (snd (mm_init st)).
Proof.
  unfold mm_init, mem_sbrk.
  destruct ((OVERHEAD + 2 * WORD <? 0)
            || (mem_max_addr st <? mem_brk st + (OVERHEAD + 2 * WORD)));
    cbv beta iota zeta; cbn [snd]; rewrite brk_clear_lists; simpl;
    unfold OVERHEAD, WORD; lia.
Qed.

Lemma brk_mm_realloc_le fuel st bp size p st' :
  mm_realloc fuel st bp size = Some (p, st') -> mem_brk st <= mem_brk st'.
Proof.
  unfold mm_realloc.
  destruct (bp =? NULL); [apply brk_mm_malloc_le|].
  destruct (size =? 0).
  { intros H. injection H as _ <-. rewrite brk_mm_free. lia. }
  destruct (wrap (ALIGN (size + OVERHEAD) + OVERHEAD) <? UNPACK_SIZE st (HEADER bp)).
  { intros H. injection H as _ <-. rewrite brk_split. lia. }
  destruct (ALIGN (size + OVERHEAD) <? UNPACK_SIZE st (HEADER bp)).
  { intros H. injection H as _ <-. lia. }
  match goal with |- context [if ?c then _ else _] => destruct c end.
  { intros H. injection H as _ <-. rewrite brk_split. simpl.
    rewrite brk_list_remove. lia. }
  match goal with |- context [if ?c then _ else _] => destruct c end.
  { intros H. injection H as _ <-. rewrite brk_split. simpl.
    rewrite brk_list_remove. lia. }
  destruct (mm_malloc fuel st size) as [[bp2 st2]|] eqn:Hm; [|discriminate].
  apply brk_mm_malloc_le in Hm.
  destruct (negb (bp2 =? NULL)); intros H; injection H as _ <-.
  - rewrite brk_mm_free. simpl. exact Hm.
  - exact Hm.
Qed.

(** ** Bytes and words that a store leaves alone *)

Lemma mem_set_VALUE st a v x :
  x < a \/ a + 4 <= x -> mem (set_VALUE st a v) x = mem st x.
Proof.
  intros H. unfold set_VALUE, set_mem, store_word. simpl.
  repeat match goal with
         | |- context [?x =? ?y] =>
             replace (x =? y) with false by (symmetry; apply Z.eqb_neq; lia)
         end.
  reflexivity.
Qed.

Lemma VALUE_bytes st st' a :
  (forall x, a <= x < a + 4 -> mem st' x = mem st x) ->
  VALUE st' a = VALUE st a.
Proof.
  intros H. unfold VALUE, load_word, load_byte.
  rewrite !H by lia. reflexivity.
Qed.

(** ** Heap walks *)

Lemma tiles_app st l1 : forall p l2 e,
  tiles st p (l1 ++ l2) e <-> exists m, tiles st p l1 m /\ tiles st m l2 e.
Proof.
  induction l1 as [|b l1 IH]; intros p l2 e; simpl.
  - split.
    + intros H. exists p. split; [constructor|exact H].
    + intros (m & H1 & H2). remember [] as l0 eqn:El.
      destruct H1; [exact H2|discriminate].
  - split.
    + intros H. remember (b :: l1 ++ l2) as l0 eqn:El.
      destruct H as [|p size state bl q Hok Ht]; [discriminate|].
      injection El as <- ->.
      apply IH in Ht. destruct Ht as (m & H1 & H2).
      exists m. split; [constructor; assumption|exact H2].
    + intros (m & H1 & H2). remember (b :: l1) as l0 eqn:El.
      destruct H1 as [|p size state bl q Hok Ht]; [discriminate|].
      injection El as <- ->.
      constructor; [exact Hok|]. apply IH. exists q. split; assumption.
Qed.

Lemma tiles_frame_blocks st st' p bl e :
  tiles st p bl e ->
  (forall q size state, In (q, size, state) bl ->
     VALUE st' (q - 12) = VALUE st (q - 12) /\
     VALUE st' (q - 16 + size) = VALUE st (q - 16 + size)) ->
  tiles st' p bl e.
Proof.
  intros Ht. induction Ht as [p|p size state bl q Hok Ht IH]; intros Hf.
  - constructor.
  - destruct Hok as (H16 & H8 & Hs & Hh & Hft).
    destruct (Hf p size state (or_introl eq_refl)) as [E1 E2].
    constructor.
    + unfold block_ok. rewrite HEADER_eq in *. unfold OVERHEAD in *.
      rewrite E1, E2. repeat split; assumption.
    + apply IH. intros a sa ta Ha. apply (Hf a sa ta). right. exact Ha.
Qed.

Lemma tiles_frame st st' p bl e :
  tiles st p bl e ->
  (forall a, p - 12 <= a -> a + 4 <= e - 12 -> VALUE st' a = VALUE st a) ->
  tiles st' p bl e.
Proof.
  intros Ht. induction Ht as [p|p size state bl q Hok Ht IH]; intros Hf.
  - constructor.
  - pose proof (tiles_le _ _ _ _ Ht) as Hle.
    destruct Hok as (H16 & H8 & Hs & Hh & Hft). unfold OVERHEAD in H16.
    constructor.
    + unfold block_ok. rewrite HEADER_eq in *. unfold OVERHEAD in *.
      rewrite !Hf by lia. repeat split; assumption.
    + apply IH. intros a Ha1 Ha2. apply Hf; lia.
Qed.

Lemma tiles_unique st p bl e : tiles st p bl e ->
  forall q sz1 s1 sz2 s2,
    In (q, sz1, s1) bl -> In (q, sz2, s2) bl -> sz1 = sz2 /\ s1 = s2.
Proof.
  intros Ht. induction Ht as [p|p size state bl e Hok Ht IH];
    intros q sz1 s1 sz2 s2 H1 H2; [contradiction|].
  pose proof (tiles_in _ _ _ _ Ht) as Hin.
  destruct Hok as (H16 & _). unfold OVERHEAD in H16.
  destruct H1 as [E1|H1]; destruct H2 as [E2|H2].
  - injection E1 as <- <- <-. injection E2 as <- <-. split; reflexivity.
  - injection E1 as <- <- <-. destruct (Hin _ _ _ H2) as (_ & Hl & _). lia.
  - injection E2 as <- <- <-. destruct (Hin _ _ _ H1) as (_ & Hl & _). lia.
  - eapply IH; eassumption.
Qed.

Lemma tiles_head st p bl e q size state :
  tiles st p bl e -> In (q, size, state) bl -> q = p ->
  exists bl', bl = (q, size, state) :: bl'.
Proof.
  intros Ht Hin E. remember bl as l0 eqn:El.
  destruct Ht as [|p size0 state0 bl0 e Hok Ht]; [contradiction|].
  destruct Hin as [Hin|Hin].
  - exists bl0. rewrite Hin. reflexivity.
  - destruct (tiles_in _ _ _ _ Ht _ _ _ Hin) as (_ & Hl & _).
    destruct Hok as (H16 & _). unfold OVERHEAD in H16. lia.
Qed.

Lemma tiles_mod8 st p bl e : tiles st p bl e -> p mod 8 = 0 ->
  e mod 8 = 0 /\ forall q size state, In (q, size, state) bl -> q mod 8 = 0.
Proof.
  intros Ht. induction Ht as [p|p size state bl e Hok Ht IH]; intros Hp.
  - split; [exact Hp|]. intros q size state [].
  - destruct Hok as (_ & H8 & _).
    assert (Hp' : (p + size) mod 8 = 0)
      by (rewrite Z.add_mod, Hp, H8 by lia; reflexivity).
    destruct (IH Hp') as [He Hq]. split; [exact He|].
    intros q sz s [E|Hin]; [injection E as <- <- <-; exact Hp|].
    eapply Hq; eassumption.
Qed.

(** The walk around one of its blocks. *)
Lemma tiles_split st p bl e q size state :
  tiles st p bl e -> In (q, size, state) bl ->
  exists l1 l2,
    bl = l1 ++ (q, size, state) :: l2 /\
    tiles st p l1 q /\ block_ok st (q, size, state) /\
    tiles st (q + size) l2 e.
Proof.
  intros Ht Hin. destruct (in_split _ _ Hin) as (l1 & l2 & E).
  exists l1, l2. split; [exact E|]. rewrite E in Ht.
  apply tiles_app in Ht. destruct Ht as (m & H1 & H2).
  remember ((q, size, state) :: l2) as l0 eqn:El.
  destruct H2 as [|p0 size0 state0 bl0 e Hok H2]; [discriminate|].
  injection El as E1 E2 E3 E4. subst. split; [|split]; assumption.
Qed.

Lemma in_middle {A} (x b : A) l1 l2 :
  In x (l1 ++ b :: l2) <-> In x l1 \/ x = b \/ In x l2.
Proof.
  rewrite in_app_iff. simpl. intuition congruence.
Qed.

(** ** Neighbours that are both free *)

Lemma no_adjacent_free_apart st p bl e :
  tiles st p bl e -> no_adjacent_free bl ->
  forall p1 sz1 p2 sz2,
    In (p1, sz1, FREE) bl -> In (p2, sz2, FREE) bl -> p2 = p1 + sz1 -> False.
Proof.
  intros Ht. induction Ht as [p|p size state bl e Hok Ht IH];
    intros Hn p1 sz1 p2 sz2 H1 H2 E; [contradiction|].
  pose proof (tiles_in _ _ _ _ Ht) as Hin.
  pose proof Hok as (H16 & _). unfold OVERHEAD in H16.
  simpl in Hn. destruct Hn as [Hn Hn'].
  destruct H1 as [E1|H1]; destruct H2 as [E2|H2].
  - injection E1 as ? ? ?. injection E2 as ? ? ?. lia.
  - injection E1 as ? ? ?. subst p1 sz1 state.
    destruct (tiles_head _ _ _ _ _ _ _ Ht H2 E) as (bl' & Ebl).
    rewrite Ebl in Hn. apply Hn. split; reflexivity.
  - injection E2 as ? ? ?. subst p2. destruct (Hin _ _ _ H1) as (Hok1 & Hl & _).
    destruct Hok1 as (H16' & _). unfold OVERHEAD in H16'. lia.
  - exact (IH Hn' _ _ _ _ H1 H2 E).
Qed.

Lemma apart_no_adjacent_free st p bl e :
  tiles st p bl e ->
  (forall p1 sz1 p2 sz2,
     In (p1, sz1, FREE) bl -> In (p2, sz2, FREE) bl -> p2 = p1 + sz1 -> False) ->
  no_adjacent_free bl.
Proof.
  intros Ht. induction Ht as [p|p size state bl e Hok Ht IH]; intros H.
  - exact I.
  - simpl. split.
    + remember (p + size) as p' eqn:Ep.
      destruct Ht as [|p' size' state' bl' e Hok' Ht']; [exact I|].
      intros [E1 E2]. subst state state'.
      apply (H p size p' size'); [left; reflexivity|right; left; reflexivity|exact Ep].
    + apply IH. intros p1 sz1 p2 sz2 H1 H2.
      apply (H p1 sz1 p2 sz2); right; assumption.
Qed.

(** ** Between the invariants and the heap in the middle of an operation *)

Lemma heap_pre_of_inv lo st bl L :
  heap_inv lo st bl L -> heap_pre lo st bl L (fun _ => False).
Proof.
  intros [Hb Hsp Hs Ht Hterm Hc Hl Hm]. constructor; try assumption.
  - intros p1 sz1 p2 sz2 H1 H2 E. exfalso.
    exact (no_adjacent_free_apart _ _ _ _ Ht Hc _ _ _ _ H1 H2 E).
  - intros seg bp Hseg. rewrite (Hm seg bp Hseg). split.
    + intros (size & H1 & H2). exists size. repeat split; auto.
    + intros (size & H1 & H2 & _). exists size. split; assumption.
Qed.

Lemma heap_inv_of_pre lo st bl L d :
  heap_pre lo st bl L d ->
  (forall p size, In (p, size, FREE) bl -> ~ d p) ->
  heap_inv lo st bl L.
Proof.
  intros [Hb Hsp Hs Ht Hterm Hc Hl Hm] Hd. constructor; try assumption.
  - apply (apart_no_adjacent_free _ _ _ _ Ht).
    intros p1 sz1 p2 sz2 H1 H2 E.
    destruct (Hc _ _ _ _ H1 H2 E) as [D|D];
      [exact (Hd _ _ H1 D)|exact (Hd _ _ H2 D)].
  - intros seg bp Hseg. rewrite (Hm seg bp Hseg). split.
    + intros (size & H1 & H2 & _). exists size. split; assumption.
    + intros (size & H1 & H2). exists size. repeat split; auto.
      exact (Hd _ _ H1).
Qed.

(** Only the detached blocks that are free blocks of the walk matter. *)
Lemma heap_pre_detached lo st bl L d d' :
  heap_pre lo st bl L d ->
  (forall p size, In (p, size, FREE) bl -> (d p <-> d' p)) ->
  heap_pre lo st bl L d'.
Proof.
  intros [Hb Hsp Hs Ht Hterm Hc Hl Hm] Hd. constructor; try assumption.
  - intros p1 sz1 p2 sz2 H1 H2 E.
    destruct (Hc _ _ _ _ H1 H2 E) as [D|D];
      [left; apply (Hd _ _ H1); exact D|right; apply (Hd _ _ H2); exact D].
  - intros seg bp Hseg. rewrite (Hm seg bp Hseg). split.
    + intros (size & H1 & H2 & H3). exists size. repeat split; auto.
      intros D. apply H3. apply (Hd _ _ H1). exact D.
    + intros (size & H1 & H2 & H3). exists size. repeat split; auto.
      intros D. apply H3. apply (Hd _ _ H1). exact D.
Qed.

(** ** Segments of doubly linked lists *)

Lemma dlist_dseg st l : forall prev hd tl,
  dlist st prev l hd tl <-> dseg st prev l hd tl NULL.
Proof.
  induction l as [|x l IH]; intros prev hd tl; simpl; [tauto|].
  rewrite IH. tauto.
Qed.

Lemma dseg_frame st st' l : forall prev hd tl nxt,
  dseg st prev l hd tl nxt ->
  (forall x, In x l ->
     PREV_FREE st' x = PREV_FREE st x /\ NEXT_FREE st' x = NEXT_FREE st x) ->
  dseg st' prev l hd tl nxt.
Proof.
  induction l as [|x l IH]; intros prev hd tl nxt H Hf; simpl in *; [exact H|].
  destruct H as (E & Hx & Hp & Hr).
  destruct (Hf x (or_introl eq_refl)) as [Ep En].
  rewrite Ep, En. repeat split; try assumption.
  apply IH; [exact Hr|]. intros y Hy. apply Hf. right. exact Hy.
Qed.

Lemma dseg_app st l1 : forall prev l2 hd tl nxt,
  dseg st prev (l1 ++ l2) hd tl nxt <->
  exists t1 m, dseg st prev l1 hd t1 m /\ dseg st t1 l2 m tl nxt.
Proof.
  induction l1 as [|x l1 IH]; intros prev l2 hd tl nxt; simpl.
  - split.
    + intros H. exists prev, hd. auto.
    + intros (t1 & m & [-> ->] & H). exact H.
  - rewrite IH. split.
    + intros (E & Hx & Hp & t1 & m & H1 & H2). exists t1, m. auto.
    + intros (t1 & m & (E & Hx & Hp & H1) & H2).
      repeat split; try assumption. exists t1, m. auto.
Qed.

(** The last node of a segment, or the node before it. *)
Lemma dseg_tail st l : forall prev hd tl nxt,
  dseg st prev l hd tl nxt ->
  (l = [] /\ tl = prev /\ hd = nxt)
  \/ (exists l', l = l' ++ [tl]) /\ tl <> NULL /\ NEXT_FREE st tl = nxt.
Proof.
  induction l as [|x l IH]; intros prev hd tl nxt H; simpl in H.
  - left. destruct H. auto.
  - right. destruct H as (E & Hx & Hp & Hr).
    destruct (IH _ _ _ _ Hr) as [(El & Et & En)|((l' & El) & Ht & Hn)].
    + subst l tl. repeat split; auto. exists []. reflexivity.
    + repeat split; auto. exists (x :: l'). rewrite El. reflexivity.
Qed.

Lemma dseg_head st l prev hd tl nxt :
  dseg st prev l hd tl nxt ->
  (l = [] /\ tl = prev /\ hd = nxt)
  \/ (exists l', l = hd :: l') /\ hd <> NULL /\ PREV_FREE st hd = prev.
Proof.
  destruct l as [|x l]; simpl; intros H.
  - left. destruct H. auto.
  - right. destruct H as (-> & Hx & Hp & Hr). repeat split; auto.
    exists l. reflexivity.
Qed.

(** ** Stores into the link words of a list node *)

Ltac links :=
  unfold NEXT_FREE, PREV_FREE, set_NEXT_FREE, set_PREV_FREE, WORD;
  repeat first [ rewrite VALUE_set_first
               | rewrite VALUE_set_last
               | rewrite VALUE_set_same
               | rewrite VALUE_set_other by lia ].

Lemma NEXT_set_NEXT st x v : NEXT_FREE (set_NEXT_FREE st x v) x = wrap v.
Proof. links. reflexivity. Qed.

Lemma PREV_set_PREV st x v : PREV_FREE (set_PREV_FREE st x v) x = wrap v.
Proof. links. reflexivity. Qed.

Lemma PREV_set_NEXT st x v y :
  y <= x \/ x + 8 <= y -> PREV_FREE (set_NEXT_FREE st x v) y = PREV_FREE st y.
Proof. intros H. links. reflexivity. Qed.

Lemma NEXT_set_PREV st x v y :
  y + 8 <= x \/ x <= y -> NEXT_FREE (set_PREV_FREE st x v) y = NEXT_FREE st y.
Proof. intros H. links. reflexivity. Qed.

Lemma NEXT_set_NEXT_far st x v y :
  y + 4 <= x \/ x + 4 <= y -> NEXT_FREE (set_NEXT_FREE st x v) y = NEXT_FREE st y.
Proof. intros H. links. reflexivity. Qed.

Lemma PREV_set_PREV_far st x v y :
  y + 4 <= x \/ x + 4 <= y -> PREV_FREE (set_PREV_FREE st x v) y = PREV_FREE st y.
Proof. intros H. links. reflexivity. Qed.

(** A segment whose nodes are away from [x] does not see the links of [x]. *)
Lemma dseg_set_NEXT_far st x v l prev hd tl nxt :
  dseg st prev l hd tl nxt ->
  (forall y, In y l -> y + 8 <= x \/ x + 8 <= y) ->
  dseg (set_NEXT_FREE st x v) prev l hd tl nxt.
Proof.
  intros H Hf. apply (dseg_frame st); [exact H|].
  intros y Hy. specialize (Hf y Hy).
  rewrite PREV_set_NEXT, NEXT_set_NEXT_far by lia. split; reflexivity.
Qed.

Lemma dseg_set_PREV_far st x v l prev hd tl nxt :
  dseg st prev l hd tl nxt ->
  (forall y, In y l -> y + 8 <= x \/ x + 8 <= y) ->
  dseg (set_PREV_FREE st x v) prev l hd tl nxt.
Proof.
  intros H Hf. apply (dseg_frame st); [exact H|].
  intros y Hy. specialize (Hf y Hy).
  rewrite NEXT_set_PREV, PREV_set_PREV_far by lia. split; reflexivity.
Qed.

Lemma dseg_set_first st seg v l prev hd tl nxt :
  dseg st prev l hd tl nxt -> dseg (set_first st seg v) prev l hd tl nxt.
Proof.
  intros H. apply (dseg_frame st); [exact H|]. intros; split; reflexivity.
Qed.

Lemma dseg_set_last st seg v l prev hd tl nxt :
  dseg st prev l hd tl nxt -> dseg (set_last st seg v) prev l hd tl nxt.
Proof.
  intros H. apply (dseg_frame st); [exact H|]. intros; split; reflexivity.
Qed.

Lemma spaced_nodes_tail x l : spaced_nodes (x :: l) -> spaced_nodes l.
Proof.
  intros H a b Ha Hb. apply H; right; assumption.
Qed.

(** Storing the next pointer of the last node of a segment. *)
Lemma dseg_set_next st v l : forall prev hd tl nxt,
  dseg st prev l hd tl nxt -> l <> [] -> NoDup l -> spaced_nodes l ->
  dseg (set_NEXT_FREE st tl v) prev l hd tl (wrap v).
Proof.
  induction l as [|x l IH]; intros prev hd tl nxt H Hne Hnd Hsp;
    [congruence|].
  simpl in H. destruct H as (E & Hx & Hp & Hr).
  apply NoDup_cons_iff in Hnd. destruct Hnd as [Hnx Hnd].
  destruct (dseg_tail _ _ _ _ _ _ Hr) as [(El & Et & En)|((l' & El) & Ht & Hn)].
  - subst l tl. simpl. rewrite NEXT_set_NEXT, PREV_set_NEXT by lia.
    repeat split; assumption.
  - assert (Hin : In tl l) by (rewrite El; apply in_app_iff; right; left; reflexivity).
    assert (Hxt : x <> tl) by (intros ->; contradiction).
    destruct (Hsp x tl (or_introl eq_refl) (or_intror Hin)) as [F|F];
      [contradiction|].
    simpl. rewrite PREV_set_NEXT, NEXT_set_NEXT_far by lia.
    repeat split; try assumption.
    apply (IH _ _ _ nxt); auto.
    + intros ->. destruct l'; discriminate.
    + eapply spaced_nodes_tail; eassumption.
Qed.

(** Storing the previous pointer of the first node of a segment. *)
Lemma dseg_set_prev st v l prev hd tl nxt :
  dseg st prev l hd tl nxt -> l <> [] -> NoDup l -> spaced_nodes l ->
  dseg (set_PREV_FREE st hd v) (wrap v) l hd tl nxt.
Proof.
  destruct l as [|x l]; intros H Hne Hnd Hsp; [congruence|].
  simpl in H. destruct H as (-> & Hx & Hp & Hr).
  apply NoDup_cons_iff in Hnd. destruct Hnd as [Hnx Hnd].
  simpl. rewrite PREV_set_PREV, NEXT_set_PREV by lia.
  repeat split; try assumption.
  apply dseg_set_PREV_far; [exact Hr|].
  intros y Hy.
  destruct (Hsp x y (or_introl eq_refl) (or_intror Hy)) as [F|F]; [|lia].
  subst y. contradiction.
Qed.

Lemma remove_middle (x : Z) l1 l2 :
  ~ In x l1 -> ~ In x l2 -> remove Z.eq_dec x (l1 ++ x :: l2) = l1 ++ l2.
Proof.
  intros H1 H2. rewrite remove_app. simpl.
  destruct (Z.eq_dec x x) as [_|F]; [|contradiction].
  rewrite !notin_remove by assumption. reflexivity.
Qed.

Lemma max_list_remove st bp : mem_max_addr (list_remove st bp) = mem_max_addr st.
Proof.
  unfold list_remove.
  destruct (negb (PREV_FREE st bp =? NULL));
    destruct (negb (NEXT_FREE st bp =? NULL)); reflexivity.
Qed.

Lemma max_list_add st bp : mem_max_addr (list_add st bp) = mem_max_addr st.
Proof.
  unfold list_add.
  destruct (last st (list_find (UNPACK_SIZE st (HEADER bp))) =? NULL);
    reflexivity.
Qed.

(** ** Facts about a heap in the middle of an operation *)

Section Pre.

Variable lo : Z.
Variable st : heap.
Variable bl : list block.
Variable L : Z -> list Z.
Variable d : Z -> Prop.
Hypothesis Hpre : heap_pre lo st bl L d.

Lemma pre_block q size state :
  In (q, size, state) bl ->
  16 <= size /\ size mod 8 = 0 /\ (state = FREE \/ state = ALLOCATED) /\
  lo + 32 <= q /\ q + size <= mem_brk st + 8 /\ q mod 8 = 0 /\ q < 2 ^ 32 /\
  UNPACK_SIZE st (HEADER q) = size /\ UNPACK_STATE st (HEADER q) = state /\
  VALUE st (q - 12) = PACK size state /\
  VALUE st (q - 16 + size) = PACK size state.
Proof.
  intros Hin.
  destruct (tiles_in _ _ _ _ (pre_tiles _ _ _ _ _ Hpre) _ _ _ Hin)
    as (Hok & Hl & Hr).
  destruct (block_ok_size _ _ _ _ Hok) as (H16 & H8 & Hs & Hst).
  destruct (pre_base _ _ _ _ _ Hpre) as [Hlo Hlo8].
  destruct (pre_space _ _ _ _ _ Hpre) as [Hsp Hmax].
  assert (Hp8 : (lo + 32) mod 8 = 0)
    by (rewrite Z.add_mod, Hlo8 by lia; reflexivity).
  destruct (tiles_mod8 _ _ _ _ (pre_tiles _ _ _ _ _ Hpre) Hp8) as [_ Hq8].
  destruct Hok as (_ & _ & Hs01 & Hh & Hf).
  rewrite HEADER_eq in Hh. unfold OVERHEAD in Hf.
  repeat split; try assumption; try lia.
  eapply Hq8; eassumption.
Qed.

Lemma pre_far q1 sz1 s1 q2 sz2 s2 :
  In (q1, sz1, s1) bl -> In (q2, sz2, s2) bl ->
  (q1 = q2 /\ sz1 = sz2 /\ s1 = s2) \/ q1 + sz1 <= q2 \/ q2 + sz2 <= q1.
Proof.
  intros H1 H2.
  destruct (tiles_disjoint _ _ _ _ (pre_tiles _ _ _ _ _ Hpre) _ _ _ _ _ _ H1 H2)
    as [E|E]; [|right; exact E].
  left. subst q2.
  destruct (tiles_unique _ _ _ _ (pre_tiles _ _ _ _ _ Hpre) _ _ _ _ _ H1 H2).
  auto.
Qed.

Lemma pre_brk_low : lo + 24 <= mem_brk st.
Proof.
  pose proof (tiles_le _ _ _ _ (pre_tiles _ _ _ _ _ Hpre)). lia.
Qed.

Lemma pre_node seg x :
  0 <= seg < MAX_SEG -> In x (L seg) ->
  exists size, In (x, size, FREE) bl /\ list_find size = seg /\ ~ d x.
Proof.
  intros Hseg Hin. apply (pre_members _ _ _ _ _ Hpre seg x Hseg). exact Hin.
Qed.

Lemma pre_nodes_far seg1 x seg2 y :
  0 <= seg1 < MAX_SEG -> In x (L seg1) ->
  0 <= seg2 < MAX_SEG -> In y (L seg2) ->
  (x = y /\ seg1 = seg2) \/ x + 16 <= y \/ y + 16 <= x.
Proof.
  intros Hs1 Hx Hs2 Hy.
  destruct (pre_node _ _ Hs1 Hx) as (sx & Hbx & Hfx & _).
  destruct (pre_node _ _ Hs2 Hy) as (sy & Hby & Hfy & _).
  destruct (pre_block _ _ _ Hbx) as (Hx16 & _).
  destruct (pre_block _ _ _ Hby) as (Hy16 & _).
  destruct (pre_far _ _ _ _ _ _ Hbx Hby) as [(E1 & E2 & _)|E]; [|lia].
  left. split; [exact E1|]. congruence.
Qed.

Lemma pre_spaced seg : 0 <= seg < MAX_SEG -> spaced_nodes (L seg).
Proof.
  intros Hseg x y Hx Hy.
  destruct (pre_nodes_far _ _ _ _ Hseg Hx Hseg Hy) as [[E _]|E]; auto.
Qed.

Lemma pre_node_far seg x q size state :
  0 <= seg < MAX_SEG -> In x (L seg) -> In (q, size, state) bl ->
  x = q \/ x + 16 <= q \/ q + size <= x.
Proof.
  intros Hseg Hx Hq.
  destruct (pre_node _ _ Hseg Hx) as (sx & Hbx & _).
  destruct (pre_block _ _ _ Hbx) as (Hx16 & _).
  destruct (pre_far _ _ _ _ _ _ Hbx Hq) as [(E1 & _)|E]; [auto|lia].
Qed.

(** The part of the invariants that a store into link words of free
    blocks cannot break. *)
Lemma heap_pre_relink st' L' (d' : Z -> Prop) :
  mem_brk st' = mem_brk st -> mem_max_addr st' = mem_max_addr st ->
  (forall a,
     (forall x size, In (x, size, FREE) bl -> a + 4 <= x - 8 \/ x <= a) ->
     VALUE st' a = VALUE st a) ->
  (forall p1 sz1 p2 sz2,
     In (p1, sz1, FREE) bl -> In (p2, sz2, FREE) bl -> p2 = p1 + sz1 ->
     d' p1 \/ d' p2) ->
  (forall seg, 0 <= seg < MAX_SEG ->
     dlist st' NULL (L' seg) (first st' seg) (last st' seg) /\ NoDup (L' seg)) ->
  (forall seg bp, 0 <= seg < MAX_SEG ->
     (In bp (L' seg) <->
      exists size, In (bp, size, FREE) bl /\ list_find size = seg /\ ~ d' bp)) ->
  heap_pre lo st' bl L' d'.
Proof.
  intros Hbrk Hmax Hf Hc Hl Hm.
  pose proof pre_brk_low as Hlow.
  destruct Hpre as [Hb Hsp Hs Ht Hterm _ _ _].
  constructor; try assumption.
  - rewrite Hbrk, Hmax. exact Hsp.
  - rewrite !Hf; [exact Hs| |];
      intros x size Hx; destruct (pre_block _ _ _ Hx) as (? & ? & ? & ? & _); lia.
  - rewrite Hbrk.
    apply (tiles_frame_blocks st); [exact Ht|].
    intros q size state Hq.
    destruct (pre_block _ _ _ Hq) as (Hq16 & _).
    split; apply Hf; intros x sx Hx;
      destruct (pre_block _ _ _ Hx) as (Hx16 & _);
      destruct (pre_far _ _ _ _ _ _ Hq Hx) as [(E1 & E2 & _)|E]; lia.
  - rewrite Hbrk, Hf; [exact Hterm|].
    intros x size Hx. destruct (pre_block _ _ _ Hx) as (? & ? & ? & ? & ? & _).
    lia.
Qed.

End Pre.

Lemma wrap_VALUE st a : wrap (VALUE st a) = VALUE st a.
Proof. apply wrap_small. apply VALUE_range. Qed.

Lemma list_remove_first st bp seg :
  first (list_remove st bp) seg
  = if (PREV_FREE st bp =? NULL)
       && (seg =? list_find (UNPACK_SIZE st (HEADER bp)))
    then NEXT_FREE st bp else first st seg.
Proof.
  unfold list_remove.
  destruct (PREV_FREE st bp =? NULL); destruct (NEXT_FREE st bp =? NULL);
    simpl; try reflexivity;
    destruct (seg =? list_find (UNPACK_SIZE st (HEADER bp))); reflexivity.
Qed.

(** Unlinking a node of a doubly linked list. *)
Lemma list_remove_dlist st bp l1 l2 seg :
  seg = list_find (UNPACK_SIZE st (HEADER bp)) ->
  dlist st NULL (l1 ++ bp :: l2) (first st seg) (last st seg) ->
  NoDup (l1 ++ bp :: l2) -> spaced_nodes (l1 ++ bp :: l2) ->
  dlist (list_remove st bp) NULL (l1 ++ l2)
        (first (list_remove st bp) seg) (last (list_remove st bp) seg).
Proof.
  intros Eseg Hd Hnd Hsp.
  apply dlist_dseg in Hd. apply dlist_dseg.
  apply dseg_app in Hd. destruct Hd as (t1 & m & H1 & H2).
  simpl in H2. destruct H2 as (Em & Hbp & Hpv & H3). subst m.
  rewrite list_remove_first, list_remove_last, <- Eseg, Z.eqb_refl, !andb_true_r.
  assert (Hfar : forall x y, In x (l1 ++ l2) -> In y (l1 ++ l2) ->
                   x = y \/ x + 16 <= y \/ y + 16 <= x).
  { intros x y Hx Hy. apply Hsp; apply in_middle;
      apply in_app_iff in Hx; apply in_app_iff in Hy; tauto. }
  destruct (NoDup_remove _ _ _ Hnd) as [Hnd' _].
  unfold list_remove. rewrite <- Eseg. subst t1.
  remember (PREV_FREE st bp) as t1 eqn:Hpv.
  remember (NEXT_FREE st bp) as next eqn:En.
  destruct (dseg_tail _ _ _ _ _ _ H1) as [(El1 & Et1 & Ef)|((l1' & El1) & Ht1 & Hnx1)];
    destruct (dseg_head _ _ _ _ _ _ H3) as [(El2 & Etl & Enx)|((l2' & El2) & Hnx & Hpn)].
  - subst l1 l2. rewrite Et1, Enx. simpl. auto.
  - subst l1. rewrite Et1. simpl.
    destruct (Z.eqb_spec next NULL) as [F|_]; [contradiction|]. simpl.
    rewrite El2 in *. simpl in H3. destruct H3 as (_ & _ & _ & H3).
    simpl in Hnd'. apply NoDup_cons_iff in Hnd'. destruct Hnd' as [Hn Hnd'].
    cbn [dseg]. rewrite PREV_set_PREV, NEXT_set_PREV by lia.
    repeat split; auto.
    apply dseg_set_PREV_far; [apply dseg_set_first; exact H3|].
    intros y Hy.
    destruct (Hfar next y (or_introl eq_refl) (or_intror Hy)) as [F|F]; [|lia].
    subst y. contradiction.
  - subst l2. rewrite Enx. rewrite app_nil_r in *.
    destruct (Z.eqb_spec t1 NULL) as [F|_]; [contradiction|]. simpl.
    apply dseg_set_last.
    replace NULL with (wrap NULL) at 2 by reflexivity.
    apply (dseg_set_next st NULL l1 NULL (first st seg) t1 bp);
      [exact H1| |exact Hnd'|exact Hfar].
    rewrite El1. destruct l1'; discriminate.
  - destruct (Z.eqb_spec t1 NULL) as [F|_]; [contradiction|].
    destruct (Z.eqb_spec next NULL) as [F|_]; [contradiction|]. simpl.
    assert (Hi1 : In t1 l1)
      by (rewrite El1; apply in_app_iff; right; left; reflexivity).
    assert (Hi2 : In next l2) by (rewrite El2; left; reflexivity).
    assert (Hd1 : NoDup l1) by (eapply NoDup_app_remove_r; exact Hnd').
    assert (Hd2 : NoDup l2) by (eapply NoDup_app_remove_l; exact Hnd').
    assert (Hne : forall x y, In x l1 -> In y l2 -> x <> y).
    { intros x y Hx Hy ->. revert Hnd' Hx Hy. clear. induction l1 as [|a l1 IH]; simpl.
      - tauto.
      - intros Hnd [E|Hx] Hy.
        + subst a. apply NoDup_cons_iff in Hnd. destruct Hnd as [F _].
          apply F. apply in_app_iff. auto.
        + apply NoDup_cons_iff in Hnd. destruct Hnd as [_ Hnd]. auto. }
    apply dseg_app. exists t1, next. split.
    + apply dseg_set_PREV_far.
      * rewrite <- (wrap_small next) at 2 by (rewrite En; apply VALUE_range).
        apply (dseg_set_next st next l1 NULL (first st seg) t1 bp);
          [exact H1| |exact Hd1|].
        -- rewrite El1. destruct l1'; discriminate.
        -- intros x y Hx Hy. apply Hfar; apply in_app_iff; auto.
      * intros y Hy.
        destruct (Hfar y next) as [F|F]; try (apply in_app_iff; auto); [|lia].
        exfalso. exact (Hne _ _ Hy Hi2 F).
    + rewrite <- (wrap_small t1) at 3 by (rewrite Hpv; apply VALUE_range).
      apply (dseg_set_prev _ t1 l2 bp next (last st seg) NULL);
        [| |exact Hd2|].
      * apply dseg_set_NEXT_far; [exact H3|].
        intros y Hy.
        destruct (Hfar t1 y) as [F|F]; try (apply in_app_iff; auto); [|lia].
        exfalso. exact (Hne _ _ Hi1 Hy F).
      * rewrite El2. discriminate.
      * intros x y Hx Hy. apply Hfar; apply in_app_iff; auto.
Qed.

Lemma list_add_first st bp seg :
  first (list_add st bp) seg
  = if (last st (list_find (UNPACK_SIZE st (HEADER bp))) =? NULL)
       && (seg =? list_find (UNPACK_SIZE st (HEADER bp)))
    then bp else first st seg.
Proof.
  unfold list_add.
  destruct (last st (list_find (UNPACK_SIZE st (HEADER bp))) =? NULL);
    simpl; reflexivity.
Qed.

Lemma PREV_set_last st seg v x :
  PREV_FREE (set_last st seg v) x = PREV_FREE st x.
Proof. reflexivity. Qed.

Lemma NEXT_set_last st seg v x :
  NEXT_FREE (set_last st seg v) x = NEXT_FREE st x.
Proof. reflexivity. Qed.

(** Appending a node to a doubly linked list. *)
Lemma list_add_dlist st bp l seg :
  seg = list_find (UNPACK_SIZE st (HEADER bp)) ->
  dlist st NULL l (first st seg) (last st seg) ->
  NoDup l -> ~ In bp l -> spaced_nodes (bp :: l) ->
  (forall x, In x l -> 0 <= x < 2 ^ 32) ->
  bp <> NULL -> 0 <= bp < 2 ^ 32 ->
  dlist (list_add st bp) NULL (l ++ [bp])
        (first (list_add st bp) seg) (last (list_add st bp) seg).
Proof.
  intros Eseg Hd Hnd Hnin Hsp Hrange Hbp Hbr.
  apply dlist_dseg in Hd. apply dlist_dseg.
  rewrite list_add_first, list_add_last, <- Eseg, Z.eqb_refl, andb_true_r.
  unfold list_add. rewrite <- Eseg.
  destruct (dseg_tail _ _ _ _ _ _ Hd) as [(El & Et & Ef)|((l' & El) & Ht & Hn)].
  - rewrite Et. simpl (NULL =? NULL). cbv iota. subst l. cbn [app dseg].
    rewrite PREV_set_PREV, NEXT_set_PREV, NEXT_set_NEXT by lia.
    repeat split; auto.
  - destruct (Z.eqb_spec (last st seg) NULL) as [F|_]; [contradiction|].
    remember (last st seg) as tl eqn:Etl.
    assert (Hin : In tl l)
      by (rewrite El; apply in_app_iff; right; left; reflexivity).
    assert (Hfar : forall y, In y l -> y + 8 <= bp \/ bp + 8 <= y).
    { intros y Hy.
      destruct (Hsp bp y (or_introl eq_refl) (or_intror Hy)) as [F|F]; [|lia].
      subst y. contradiction. }
    apply dseg_app. exists tl, bp. split.
    + apply dseg_set_last. apply dseg_set_NEXT_far; [|exact Hfar].
      apply dseg_set_PREV_far; [|exact Hfar].
      rewrite <- (wrap_small bp) at 2 by exact Hbr.
      apply (dseg_set_next st bp l NULL (first st seg) tl NULL);
        [exact Hd| |exact Hnd|].
      * rewrite El. destruct l'; discriminate.
      * eapply spaced_nodes_tail. exact Hsp.
    + cbn [dseg]. rewrite PREV_set_last, NEXT_set_last.
      rewrite PREV_set_NEXT, PREV_set_PREV, NEXT_set_NEXT by lia.
      change (last (set_NEXT_FREE st tl bp) seg) with (last st seg).
      rewrite <- Etl, (wrap_small tl) by (apply Hrange; exact Hin).
      repeat split; auto.
Qed.

Lemma list_remove_mem st bp x :
  PREV_FREE st bp = NULL \/ x < PREV_FREE st bp - 4 \/ PREV_FREE st bp <= x ->
  NEXT_FREE st bp = NULL \/ x < NEXT_FREE st bp - 8 \/ NEXT_FREE st bp - 4 <= x ->
  mem (list_remove st bp) x = mem st x.
Proof.
  intros Hp Hn. unfold list_remove, set_NEXT_FREE, set_PREV_FREE, WORD.
  destruct (Z.eqb_spec (PREV_FREE st bp) NULL) as [Ep|Ep];
    destruct (Z.eqb_spec (NEXT_FREE st bp) NULL) as [En|En]; simpl negb; cbv iota.
  - reflexivity.
  - rewrite mem_set_VALUE by (destruct Hn as [F|F]; [contradiction|lia]).
    reflexivity.
  - change (mem (set_VALUE st (PREV_FREE st bp - 4) (NEXT_FREE st bp)) x = mem st x).
    rewrite mem_set_VALUE by (destruct Hp as [F|F]; [contradiction|lia]).
    reflexivity.
  - rewrite !mem_set_VALUE;
      [reflexivity
      |destruct Hp as [F|F]; [contradiction|lia]
      |destruct Hn as [F|F]; [contradiction|lia]].
Qed.

Lemma list_add_mem st bp x :
  last st (list_find (UNPACK_SIZE st (HEADER bp))) = NULL
  \/ x < last st (list_find (UNPACK_SIZE st (HEADER bp))) - 4
  \/ last st (list_find (UNPACK_SIZE st (HEADER bp))) <= x ->
  x < bp - 8 \/ bp <= x ->
  mem (list_add st bp) x = mem st x.
Proof.
  intros Hl Hb. unfold list_add, set_NEXT_FREE, set_PREV_FREE, WORD.
  destruct (Z.eqb_spec (last st (list_find (UNPACK_SIZE st (HEADER bp)))) NULL)
    as [El|El].
  - rewrite !mem_set_VALUE by lia. reflexivity.
  - change (mem (set_VALUE (set_VALUE (set_VALUE st
              (last st (list_find (UNPACK_SIZE st (HEADER bp))) - 4) bp)
              (bp - 2 * 4) (last st (list_find (UNPACK_SIZE st (HEADER bp)))))
              (bp - 4) NULL) x = mem st x).
    rewrite !mem_set_VALUE;
      [reflexivity|destruct Hl as [F|F]; [contradiction|lia]|lia|lia].
Qed.

Section ListOps.

Variable lo : Z.
Variable st : heap.
Variable bl : list block.
Variable L : Z -> list Z.
Variable d : Z -> Prop.
Hypothesis Hpre : heap_pre lo st bl L d.

(** The links of a node lead to null or to free blocks of the walk. *)
Lemma pre_links seg bp :
  0 <= seg < MAX_SEG -> In bp (L seg) ->
  (PREV_FREE st bp = NULL
   \/ (In (PREV_FREE st bp) (L seg) /\ PREV_FREE st bp <> bp))
  /\ (NEXT_FREE st bp = NULL
      \/ (In (NEXT_FREE st bp) (L seg) /\ NEXT_FREE st bp <> bp)).
Proof.
  intros Hseg Hin. destruct (pre_lists _ _ _ _ _ Hpre seg Hseg) as [Hd Hnd].
  exact (dlist_links _ _ _ _ _ Hd Hnd bp Hin).
Qed.

Lemma pre_last seg :
  0 <= seg < MAX_SEG ->
  (L seg = [] /\ last st seg = NULL)
  \/ (In (last st seg) (L seg) /\ NEXT_FREE st (last st seg) = NULL).
Proof.
  intros Hseg. destruct (pre_lists _ _ _ _ _ Hpre seg Hseg) as [Hd _].
  destruct (dlist_tail _ _ _ _ _ Hd) as [[E1 E2]|H]; [left; auto|right; exact H].
Qed.

Lemma pre_node_range seg x :
  0 <= seg < MAX_SEG -> In x (L seg) -> x <> NULL /\ 0 <= x < 2 ^ 32.
Proof.
  intros Hseg Hin.
  destruct (pre_node _ _ _ _ _ Hpre _ _ Hseg Hin) as (sx & Hb & _).
  destruct (pre_block _ _ _ _ _ Hpre _ _ _ Hb) as (_ & _ & _ & Hl & _ & _ & Hr & _).
  destruct (pre_base _ _ _ _ _ Hpre) as [Hlo _]. unfold NULL. lia.
Qed.

Lemma list_remove_pre bp size :
  In (bp, size, FREE) bl -> ~ d bp ->
  heap_pre lo (list_remove st bp) bl
    (upd L (list_find size) (remove Z.eq_dec bp (L (list_find size))))
    (fun x => x = bp \/ d x).
Proof.
  intros Hb Hnd.
  pose proof (list_find_range size) as Hseg.
  destruct (pre_block _ _ _ _ _ Hpre _ _ _ Hb)
    as (H16 & _ & _ & _ & _ & _ & _ & Hsz & _).
  assert (Hin : In bp (L (list_find size))).
  { apply (pre_members _ _ _ _ _ Hpre _ _ Hseg). exists size. auto. }
  destruct (pre_lists _ _ _ _ _ Hpre _ Hseg) as [Hdl Hno].
  destruct (pre_links _ _ Hseg Hin) as [Hp Hn].
  apply (heap_pre_relink lo st bl L d Hpre).
  - apply brk_list_remove.
  - apply max_list_remove.
  - intros a Ha. apply list_remove_VALUE.
    + destruct Hp as [E|[Hp _]]; [left; exact E|right].
      destruct (pre_node _ _ _ _ _ Hpre _ _ Hseg Hp) as (sp & Hbp & _).
      destruct (Ha _ _ Hbp); lia.
    + destruct Hn as [E|[Hn _]]; [left; exact E|right].
      destruct (pre_node _ _ _ _ _ Hpre _ _ Hseg Hn) as (sn & Hbn & _).
      destruct (Ha _ _ Hbn); lia.
  - intros p1 sz1 p2 sz2 H1 H2 E.
    destruct (pre_coalesced _ _ _ _ _ Hpre _ _ _ _ H1 H2 E); auto.
  - intros seg' Hseg'. unfold upd.
    destruct (Z.eqb_spec seg' (list_find size)) as [Es|Es].
    + subst seg'. destruct (in_split _ _ Hin) as (l1 & l2 & El).
      rewrite El in Hno. destruct (NoDup_remove _ _ _ Hno) as [Hno' Hni].
      rewrite El, remove_middle
        by (intros F; apply Hni; apply in_app_iff; auto).
      split; [|exact Hno'].
      apply list_remove_dlist.
      * rewrite Hsz. reflexivity.
      * rewrite <- El. exact Hdl.
      * exact Hno.
      * rewrite <- El. apply (pre_spaced _ _ _ _ _ Hpre). exact Hseg.
    + destruct (pre_lists _ _ _ _ _ Hpre _ Hseg') as [Hdl' Hno'].
      split; [|exact Hno'].
      rewrite list_remove_first, list_remove_last, Hsz.
      replace (seg' =? list_find size) with false
        by (symmetry; apply Z.eqb_neq; exact Es).
      rewrite !andb_false_r.
      apply dlist_dseg. apply dlist_dseg in Hdl'.
      apply (dseg_frame st); [exact Hdl'|].
      intros y Hy. unfold PREV_FREE, NEXT_FREE, WORD.
      split; apply list_remove_VALUE.
      * destruct Hp as [E|[Hp _]]; [left; exact E|right].
        destruct (pre_nodes_far _ _ _ _ _ Hpre _ _ _ _ Hseg' Hy Hseg Hp)
          as [[_ F]|F]; [contradiction|]. lia.
      * destruct Hn as [E|[Hn _]]; [left; exact E|right].
        destruct (pre_nodes_far _ _ _ _ _ Hpre _ _ _ _ Hseg' Hy Hseg Hn)
          as [[_ F]|F]; [contradiction|]. lia.
      * destruct Hp as [E|[Hp _]]; [left; exact E|right].
        destruct (pre_nodes_far _ _ _ _ _ Hpre _ _ _ _ Hseg' Hy Hseg Hp)
          as [[_ F]|F]; [contradiction|]. lia.
      * destruct Hn as [E|[Hn _]]; [left; exact E|right].
        destruct (pre_nodes_far _ _ _ _ _ Hpre _ _ _ _ Hseg' Hy Hseg Hn)
          as [[_ F]|F]; [contradiction|]. lia.
  - intros seg' x Hseg'. unfold upd.
    destruct (Z.eqb_spec seg' (list_find size)) as [Es|Es].
    + subst seg'. split.
      * intros Hx. apply in_remove in Hx. destruct Hx as [Hx Hne].
        destruct (pre_node _ _ _ _ _ Hpre _ _ Hseg Hx) as (sx & H1 & H2 & H3).
        exists sx. repeat split; auto. intros [F|F]; contradiction.
      * intros (sx & H1 & H2 & H3). apply in_in_remove.
        -- intros F. apply H3. left. exact F.
        -- apply (pre_members _ _ _ _ _ Hpre _ _ Hseg). exists sx.
           repeat split; auto.
    + rewrite (pre_members _ _ _ _ _ Hpre _ _ Hseg'). split.
      * intros (sx & H1 & H2 & H3). exists sx. repeat split; auto.
        intros [F|F]; [|contradiction]. subst x.
        destruct (tiles_unique _ _ _ _ (pre_tiles _ _ _ _ _ Hpre) _ _ _ _ _ H1 Hb)
          as [E _].
        subst sx. congruence.
      * intros (sx & H1 & H2 & H3). exists sx. repeat split; auto.
Qed.

(** [list_remove] stores into free blocks only. *)
Lemma list_remove_pre_mem bp size x :
  In (bp, size, FREE) bl -> ~ d bp -> ~ in_blocks bl FREE x ->
  mem (list_remove st bp) x = mem st x.
Proof.
  intros Hb Hnd Hx.
  pose proof (list_find_range size) as Hseg.
  assert (Hin : In bp (L (list_find size))).
  { apply (pre_members _ _ _ _ _ Hpre _ _ Hseg). exists size. auto. }
  destruct (pre_links _ _ Hseg Hin) as [Hp Hn].
  assert (Hout : forall q, In q (L (list_find size)) -> x < q - 12 \/ q <= x).
  { intros q Hq.
    destruct (pre_node _ _ _ _ _ Hpre _ _ Hseg Hq) as (sq & Hbq & _).
    destruct (pre_block _ _ _ _ _ Hpre _ _ _ Hbq) as (Hq16 & _).
    destruct (Z_lt_ge_dec x (q - 12)) as [A|A]; [left; exact A|].
    destruct (Z_lt_ge_dec x q) as [B|B]; [|right; lia].
    exfalso. apply Hx. exists q, sq. split; [exact Hbq|]. unfold in_block. lia. }
  apply list_remove_mem.
  - destruct Hp as [E|[Hp _]]; [left; exact E|right].
    destruct (Hout _ Hp); lia.
  - destruct Hn as [E|[Hn _]]; [left; exact E|right].
    destruct (Hout _ Hn); lia.
Qed.

Lemma list_add_pre bp size :
  In (bp, size, FREE) bl -> d bp ->
  (forall p1 sz1 p2 sz2,
     In (p1, sz1, FREE) bl -> In (p2, sz2, FREE) bl -> p2 = p1 + sz1 ->
     (d p1 /\ p1 <> bp) \/ (d p2 /\ p2 <> bp)) ->
  heap_pre lo (list_add st bp) bl
    (upd L (list_find size) (L (list_find size) ++ [bp]))
    (fun x => d x /\ x <> bp).
Proof.
  intros Hb Hd Hco.
  pose proof (list_find_range size) as Hseg.
  destruct (pre_block _ _ _ _ _ Hpre _ _ _ Hb)
    as (H16 & _ & _ & Hlo & _ & _ & Hhi & Hsz & _).
  destruct (pre_base _ _ _ _ _ Hpre) as [Hlo0 _].
  assert (Hnin : forall seg', 0 <= seg' < MAX_SEG -> ~ In bp (L seg')).
  { intros seg' Hseg' F.
    destruct (pre_node _ _ _ _ _ Hpre _ _ Hseg' F) as (_ & _ & _ & F').
    contradiction. }
  destruct (pre_lists _ _ _ _ _ Hpre _ Hseg) as [Hdl Hno].
  assert (Hlast : last st (list_find size) = NULL
                  \/ In (last st (list_find size)) (L (list_find size))).
  { destruct (pre_last _ Hseg) as [[_ E]|[E _]]; auto. }
  apply (heap_pre_relink lo st bl L d Hpre).
  - apply brk_list_add.
  - apply max_list_add.
  - intros a Ha. apply list_add_VALUE.
    + rewrite Hsz. destruct Hlast as [E|Hl]; [left; exact E|right].
      destruct (pre_node _ _ _ _ _ Hpre _ _ Hseg Hl) as (sl & Hbl & _).
      destruct (Ha _ _ Hbl); lia.
    + destruct (Ha _ _ Hb); lia.
  - exact Hco.
  - intros seg' Hseg'. unfold upd.
    destruct (Z.eqb_spec seg' (list_find size)) as [Es|Es].
    + subst seg'. split.
      * apply list_add_dlist.
        -- rewrite Hsz. reflexivity.
        -- exact Hdl.
        -- exact Hno.
        -- apply Hnin. exact Hseg.
        -- intros x y [Ex|Hx] [Ey|Hy].
           ++ left. congruence.
           ++ subst x.
              destruct (pre_node_far _ _ _ _ _ Hpre _ _ _ _ _ Hseg Hy Hb)
                as [F|F]; [|lia].
              subst y. exfalso. exact (Hnin _ Hseg Hy).
           ++ subst y.
              destruct (pre_node_far _ _ _ _ _ Hpre _ _ _ _ _ Hseg Hx Hb)
                as [F|F]; [|lia].
              subst x. exfalso. exact (Hnin _ Hseg Hx).
           ++ apply (pre_spaced _ _ _ _ _ Hpre _ Hseg); assumption.
        -- intros x Hx. apply (pre_node_range _ _ Hseg Hx).
        -- unfold NULL. lia.
        -- lia.
      * apply (NoDup_Add (a := bp) (l := L (list_find size))).
        -- rewrite <- (app_nil_r (L (list_find size))) at 1. apply Add_app.
        -- split; [exact Hno|apply Hnin; exact Hseg].
    + destruct (pre_lists _ _ _ _ _ Hpre _ Hseg') as [Hdl' Hno'].
      split; [|exact Hno'].
      rewrite list_add_first, list_add_last, Hsz.
      replace (seg' =? list_find size) with false
        by (symmetry; apply Z.eqb_neq; exact Es).
      rewrite !andb_false_r.
      apply dlist_dseg. apply dlist_dseg in Hdl'.
      apply (dseg_frame st); [exact Hdl'|].
      intros y Hy. unfold PREV_FREE, NEXT_FREE, WORD.
      assert (Hyb : y + 16 <= bp \/ bp + 16 <= y).
      { destruct (pre_node_far _ _ _ _ _ Hpre _ _ _ _ _ Hseg' Hy Hb)
          as [F|F]; [|lia].
        subst y. exfalso. exact (Hnin _ Hseg' Hy). }
      assert (Hyl : last st (list_find size) = NULL
                    \/ y + 16 <= last st (list_find size)
                    \/ last st (list_find size) + 16 <= y).
      { destruct Hlast as [E|Hl]; [left; exact E|right].
        destruct (pre_nodes_far _ _ _ _ _ Hpre _ _ _ _ Hseg' Hy Hseg Hl)
          as [[_ F]|F]; [contradiction|exact F]. }
      split; apply list_add_VALUE; rewrite ?Hsz; lia.
  - intros seg' x Hseg'. unfold upd.
    destruct (Z.eqb_spec seg' (list_find size)) as [Es|Es].
    + subst seg'. rewrite in_app_iff. split.
      * intros [Hx|[Hx|[]]].
        -- destruct (pre_node _ _ _ _ _ Hpre _ _ Hseg Hx) as (sx & H1 & H2 & H3).
           exists sx. repeat split; auto. intros [F _]. contradiction.
        -- subst x. exists size. repeat split; auto. intros [_ F]. congruence.
      * intros (sx & H1 & H2 & H3).
        destruct (Z.eq_dec x bp) as [E|E]; [right; left; auto|left].
        apply (pre_members _ _ _ _ _ Hpre _ _ Hseg). exists sx.
        repeat split; auto.
    + rewrite (pre_members _ _ _ _ _ Hpre _ _ Hseg'). split.
      * intros (sx & H1 & H2 & H3). exists sx. repeat split; auto.
        intros [F _]. contradiction.
      * intros (sx & H1 & H2 & H3). exists sx. repeat split; auto.
        intros F. apply H3. split; [exact F|]. intros ->.
        destruct (tiles_unique _ _ _ _ (pre_tiles _ _ _ _ _ Hpre) _ _ _ _ _ H1 Hb)
          as [E _].
        subst sx. congruence.
Qed.

(** [list_add] stores into free blocks only. *)
Lemma list_add_pre_mem bp size x :
  In (bp, size, FREE) bl -> ~ in_blocks bl FREE x ->
  mem (list_add st bp) x = mem st x.
Proof.
  intros Hb Hx.
  pose proof (list_find_range size) as Hseg.
  destruct (pre_block _ _ _ _ _ Hpre _ _ _ Hb)
    as (H16 & _ & _ & _ & _ & _ & _ & Hsz & _).
  assert (Hout : forall q sq, In (q, sq, FREE) bl -> x < q - 12 \/ q <= x).
  { intros q sq Hbq.
    destruct (pre_block _ _ _ _ _ Hpre _ _ _ Hbq) as (Hq16 & _).
    destruct (Z_lt_ge_dec x (q - 12)) as [A|A]; [left; exact A|].
    destruct (Z_lt_ge_dec x q) as [B|B]; [|right; lia].
    exfalso. apply Hx. exists q, sq. split; [exact Hbq|]. unfold in_block. lia. }
  apply list_add_mem.
  - rewrite Hsz. destruct (pre_last _ Hseg) as [[_ E]|[Hl _]]; [left; exact E|right].
    destruct (pre_node _ _ _ _ _ Hpre _ _ Hseg Hl) as (sl & Hbl & _).
    destruct (Hout _ _ Hbl); lia.
  - destruct (Hout _ _ Hb); lia.
Qed.

End ListOps.

Lemma tiles_app3 st l1 mid l2 p q :
  tiles st p (l1 ++ mid ++ l2) q <->
  exists b e, tiles st p l1 b /\ tiles st b mid e /\ tiles st e l2 q.
Proof.
  rewrite tiles_app. split.
  - intros (b & H1 & H2). apply tiles_app in H2. destruct H2 as (e & H2 & H3).
    exists b, e. auto.
  - intros (b & e & H1 & H2 & H3). exists b. split; [exact H1|].
    apply tiles_app. exists e. auto.
Qed.

Lemma in_app3 {A} (x : A) l1 mid l2 :
  In x (l1 ++ mid ++ l2) <-> In x mid \/ In x (l1 ++ l2).
Proof.
  rewrite !in_app_iff. tauto.
Qed.

(** Rewriting the headers and footers of a part of the heap whose blocks
    are in no list: the rest of the heap and the lists stay as they are. *)
Lemma heap_pre_retile lo st bl L d l1 mid l2 b e st' mid' (d' : Z -> Prop) :
  heap_pre lo st bl L d -> bl = l1 ++ mid ++ l2 ->
  tiles st (lo + 32) l1 b -> tiles st b mid e ->
  tiles st e l2 (mem_brk st + 8) ->
  (forall q sz, In (q, sz, FREE) mid -> d q) ->
  mem_brk st' = mem_brk st -> mem_max_addr st' = mem_max_addr st ->
  (forall seg, first st' seg = first st seg) ->
  (forall seg, last st' seg = last st seg) ->
  (forall a, a + 4 <= b - 12 \/ e - 12 <= a -> VALUE st' a = VALUE st a) ->
  tiles st' b mid' e ->
  (forall q sz, In (q, sz, FREE) mid' -> d' q) ->
  (forall q sz, In (q, sz, FREE) (l1 ++ l2) -> (d' q <-> d q)) ->
  heap_pre lo st' (l1 ++ mid' ++ l2) L d'.
Proof.
  intros Hpre Ebl Ht1 Htm Ht2 Hmid Hbrk Hmax Hfirst Hlast Hf Htm' Hmid' Hd.
  pose proof (tiles_le _ _ _ _ Ht1) as Hle1.
  pose proof (tiles_le _ _ _ _ Htm) as Hlem.
  pose proof (tiles_le _ _ _ _ Ht2) as Hle2.
  assert (Hold : forall x, In x (l1 ++ l2) -> In x bl).
  { intros x Hx. rewrite Ebl. apply in_app3. right. exact Hx. }
  constructor.
  - exact (pre_base _ _ _ _ _ Hpre).
  - rewrite Hbrk, Hmax. exact (pre_space _ _ _ _ _ Hpre).
  - rewrite !Hf by lia. exact (pre_left_sentinel _ _ _ _ _ Hpre).
  - rewrite Hbrk. apply tiles_app3. exists b, e. repeat split.
    + apply (tiles_frame st); [exact Ht1|]. intros a A1 A2. apply Hf. lia.
    + exact Htm'.
    + apply (tiles_frame st); [exact Ht2|]. intros a A1 A2. apply Hf. lia.
  - rewrite Hbrk, Hf by lia. exact (pre_terminator _ _ _ _ _ Hpre).
  - intros p1 sz1 p2 sz2 H1 H2 E.
    apply in_app3 in H1. apply in_app3 in H2.
    destruct H1 as [H1|H1]; [left; exact (Hmid' _ _ H1)|].
    destruct H2 as [H2|H2]; [right; exact (Hmid' _ _ H2)|].
    destruct (pre_coalesced _ _ _ _ _ Hpre _ _ _ _ (Hold _ H1) (Hold _ H2) E)
      as [D|D]; [left; apply (Hd _ _ H1)|right; apply (Hd _ _ H2)]; exact D.
  - intros seg Hseg. rewrite Hfirst, Hlast.
    destruct (pre_lists _ _ _ _ _ Hpre seg Hseg) as [Hdl Hno].
    split; [|exact Hno].
    apply dlist_dseg. apply dlist_dseg in Hdl.
    apply (dseg_frame st); [exact Hdl|].
    intros y Hy.
    destruct (pre_node _ _ _ _ _ Hpre _ _ Hseg Hy) as (sy & Hby & _ & Hnd).
    rewrite Ebl in Hby. apply in_app3 in Hby.
    destruct Hby as [Hby|Hby]; [exfalso; exact (Hnd (Hmid _ _ Hby))|].
    unfold PREV_FREE, NEXT_FREE, WORD.
    apply in_app_iff in Hby. destruct Hby as [Hby|Hby].
    + destruct (tiles_in _ _ _ _ Ht1 _ _ _ Hby) as (Hok & _ & Hr).
      destruct Hok as (H16 & _). unfold OVERHEAD in H16.
      split; apply Hf; lia.
    + destruct (tiles_in _ _ _ _ Ht2 _ _ _ Hby) as (_ & Hl & _).
      split; apply Hf; lia.
  - intros seg x Hseg. rewrite (pre_members _ _ _ _ _ Hpre seg x Hseg). split.
    + intros (sx & H1 & H2 & H3). exists sx.
      rewrite Ebl in H1. apply in_app3 in H1.
      destruct H1 as [H1|H1]; [exfalso; exact (H3 (Hmid _ _ H1))|].
      repeat split; auto.
      * apply in_app3. right. exact H1.
      * intros D. apply H3. apply (Hd _ _ H1). exact D.
    + intros (sx & H1 & H2 & H3). exists sx.
      apply in_app3 in H1.
      destruct H1 as [H1|H1]; [exfalso; exact (H3 (Hmid' _ _ H1))|].
      repeat split; auto.
      intros D. apply H3. apply (Hd _ _ H1). exact D.
Qed.

(** ** The operations in terms of their stores *)

Lemma mm_free_mark st bp : mm_free st bp = snd (coalesce (mark st bp FREE) bp).
Proof. reflexivity. Qed.

Lemma place_mark st bp size :
  place st bp size = split (mark (list_remove st bp) bp ALLOCATED) bp size.
Proof. reflexivity. Qed.

Lemma split_carve st bp size :
  split st bp size
  = if UNPACK_SIZE st (HEADER bp) <? wrap (size + OVERHEAD) then st
    else snd (coalesce (carve st bp size) (NEXT_BLOCK (carve st bp size) bp)).
Proof. reflexivity. Qed.

Lemma coalesce_left_absorb st bp :
  coalesce_left st bp
  = if UNPACK_STATE st (PREV_FOOTER bp) =? FREE
    then (PREV_BLOCK st bp,
          absorb (list_remove st (PREV_BLOCK st bp)) (PREV_BLOCK st bp))
    else (bp, st).
Proof. reflexivity. Qed.

Lemma coalesce_right_absorb st bp :
  coalesce_right st bp
  = if UNPACK_STATE st (NEXT_HEADER st bp) =? FREE
    then absorb (list_remove st (NEXT_BLOCK st bp)) bp
    else st.
Proof. reflexivity. Qed.


Lemma tiles_cons_inv st p q size state l e :
  tiles st p ((q, size, state) :: l) e ->
  p = q /\ block_ok st (q, size, state) /\ tiles st (q + size) l e.
Proof.
  intros H. remember ((q, size, state) :: l) as l0 eqn:El.
  destruct H as [|p0 size0 state0 bl0 e Hok H]; [discriminate|].
  injection El as E1 E2 E3 E4. subst. split; [|split]; auto.
Qed.

Lemma tiles_nil_inv st p e : tiles st p [] e -> p = e.
Proof.
  intros H. remember [] as l0 eqn:El.
  destruct H; [reflexivity|discriminate].
Qed.

Lemma tiles_one st bp size state :
  block_ok st (bp, size, state) ->
  tiles st bp [(bp, size, state)] (bp + size).
Proof. intros H. constructor; [exact H|constructor]. Qed.

(** The walk around a block that is given with its place in the walk. *)
Lemma pre_around lo st L d l1 b l2 :
  heap_pre lo st (l1 ++ b :: l2) L d ->
  tiles st (lo + 32) l1 (fst (fst b)) /\
  block_ok st b /\
  tiles st (fst (fst b) + snd (fst b)) l2 (mem_brk st + 8).
Proof.
  intros Hpre. pose proof (pre_tiles _ _ _ _ _ Hpre) as Ht.
  apply tiles_app in Ht. destruct Ht as (m & H1 & H2).
  destruct b as [[q size] state].
  apply tiles_cons_inv in H2. destruct H2 as (-> & Hok & H2).
  simpl. auto.
Qed.

(** ** Setting the state of a block *)

Lemma mark_words st bp size s s' :
  VALUE st (bp - 12) = PACK size s ->
  VALUE st (bp - 16 + size) = PACK size s ->
  16 <= size -> size mod 8 = 0 -> s = FREE \/ s = ALLOCATED ->
  s' = FREE \/ s' = ALLOCATED ->
  VALUE (mark st bp s') (bp - 12) = PACK size s' /\
  VALUE (mark st bp s') (bp - 16 + size) = PACK size s' /\
  (forall a, a + 4 <= bp - 12 \/ bp - 12 + size <= a
             \/ (bp - 8 <= a /\ a + 4 <= bp - 16 + size) ->
             VALUE (mark st bp s') a = VALUE st a) /\
  (forall x, x < bp - 12 \/ bp - 12 + size <= x
             \/ (bp - 8 <= x /\ x < bp - 16 + size) ->
             mem (mark st bp s') x = mem st x).
Proof.
  intros Hh Hf H16 H8 Hs Hs'.
  assert (Hr' : 0 <= s' < 2) by (unfold FREE, ALLOCATED in Hs'; lia).
  destruct (unpack_PACK _ _ _ _ Hh H8 Hs) as [Sh _].
  destruct (unpack_PACK _ _ _ _ Hf H8 Hs) as [Sf _].
  unfold mark. rewrite HEADER_eq.
  set (st1 := REPACK_STATE st (bp - 12) s').
  assert (V1 : VALUE st1 (bp - 12) = size + s').
  { unfold st1. rewrite REPACK_STATE_same by exact Hr'. rewrite Sh. reflexivity. }
  assert (S1 : UNPACK_SIZE st1 (bp - 12) = size).
  { apply (unpack_sum _ _ size s'); auto. }
  assert (F1 : FOOTER st1 bp = bp - 16 + size).
  { unfold FOOTER, OVERHEAD. rewrite HEADER_eq, S1. reflexivity. }
  rewrite F1.
  assert (Sf1 : UNPACK_SIZE st1 (bp - 16 + size) = size).
  { transitivity (UNPACK_SIZE st (bp - 16 + size)); [|exact Sf].
    apply UNPACK_SIZE_same. unfold st1. apply REPACK_STATE_other. lia. }
  rewrite (PACK_add size s') by lia.
  repeat split.
  - rewrite REPACK_STATE_other by lia. exact V1.
  - rewrite REPACK_STATE_same by exact Hr'. rewrite Sf1. reflexivity.
  - intros a Ha. rewrite REPACK_STATE_other by lia.
    unfold st1. apply REPACK_STATE_other. lia.
  - intros x Hx. unfold REPACK_STATE. rewrite mem_set_VALUE by lia.
    unfold st1, REPACK_STATE. apply mem_set_VALUE. lia.
Qed.

Lemma mark_pre lo st L d l1 l2 bp size s s' (d' : Z -> Prop) :
  heap_pre lo st (l1 ++ (bp, size, s) :: l2) L d ->
  (s = FREE -> d bp) -> s' = FREE \/ s' = ALLOCATED ->
  (s' = FREE -> d' bp) ->
  (forall q sz, In (q, sz, FREE) (l1 ++ l2) -> (d' q <-> d q)) ->
  heap_pre lo (mark st bp s') (l1 ++ (bp, size, s') :: l2) L d'.
Proof.
  intros Hpre Hs Hs' Hd' Hd.
  destruct (pre_around _ _ _ _ _ _ _ Hpre) as (Ht1 & Hok & Ht2). simpl in *.
  destruct Hok as (H16 & H8 & Hst & Hh & Hf).
  rewrite HEADER_eq in Hh. unfold OVERHEAD in *.
  destruct (mark_words st bp size s s' Hh Hf H16 H8 Hst Hs')
    as (Vh & Vf & Vo & _).
  apply (heap_pre_retile lo st _ L d l1 [(bp, size, s)] l2 bp (bp + size)
           (mark st bp s') [(bp, size, s')] d' Hpre); auto.
  - apply tiles_one. unfold block_ok. rewrite HEADER_eq. unfold OVERHEAD.
    repeat split; assumption.
  - intros q sz [E|[]]. injection E as E1 _ E3. subst q. exact (Hs E3).
  - intros a Ha. apply Vo. lia.
  - apply tiles_one. unfold block_ok. rewrite HEADER_eq. unfold OVERHEAD.
    repeat split; assumption.
  - intros q sz [E|[]]. injection E as E1 _ E3. subst q. exact (Hd' E3).
Qed.

(** ** Splitting a block in two *)

Lemma carve_words st bp size a :
  UNPACK_SIZE st (HEADER bp) = size ->
  16 <= a -> a mod 8 = 0 -> a + 16 <= size -> size mod 8 = 0 ->
  size < 2 ^ 32 ->
  VALUE (carve st bp a) (bp - 12) = PACK a ALLOCATED /\
  VALUE (carve st bp a) (bp - 16 + a) = PACK a ALLOCATED /\
  VALUE (carve st bp a) (bp + a - 12) = PACK (size - a) FREE /\
  VALUE (carve st bp a) (bp + a - 16 + (size - a)) = PACK (size - a) FREE /\
  NEXT_BLOCK (carve st bp a) bp = bp + a /\
  (forall w, w + 4 <= bp - 12 \/ bp - 12 + size <= w
             \/ (bp - 8 <= w /\ w + 4 <= bp - 16 + a) ->
             VALUE (carve st bp a) w = VALUE st w) /\
  (forall x, x < bp - 12 \/ bp - 12 + size <= x
             \/ (bp - 8 <= x /\ x < bp - 16 + a) ->
             mem (carve st bp a) x = mem st x).
Proof.
  intros Hsz H16 H8 Hfit Hs8 Hlt.
  assert (Hr8 : (size - a) mod 8 = 0)
    by (rewrite Zminus_mod, Hs8, H8; reflexivity).
  unfold carve. rewrite Hsz, HEADER_eq.
  rewrite (wrap_small (size - a)) by lia.
  rewrite (PACK_add a ALLOCATED), (PACK_add (size - a) FREE)
    by (unfold FREE, ALLOCATED; lia).
  unfold FREE, ALLOCATED.
  set (st1 := set_VALUE st (bp - 12) (a + 1)).
  assert (V1 : VALUE st1 (bp - 12) = a + 1).
  { unfold st1. rewrite VALUE_set_same. apply wrap_small. lia. }
  assert (S1 : UNPACK_SIZE st1 (bp - 12) = a)
    by (apply (unpack_sum _ _ a 1); auto; lia).
  assert (F1 : FOOTER st1 bp = bp - 16 + a)
    by (unfold FOOTER, OVERHEAD; rewrite HEADER_eq, S1; reflexivity).
  rewrite F1.
  set (st2 := set_VALUE st1 (bp - 16 + a) (a + 1)).
  assert (V2 : VALUE st2 (bp - 12) = a + 1)
    by (unfold st2; rewrite VALUE_set_other by lia; exact V1).
  assert (S2 : UNPACK_SIZE st2 (bp - 12) = a)
    by (apply (unpack_sum _ _ a 1); auto; lia).
  assert (N2 : NEXT_HEADER st2 bp = bp + a - 12)
    by (unfold NEXT_HEADER, OVERHEAD, WORD; rewrite HEADER_eq, S2; lia).
  rewrite N2.
  set (st3 := set_VALUE st2 (bp + a - 12) (size - a + 0)).
  assert (V3 : VALUE st3 (bp - 12) = a + 1)
    by (unfold st3; rewrite VALUE_set_other by lia; exact V2).
  assert (S3 : UNPACK_SIZE st3 (bp - 12) = a)
    by (apply (unpack_sum _ _ a 1); auto; lia).
  assert (B3 : NEXT_BLOCK st3 bp = bp + a)
    by (unfold NEXT_BLOCK; rewrite HEADER_eq, S3; reflexivity).
  rewrite B3.
  assert (R3 : VALUE st3 (bp + a - 12) = size - a + 0).
  { unfold st3. rewrite VALUE_set_same. apply wrap_small. lia. }
  assert (SR3 : UNPACK_SIZE st3 (bp + a - 12) = size - a)
    by (apply (unpack_sum _ _ (size - a) 0); auto; lia).
  assert (F3 : FOOTER st3 (bp + a) = bp + a - 16 + (size - a)).
  { unfold FOOTER, OVERHEAD. rewrite HEADER_eq, SR3. reflexivity. }
  rewrite F3.
  set (st4 := set_VALUE st3 (bp + a - 16 + (size - a)) (size - a + 0)).
  assert (V4 : VALUE st4 (bp - 12) = a + 1)
    by (unfold st4; rewrite VALUE_set_other by lia; exact V3).
  repeat split.
  - exact V4.
  - unfold st4, st3. rewrite !VALUE_set_other by lia.
    unfold st2. rewrite VALUE_set_same. apply wrap_small. lia.
  - unfold st4. rewrite VALUE_set_other by lia. exact R3.
  - unfold st4. rewrite VALUE_set_same. apply wrap_small. lia.
  - unfold NEXT_BLOCK. rewrite HEADER_eq.
    rewrite (proj1 (unpack_sum _ _ a 1 V4 H8 ltac:(lia))). reflexivity.
  - intros w Hw. unfold st4, st3, st2, st1.
    rewrite !VALUE_set_other by lia. reflexivity.
  - intros x Hx. unfold st4, st3, st2, st1.
    rewrite !mem_set_VALUE by lia. reflexivity.
Qed.

Lemma carve_pre lo st L d l1 l2 bp size a (d' : Z -> Prop) :
  heap_pre lo st (l1 ++ (bp, size, ALLOCATED) :: l2) L d ->
  16 <= a -> a mod 8 = 0 -> a + 16 <= size ->
  d' (bp + a) ->
  (forall q sz, In (q, sz, FREE) (l1 ++ l2) -> (d' q <-> d q)) ->
  heap_pre lo (carve st bp a)
    (l1 ++ (bp, a, ALLOCATED) :: (bp + a, size - a, FREE) :: l2) L d'.
Proof.
  intros Hpre H16 H8 Hfit Hd' Hd.
  destruct (pre_around _ _ _ _ _ _ _ Hpre) as (Ht1 & Hok & Ht2). simpl in *.
  assert (Hin : In (bp, size, ALLOCATED) (l1 ++ (bp, size, ALLOCATED) :: l2))
    by (apply in_middle; auto).
  destruct (pre_block _ _ _ _ _ Hpre _ _ _ Hin)
    as (Hs16 & Hs8 & _ & Hlo & Hhi & _ & _ & Hsz & _).
  destruct (pre_space _ _ _ _ _ Hpre) as [Hsp Hmax].
  destruct (pre_base _ _ _ _ _ Hpre) as [Hlo0 _].
  destruct (carve_words st bp size a Hsz H16 H8 Hfit Hs8 ltac:(lia))
    as (Vh & Vf & Vrh & Vrf & _ & Vo & _).
  assert (Hr8 : (size - a) mod 8 = 0)
    by (rewrite Zminus_mod, Hs8, H8; reflexivity).
  apply (heap_pre_retile lo st _ L d l1 [(bp, size, ALLOCATED)] l2 bp (bp + size)
           (carve st bp a) [(bp, a, ALLOCATED); (bp + a, size - a, FREE)] d' Hpre);
    auto.
  - apply tiles_one. exact Hok.
  - intros q sz [E|[]]. discriminate.
  - intros w Hw. apply Vo. lia.
  - constructor.
    + unfold block_ok. rewrite HEADER_eq. unfold OVERHEAD.
      repeat split; auto.
    + replace (bp + size) with (bp + a + (size - a)) by lia.
      apply tiles_one. unfold block_ok. rewrite HEADER_eq. unfold OVERHEAD.
      repeat split; auto; lia.
  - intros q sz [E|[E|[]]]; [discriminate|].
    injection E as E1 _. subst q. exact Hd'.
Qed.

(** ** Merging a block with its right neighbour *)

Lemma absorb_words st bp sz1 sz2 :
  VALUE st (bp - 12) = PACK sz1 FREE ->
  VALUE st (bp + sz1 - 12) = PACK sz2 FREE ->
  VALUE st (bp + sz1 - 16 + sz2) = PACK sz2 FREE ->
  16 <= sz1 -> sz1 mod 8 = 0 -> 16 <= sz2 -> sz2 mod 8 = 0 ->
  sz1 + sz2 < 2 ^ 32 ->
  VALUE (absorb st bp) (bp - 12) = PACK (sz1 + sz2) FREE /\
  VALUE (absorb st bp) (bp - 16 + (sz1 + sz2)) = PACK (sz1 + sz2) FREE /\
  (forall w, w + 4 <= bp - 12 \/ bp - 12 + (sz1 + sz2) <= w
             \/ (bp - 8 <= w /\ w + 4 <= bp - 16 + (sz1 + sz2)) ->
             VALUE (absorb st bp) w = VALUE st w) /\
  (forall x, x < bp - 12 \/ bp - 12 + (sz1 + sz2) <= x
             \/ (bp - 8 <= x /\ x < bp - 16 + (sz1 + sz2)) ->
             mem (absorb st bp) x = mem st x).
Proof.
  intros Hh Hnh Hnf H16 H8 H16' H8' Hlt.
  assert (Hfree : FREE = FREE \/ FREE = ALLOCATED) by (left; reflexivity).
  destruct (unpack_PACK _ _ _ _ Hh H8 Hfree) as [Sh Th].
  destruct (unpack_PACK _ _ _ _ Hnh H8' Hfree) as [Sn _].
  destruct (unpack_PACK _ _ _ _ Hnf H8' Hfree) as [_ Tf].
  assert (Hn8 : (sz1 + sz2) mod 8 = 0)
    by (rewrite Z.add_mod, H8, H8' by lia; reflexivity).
  unfold absorb. rewrite HEADER_eq, Sh.
  replace (NEXT_HEADER st bp) with (bp + sz1 - 12)
    by (unfold NEXT_HEADER, OVERHEAD, WORD; rewrite HEADER_eq, Sh; lia).
  rewrite Sn, (wrap_small (sz1 + sz2)) by lia.
  set (st1 := REPACK_SIZE st (bp - 12) (sz1 + sz2)).
  assert (V1 : VALUE st1 (bp - 12) = sz1 + sz2 + FREE).
  { unfold st1. rewrite REPACK_SIZE_same by (auto; lia). rewrite Th. reflexivity. }
  assert (S1 : UNPACK_SIZE st1 (bp - 12) = sz1 + sz2)
    by (apply (unpack_sum _ _ (sz1 + sz2) FREE); auto; unfold FREE; lia).
  assert (F1 : FOOTER st1 bp = bp - 16 + (sz1 + sz2))
    by (unfold FOOTER, OVERHEAD; rewrite HEADER_eq, S1; reflexivity).
  rewrite F1.
  assert (T1 : UNPACK_STATE st1 (bp - 16 + (sz1 + sz2)) = FREE).
  { transitivity (UNPACK_STATE st (bp + sz1 - 16 + sz2)); [|exact Tf].
    apply UNPACK_STATE_same. unfold st1.
    replace (bp - 16 + (sz1 + sz2)) with (bp + sz1 - 16 + sz2) by lia.
    apply REPACK_SIZE_other. lia. }
  rewrite (PACK_add (sz1 + sz2) FREE) by (unfold FREE; lia).
  repeat split.
  - rewrite REPACK_SIZE_other by lia. exact V1.
  - rewrite REPACK_SIZE_same by (auto; lia). rewrite T1. reflexivity.
  - intros w Hw. rewrite REPACK_SIZE_other by lia.
    unfold st1. apply REPACK_SIZE_other. lia.
  - intros x Hx. unfold REPACK_SIZE. rewrite mem_set_VALUE by lia.
    unfold st1, REPACK_SIZE. apply mem_set_VALUE. lia.
Qed.

Lemma absorb_pre lo st L d l1 l2 bp sz1 sz2 (d' : Z -> Prop) :
  heap_pre lo st (l1 ++ (bp, sz1, FREE) :: (bp + sz1, sz2, FREE) :: l2) L d ->
  d bp -> d (bp + sz1) -> d' bp ->
  (forall q sz, In (q, sz, FREE) (l1 ++ l2) -> (d' q <-> d q)) ->
  heap_pre lo (absorb st bp) (l1 ++ (bp, sz1 + sz2, FREE) :: l2) L d'.
Proof.
  intros Hpre Hd1 Hd2 Hd' Hd.
  pose proof (pre_tiles _ _ _ _ _ Hpre) as Ht.
  apply tiles_app in Ht. destruct Ht as (m & Ht1 & Ht).
  apply tiles_cons_inv in Ht. destruct Ht as (-> & Hok1 & Ht).
  apply tiles_cons_inv in Ht. destruct Ht as (_ & Hok2 & Ht2).
  destruct Hok1 as (H16 & H8 & _ & Hh & _).
  destruct Hok2 as (H16' & H8' & _ & Hnh & Hnf).
  rewrite HEADER_eq in Hh, Hnh. unfold OVERHEAD in *.
  destruct (pre_space _ _ _ _ _ Hpre) as [Hsp Hmax].
  destruct (pre_base _ _ _ _ _ Hpre) as [Hlo0 _].
  pose proof (tiles_le _ _ _ _ Ht1) as Hle1.
  pose proof (tiles_le _ _ _ _ Ht2) as Hle2.
  destruct (absorb_words st bp sz1 sz2 Hh Hnh Hnf H16 H8 H16' H8' ltac:(lia))
    as (Vh & Vf & Vo & _).
  assert (Hn8 : (sz1 + sz2) mod 8 = 0)
    by (rewrite Z.add_mod, H8, H8' by lia; reflexivity).
  apply (heap_pre_retile lo st _ L d l1
           [(bp, sz1, FREE); (bp + sz1, sz2, FREE)] l2 bp (bp + sz1 + sz2)
           (absorb st bp) [(bp, sz1 + sz2, FREE)] d' Hpre); auto.
  - constructor.
    + unfold block_ok. rewrite HEADER_eq. unfold OVERHEAD.
      repeat split; auto. apply (pre_block _ _ _ _ _ Hpre bp sz1 FREE).
      apply in_middle. auto.
    + apply tiles_one. unfold block_ok. rewrite HEADER_eq. unfold OVERHEAD.
      repeat split; auto.
  - intros q sz [E|[E|[]]]; injection E as E1 _; subst q; assumption.
  - intros w Hw. apply Vo. lia.
  - replace (bp + sz1 + sz2) with (bp + (sz1 + sz2)) by lia.
    apply tiles_one. unfold block_ok. rewrite HEADER_eq. unfold OVERHEAD.
    repeat split; auto; lia.
  - intros q sz [E|[]]. injection E as E1 _. subst q. exact Hd'.
Qed.

(** ** The new block at the end of the heap *)

Lemma grown_words st size :
  16 <= size -> size mod 8 = 0 -> size < 2 ^ 32 ->
  VALUE (grown st size) (mem_brk st - 4) = PACK size FREE /\
  VALUE (grown st size) (mem_brk st - 8 + size) = PACK size FREE /\
  VALUE (grown st size) (mem_brk st - 4 + size) = PACK 0 ALLOCATED /\
  (forall w, w + 4 <= mem_brk st - 4 -> VALUE (grown st size) w = VALUE st w) /\
  (forall x, x < mem_brk st - 4 -> mem (grown st size) x = mem st x).
Proof.
  intros H16 H8 Hlt. unfold grown.
  rewrite (PACK_add size FREE), (PACK_add 0 ALLOCATED)
    by (unfold FREE, ALLOCATED; auto; lia).
  unfold FREE, ALLOCATED. repeat split.
  - rewrite !VALUE_set_other by lia. rewrite VALUE_set_same.
    apply wrap_small. lia.
  - rewrite VALUE_set_other by lia. rewrite VALUE_set_same.
    apply wrap_small. lia.
  - rewrite VALUE_set_same. reflexivity.
  - intros w Hw. rewrite !VALUE_set_other by lia. reflexivity.
  - intros x Hx. rewrite !mem_set_VALUE by (simpl; lia). reflexivity.
Qed.

Lemma grown_pre lo st bl L d size (d' : Z -> Prop) :
  heap_pre lo st bl L d ->
  16 <= size -> size mod 8 = 0 ->
  mem_brk st + size <= mem_max_addr st ->
  d' (mem_brk st + 8) ->
  (forall q sz, In (q, sz, FREE) bl -> (d' q <-> d q)) ->
  heap_pre lo (grown st size) (bl ++ [(mem_brk st + 8, size, FREE)]) L d'.
Proof.
  intros Hpre H16 H8 Hroom Hd' Hd.
  destruct (pre_space _ _ _ _ _ Hpre) as [Hsp Hmax].
  destruct (pre_base _ _ _ _ _ Hpre) as [Hlo0 Hlo8].
  pose proof (pre_brk_low _ _ _ _ _ Hpre) as Hlow.
  destruct (grown_words st size H16 H8 ltac:(lia)) as (Vh & Vf & Vt & Vo & _).
  assert (Hnew : forall q sz, In (q, sz, FREE) (bl ++ [(mem_brk st + 8, size, FREE)])
                   -> In (q, sz, FREE) bl \/ q = mem_brk st + 8).
  { intros q sz Hq. apply in_app_iff in Hq. destruct Hq as [Hq|[E|[]]]; auto.
    injection E as E1 _. auto. }
  constructor.
  - split; assumption.
  - change (mem_brk (grown st size)) with (mem_brk st + size).
    change (mem_max_addr (grown st size)) with (mem_max_addr st). lia.
  - rewrite !Vo by lia. exact (pre_left_sentinel _ _ _ _ _ Hpre).
  - change (mem_brk (grown st size)) with (mem_brk st + size).
    apply tiles_app. exists (mem_brk st + 8). split.
    + apply (tiles_frame st); [exact (pre_tiles _ _ _ _ _ Hpre)|].
      intros w W1 W2. apply Vo. lia.
    + replace (mem_brk st + size + 8) with (mem_brk st + 8 + size) by lia.
      apply tiles_one. unfold block_ok. rewrite HEADER_eq. unfold OVERHEAD.
      replace (mem_brk st + 8 - 12) with (mem_brk st - 4) by lia.
      replace (mem_brk st + 8 - 16 + size) with (mem_brk st - 8 + size) by lia.
      repeat split; auto.
  - change (mem_brk (grown st size)) with (mem_brk st + size).
    replace (mem_brk st + size - 4) with (mem_brk st - 4 + size) by lia.
    exact Vt.
  - intros p1 sz1 p2 sz2 H1 H2 E.
    destruct (Hnew _ _ H1) as [H1'|H1']; [|left; rewrite H1'; exact Hd'].
    destruct (Hnew _ _ H2) as [H2'|H2']; [|right; rewrite H2'; exact Hd'].
    destruct (pre_coalesced _ _ _ _ _ Hpre _ _ _ _ H1' H2' E) as [D|D];
      [left; apply (Hd _ _ H1')|right; apply (Hd _ _ H2')]; exact D.
  - intros seg Hseg.
    change (first (grown st size) seg) with (first st seg).
    change (last (grown st size) seg) with (last st seg).
    destruct (pre_lists _ _ _ _ _ Hpre seg Hseg) as [Hdl Hno].
    split; [|exact Hno].
    apply dlist_dseg. apply dlist_dseg in Hdl.
    apply (dseg_frame st); [exact Hdl|].
    intros y Hy.
    destruct (pre_node _ _ _ _ _ Hpre _ _ Hseg Hy) as (sy & Hby & _).
    destruct (pre_block _ _ _ _ _ Hpre _ _ _ Hby) as (Hy16 & _ & _ & _ & Hhi & _).
    unfold PREV_FREE, NEXT_FREE, WORD. split; apply Vo; lia.
  - intros seg x Hseg. rewrite (pre_members _ _ _ _ _ Hpre seg x Hseg). split.
    + intros (sx & H1 & H2 & H3). exists sx. repeat split; auto.
      * apply in_app_iff. left. exact H1.
      * intros D. apply H3. apply (Hd _ _ H1). exact D.
    + intros (sx & H1 & H2 & H3). exists sx.
      destruct (Hnew _ _ H1) as [H1'|H1']; [|subst x; contradiction].
      repeat split; auto. intros D. apply H3. apply (Hd _ _ H1'). exact D.
Qed.

Lemma list_snoc_cases {A} (l : list A) : l = [] \/ exists l' x, l = l' ++ [x].
Proof.
  induction l as [|x l _] using rev_ind; [left; reflexivity|right].
  exists l, x. reflexivity.
Qed.

(** A block of the walk with what comes before and after it. *)
Lemma pre_split lo st bl L d bp size state :
  heap_pre lo st bl L d -> In (bp, size, state) bl ->
  exists l1 l2,
    bl = l1 ++ (bp, size, state) :: l2 /\
    tiles st (lo + 32) l1 bp /\
    tiles st (bp + size) l2 (mem_brk st + 8) /\
    (forall q sq tq, In (q, sq, tq) l1 -> q + sq <= bp) /\
    (forall q sq tq, In (q, sq, tq) l2 -> bp + size <= q).
Proof.
  intros Hpre Hin.
  destruct (tiles_split _ _ _ _ _ _ _ (pre_tiles _ _ _ _ _ Hpre) Hin)
    as (l1 & l2 & E & H1 & _ & H2).
  exists l1, l2. repeat split; auto.
  - intros q sq tq Hq. destruct (tiles_in _ _ _ _ H1 _ _ _ Hq) as (_ & _ & H).
    exact H.
  - intros q sq tq Hq. destruct (tiles_in _ _ _ _ H2 _ _ _ Hq) as (_ & H & _).
    exact H.
Qed.

Lemma free_not_allocated : FREE <> ALLOCATED.
Proof. discriminate. Qed.

Section Coalesce.

Variable lo : Z.
Variable st : heap.
Variable bl : list block.
Variable L : Z -> list Z.
Variable d : Z -> Prop.
Hypothesis Hpre : heap_pre lo st bl L d.

Variable bp : Z.
Variable size : Z.
Hypothesis Hbp : In (bp, size, FREE) bl.
Hypothesis Hdbp : d bp.
Hypothesis Honly : forall q sq, In (q, sq, FREE) bl -> d q -> q = bp.

(** [coalesce_left]: the block at [bp], merged with its left neighbour
    when that one is free, is the only detached block, and its left
    neighbour is not free. *)
Lemma coalesce_left_pre :
  exists bl1 L1 s1,
    heap_pre lo (snd (coalesce_left st bp)) bl1 L1
             (fun x => x = fst (coalesce_left st bp)) /\
    In (fst (coalesce_left st bp), s1, FREE) bl1 /\
    fst (coalesce_left st bp) <= bp /\
    fst (coalesce_left st bp) + s1 = bp + size /\
    (forall q sq, In (q, sq, FREE) bl1 -> q + sq <> fst (coalesce_left st bp)) /\
    (forall q sq, In (q, sq, ALLOCATED) bl1 <-> In (q, sq, ALLOCATED) bl) /\
    (forall x, ~ in_blocks bl FREE x ->
               mem (snd (coalesce_left st bp)) x = mem st x) /\
    (forall x, in_blocks bl1 FREE x -> in_blocks bl FREE x).
Proof.
  destruct (pre_split _ _ _ _ _ _ _ _ Hpre Hbp) as (l1 & l2 & Ebl & Ht1 & Ht2 & Hl1 & Hl2).
  destruct (pre_block _ _ _ _ _ Hpre _ _ _ Hbp) as (H16 & H8 & _ & Hlo & Hhi & _).
  assert (Hskip : UNPACK_STATE st (PREV_FOOTER bp) = ALLOCATED ->
                  (forall q sq, In (q, sq, FREE) bl -> q + sq <> bp) ->
                  exists bl1 L1 s1,
    heap_pre lo (snd (coalesce_left st bp)) bl1 L1
             (fun x => x = fst (coalesce_left st bp)) /\
    In (fst (coalesce_left st bp), s1, FREE) bl1 /\
    fst (coalesce_left st bp) <= bp /\
    fst (coalesce_left st bp) + s1 = bp + size /\
    (forall q sq, In (q, sq, FREE) bl1 -> q + sq <> fst (coalesce_left st bp)) /\
    (forall q sq, In (q, sq, ALLOCATED) bl1 <-> In (q, sq, ALLOCATED) bl) /\
    (forall x, ~ in_blocks bl FREE x ->
               mem (snd (coalesce_left st bp)) x = mem st x) /\
    (forall x, in_blocks bl1 FREE x -> in_blocks bl FREE x)).
  { intros Hst Hleft. rewrite (coalesce_left_skip _ _ Hst). simpl.
    exists bl, L, size.
    split; [|split; [|split; [|split; [|split; [|split; [|split]]]]]];
      auto; try lia; try tauto.
    apply (heap_pre_detached _ _ _ _ d); [exact Hpre|].
    intros p sp Hp. split; [exact (Honly _ _ Hp)|intros ->; exact Hdbp]. }
  destruct (list_snoc_cases l1) as [El1|(l1' & [[q sq] tq] & El1)].
  - (* the left sentinel *)
    subst l1. apply tiles_nil_inv in Ht1.
    apply Hskip.
    + unfold PREV_FOOTER, OVERHEAD. replace (bp - 16) with (lo + 16) by lia.
      apply (VALUE_PACK_odd _ _ 16); [|reflexivity].
      exact (proj2 (pre_left_sentinel _ _ _ _ _ Hpre)).
    + intros p sp Hp.
      destruct (pre_block _ _ _ _ _ Hpre _ _ _ Hp) as (? & _ & _ & ? & _). lia.
  - subst l1. apply tiles_app in Ht1. destruct Ht1 as (m & Ht1 & Htq).
    apply tiles_cons_inv in Htq. destruct Htq as (-> & Hokq & Htq).
    apply tiles_nil_inv in Htq.
    assert (Hq : In (q, sq, tq) bl).
    { rewrite Ebl. apply in_app_iff. left. apply in_app_iff. right. left.
      reflexivity. }
    destruct (pre_block _ _ _ _ _ Hpre _ _ _ Hq)
      as (Hq16 & Hq8 & Htq01 & Hqlo & _ & _ & _ & Hqsz & _ & Hqh & Hqf).
    assert (Hfoot : PREV_FOOTER bp = q - 16 + sq)
      by (unfold PREV_FOOTER, OVERHEAD; lia).
    destruct (unpack_PACK _ _ _ _ Hqf Hq8 Htq01) as [Sf Tf].
    destruct Htq01 as [Etq|Etq]; subst tq.
    2:{ apply Hskip.
        - rewrite Hfoot. exact Tf.
        - intros p sp Hp E.
          destruct (pre_far _ _ _ _ _ Hpre _ _ _ _ _ _ Hp Hq) as [(_ & _ & F)|F];
            [discriminate|].
          destruct (pre_block _ _ _ _ _ Hpre _ _ _ Hp) as (? & _). lia. }
    (* the left neighbour is free *)
    rewrite coalesce_left_absorb, Hfoot, Tf, Z.eqb_refl. cbn [fst snd].
    replace (PREV_BLOCK st bp) with q
      by (unfold PREV_BLOCK; rewrite Hfoot, Sf; lia).
    assert (Hndq : ~ d q).
    { intros F. pose proof (Honly _ _ Hq F). lia. }
    pose proof (list_remove_pre _ _ _ _ _ Hpre q sq Hq Hndq) as Hrem.
    assert (Ebl' : bl = l1' ++ (q, sq, FREE) :: (q + sq, size, FREE) :: l2).
    { rewrite Ebl, <- app_assoc, <- Htq. reflexivity. }
    rewrite Ebl' in Hrem.
    set (L1 := upd L (list_find sq) (remove Z.eq_dec q (L (list_find sq)))) in *.
    assert (Hl1' : forall p sp tp, In (p, sp, tp) l1' -> p + sp <= q).
    { intros p sp tp Hp.
      destruct (tiles_in _ _ _ _ Ht1 _ _ _ Hp) as (_ & _ & H). exact H. }
    assert (Hout : forall p sp, In (p, sp, FREE) (l1' ++ l2) ->
                     In (p, sp, FREE) bl /\ p <> q /\ p <> bp /\ p + sp <> q).
    { intros p sp Hp.
      assert (Hpb : In (p, sp, FREE) bl).
      { rewrite Ebl'. apply in_app_iff in Hp. apply in_app_iff.
        destruct Hp as [Hp|Hp]; [left; exact Hp|right; right; right; exact Hp]. }
      destruct (pre_block _ _ _ _ _ Hpre _ _ _ Hpb) as (Hp16 & _).
      split; [exact Hpb|].
      apply in_app_iff in Hp. destruct Hp as [Hp|Hp].
      - pose proof (Hl1' _ _ _ Hp). repeat split; try lia.
        intros E.
        destruct (pre_coalesced _ _ _ _ _ Hpre _ _ _ _ Hpb Hq (eq_sym E)) as [F|F].
        + pose proof (Honly _ _ Hpb F). lia.
        + contradiction.
      - pose proof (Hl2 _ _ _ Hp). repeat split; lia. }
    assert (Hdn : q + sq = q \/ d (q + sq)) by (right; rewrite Htq; exact Hdbp).
    pose proof (absorb_pre lo _ L1 _ l1' l2 q sq size (fun x => x = q) Hrem
                  (or_introl eq_refl) Hdn eq_refl) as Habs.
    exists (l1' ++ (q, sq + size, FREE) :: l2), L1, (sq + size).
    split; [|split; [|split; [|split; [|split; [|split; [split|split]]]]]].
    + apply Habs. intros p sp Hp.
      destruct (Hout _ _ Hp) as (Hpb & Hpq & Hpbp & _).
      split; [intros ->; contradiction|].
      intros [F|F]; [exact F|]. exfalso. apply Hpbp. exact (Honly _ _ Hpb F).
    + apply in_middle. auto.
    + lia.
    + lia.
    + intros p sp Hp. apply in_middle in Hp.
      destruct Hp as [Hp|[Hp|Hp]].
      * destruct (Hout p sp ltac:(apply in_app_iff; auto)) as (_ & _ & _ & F).
        exact F.
      * injection Hp as -> ->. lia.
      * destruct (Hout p sp ltac:(apply in_app_iff; auto)) as (_ & _ & _ & F).
        exact F.
    + intros Hp. rewrite Ebl'. apply in_middle in Hp.
      apply in_middle. destruct Hp as [Hp|[Hp|Hp]]; auto.
      * discriminate.
      * right. right. right. exact Hp.
    + intros Hp. rewrite Ebl' in Hp. apply in_middle in Hp.
      apply in_middle. destruct Hp as [Hp|[Hp|Hp]]; auto.
      * discriminate.
      * destruct Hp as [Hp|Hp]; [discriminate|auto].
    + intros x Hx.
      pose proof (pre_block _ _ _ _ _ Hrem q sq FREE ltac:(apply in_middle; auto))
        as (_ & _ & _ & _ & _ & _ & _ & _ & _ & Vh & _).
      pose proof (pre_block _ _ _ _ _ Hrem (q + sq) size FREE
                    ltac:(apply in_middle; right; right; left; reflexivity))
        as (_ & _ & _ & _ & Hhi' & _ & _ & _ & _ & Vnh & Vnf).
      destruct (pre_space _ _ _ _ _ Hrem) as [Hsp Hmax].
      destruct (pre_base _ _ _ _ _ Hpre) as [Hlo0 _].
      destruct (absorb_words _ q sq size Vh Vnh Vnf Hq16 Hq8 H16 H8 ltac:(lia))
        as (_ & _ & _ & Vm).
      rewrite Vm.
      * apply (list_remove_pre_mem _ _ _ _ _ Hpre q sq x Hq Hndq Hx).
      * destruct (Z_lt_ge_dec x (q - 12)) as [A|A]; [left; exact A|].
        destruct (Z_lt_ge_dec x (q - 12 + (sq + size))) as [B|B]; [|right; left; lia].
        exfalso. apply Hx.
        destruct (Z_lt_ge_dec x (q - 12 + sq)) as [C|C].
        -- exists q, sq. split; [exact Hq|unfold in_block; lia].
        -- exists bp, size. split; [exact Hbp|unfold in_block; lia].
    + intros x (p & sp & Hp & Hx). apply in_middle in Hp.
      destruct Hp as [Hp|[Hp|Hp]].
      * exists p, sp. split; [|exact Hx].
        apply (Hout p sp). apply in_app_iff; auto.
      * injection Hp as -> ->. unfold in_block in Hx.
        destruct (Z_lt_ge_dec x (q - 12 + sq)) as [C|C].
        -- exists q, sq. split; [exact Hq|unfold in_block; lia].
        -- exists bp, size. split; [exact Hbp|unfold in_block; lia].
      * exists p, sp. split; [|exact Hx].
        apply (Hout p sp). apply in_app_iff; auto.
Qed.

End Coalesce.

Section CoalesceRight.

Variable lo : Z.
Variable st : heap.
Variable bl : list block.
Variable L : Z -> list Z.
Variable r : Z.
Variable s : Z.
Hypothesis Hpre : heap_pre lo st bl L (fun x => x = r).
Hypothesis Hr : In (r, s, FREE) bl.

(** [coalesce_right]: the block at [r], merged with its right neighbour
    when that one is free, is still the only detached block, and its
    right neighbour is not free. *)
Lemma coalesce_right_pre :
  exists bl2 L2 s2,
    heap_pre lo (coalesce_right st r) bl2 L2 (fun x => x = r) /\
    In (r, s2, FREE) bl2 /\ s <= s2 /\
    (forall q sq, In (q, sq, FREE) bl2 -> q <> r + s2) /\
    (forall q sq, In (q, sq, FREE) bl2 -> q + sq = r -> In (q, sq, FREE) bl) /\
    (forall q sq, In (q, sq, ALLOCATED) bl2 <-> In (q, sq, ALLOCATED) bl) /\
    (forall x, ~ in_blocks bl FREE x -> mem (coalesce_right st r) x = mem st x) /\
    (forall x, in_blocks bl2 FREE x -> in_blocks bl FREE x).
Proof.
  destruct (pre_split _ _ _ _ _ _ _ _ Hpre Hr)
    as (l1 & l2 & Ebl & Ht1 & Ht2 & Hl1 & Hl2).
  destruct (pre_block _ _ _ _ _ Hpre _ _ _ Hr)
    as (H16 & H8 & _ & Hlo & Hhi & _ & _ & Hsz & _ & Vh & Vf).
  assert (Hnh : NEXT_HEADER st r = r + s - 12)
    by (unfold NEXT_HEADER, OVERHEAD, WORD; rewrite Hsz; lia).
  assert (Hskip : UNPACK_STATE st (NEXT_HEADER st r) = ALLOCATED ->
                  (forall q sq, In (q, sq, FREE) bl -> q <> r + s) ->
                  exists bl2 L2 s2,
    heap_pre lo (coalesce_right st r) bl2 L2 (fun x => x = r) /\
    In (r, s2, FREE) bl2 /\ s <= s2 /\
    (forall q sq, In (q, sq, FREE) bl2 -> q <> r + s2) /\
    (forall q sq, In (q, sq, FREE) bl2 -> q + sq = r -> In (q, sq, FREE) bl) /\
    (forall q sq, In (q, sq, ALLOCATED) bl2 <-> In (q, sq, ALLOCATED) bl) /\
    (forall x, ~ in_blocks bl FREE x -> mem (coalesce_right st r) x = mem st x) /\
    (forall x, in_blocks bl2 FREE x -> in_blocks bl FREE x)).
  { intros Hst Hright. rewrite (coalesce_right_skip _ _ Hst).
    exists bl, L, s.
    split; [|split; [|split; [|split; [|split; [|split; [|split]]]]]];
      auto; try lia; try tauto. }
  destruct l2 as [|[[n sn] tn] l2'].
  - (* the terminator *)
    apply tiles_nil_inv in Ht2. apply Hskip.
    + rewrite Hnh. replace (r + s - 12) with (mem_brk st - 4) by lia.
      apply (VALUE_PACK_odd _ _ 0); [|reflexivity].
      exact (pre_terminator _ _ _ _ _ Hpre).
    + intros q sq Hq.
      destruct (pre_block _ _ _ _ _ Hpre _ _ _ Hq) as (? & _ & _ & _ & ? & _).
      lia.
  - apply tiles_cons_inv in Ht2. destruct Ht2 as (En & Hokn & Ht2).
    subst n.
    assert (Hn : In (r + s, sn, tn) bl).
    { rewrite Ebl. apply in_middle. right. right. left. reflexivity. }
    destruct (pre_block _ _ _ _ _ Hpre _ _ _ Hn)
      as (Hn16 & Hn8 & Htn01 & _ & Hnhi & _ & _ & _ & _ & Vnh & Vnf).
    destruct (unpack_PACK _ _ _ _ Vnh Hn8 Htn01) as [_ Tn].
    destruct Htn01 as [Etn|Etn]; subst tn.
    2:{ apply Hskip.
        - rewrite Hnh. exact Tn.
        - intros q sq Hq E. subst q.
          destruct (tiles_unique _ _ _ _ (pre_tiles _ _ _ _ _ Hpre) _ _ _ _ _ Hq Hn)
            as [_ F].
          discriminate. }
    (* the right neighbour is free *)
    rewrite coalesce_right_absorb, Hnh, Tn, Z.eqb_refl.
    replace (NEXT_BLOCK st r) with (r + s)
      by (unfold NEXT_BLOCK; rewrite Hsz; reflexivity).
    assert (Hndn : ~ (r + s = r)) by lia.
    pose proof (list_remove_pre _ _ _ _ _ Hpre (r + s) sn Hn Hndn) as Hrem.
    rewrite Ebl in Hrem.
    set (L2 := upd L (list_find sn) (remove Z.eq_dec (r + s) (L (list_find sn)))) in *.
    assert (Hl2' : forall p sp tp, In (p, sp, tp) l2' -> r + s + sn <= p).
    { intros p sp tp Hp.
      destruct (tiles_in _ _ _ _ Ht2 _ _ _ Hp) as (_ & H & _). exact H. }
    assert (Hout : forall p sp tp, In (p, sp, tp) (l1 ++ l2') ->
                     In (p, sp, tp) bl /\ p <> r /\ p <> r + s).
    { intros p sp tp Hp.
      assert (Hpb : In (p, sp, tp) bl).
      { rewrite Ebl. apply in_app_iff in Hp. apply in_app_iff.
        destruct Hp as [Hp|Hp]; [left; exact Hp|right; right; right; exact Hp]. }
      destruct (pre_block _ _ _ _ _ Hpre _ _ _ Hpb) as (Hp16 & _).
      split; [exact Hpb|].
      apply in_app_iff in Hp. destruct Hp as [Hp|Hp].
      - pose proof (Hl1 _ _ _ Hp). lia.
      - pose proof (Hl2' _ _ _ Hp). lia. }
    assert (Hdr : r = r + s \/ r = r) by (right; reflexivity).
    assert (Hdn : r + s = r + s \/ r + s = r) by (left; reflexivity).
    pose proof (absorb_pre lo _ L2 _ l1 l2' r s sn (fun x => x = r) Hrem
                  Hdr Hdn eq_refl) as Habs.
    exists (l1 ++ (r, s + sn, FREE) :: l2'), L2, (s + sn).
    split; [|split; [|split; [|split; [|split; [|split; [split|split]]]]]].
    + apply Habs. intros p sp Hp.
      destruct (Hout _ _ _ Hp) as (Hpb & Hpr & Hpn).
      split; [intros ->; contradiction|]. intros [F|F]; contradiction.
    + apply in_middle. auto.
    + lia.
    + intros p sp Hp E. apply in_middle in Hp.
      assert (Hp' : In (p, sp, FREE) (l1 ++ l2')).
      { apply in_app_iff. destruct Hp as [Hp|[Hp|Hp]]; auto.
        injection Hp as -> _. lia. }
      destruct (Hout _ _ _ Hp') as (Hpb & Hpr & Hpn).
      destruct (pre_coalesced _ _ _ _ _ Hpre _ _ _ _ Hn Hpb ltac:(lia)); lia.
    + intros p sp Hp E. apply in_middle in Hp.
      assert (Hp' : In (p, sp, FREE) (l1 ++ l2')).
      { apply in_app_iff. destruct Hp as [Hp|[Hp|Hp]]; auto.
        injection Hp as -> ->. lia. }
      exact (proj1 (Hout _ _ _ Hp')).
    + intros Hp. apply in_middle in Hp.
      destruct Hp as [Hp|[Hp|Hp]]; [| discriminate |];
        apply (Hout q sq ALLOCATED); apply in_app_iff; auto.
    + intros Hp. rewrite Ebl in Hp. apply in_middle in Hp.
      apply in_middle. destruct Hp as [Hp|[Hp|Hp]]; auto.
      * discriminate.
      * destruct Hp as [Hp|Hp]; [discriminate|auto].
    + intros x Hx.
      pose proof (pre_block _ _ _ _ _ Hrem r s FREE ltac:(apply in_middle; auto))
        as (_ & _ & _ & _ & _ & _ & _ & _ & _ & Vh' & _).
      pose proof (pre_block _ _ _ _ _ Hrem (r + s) sn FREE
                    ltac:(apply in_middle; right; right; left; reflexivity))
        as (_ & _ & _ & _ & Hhi' & _ & _ & _ & _ & Vnh' & Vnf').
      destruct (pre_space _ _ _ _ _ Hrem) as [Hsp Hmax].
      destruct (pre_base _ _ _ _ _ Hpre) as [Hlo0 _].
      destruct (absorb_words _ r s sn Vh' Vnh' Vnf' H16 H8 Hn16 Hn8 ltac:(lia))
        as (_ & _ & _ & Vm).
      rewrite Vm.
      * apply (list_remove_pre_mem _ _ _ _ _ Hpre (r + s) sn x Hn Hndn Hx).
      * destruct (Z_lt_ge_dec x (r - 12)) as [A|A]; [left; exact A|].
        destruct (Z_lt_ge_dec x (r - 12 + (s + sn))) as [B|B]; [|right; left; lia].
        exfalso. apply Hx.
        destruct (Z_lt_ge_dec x (r - 12 + s)) as [C|C].
        -- exists r, s. split; [exact Hr|unfold in_block; lia].
        -- exists (r + s), sn. split; [exact Hn|unfold in_block; lia].
    + intros x (p & sp & Hp & Hx). apply in_middle in Hp.
      destruct Hp as [Hp|[Hp|Hp]].
      * exists p, sp. split; [|exact Hx].
        apply (Hout p sp FREE). apply in_app_iff; auto.
      * injection Hp as -> ->. unfold in_block in Hx.
        destruct (Z_lt_ge_dec x (r - 12 + s)) as [C|C].
        -- exists r, s. split; [exact Hr|unfold in_block; lia].
        -- exists (r + s), sn. split; [exact Hn|unfold in_block; lia].
      * exists p, sp. split; [|exact Hx].
        apply (Hout p sp FREE). apply in_app_iff; auto.
Qed.

End CoalesceRight.

(** [coalesce] of the only detached block gives back a heap that
    satisfies the invariants; it leaves the allocated blocks and every
    byte outside the free blocks as they are. *)
Lemma coalesce_inv lo st bl L (d : Z -> Prop) bp size :
  heap_pre lo st bl L d -> In (bp, size, FREE) bl -> d bp ->
  (forall q sq, In (q, sq, FREE) bl -> d q -> q = bp) ->
  exists bl' L' s',
    heap_inv lo (snd (coalesce st bp)) bl' L' /\
    In (fst (coalesce st bp), s', FREE) bl' /\
    fst (coalesce st bp) <= bp /\ bp + size <= fst (coalesce st bp) + s' /\
    (forall q sq, In (q, sq, ALLOCATED) bl' <-> In (q, sq, ALLOCATED) bl) /\
    (forall x, ~ in_blocks bl FREE x -> mem (snd (coalesce st bp)) x = mem st x) /\
    (forall x, in_blocks bl' FREE x -> in_blocks bl FREE x).
Proof.
  intros Hpre Hbp Hd Honly.
  destruct (coalesce_left_pre lo st bl L d Hpre bp size Hbp Hd Honly)
    as (bl1 & L1 & s1 & Hpre1 & Hin1 & Hle1 & Hsum1 & Hleft1 & Hal1 & Hm1 & Hf1).
  unfold coalesce.
  destruct (coalesce_left st bp) as [r st1] eqn:E. cbn [fst snd] in *.
  destruct (coalesce_right_pre lo st1 bl1 L1 r s1 Hpre1 Hin1)
    as (bl2 & L2 & s2 & Hpre2 & Hin2 & Hle2 & Hright2 & Hleft2 & Hal2 & Hm2 & Hf2).
  assert (Hco : forall p1 sz1 p2 sz2,
            In (p1, sz1, FREE) bl2 -> In (p2, sz2, FREE) bl2 -> p2 = p1 + sz1 ->
            (p1 = r /\ p1 <> r) \/ (p2 = r /\ p2 <> r)).
  { intros p1 sz1 p2 sz2 H1 H2 E'. exfalso.
    destruct (pre_coalesced _ _ _ _ _ Hpre2 _ _ _ _ H1 H2 E') as [F|F].
    - subst p1.
      destruct (tiles_unique _ _ _ _ (pre_tiles _ _ _ _ _ Hpre2) _ _ _ _ _ H1 Hin2)
        as [F _].
      subst sz1. exact (Hright2 _ _ H2 E').
    - rewrite F in E'.
      exact (Hleft1 _ _ (Hleft2 _ _ H1 (eq_sym E')) (eq_sym E')). }
  pose proof (list_add_pre _ _ _ _ _ Hpre2 r s2 Hin2 eq_refl Hco) as Hadd.
  exists bl2, (upd L2 (list_find s2) (L2 (list_find s2) ++ [r])), s2.
  split; [|split; [|split; [|split; [|split; [|split]]]]].
  - apply (heap_inv_of_pre _ _ _ _ _ Hadd). intros p sp _ [F1 F2]. contradiction.
  - exact Hin2.
  - exact Hle1.
  - lia.
  - intros q sq. rewrite Hal2. apply Hal1.
  - intros x Hx.
    rewrite (list_add_pre_mem _ _ _ _ _ Hpre2 r s2 x Hin2)
      by (intros F; apply Hx; apply Hf1; apply Hf2; exact F).
    rewrite Hm2 by (intros F; apply Hx; apply Hf1; exact F).
    apply Hm1. exact Hx.
  - intros x Hx. apply Hf1. apply Hf2. exact Hx.
Qed.

Lemma not_in_block_cases bp size x :
  ~ in_block bp size x -> x < bp - 12 \/ bp - 12 + size <= x.
Proof. unfold in_block. lia. Qed.

(** ** mm_free *)

Lemma mm_free_inv lo st bl L bp size :
  heap_inv lo st bl L -> In (bp, size, ALLOCATED) bl ->
  exists bl' L',
    heap_inv lo (mm_free st bp) bl' L' /\
    (forall q sq, In (q, sq, ALLOCATED) bl' <->
                  In (q, sq, ALLOCATED) bl /\ q <> bp) /\
    (forall x, ~ in_blocks bl FREE x -> ~ in_block bp size x ->
               mem (mm_free st bp) x = mem st x) /\
    (exists r s', In (r, s', FREE) bl' /\ r <= bp /\ bp + size <= r + s').
Proof.
  intros Hinv Hbp. pose proof (heap_pre_of_inv _ _ _ _ Hinv) as Hpre.
  destruct (pre_split _ _ _ _ _ _ _ _ Hpre Hbp)
    as (l1 & l2 & Ebl & Ht1 & Ht2 & Hl1 & Hl2).
  destruct (pre_block _ _ _ _ _ Hpre _ _ _ Hbp)
    as (H16 & H8 & Hs01 & _ & _ & _ & _ & _ & _ & Vh & Vf).
  assert (Hout : forall q sq tq, In (q, sq, tq) (l1 ++ l2) ->
                   In (q, sq, tq) bl /\ q <> bp).
  { intros q sq tq Hq.
    assert (Hqb : In (q, sq, tq) bl).
    { rewrite Ebl. apply in_middle. apply in_app_iff in Hq. tauto. }
    destruct (pre_block _ _ _ _ _ Hpre _ _ _ Hqb) as (Hq16 & _).
    split; [exact Hqb|].
    apply in_app_iff in Hq. destruct Hq as [Hq|Hq].
    - pose proof (Hl1 _ _ _ Hq). lia.
    - pose proof (Hl2 _ _ _ Hq). lia. }
  rewrite Ebl in Hpre.
  assert (Hmark : heap_pre lo (mark st bp FREE) (l1 ++ (bp, size, FREE) :: l2) L
                    (fun x => x = bp)).
  { apply (mark_pre lo st L (fun _ => False) l1 l2 bp size ALLOCATED FREE); auto.
    - intros F. discriminate.
    - intros q sq Hq. destruct (Hout _ _ _ Hq) as [_ F]. tauto. }
  assert (Hin : In (bp, size, FREE) (l1 ++ (bp, size, FREE) :: l2))
    by (apply in_middle; auto).
  destruct (coalesce_inv lo _ _ L _ bp size Hmark Hin eq_refl
              ltac:(intros q sq _ F; exact F))
    as (bl' & L' & s' & Hinv' & Hr & Hrl & Hrh & Hal & Hm & _).
  exists bl', L'. rewrite mm_free_mark. split; [exact Hinv'|].
  split; [|split].
  - intros q sq. rewrite Hal, Ebl, !in_middle. split.
    + intros [Hq|[Hq|Hq]]; [|discriminate|].
      * destruct (Hout q sq ALLOCATED ltac:(apply in_app_iff; auto)). tauto.
      * destruct (Hout q sq ALLOCATED ltac:(apply in_app_iff; auto)). tauto.
    + intros [[Hq|[Hq|Hq]] Hne]; auto.
      injection Hq as -> _. contradiction.
  - intros x Hx Hxb.
    rewrite Hm.
    + destruct (mark_words st bp size ALLOCATED FREE Vh Vf H16 H8 Hs01
                  ltac:(left; reflexivity)) as (_ & _ & _ & Vm).
      apply Vm. destruct (not_in_block_cases _ _ _ Hxb); auto.
    + intros (q & sq & Hq & Hxq). apply in_middle in Hq.
      destruct Hq as [Hq|[Hq|Hq]].
      * apply Hx. exists q, sq. split; [|exact Hxq].
        apply (Hout q sq FREE). apply in_app_iff; auto.
      * injection Hq as -> ->. contradiction.
      * apply Hx. exists q, sq. split; [|exact Hxq].
        apply (Hout q sq FREE). apply in_app_iff; auto.
  - exists (fst (coalesce (mark st bp FREE) bp)), s'. auto.
Qed.

(** ** Placing a request in a free block *)

Lemma place_inv lo st bl L bp size asize :
  heap_inv lo st bl L -> In (bp, size, FREE) bl ->
  16 <= asize -> asize mod 8 = 0 -> asize <= size ->
  exists bl' L' size',
    heap_inv lo (place st bp asize) bl' L' /\
    asize <= size' <= size /\ (size' = asize \/ size' < asize + 16) /\
    (forall q sq, In (q, sq, ALLOCATED) bl' <->
                  In (q, sq, ALLOCATED) bl \/ (q = bp /\ sq = size')) /\
    (forall x, ~ in_blocks bl FREE x -> mem (place st bp asize) x = mem st x).
Proof.
  intros Hinv Hbp Ha16 Ha8 Hfit.
  pose proof (heap_pre_of_inv _ _ _ _ Hinv) as Hpre.
  destruct (pre_split _ _ _ _ _ _ _ _ Hpre Hbp)
    as (l1 & l2 & Ebl & Ht1 & Ht2 & Hl1 & Hl2).
  destruct (pre_block _ _ _ _ _ Hpre _ _ _ Hbp)
    as (H16 & H8 & Hs01 & Hlo & Hhi & _ & _ & _ & _ & _ & _).
  destruct (pre_space _ _ _ _ _ Hpre) as [Hsp Hmax].
  destruct (pre_base _ _ _ _ _ Hpre) as [Hlo0 _].
  assert (Hout : forall q sq tq, In (q, sq, tq) (l1 ++ l2) ->
                   In (q, sq, tq) bl /\ q <> bp /\
                   (asize + 16 <= size -> q <> bp + asize)).
  { intros q sq tq Hq.
    assert (Hqb : In (q, sq, tq) bl).
    { rewrite Ebl. apply in_middle. apply in_app_iff in Hq. tauto. }
    destruct (pre_block _ _ _ _ _ Hpre _ _ _ Hqb) as (Hq16 & _).
    split; [exact Hqb|].
    apply in_app_iff in Hq. destruct Hq as [Hq|Hq].
    - pose proof (Hl1 _ _ _ Hq). lia.
    - pose proof (Hl2 _ _ _ Hq). lia. }
  assert (Hxb : forall x, ~ in_blocks bl FREE x ->
                  x < bp - 12 \/ bp - 12 + size <= x).
  { intros x Hx. apply not_in_block_cases. intros F. apply Hx.
    exists bp, size. auto. }
  pose proof (list_remove_pre _ _ _ _ _ Hpre bp size Hbp ltac:(tauto)) as Hrem.
  set (L1 := upd L (list_find size) (remove Z.eq_dec bp (L (list_find size)))) in *.
  pose proof (pre_block _ _ _ _ _ Hrem _ _ _ Hbp)
    as (_ & _ & _ & _ & _ & _ & _ & _ & _ & Vh & Vf).
  destruct (mark_words _ bp size FREE ALLOCATED Vh Vf H16 H8 Hs01
              ltac:(right; reflexivity)) as (_ & _ & _ & Vmark).
  rewrite Ebl in Hrem.
  assert (Hmark : heap_pre lo (mark (list_remove st bp) bp ALLOCATED)
                    (l1 ++ (bp, size, ALLOCATED) :: l2) L1 (fun _ => False)).
  { apply (mark_pre lo _ L1 _ l1 l2 bp size FREE ALLOCATED _ Hrem); auto.
    - intros F. discriminate.
    - intros q sq Hq. destruct (Hout _ _ _ Hq) as (_ & F & _). tauto. }
  assert (Hinm : In (bp, size, ALLOCATED) (l1 ++ (bp, size, ALLOCATED) :: l2))
    by (apply in_middle; auto).
  pose proof (pre_block _ _ _ _ _ Hmark _ _ _ Hinm)
    as (_ & _ & _ & _ & _ & _ & _ & Hsz & _).
  rewrite place_mark, split_carve, Hsz.
  unfold OVERHEAD. rewrite (wrap_small (asize + 16)) by lia.
  destruct (Z.ltb_spec size (asize + 16)) as [Hlt|Hge].
  - exists (l1 ++ (bp, size, ALLOCATED) :: l2), L1, size.
    split; [|split; [|split; [|split]]].
    + apply (heap_inv_of_pre _ _ _ _ _ Hmark). tauto.
    + lia.
    + right. exact Hlt.
    + intros q sq. rewrite Ebl, !in_middle. split.
      * intros [Hq|[Hq|Hq]]; auto. injection Hq as -> ->. auto.
      * intros [[Hq|[Hq|Hq]]|[-> ->]]; auto. discriminate.
    + intros x Hx. rewrite Vmark by (destruct (Hxb x Hx); auto).
      apply (list_remove_pre_mem _ _ _ _ _ Hpre bp size x Hbp ltac:(tauto) Hx).
  - set (stm := mark (list_remove st bp) bp ALLOCATED) in *.
    destruct (carve_words stm bp size asize Hsz Ha16 Ha8 Hge H8 ltac:(lia))
      as (_ & _ & _ & _ & Hnb & _ & Vcarve).
    rewrite Hnb.
    assert (Hcarve : heap_pre lo (carve stm bp asize)
              (l1 ++ (bp, asize, ALLOCATED) :: (bp + asize, size - asize, FREE) :: l2)
              L1 (fun x => x = bp + asize)).
    { apply (carve_pre lo stm L1 _ l1 l2 bp size asize _ Hmark); auto.
      intros q sq Hq. destruct (Hout _ _ _ Hq) as (_ & _ & F).
      specialize (F Hge). tauto. }
    assert (Hinr : In (bp + asize, size - asize, FREE)
              (l1 ++ (bp, asize, ALLOCATED) :: (bp + asize, size - asize, FREE) :: l2)).
    { apply in_middle. right. right. left. reflexivity. }
    destruct (coalesce_inv lo _ _ L1 _ (bp + asize) (size - asize) Hcarve Hinr
                eq_refl ltac:(intros q sq _ F; exact F))
      as (bl' & L' & s' & Hinv' & _ & _ & _ & Hal & Hm & _).
    exists bl', L', asize.
    split; [|split; [|split; [|split]]].
    + exact Hinv'.
    + lia.
    + left. reflexivity.
    + intros q sq. rewrite Hal, Ebl, !in_middle. split.
      * intros [Hq|[Hq|[Hq|Hq]]]; auto; [|discriminate].
        injection Hq as -> ->. auto.
      * intros [[Hq|[Hq|Hq]]|[-> ->]]; auto; [discriminate|].
        right. right. right. exact Hq.
    + intros x Hx. rewrite Hm.
      * rewrite Vcarve by (destruct (Hxb x Hx); auto).
        rewrite Vmark by (destruct (Hxb x Hx); auto).
        apply (list_remove_pre_mem _ _ _ _ _ Hpre bp size x Hbp ltac:(tauto) Hx).
      * intros (q & sq & Hq & Hxq). apply in_middle in Hq.
        destruct Hq as [Hq|[Hq|[Hq|Hq]]].
        -- apply Hx. exists q, sq. split; [|exact Hxq].
           apply (Hout q sq FREE). apply in_app_iff; auto.
        -- discriminate.
        -- injection Hq as E1 E2. subst q sq. unfold in_block in Hxq.
           destruct (Hxb x Hx); lia.
        -- apply Hx. exists q, sq. split; [|exact Hxq].
           apply (Hout q sq FREE). apply in_app_iff; auto.
Qed.

(** ** new_block *)

Lemma new_block_inv lo st bl L asize :
  heap_inv lo st bl L -> 16 <= asize -> asize mod 8 = 0 ->
  mem_brk st + asize <= mem_max_addr st ->
  exists bl' L' s',
    heap_inv lo (snd (new_block st asize)) bl' L' /\
    In (fst (new_block st asize), s', FREE) bl' /\ asize <= s' /\
    (forall q sq, In (q, sq, ALLOCATED) bl' <-> In (q, sq, ALLOCATED) bl) /\
    (forall x, x < mem_brk st - 4 -> ~ in_blocks bl FREE x ->
               mem (snd (new_block st asize)) x = mem st x) /\
    (forall x, in_blocks bl' FREE x ->
               in_blocks bl FREE x \/ mem_brk st - 4 <= x).
Proof.
  intros Hinv H16 H8 Hroom.
  pose proof (heap_pre_of_inv _ _ _ _ Hinv) as Hpre.
  destruct (pre_space _ _ _ _ _ Hpre) as [Hsp Hmax].
  destruct (pre_base _ _ _ _ _ Hpre) as [Hlo0 _].
  pose proof (pre_brk_low _ _ _ _ _ Hpre) as Hlow.
  rewrite new_block_grows by lia.
  assert (Hg : heap_pre lo (grown st asize) (bl ++ [(mem_brk st + 8, asize, FREE)])
                 L (fun x => x = mem_brk st + 8)).
  { apply (grown_pre lo st bl L _ asize _ Hpre); auto.
    intros q sq Hq.
    destruct (pre_block _ _ _ _ _ Hpre _ _ _ Hq) as (? & _ & _ & _ & ? & _).
    split; [lia|tauto]. }
  assert (Hin : In (mem_brk st + 8, asize, FREE)
                   (bl ++ [(mem_brk st + 8, asize, FREE)])).
  { apply in_app_iff. right. left. reflexivity. }
  destruct (coalesce_inv lo _ _ L _ _ asize Hg Hin eq_refl
              ltac:(intros q sq _ F; exact F))
    as (bl' & L' & s' & Hinv' & Hr & Hle & Hge & Hal & Hm & Hf).
  destruct (grown_words st asize H16 H8 ltac:(lia)) as (_ & _ & _ & _ & Vg).
  assert (Hfree : forall x, in_blocks (bl ++ [(mem_brk st + 8, asize, FREE)]) FREE x ->
                    in_blocks bl FREE x \/ mem_brk st - 4 <= x).
  { intros x (q & sq & Hq & Hx). apply in_app_iff in Hq.
    destruct Hq as [Hq|[Hq|[]]].
    - left. exists q, sq. auto.
    - right. injection Hq as <- <-. unfold in_block in Hx. lia. }
  exists bl', L', s'.
  split; [exact Hinv'|]. split; [exact Hr|]. split; [lia|]. split; [|split].
  - intros q sq. rewrite Hal, in_app_iff. split; [|auto].
    intros [Hq|[Hq|[]]]; [exact Hq|discriminate].
  - intros x Hx Hnf. rewrite Hm; [apply Vg; exact Hx|].
    intros F. destruct (Hfree _ F); [contradiction|lia].
  - intros x Hx. apply Hfree. apply Hf. exact Hx.
Qed.

Lemma new_block_no_room st size :
  0 <= size -> mem_max_addr st < mem_brk st + size ->
  new_block st size = (NULL, st).
Proof.
  intros H0 Hroom. apply new_block_fails. unfold mem_sbrk.
  replace (mem_max_addr st <? mem_brk st + size) with true
    by (symmetry; apply Z.ltb_lt; lia).
  rewrite orb_true_r. reflexivity.
Qed.

(** ** find_block *)

Lemma find_block_inv lo st bl L fuel asize r :
  heap_inv lo st bl L -> find_block fuel st asize = Some r -> r <> NULL ->
  exists size, In (r, size, FREE) bl /\ asize <= size.
Proof.
  intros Hinv Hf Hr.
  destruct (find_block_in st asize L fuel (inv_free_lists _ _ _ _ Hinv) r Hf)
    as [E|(seg & Hseg & Hin & Hsz)]; [contradiction|].
  destruct (member_block _ _ _ _ Hinv seg r Hseg Hin) as (Hb & _).
  exists (UNPACK_SIZE st (HEADER r)). split; assumption.
Qed.

(** ** mm_malloc *)

Lemma request_size n :
  0 < n -> n + 23 < 2 ^ 32 ->
  24 <= ALIGN (n + OVERHEAD) /\ ALIGN (n + OVERHEAD) mod 8 = 0 /\
  n + 16 <= ALIGN (n + OVERHEAD) < n + 24.
Proof.
  intros H0 Hn. unfold OVERHEAD.
  pose proof (ALIGN_round_up (n + 16) ltac:(lia) ltac:(lia)) as Hr.
  pose proof (ALIGN_mod8 (n + 16)) as H8.
  repeat split; try lia; try assumption.
  Z.div_mod_to_equations. lia.
Qed.

Lemma mm_malloc_inv lo st bl L fuel n bp st' :
  heap_inv lo st bl L -> 0 < n -> n + 23 < 2 ^ 32 ->
  mm_malloc fuel st n = Some (bp, st') ->
  (bp = NULL /\ st' = st /\
   mem_max_addr st < mem_brk st + ALIGN (n + OVERHEAD)) \/
  (bp <> NULL /\
   exists bl' L' size',
     heap_inv lo st' bl' L' /\ ALIGN (n + OVERHEAD) <= size' /\
     (forall q sq, In (q, sq, ALLOCATED) bl' <->
                   In (q, sq, ALLOCATED) bl \/ (q = bp /\ sq = size')) /\
     (forall sq, ~ In (bp, sq, ALLOCATED) bl) /\
     (forall x, x < mem_brk st - 4 -> ~ in_blocks bl FREE x ->
                mem st' x = mem st x)).
Proof.
  intros Hinv H0 Hn Hm.
  destruct (request_size n H0 Hn) as (Ha24 & Ha8 & Har).
  assert (Hn0 : n <> 0) by lia.
  assert (Ha16 : 16 <= ALIGN (n + OVERHEAD)) by lia.
  destruct (mm_malloc_cases _ _ _ _ _ Hn0 Hm)
    as (r & Hf & [(Hr & -> & ->)|[(-> & Hnb & -> & ->)|(-> & -> & Hnb & ->)]]).
  - (* a block of the free lists *)
    right. split; [exact Hr|].
    destruct (find_block_inv _ _ _ _ _ _ _ Hinv Hf Hr) as (size & Hb & Hsz).
    destruct (place_inv lo st bl L r size _ Hinv Hb Ha16 Ha8 Hsz)
      as (bl' & L' & size' & Hinv' & Hs' & _ & Hal & Hmem).
    exists bl', L', size'.
    split; [exact Hinv'|]. split; [lia|]. split; [exact Hal|]. split.
    + intros sq F.
      destruct (tiles_unique _ _ _ _ (inv_tiles _ _ _ _ Hinv) _ _ _ _ _ Hb F)
        as [_ F'].
      discriminate.
    + intros x _ Hx. apply Hmem. exact Hx.
  - (* the heap cannot grow *)
    left. split; [reflexivity|].
    destruct (Z_le_gt_dec (mem_brk st + ALIGN (n + OVERHEAD)) (mem_max_addr st))
      as [Hroom|Hroom]; [|split; [|lia]].
    + exfalso.
      destruct (new_block_inv lo st bl L _ Hinv Ha16 Ha8 Hroom)
        as (bl1 & L1 & s1 & Hinv1 & Hr1 & _).
      rewrite Hnb in Hr1.
      pose proof (heap_pre_of_inv _ _ _ _ Hinv1) as Hpre1.
      destruct (pre_block _ _ _ _ _ Hpre1 _ _ _ Hr1) as (_ & _ & _ & Hlo & _).
      destruct (pre_base _ _ _ _ _ Hpre1). unfold NULL in Hlo. lia.
    + rewrite new_block_no_room by lia. reflexivity.
  - (* a new block *)
    right. split; [exact Hnb|].
    destruct (Z_le_gt_dec (mem_brk st + ALIGN (n + OVERHEAD)) (mem_max_addr st))
      as [Hroom|Hroom].
    2:{ exfalso. apply Hnb. rewrite new_block_no_room by lia. reflexivity. }
    destruct (new_block_inv lo st bl L _ Hinv Ha16 Ha8 Hroom)
      as (bl1 & L1 & s1 & Hinv1 & Hr1 & Hs1 & Hal1 & Hm1 & Hf1).
    destruct (place_inv lo _ bl1 L1 _ s1 _ Hinv1 Hr1 Ha16 Ha8 Hs1)
      as (bl' & L' & size' & Hinv' & Hs' & _ & Hal & Hmem).
    exists bl', L', size'.
    split; [exact Hinv'|]. split; [lia|]. split; [|split].
    + intros q sq. rewrite Hal, Hal1. reflexivity.
    + intros sq F. apply Hal1 in F.
      pose proof (heap_pre_of_inv _ _ _ _ Hinv1) as Hpre1.
      destruct (tiles_unique _ _ _ _ (pre_tiles _ _ _ _ _ Hpre1) _ _ _ _ _ Hr1 F)
        as [_ F'].
      discriminate.
    + intros x Hx Hnf. rewrite Hmem.
      * apply Hm1; assumption.
      * intros F. destruct (Hf1 _ F); [contradiction|lia].
Qed.

(** ** mm_init *)

Lemma VALUE_clear_lists n : forall seg st a,
  VALUE (clear_lists n seg st) a = VALUE st a.
Proof.
  induction n as [|n IH]; intros seg st a; simpl; [reflexivity|].
  destruct (seg <? MAX_SEG); [|reflexivity]. rewrite IH. reflexivity.
Qed.

Lemma max_clear_lists n : forall seg st,
  mem_max_addr (clear_lists n seg st) = mem_max_addr st.
Proof.
  induction n as [|n IH]; intros seg st; simpl; [reflexivity|].
  destruct (seg <? MAX_SEG); [|reflexivity]. rewrite IH. reflexivity.
Qed.

Lemma mm_init_inv st :
  0 < mem_brk st -> mem_brk st mod 8 = 0 ->
  mem_brk st + 24 <= mem_max_addr st -> mem_max_addr st < 2 ^ 32 ->
  heap_inv (mem_brk st) (snd (mm_init st)) [] (fun _ => []) /\
  mem_brk (snd (mm_init st)) = mem_brk st + 24.
Proof.
  intros H0 H8 Hroom Hmax.
  pose proof (mm_init_lists st) as Hlists.
  unfold mm_init, mem_sbrk in *. unfold OVERHEAD, WORD in *.
  replace (16 + 2 * 4 <? 0) with false in * by reflexivity.
  replace (mem_max_addr st <? mem_brk st + (16 + 2 * 4)) with false in *
    by (symmetry; apply Z.ltb_ge; lia).
  cbn [orb fst snd] in *.
  set (sa := mkHeap (mem st) (mem_brk st + (16 + 2 * 4)) (mem_max_addr st)
                    (first st) (last st)) in *.
  rewrite HEADER_eq in *.
  replace (mem_brk st + 16 - 12) with (mem_brk st + 4) in * by lia.
  set (sb := set_VALUE sa (mem_brk st + 4) (PACK 16 ALLOCATED)) in *.
  assert (Vb : VALUE sb (mem_brk st + 4) = 16 + 1).
  { unfold sb. apply store_PACK; unfold ALLOCATED; try reflexivity; lia. }
  assert (Sb : UNPACK_SIZE sb (mem_brk st + 4) = 16)
    by (apply (unpack_sum _ _ 16 1); auto; lia).
  assert (Fb : FOOTER sb (mem_brk st + 16) = mem_brk st + 16).
  { unfold FOOTER, OVERHEAD. rewrite HEADER_eq.
    replace (mem_brk st + 16 - 12) with (mem_brk st + 4) by lia.
    rewrite Sb. lia. }
  rewrite Fb in *.
  set (sc := set_VALUE sb (mem_brk st + 16) (PACK 16 ALLOCATED)) in *.
  assert (Vc : VALUE sc (mem_brk st + 4) = 16 + 1)
    by (unfold sc; rewrite VALUE_set_other by lia; exact Vb).
  assert (Sc : UNPACK_SIZE sc (mem_brk st + 4) = 16)
    by (apply (unpack_sum _ _ 16 1); auto; lia).
  assert (Nc : NEXT_BLOCK sc (mem_brk st + 16) = mem_brk st + 32).
  { unfold NEXT_BLOCK. rewrite HEADER_eq.
    replace (mem_brk st + 16 - 12) with (mem_brk st + 4) by lia.
    rewrite Sc. lia. }
  rewrite Nc in *. rewrite HEADER_eq in *.
  replace (mem_brk st + 32 - 12) with (mem_brk st + 20) in * by lia.
  set (sd := set_VALUE sc (mem_brk st + 20) (PACK 0 ALLOCATED)) in *.
  rewrite brk_clear_lists.
  change (mem_brk sd) with (mem_brk st + (16 + 2 * 4)).
  split; [|lia].
  constructor.
  - split; assumption.
  - rewrite brk_clear_lists, max_clear_lists.
    change (mem_brk sd) with (mem_brk st + (16 + 2 * 4)).
    change (mem_max_addr sd) with (mem_max_addr st). lia.
  - rewrite !VALUE_clear_lists. unfold OVERHEAD, ALLOCATED.
    rewrite (PACK_add 16 1) by (try reflexivity; lia).
    unfold sd. rewrite !VALUE_set_other by lia. split; [exact Vc|].
    unfold sc. rewrite VALUE_set_same. reflexivity.
  - rewrite brk_clear_lists.
    change (mem_brk sd) with (mem_brk st + (16 + 2 * 4)).
    replace (mem_brk st + (16 + 2 * 4) + 8) with (mem_brk st + 32) by lia.
    constructor.
  - rewrite brk_clear_lists, VALUE_clear_lists.
    change (mem_brk sd) with (mem_brk st + (16 + 2 * 4)).
    replace (mem_brk st + (16 + 2 * 4) - 4) with (mem_brk st + 20) by lia.
    unfold sd. rewrite VALUE_set_same. unfold ALLOCATED.
    rewrite (PACK_add 0 1) by (try reflexivity; lia). reflexivity.
  - exact I.
  - intros seg Hseg. split; [|constructor].
    destruct (Hlists seg Hseg) as [F La]. split; assumption.
  - intros seg bp _. split; [contradiction|].
    intros (size & [] & _).
Qed.

(** ** Stores of the client into the payload of an allocated block *)

Lemma payload_write_inv lo st bl L bp size m' :
  heap_inv lo st bl L -> In (bp, size, ALLOCATED) bl ->
  (forall x, x < bp \/ bp + size - 16 <= x -> m' x = mem st x) ->
  heap_inv lo (set_mem st m') bl L.
Proof.
  intros Hinv Hbp Hm.
  pose proof (heap_pre_of_inv _ _ _ _ Hinv) as Hpre.
  destruct (pre_split _ _ _ _ _ _ _ _ Hpre Hbp)
    as (l1 & l2 & Ebl & Ht1 & Ht2 & Hl1 & Hl2).
  destruct (pre_block _ _ _ _ _ Hpre _ _ _ Hbp)
    as (H16 & H8 & Hs01 & _ & _ & _ & _ & _ & _ & Vh & Vf).
  assert (Hv : forall a, a + 4 <= bp \/ bp + size - 16 <= a ->
                 VALUE (set_mem st m') a = VALUE st a).
  { intros a Ha. apply VALUE_bytes. intros x Hx. simpl. apply Hm. lia. }
  apply (heap_inv_of_pre lo _ bl L (fun _ => False)); [|tauto].
  rewrite Ebl.
  apply (heap_pre_retile lo st bl L (fun _ => False) l1 [(bp, size, ALLOCATED)]
           l2 bp (bp + size) (set_mem st m') [(bp, size, ALLOCATED)]
           (fun _ => False) Hpre); auto.
  - apply tiles_one. unfold block_ok. rewrite HEADER_eq. unfold OVERHEAD.
    repeat split; assumption.
  - intros q sq [E|[]]. discriminate.
  - intros a Ha. apply Hv. lia.
  - apply tiles_one. unfold block_ok. rewrite HEADER_eq. unfold OVERHEAD.
    rewrite !Hv by lia. repeat split; assumption.
  - intros q sq [E|[]]. discriminate.
  - tauto.
Qed.

Lemma client_store_inv lo st bl L bp size x v :
  heap_inv lo st bl L -> In (bp, size, ALLOCATED) bl ->
  bp <= x < bp + size - 16 ->
  heap_inv lo (client_store st x v) bl L.
Proof.
  intros Hinv Hbp Hx. unfold client_store.
  apply (payload_write_inv lo st bl L bp size); auto.
  intros y Hy. unfold store_byte.
  replace (y =? x) with false by (symmetry; apply Z.eqb_neq; lia).
  reflexivity.
Qed.

(** The bytes of an allocated block lie in no free block, and below the
    terminator. *)
Lemma allocated_not_free lo st bl L q sq x :
  heap_inv lo st bl L -> In (q, sq, ALLOCATED) bl -> in_block q sq x ->
  ~ in_blocks bl FREE x /\ x < mem_brk st - 4.
Proof.
  intros Hinv Hq Hx. pose proof (heap_pre_of_inv _ _ _ _ Hinv) as Hpre.
  destruct (pre_block _ _ _ _ _ Hpre _ _ _ Hq) as (_ & _ & _ & _ & Hhi & _).
  unfold in_block in Hx. split; [|lia].
  intros (p & sp & Hp & Hxp). unfold in_block in Hxp.
  destruct (pre_far _ _ _ _ _ Hpre _ _ _ _ _ _ Hq Hp) as [(_ & _ & F)|F];
    [discriminate|lia].
Qed.

(** ** The buckets a search visits *)

Lemma in_buckets_from seg s :
  0 <= seg -> (In s (buckets_from seg) <-> seg <= s < MAX_SEG).
Proof.
  unfold MAX_SEG, buckets_from. intros H. rewrite in_map_iff. split.
  - intros (k & <- & Hk). apply in_seq in Hk. lia.
  - intros Hs. exists (Z.to_nat s). split; [lia|]. apply in_seq. lia.
Qed.

Lemma list_find_monotone a b :
  a <= b -> b <= 2 ^ (MAX_SEG - 1) -> list_find a <= list_find b.
Proof.
  intros Hab Hb.
  destruct (list_find_spec a) as [Ha _]. destruct (list_find_spec b) as [Hb' _].
  destruct (Ha ltac:(lia)) as (Ra & Ua & La).
  destruct (Hb' Hb) as (Rb & Ub & Lb).
  destruct (Z_le_gt_dec (list_find a) (list_find b)) as [H|H]; [exact H|].
  specialize (La (list_find b) ltac:(lia)). lia.
Qed.

Lemma list_find_large size : list_find size = 0 <-> 2 ^ (MAX_SEG - 1) < size.
Proof.
  destruct (list_find_spec size) as [Hs Hl]. split.
  - intros E. destruct (Z_le_gt_dec size (2 ^ (MAX_SEG - 1))) as [H|H]; [|lia].
    destruct (Hs H) as (R & _). lia.
  - exact Hl.
Qed.

(** A block that is large enough for a request lies in a bucket that the
    search for the request visits. *)
Lemma search_order_covers size sq :
  size <= sq -> In (list_find sq) (search_order (list_find size)).
Proof.
  intros Hle. unfold search_order.
  pose proof (list_find_range size) as Rs.
  pose proof (list_find_range sq) as Rq.
  destruct (Z.eq_dec (list_find sq) 0) as [E|E].
  - rewrite E. destruct (0 <? list_find size); [|left; reflexivity].
    apply in_app_iff. right. left. reflexivity.
  - assert (Hq : sq <= 2 ^ (MAX_SEG - 1)).
    { destruct (Z_le_gt_dec sq (2 ^ (MAX_SEG - 1))) as [H|H]; [exact H|].
      exfalso. apply E. apply list_find_large. lia. }
    pose proof (list_find_monotone size sq Hle Hq) as Hm.
    destruct (Z.ltb_spec 0 (list_find size)) as [H|H].
    + apply in_app_iff. left. apply in_buckets_from; lia.
    + exfalso.
      assert (E0 : list_find size = 0) by lia.
      apply list_find_large in E0. lia.
Qed.

(** ** find_block on a heap that satisfies the invariants *)

Section Search.

Variable lo : Z.
Variable st : heap.
Variable bl : list block.
Variable L : Z -> list Z.
Hypothesis Hinv : heap_inv lo st bl L.

Lemma list_length seg :
  0 <= seg < MAX_SEG -> (length (L seg) <= length bl)%nat.
Proof.
  intros Hseg.
  rewrite <- (length_map (fun b : block => fst (fst b)) bl).
  apply NoDup_incl_length.
  - exact (proj2 (inv_lists _ _ _ _ Hinv seg Hseg)).
  - intros x Hx. destruct (member_block _ _ _ _ Hinv seg x Hseg Hx) as (Hb & _).
    apply in_map_iff. exists (x, UNPACK_SIZE st (HEADER x), FREE). auto.
Qed.

Lemma find_block_complete fuel size :
  (length bl < fuel)%nat ->
  exists r,
    find_block fuel st size = Some r /\
    (r = NULL <-> forall q sq, In (q, sq, FREE) bl -> sq < size) /\
    (r <> NULL -> exists sq, In (r, sq, FREE) bl /\ size <= sq).
Proof.
  intros Hfuel.
  assert (Hlen : forall seg, 0 <= seg < MAX_SEG -> (length (L seg) < fuel)%nat).
  { intros seg Hseg. pose proof (list_length seg Hseg). lia. }
  pose proof (find_block_search_order st size L fuel
                (inv_free_lists _ _ _ _ Hinv) Hlen) as Hf.
  set (l := flat_map L (search_order (list_find size))) in *.
  assert (Hnn : forall q, In q l -> q <> NULL).
  { intros q Hq.
    apply (members_not_null st L (inv_free_lists _ _ _ _ Hinv)
             (search_order (list_find size))); [|exact Hq].
    intros seg Hs. exact (search_order_range size seg Hs). }
  assert (Hmem : forall q, In q l ->
            In (q, UNPACK_SIZE st (HEADER q), FREE) bl).
  { intros q Hq. apply in_flat_map in Hq. destruct Hq as (seg & Hs & Hq).
    pose proof (search_order_range size seg Hs) as Hseg.
    exact (proj1 (member_block _ _ _ _ Hinv seg q Hseg Hq)). }
  exists (first_fit st size l). split; [exact Hf|]. split.
  - rewrite (first_fit_null st size l Hnn). split.
    + intros H q sq Hq.
      destruct (Z_lt_ge_dec sq size) as [Hlt|Hge]; [exact Hlt|exfalso].
      assert (Hin : In q l).
      { apply in_flat_map. exists (list_find sq). split.
        - apply search_order_covers. lia.
        - apply (inv_members _ _ _ _ Hinv _ _ (list_find_range sq)).
          exists sq. auto. }
      pose proof (H q Hin) as Hlt.
      destruct (tiles_unique _ _ _ _ (inv_tiles _ _ _ _ Hinv) _ _ _ _ _
                  Hq (Hmem q Hin)) as [E _].
      lia.
    + intros H q Hq. exact (H _ _ (Hmem q Hq)).
  - intros Hr. destruct (first_fit_in st size l Hr) as [Hin Hsz].
    exists (UNPACK_SIZE st (HEADER (first_fit st size l))).
    split; [exact (Hmem _ Hin)|exact Hsz].
Qed.

End Search.

(** ** split *)

Lemma split_inv lo st L l1 l2 bp size asize :
  heap_pre lo st (l1 ++ (bp, size, ALLOCATED) :: l2) L (fun _ => False) ->
  16 <= asize -> asize mod 8 = 0 -> asize <= size ->
  exists bl' L' size',
    heap_inv lo (split st bp asize) bl' L' /\
    asize <= size' <= size /\
    (forall q sq, In (q, sq, ALLOCATED) bl' <->
                  In (q, sq, ALLOCATED) (l1 ++ l2) \/ (q = bp /\ sq = size')) /\
    (forall x, ~ in_blocks (l1 ++ l2) FREE x ->
               x < bp - 12 \/ bp - 12 + size <= x
               \/ (bp - 8 <= x /\ x < bp - 16 + asize) ->
               mem (split st bp asize) x = mem st x).
Proof.
  intros Hpre Ha16 Ha8 Hfit.
  assert (Hin : In (bp, size, ALLOCATED) (l1 ++ (bp, size, ALLOCATED) :: l2))
    by (apply in_middle; auto).
  destruct (pre_block _ _ _ _ _ Hpre _ _ _ Hin)
    as (H16 & H8 & _ & Hlo & Hhi & _ & _ & Hsz & _).
  destruct (pre_space _ _ _ _ _ Hpre) as [Hsp Hmax].
  destruct (pre_base _ _ _ _ _ Hpre) as [Hlo0 _].
  destruct (pre_around _ _ _ _ _ _ _ Hpre) as (Ht1 & _ & Ht2). simpl in Ht1, Ht2.
  assert (Hpos : forall q sq tq, In (q, sq, tq) (l1 ++ l2) ->
                   q + sq <= bp \/ bp + size <= q).
  { intros q sq tq Hq. apply in_app_iff in Hq. destruct Hq as [Hq|Hq].
    - left. exact (proj2 (proj2 (tiles_in _ _ _ _ Ht1 _ _ _ Hq))).
    - right. exact (proj1 (proj2 (tiles_in _ _ _ _ Ht2 _ _ _ Hq))). }
  rewrite split_carve, Hsz.
  unfold OVERHEAD. rewrite (wrap_small (asize + 16)) by lia.
  destruct (Z.ltb_spec size (asize + 16)) as [Hlt|Hge].
  - exists (l1 ++ (bp, size, ALLOCATED) :: l2), L, size.
    split; [|split; [|split]].
    + apply (heap_inv_of_pre _ _ _ _ _ Hpre). tauto.
    + lia.
    + intros q sq. rewrite !in_middle, in_app_iff. split.
      * intros [Hq|[Hq|Hq]]; auto. injection Hq as -> ->. auto.
      * intros [[Hq|Hq]|[-> ->]]; auto.
    + reflexivity.
  - destruct (carve_words st bp size asize Hsz Ha16 Ha8 Hge H8 ltac:(lia))
      as (_ & _ & _ & _ & Hnb & _ & Vcarve).
    rewrite Hnb.
    assert (Hcarve : heap_pre lo (carve st bp asize)
              (l1 ++ (bp, asize, ALLOCATED) :: (bp + asize, size - asize, FREE) :: l2)
              L (fun x => x = bp + asize)).
    { apply (carve_pre lo st L _ l1 l2 bp size asize _ Hpre); auto.
      intros q sq Hq. split; [|tauto]. intros ->.
      assert (Hqb : In (bp + asize, sq, FREE) (l1 ++ (bp, size, ALLOCATED) :: l2)).
      { apply in_middle. apply in_app_iff in Hq. tauto. }
      destruct (pre_block _ _ _ _ _ Hpre _ _ _ Hqb) as (Hq16 & _).
      destruct (Hpos _ _ _ Hq); lia. }
    assert (Hinr : In (bp + asize, size - asize, FREE)
              (l1 ++ (bp, asize, ALLOCATED) :: (bp + asize, size - asize, FREE) :: l2)).
    { apply in_middle. right. right. left. reflexivity. }
    destruct (coalesce_inv lo _ _ L _ (bp + asize) (size - asize) Hcarve Hinr
                eq_refl ltac:(intros q sq _ F; exact F))
      as (bl' & L' & s' & Hinv' & _ & _ & _ & Hal & Hm & _).
    exists bl', L', asize.
    split; [|split; [|split]].
    + exact Hinv'.
    + lia.
    + intros q sq. rewrite Hal, !in_middle, in_app_iff. split.
      * intros [Hq|[Hq|[Hq|Hq]]]; auto; [|discriminate].
        injection Hq as -> ->. auto.
      * intros [[Hq|Hq]|[-> ->]]; auto.
        right. right. right. exact Hq.
    + intros x Hx Hxb. rewrite Hm.
      * apply Vcarve. exact Hxb.
      * intros (q & sq & Hq & Hxq). apply in_middle in Hq.
        destruct Hq as [Hq|[Hq|[Hq|Hq]]].
        -- apply Hx. exists q, sq. split; [|exact Hxq]. apply in_app_iff; auto.
        -- discriminate.
        -- injection Hq as E1 E2. subst q sq. unfold in_block in Hxq. lia.
        -- apply Hx. exists q, sq. split; [|exact Hxq]. apply in_app_iff; auto.
Qed.

(** ** Taking over the space of a free neighbour *)

Lemma annex_words st bp cosize :
  16 <= cosize -> cosize mod 8 = 0 -> cosize < 2 ^ 32 ->
  VALUE (annex st bp cosize) (bp - 12) = PACK cosize ALLOCATED /\
  VALUE (annex st bp cosize) (bp - 16 + cosize) = PACK cosize ALLOCATED /\
  (forall w, w + 4 <= bp - 12 \/ bp - 12 + cosize <= w
             \/ (bp - 8 <= w /\ w + 4 <= bp - 16 + cosize) ->
             VALUE (annex st bp cosize) w = VALUE st w) /\
  (forall x, x < bp - 12 \/ bp - 12 + cosize <= x
             \/ (bp - 8 <= x /\ x < bp - 16 + cosize) ->
             mem (annex st bp cosize) x = mem st x).
Proof.
  intros H16 H8 Hlt0.
  assert (Hlt : cosize + 1 < 2 ^ 32).
  { change (2 ^ 32) with 4294967296 in *. Z.div_mod_to_equations. lia. }
  unfold annex. rewrite HEADER_eq.
  rewrite (PACK_add cosize ALLOCATED) by (unfold ALLOCATED; auto; lia).
  unfold ALLOCATED.
  set (st1 := set_VALUE st (bp - 12) (cosize + 1)).
  assert (V1 : VALUE st1 (bp - 12) = cosize + 1).
  { unfold st1. rewrite VALUE_set_same. apply wrap_small. lia. }
  assert (S1 : UNPACK_SIZE st1 (bp - 12) = cosize)
    by (apply (unpack_sum _ _ cosize 1); auto; lia).
  assert (F1 : FOOTER st1 bp = bp - 16 + cosize)
    by (unfold FOOTER, OVERHEAD; rewrite HEADER_eq, S1; reflexivity).
  rewrite F1. repeat split.
  - rewrite VALUE_set_other by lia. exact V1.
  - rewrite VALUE_set_same. apply wrap_small. lia.
  - intros w Hw. unfold st1. rewrite !VALUE_set_other by lia. reflexivity.
  - intros x Hx. unfold st1. rewrite !mem_set_VALUE by lia. reflexivity.
Qed.

(** The allocated block [bp] takes over its free right neighbour. *)
Lemma annex_right_pre lo st L d l1 l2 bp sz1 sz2 :
  heap_pre lo st (l1 ++ (bp, sz1, ALLOCATED) :: (bp + sz1, sz2, FREE) :: l2) L d ->
  d (bp + sz1) ->
  (forall q sq, In (q, sq, FREE) (l1 ++ l2) -> ~ d q) ->
  heap_pre lo (annex st bp (sz1 + sz2)) (l1 ++ (bp, sz1 + sz2, ALLOCATED) :: l2)
           L (fun _ => False).
Proof.
  intros Hpre Hd2 Hd.
  pose proof (pre_tiles _ _ _ _ _ Hpre) as Ht.
  apply tiles_app in Ht. destruct Ht as (m & Ht1 & Ht).
  apply tiles_cons_inv in Ht. destruct Ht as (-> & Hok1 & Ht).
  apply tiles_cons_inv in Ht. destruct Ht as (_ & Hok2 & Ht2).
  pose proof Hok1 as (H16 & H8 & _). pose proof Hok2 as (H16' & H8' & _).
  unfold OVERHEAD in *.
  destruct (pre_space _ _ _ _ _ Hpre) as [Hsp Hmax].
  destruct (pre_base _ _ _ _ _ Hpre) as [Hlo0 _].
  pose proof (tiles_le _ _ _ _ Ht1) as Hle1.
  pose proof (tiles_le _ _ _ _ Ht2) as Hle2.
  assert (Hn8 : (sz1 + sz2) mod 8 = 0)
    by (rewrite Z.add_mod, H8, H8' by lia; reflexivity).
  destruct (annex_words st bp (sz1 + sz2) ltac:(lia) Hn8 ltac:(lia))
    as (Vh & Vf & Vo & _).
  apply (heap_pre_retile lo st _ L d l1
           [(bp, sz1, ALLOCATED); (bp + sz1, sz2, FREE)] l2 bp (bp + sz1 + sz2)
           (annex st bp (sz1 + sz2)) [(bp, sz1 + sz2, ALLOCATED)]
           (fun _ => False) Hpre); auto.
  - constructor; [exact Hok1|]. apply tiles_one. exact Hok2.
  - intros q sz [E|[E|[]]]; [discriminate|].
    injection E as E1 _. subst q. exact Hd2.
  - intros w Hw. apply Vo. lia.
  - replace (bp + sz1 + sz2) with (bp + (sz1 + sz2)) by lia.
    apply tiles_one. unfold block_ok. rewrite HEADER_eq. unfold OVERHEAD.
    repeat split; auto; lia.
  - intros q sz [E|[]]. discriminate.
  - intros q sz Hq. split; [tauto|]. intros F. exact (Hd _ _ Hq F).
Qed.

(** The free block [bp] takes over its allocated right neighbour. *)
Lemma annex_left_pre lo st L d l1 l2 bp sz1 sz2 :
  heap_pre lo st (l1 ++ (bp, sz1, FREE) :: (bp + sz1, sz2, ALLOCATED) :: l2) L d ->
  d bp ->
  (forall q sq, In (q, sq, FREE) (l1 ++ l2) -> ~ d q) ->
  heap_pre lo (annex st bp (sz1 + sz2)) (l1 ++ (bp, sz1 + sz2, ALLOCATED) :: l2)
           L (fun _ => False).
Proof.
  intros Hpre Hd1 Hd.
  pose proof (pre_tiles _ _ _ _ _ Hpre) as Ht.
  apply tiles_app in Ht. destruct Ht as (m & Ht1 & Ht).
  apply tiles_cons_inv in Ht. destruct Ht as (-> & Hok1 & Ht).
  apply tiles_cons_inv in Ht. destruct Ht as (_ & Hok2 & Ht2).
  pose proof Hok1 as (H16 & H8 & _). pose proof Hok2 as (H16' & H8' & _).
  unfold OVERHEAD in *.
  destruct (pre_space _ _ _ _ _ Hpre) as [Hsp Hmax].
  destruct (pre_base _ _ _ _ _ Hpre) as [Hlo0 _].
  pose proof (tiles_le _ _ _ _ Ht1) as Hle1.
  pose proof (tiles_le _ _ _ _ Ht2) as Hle2.
  assert (Hn8 : (sz1 + sz2) mod 8 = 0)
    by (rewrite Z.add_mod, H8, H8' by lia; reflexivity).
  destruct (annex_words st bp (sz1 + sz2) ltac:(lia) Hn8 ltac:(lia))
    as (Vh & Vf & Vo & _).
  apply (heap_pre_retile lo st _ L d l1
           [(bp, sz1, FREE); (bp + sz1, sz2, ALLOCATED)] l2 bp (bp + sz1 + sz2)
           (annex st bp (sz1 + sz2)) [(bp, sz1 + sz2, ALLOCATED)]
           (fun _ => False) Hpre); auto.
  - constructor; [exact Hok1|]. apply tiles_one. exact Hok2.
  - intros q sz [E|[E|[]]]; [|discriminate].
    injection E as E1 _. subst q. exact Hd1.
  - intros w Hw. apply Vo. lia.
  - replace (bp + sz1 + sz2) with (bp + (sz1 + sz2)) by lia.
    apply tiles_one. unfold block_ok. rewrite HEADER_eq. unfold OVERHEAD.
    repeat split; auto; lia.
  - intros q sz [E|[]]. discriminate.
  - intros q sz Hq. split; [tauto|]. intros F. exact (Hd _ _ Hq F).
Qed.

(** ** The neighbours of a block, as the code reads them *)

Lemma next_header_read lo st L d l1 l2 bp size s :
  heap_pre lo st (l1 ++ (bp, size, s) :: l2) L d ->
  (l2 = [] /\ UNPACK_STATE st (NEXT_HEADER st bp) = ALLOCATED)
  \/ exists sN tN l2',
       l2 = (bp + size, sN, tN) :: l2' /\
       UNPACK_STATE st (NEXT_HEADER st bp) = tN /\
       UNPACK_SIZE st (NEXT_HEADER st bp) = sN /\
       NEXT_BLOCK st bp = bp + size.
Proof.
  intros Hpre.
  assert (Hin : In (bp, size, s) (l1 ++ (bp, size, s) :: l2))
    by (apply in_middle; auto).
  destruct (pre_block _ _ _ _ _ Hpre _ _ _ Hin)
    as (_ & _ & _ & _ & _ & _ & _ & Hsz & _).
  destruct (pre_around _ _ _ _ _ _ _ Hpre) as (_ & _ & Ht2). simpl in Ht2.
  assert (Hnh : NEXT_HEADER st bp = bp + size - 12)
    by (unfold NEXT_HEADER, OVERHEAD, WORD; rewrite Hsz; lia).
  rewrite Hnh.
  destruct l2 as [|[[q sN] tN] l2'].
  - left. split; [reflexivity|]. apply tiles_nil_inv in Ht2.
    replace (bp + size - 12) with (mem_brk st - 4) by lia.
    apply (VALUE_PACK_odd _ _ 0); [|reflexivity].
    exact (pre_terminator _ _ _ _ _ Hpre).
  - right. apply tiles_cons_inv in Ht2. destruct Ht2 as (E & Hok & _).
    subst q. exists sN, tN, l2'. split; [reflexivity|].
    destruct Hok as (_ & H8 & Hs01 & Hh & _). rewrite HEADER_eq in Hh.
    destruct (unpack_PACK _ _ _ _ Hh H8 Hs01) as [S T].
    split; [exact T|]. split; [exact S|].
    unfold NEXT_BLOCK. rewrite Hsz. reflexivity.
Qed.

Lemma prev_footer_read lo st L d l1 l2 bp size s :
  heap_pre lo st (l1 ++ (bp, size, s) :: l2) L d ->
  (l1 = [] /\ UNPACK_STATE st (PREV_FOOTER bp) = ALLOCATED)
  \/ exists P sP tP l1',
       l1 = l1' ++ [(P, sP, tP)] /\ P + sP = bp /\
       UNPACK_STATE st (PREV_FOOTER bp) = tP /\
       UNPACK_SIZE st (PREV_FOOTER bp) = sP /\
       PREV_BLOCK st bp = P.
Proof.
  intros Hpre.
  destruct (pre_around _ _ _ _ _ _ _ Hpre) as (Ht1 & _ & _). simpl in Ht1.
  unfold PREV_BLOCK, PREV_FOOTER, OVERHEAD.
  destruct (list_snoc_cases l1) as [El1|(l1' & [[P sP] tP] & El1)].
  - left. split; [exact El1|]. subst l1. apply tiles_nil_inv in Ht1.
    replace (bp - 16) with (lo + 16) by lia.
    apply (VALUE_PACK_odd _ _ 16); [|reflexivity].
    exact (proj2 (pre_left_sentinel _ _ _ _ _ Hpre)).
  - right. subst l1. apply tiles_app in Ht1. destruct Ht1 as (m & _ & Ht).
    apply tiles_cons_inv in Ht. destruct Ht as (-> & Hok & Ht).
    apply tiles_nil_inv in Ht.
    exists P, sP, tP, l1'. split; [reflexivity|]. split; [exact Ht|].
    destruct Hok as (_ & H8 & Hs01 & _ & Hf). unfold OVERHEAD in Hf.
    replace (bp - 16) with (P - 16 + sP) by lia.
    destruct (unpack_PACK _ _ _ _ Hf H8 Hs01) as [S T].
    split; [exact T|]. split; [exact S|]. rewrite S. lia.
Qed.

(** ** mm_realloc: the paths that do not shrink the block by a split *)

Lemma mm_realloc_paths fuel st bp n :
  bp <> NULL -> n <> 0 ->
  ~ wrap (ALIGN (n + OVERHEAD) + OVERHEAD) < UNPACK_SIZE st (HEADER bp) ->
  mm_realloc fuel st bp n
  = let newsize := ALIGN (n + OVERHEAD) in
    let oldsize := UNPACK_SIZE st (HEADER bp) in
    if newsize <? oldsize then Some (bp, st)
    else
      let cosize := wrap (oldsize + UNPACK_SIZE st (NEXT_HEADER st bp)) in
      if (UNPACK_STATE st (NEXT_HEADER st bp) =? FREE) && (newsize <=? cosize)
      then Some (bp, split (annex (list_remove st (NEXT_BLOCK st bp)) bp cosize)
                           bp newsize)
      else
        let cosize := wrap (oldsize + UNPACK_SIZE st (PREV_FOOTER bp)) in
        if (UNPACK_STATE st (PREV_FOOTER bp) =? FREE) && (newsize <=? cosize)
        then
          let bp2 := PREV_BLOCK st bp in
          let st1 := annex (list_remove st bp2) bp2 cosize in
          Some (bp2,
                split (set_mem st1 (memmove (mem st1) bp2 bp
                                            (wrap (oldsize - OVERHEAD))))
                      bp2 newsize)
        else
          match mm_malloc fuel st n with
          | None => None
          | Some (bp2, st1) =>
              if negb (bp2 =? NULL) then
                Some (bp2,
                      mm_free (set_mem st1 (memcpy (mem st1) bp2 bp
                                                   (wrap (oldsize - OVERHEAD))))
                              bp)
              else Some (bp2, st1)
          end.
Proof.
  intros Hbp Hn Hns. unfold mm_realloc.
  replace (bp =? NULL) with false by (symmetry; apply Z.eqb_neq; exact Hbp).
  replace (n =? 0) with false by (symmetry; apply Z.eqb_neq; exact Hn).
  replace (wrap (ALIGN (n + OVERHEAD) + OVERHEAD) <? UNPACK_SIZE st (HEADER bp))
    with false by (symmetry; apply Z.ltb_ge; lia).
  reflexivity.
Qed.

Lemma realloc_grow_right lo st L l1 l2 bp oldsize sN n newsize :
  heap_inv lo st (l1 ++ (bp, oldsize, ALLOCATED) :: (bp + oldsize, sN, FREE) :: l2) L ->
  16 <= newsize -> newsize mod 8 = 0 -> n + 16 <= newsize ->
  oldsize <= newsize -> newsize <= oldsize + sN ->
  realloc_post lo st (l1 ++ (bp, oldsize, ALLOCATED) :: (bp + oldsize, sN, FREE) :: l2)
    bp oldsize n bp
    (split (annex (list_remove st (bp + oldsize)) bp (oldsize + sN)) bp newsize).
Proof.
  intros Hinv Ha16 Ha8 Hn Hold Hfit.
  set (bl := l1 ++ (bp, oldsize, ALLOCATED) :: (bp + oldsize, sN, FREE) :: l2) in *.
  pose proof (heap_pre_of_inv _ _ _ _ Hinv) as Hpre.
  assert (Hbp : In (bp, oldsize, ALLOCATED) bl) by (apply in_middle; auto).
  assert (HN : In (bp + oldsize, sN, FREE) bl)
    by (apply in_middle; right; right; left; reflexivity).
  destruct (pre_block _ _ _ _ _ Hpre _ _ _ Hbp) as (H16 & H8 & _).
  destruct (pre_block _ _ _ _ _ Hpre _ _ _ HN) as (HN16 & HN8 & _).
  pose proof (pre_tiles _ _ _ _ _ Hpre) as Ht. unfold bl in Ht.
  apply tiles_app in Ht. destruct Ht as (m & Ht1 & Ht).
  apply tiles_cons_inv in Ht. destruct Ht as (-> & _ & Ht).
  apply tiles_cons_inv in Ht. destruct Ht as (_ & _ & Ht2).
  assert (Hpos : forall q sq tq, In (q, sq, tq) (l1 ++ l2) ->
                   In (q, sq, tq) bl /\ 16 <= sq /\
                   (q + sq <= bp \/ bp + oldsize + sN <= q)).
  { intros q sq tq Hq.
    assert (Hqb : In (q, sq, tq) bl).
    { apply in_middle. apply in_app_iff in Hq.
      destruct Hq as [Hq|Hq]; [auto|right; right; right; exact Hq]. }
    destruct (pre_block _ _ _ _ _ Hpre _ _ _ Hqb) as (Hq16 & _).
    split; [exact Hqb|]. split; [exact Hq16|].
    apply in_app_iff in Hq. destruct Hq as [Hq|Hq].
    - left. exact (proj2 (proj2 (tiles_in _ _ _ _ Ht1 _ _ _ Hq))).
    - right. exact (proj1 (proj2 (tiles_in _ _ _ _ Ht2 _ _ _ Hq))). }
  pose proof (list_remove_pre _ _ _ _ _ Hpre (bp + oldsize) sN HN ltac:(tauto))
    as Hrem.
  set (L1 := upd L (list_find sN) (remove Z.eq_dec (bp + oldsize) (L (list_find sN)))) in *.
  set (str := list_remove st (bp + oldsize)) in *.
  assert (Hann : heap_pre lo (annex str bp (oldsize + sN))
                   (l1 ++ (bp, oldsize + sN, ALLOCATED) :: l2) L1 (fun _ => False)).
  { apply (annex_right_pre lo str L1 _ l1 l2 bp oldsize sN Hrem).
    - left. reflexivity.
    - intros q sq Hq [F|[]]. destruct (Hpos _ _ _ Hq) as (_ & ? & ?). lia. }
  destruct (pre_space _ _ _ _ _ Hann) as [Hsp Hmax].
  destruct (pre_base _ _ _ _ _ Hpre) as [Hlo0 _].
  assert (Hco : In (bp, oldsize + sN, ALLOCATED)
                   (l1 ++ (bp, oldsize + sN, ALLOCATED) :: l2))
    by (apply in_middle; auto).
  destruct (pre_block _ _ _ _ _ Hann _ _ _ Hco)
    as (_ & Hco8 & _ & Hlo & Hhi & _).
  destruct (annex_words str bp (oldsize + sN) ltac:(lia) Hco8 ltac:(lia))
    as (_ & _ & _ & Vann).
  destruct (split_inv lo _ L1 l1 l2 bp (oldsize + sN) newsize Hann Ha16 Ha8 Hfit)
    as (bl' & L' & size' & Hinv' & Hsz' & Hal & Hmem).
  assert (Hrm : forall q sq x, In (q, sq, ALLOCATED) bl -> in_block q sq x ->
                  mem str x = mem st x).
  { intros q sq x Hq Hx.
    apply (list_remove_pre_mem _ _ _ _ _ Hpre (bp + oldsize) sN x HN ltac:(tauto)).
    exact (proj1 (allocated_not_free _ _ _ _ _ _ _ Hinv Hq Hx)). }
  assert (Hnf : forall q sq x, In (q, sq, ALLOCATED) bl -> in_block q sq x ->
                  ~ in_blocks (l1 ++ l2) FREE x).
  { intros q sq x Hq Hx (p & sp & Hp & Hxp).
    apply (proj1 (allocated_not_free _ _ _ _ _ _ _ Hinv Hq Hx)).
    exists p, sp. split; [exact (proj1 (Hpos _ _ _ Hp))|exact Hxp]. }
  exists bl', L', size'.
  split; [exact Hinv'|]. split; [unfold OVERHEAD; lia|].
  split; [left; reflexivity|]. split; [|split].
  - intros q sq. rewrite Hal. unfold bl. rewrite !in_middle, in_app_iff. split.
    + intros [[Hq|Hq]|Hq]; auto.
      * left. split; [auto|].
        destruct (Hpos q sq ALLOCATED ltac:(apply in_app_iff; auto)) as (_ & ? & ?).
        lia.
      * left. split; [right; right; right; exact Hq|].
        destruct (Hpos q sq ALLOCATED ltac:(apply in_app_iff; auto)) as (_ & ? & ?).
        lia.
    + intros [[[Hq|[Hq|[Hq|Hq]]] Hne]|Hq]; auto.
      * injection Hq as E1 _. congruence.
      * discriminate.
  - intros i Hi. unfold OVERHEAD in Hi.
    assert (Hx : in_block bp oldsize (bp + i)) by (unfold in_block; lia).
    rewrite Hmem; [|exact (Hnf _ _ _ Hbp Hx)|lia].
    rewrite Vann by lia.
    exact (Hrm _ _ _ Hbp Hx).
  - intros q sq x Hq Hne Hx.
    assert (Hq' : In (q, sq, ALLOCATED) (l1 ++ l2)).
    { unfold bl in Hq. apply in_middle in Hq. apply in_app_iff.
      destruct Hq as [Hq|[Hq|[Hq|Hq]]]; auto.
      - injection Hq as E1 _. congruence.
      - discriminate. }
    destruct (Hpos _ _ _ Hq') as (_ & Hq16 & Hqp).
    unfold in_block in Hx.
    rewrite Hmem; [|exact (Hnf _ _ _ Hq Hx)|lia].
    rewrite Vann by lia.
    exact (Hrm _ _ _ Hq Hx).
Qed.

Lemma realloc_grow_left lo st L l1 l2 P sP oldsize n newsize :
  heap_inv lo st (l1 ++ (P, sP, FREE) :: (P + sP, oldsize, ALLOCATED) :: l2) L ->
  16 <= newsize -> newsize mod 8 = 0 -> n + 16 <= newsize ->
  oldsize <= newsize -> newsize <= sP + oldsize ->
  realloc_post lo st (l1 ++ (P, sP, FREE) :: (P + sP, oldsize, ALLOCATED) :: l2)
    (P + sP) oldsize n P
    (split (set_mem (annex (list_remove st P) P (sP + oldsize))
                    (memmove (mem (annex (list_remove st P) P (sP + oldsize)))
                             P (P + sP) (oldsize - 16)))
           P newsize).
Proof.
  intros Hinv Ha16 Ha8 Hn Hold Hfit.
  set (bl := l1 ++ (P, sP, FREE) :: (P + sP, oldsize, ALLOCATED) :: l2) in *.
  pose proof (heap_pre_of_inv _ _ _ _ Hinv) as Hpre.
  assert (HP : In (P, sP, FREE) bl) by (apply in_middle; auto).
  assert (Hbp : In (P + sP, oldsize, ALLOCATED) bl)
    by (apply in_middle; right; right; left; reflexivity).
  destruct (pre_block _ _ _ _ _ Hpre _ _ _ Hbp) as (H16 & H8 & _).
  destruct (pre_block _ _ _ _ _ Hpre _ _ _ HP) as (HP16 & HP8 & _).
  pose proof (pre_tiles _ _ _ _ _ Hpre) as Ht. unfold bl in Ht.
  apply tiles_app in Ht. destruct Ht as (m & Ht1 & Ht).
  apply tiles_cons_inv in Ht. destruct Ht as (-> & _ & Ht).
  apply tiles_cons_inv in Ht. destruct Ht as (_ & _ & Ht2).
  assert (Hpos : forall q sq tq, In (q, sq, tq) (l1 ++ l2) ->
                   In (q, sq, tq) bl /\ 16 <= sq /\
                   (q + sq <= P \/ P + sP + oldsize <= q)).
  { intros q sq tq Hq.
    assert (Hqb : In (q, sq, tq) bl).
    { apply in_middle. apply in_app_iff in Hq.
      destruct Hq as [Hq|Hq]; [auto|right; right; right; exact Hq]. }
    destruct (pre_block _ _ _ _ _ Hpre _ _ _ Hqb) as (Hq16 & _).
    split; [exact Hqb|]. split; [exact Hq16|].
    apply in_app_iff in Hq. destruct Hq as [Hq|Hq].
    - left. exact (proj2 (proj2 (tiles_in _ _ _ _ Ht1 _ _ _ Hq))).
    - right. exact (proj1 (proj2 (tiles_in _ _ _ _ Ht2 _ _ _ Hq))). }
  pose proof (list_remove_pre _ _ _ _ _ Hpre P sP HP ltac:(tauto)) as Hrem.
  set (L1 := upd L (list_find sP) (remove Z.eq_dec P (L (list_find sP)))) in *.
  set (str := list_remove st P) in *.
  assert (Hann : heap_pre lo (annex str P (sP + oldsize))
                   (l1 ++ (P, sP + oldsize, ALLOCATED) :: l2) L1 (fun _ => False)).
  { apply (annex_left_pre lo str L1 _ l1 l2 P sP oldsize Hrem).
    - left. reflexivity.
    - intros q sq Hq [F|[]]. destruct (Hpos _ _ _ Hq) as (_ & ? & ?). lia. }
  set (sta := annex str P (sP + oldsize)) in *.
  destruct (pre_space _ _ _ _ _ Hann) as [Hsp Hmax].
  destruct (pre_base _ _ _ _ _ Hpre) as [Hlo0 _].
  assert (Hco : In (P, sP + oldsize, ALLOCATED)
                   (l1 ++ (P, sP + oldsize, ALLOCATED) :: l2))
    by (apply in_middle; auto).
  destruct (pre_block _ _ _ _ _ Hann _ _ _ Hco)
    as (_ & Hco8 & _ & Hlo & Hhi & _).
  destruct (annex_words str P (sP + oldsize) ltac:(lia) Hco8 ltac:(lia))
    as (_ & _ & _ & Vann). fold sta in Vann.
  set (stm := set_mem sta (memmove (mem sta) P (P + sP) (oldsize - 16))).
  assert (Vmove : forall x, x < P \/ P + (oldsize - 16) <= x ->
                    mem stm x = mem sta x).
  { intros x Hx. unfold stm, memmove. simpl.
    destruct (Z.leb_spec P x); destruct (Z.ltb_spec x (P + (oldsize - 16)));
      simpl; try reflexivity; lia. }
  assert (Emove : forall x, P <= x < P + (oldsize - 16) ->
                    mem stm x = mem sta (x - P + (P + sP))).
  { intros x Hx. unfold stm, memmove. simpl.
    destruct (Z.leb_spec P x); destruct (Z.ltb_spec x (P + (oldsize - 16)));
      simpl; try reflexivity; lia. }
  assert (Hmove : heap_inv lo stm (l1 ++ (P, sP + oldsize, ALLOCATED) :: l2) L1).
  { apply (payload_write_inv lo sta _ L1 P (sP + oldsize)).
    - apply (heap_inv_of_pre _ _ _ _ _ Hann). tauto.
    - exact Hco.
    - intros x Hx. apply Vmove. lia. }
  destruct (split_inv lo stm L1 l1 l2 P (sP + oldsize) newsize
              (heap_pre_of_inv _ _ _ _ Hmove) Ha16 Ha8 Hfit)
    as (bl' & L' & size' & Hinv' & Hsz' & Hal & Hmem).
  assert (Hrm : forall q sq x, In (q, sq, ALLOCATED) bl -> in_block q sq x ->
                  mem str x = mem st x).
  { intros q sq x Hq Hx.
    apply (list_remove_pre_mem _ _ _ _ _ Hpre P sP x HP ltac:(tauto)).
    exact (proj1 (allocated_not_free _ _ _ _ _ _ _ Hinv Hq Hx)). }
  assert (Hnf : forall x, in_blocks (l1 ++ l2) FREE x ->
                  x < P - 12 \/ P + sP + oldsize - 12 <= x).
  { intros x (p & sp & Hp & Hxp). unfold in_block in Hxp.
    destruct (Hpos _ _ _ Hp) as (_ & ? & ?). lia. }
  exists bl', L', size'.
  split; [exact Hinv'|]. split; [unfold OVERHEAD; lia|].
  split; [|split; [|split]].
  - right. intros sq F.
    destruct (tiles_unique _ _ _ _ (inv_tiles _ _ _ _ Hinv) _ _ _ _ _ HP F)
      as [_ F'].
    discriminate.
  - intros q sq. rewrite Hal. unfold bl. rewrite !in_middle, in_app_iff. split.
    + intros [[Hq|Hq]|Hq]; auto.
      * left. split; [auto|].
        destruct (Hpos q sq ALLOCATED ltac:(apply in_app_iff; auto)) as (_ & ? & ?).
        lia.
      * left. split; [right; right; right; exact Hq|].
        destruct (Hpos q sq ALLOCATED ltac:(apply in_app_iff; auto)) as (_ & ? & ?).
        lia.
    + intros [[[Hq|[Hq|[Hq|Hq]]] Hne]|Hq]; auto.
      * discriminate.
      * injection Hq as E1 _. congruence.
  - intros i Hi. unfold OVERHEAD in Hi.
    assert (Hx : in_block (P + sP) oldsize (P + sP + i)) by (unfold in_block; lia).
    rewrite Hmem; [|intros F; destruct (Hnf _ F); lia|lia].
    rewrite Emove by lia.
    replace (P + i - P + (P + sP)) with (P + sP + i) by lia.
    rewrite Vann by lia.
    exact (Hrm _ _ _ Hbp Hx).
  - intros q sq x Hq Hne Hx.
    assert (Hq' : In (q, sq, ALLOCATED) (l1 ++ l2)).
    { unfold bl in Hq. apply in_middle in Hq. apply in_app_iff.
      destruct Hq as [Hq|[Hq|[Hq|Hq]]]; auto.
      - discriminate.
      - injection Hq as E1 _. congruence. }
    destruct (Hpos _ _ _ Hq') as (_ & Hq16 & Hqp).
    unfold in_block in Hx.
    rewrite Hmem; [|intros F; apply (proj1 (allocated_not_free _ _ _ _ _ _ _ Hinv Hq Hx));
                    destruct F as (p & sp & Hp & Hxp); exists p, sp;
                    split; [exact (proj1 (Hpos _ _ _ Hp))|exact Hxp]|lia].
    rewrite Vmove by lia. rewrite Vann by lia.
    exact (Hrm _ _ _ Hq Hx).
Qed.

Lemma realloc_move lo st bl L fuel bp oldsize n bp2 st1 :
  heap_inv lo st bl L -> In (bp, oldsize, ALLOCATED) bl ->
  0 < n -> n + 23 < 2 ^ 32 -> oldsize <= ALIGN (n + OVERHEAD) ->
  mm_malloc fuel st n = Some (bp2, st1) -> bp2 <> NULL ->
  realloc_post lo st bl bp oldsize n bp2
    (mm_free (set_mem st1 (memcpy (mem st1) bp2 bp (oldsize - 16))) bp).
Proof.
  intros Hinv Hbp H0 Hn Hold Hm Hbp2.
  destruct (mm_malloc_inv lo st bl L fuel n bp2 st1 Hinv H0 Hn Hm)
    as [(F & _)|(_ & bl1 & L1 & size2 & Hinv1 & Hsz2 & Hal1 & Hfresh & Hmem1)];
    [contradiction|].
  destruct (request_size n H0 Hn) as (_ & _ & Hr).
  pose proof (heap_pre_of_inv _ _ _ _ Hinv) as Hpre.
  pose proof (heap_pre_of_inv _ _ _ _ Hinv1) as Hpre1.
  destruct (pre_block _ _ _ _ _ Hpre _ _ _ Hbp) as (H16 & _).
  assert (Hb2 : In (bp2, size2, ALLOCATED) bl1) by (apply Hal1; right; auto).
  assert (Hb1 : In (bp, oldsize, ALLOCATED) bl1) by (apply Hal1; left; exact Hbp).
  assert (Hne : bp2 <> bp) by (intros ->; exact (Hfresh _ Hbp)).
  set (stc := set_mem st1 (memcpy (mem st1) bp2 bp (oldsize - 16))).
  assert (Vcopy : forall x, x < bp2 \/ bp2 + (oldsize - 16) <= x ->
                    mem stc x = mem st1 x).
  { intros x Hx. unfold stc, memcpy, memmove. simpl.
    destruct (Z.leb_spec bp2 x); destruct (Z.ltb_spec x (bp2 + (oldsize - 16)));
      simpl; try reflexivity; lia. }
  assert (Ecopy : forall x, bp2 <= x < bp2 + (oldsize - 16) ->
                    mem stc x = mem st1 (x - bp2 + bp)).
  { intros x Hx. unfold stc, memcpy, memmove. simpl.
    destruct (Z.leb_spec bp2 x); destruct (Z.ltb_spec x (bp2 + (oldsize - 16)));
      simpl; try reflexivity; lia. }
  assert (Hcopy : heap_inv lo stc bl1 L1).
  { apply (payload_write_inv lo st1 bl1 L1 bp2 size2 _ Hinv1 Hb2).
    intros x Hx. apply Vcopy. lia. }
  destruct (mm_free_inv lo stc bl1 L1 bp oldsize Hcopy Hb1)
    as (bl' & L' & Hinv' & Hal & Hmem & _).
  assert (Hold1 : forall q sq x, In (q, sq, ALLOCATED) bl -> in_block q sq x ->
                    mem st1 x = mem st x).
  { intros q sq x Hq Hx.
    destruct (allocated_not_free _ _ _ _ _ _ _ Hinv Hq Hx) as [Hnf Hlt].
    apply Hmem1; assumption. }
  assert (Hfar : forall q sq x, In (q, sq, ALLOCATED) bl1 -> q <> bp ->
                   in_block q sq x -> mem (mm_free stc bp) x = mem stc x).
  { intros q sq x Hq Hqne Hx.
    destruct (allocated_not_free _ _ _ _ _ _ _ Hinv1 Hq Hx) as [Hnf _].
    apply Hmem; [exact Hnf|].
    unfold in_block in *. intros F.
    destruct (pre_far _ _ _ _ _ Hpre1 _ _ _ _ _ _ Hq Hb1) as [(E & _)|E];
      [contradiction|lia]. }
  exists bl', L', size2.
  split; [exact Hinv'|]. split; [unfold OVERHEAD; lia|].
  split; [right; exact Hfresh|]. split; [|split].
  - intros q sq. rewrite Hal, Hal1. split.
    + intros [[Hq|[-> ->]] Hqne]; auto.
    + intros [[Hq Hqne]|[-> ->]]; auto.
  - intros i Hi. unfold OVERHEAD in Hi.
    rewrite (Hfar bp2 size2 (bp2 + i) Hb2 Hne) by (unfold in_block; lia).
    rewrite Ecopy by lia.
    replace (bp2 + i - bp2 + bp) with (bp + i) by lia.
    apply (Hold1 bp oldsize); [exact Hbp|unfold in_block; lia].
  - intros q sq x Hq Hqne Hx.
    assert (Hq1 : In (q, sq, ALLOCATED) bl1) by (apply Hal1; left; exact Hq).
    rewrite (Hfar q sq x Hq1 Hqne Hx).
    rewrite Vcopy.
    + exact (Hold1 _ _ _ Hq Hx).
    + assert (Hq2 : q <> bp2) by (intros ->; exact (Hfresh _ Hq)).
      unfold in_block in Hx.
      destruct (pre_block _ _ _ _ _ Hpre1 _ _ _ Hq1) as (Hq16 & _).
      destruct (pre_far _ _ _ _ _ Hpre1 _ _ _ _ _ _ Hq1 Hb2) as [(E & _)|E];
        [contradiction|lia].
Qed.

Lemma mm_realloc_inv lo st bl L fuel bp oldsize n bp2 st' :
  heap_inv lo st bl L -> In (bp, oldsize, ALLOCATED) bl ->
  0 < n -> n + 39 < 2 ^ 32 ->
  oldsize <= ALIGN (n + OVERHEAD) + OVERHEAD ->
  mm_realloc fuel st bp n = Some (bp2, st') ->
  (bp2 = NULL /\ st' = st)
  \/ (bp2 <> NULL /\ realloc_post lo st bl bp oldsize n bp2 st').
Proof.
  intros Hinv Hbp H0 Hn Hns Hm.
  pose proof (heap_pre_of_inv _ _ _ _ Hinv) as Hpre.
  destruct (pre_split _ _ _ _ _ _ _ _ Hpre Hbp)
    as (l1 & l2 & Ebl & Ht1 & Ht2 & Hl1 & Hl2).
  destruct (pre_block _ _ _ _ _ Hpre _ _ _ Hbp)
    as (H16 & H8 & _ & Hlo & Hhi & _ & _ & Hsz & _).
  destruct (pre_base _ _ _ _ _ Hpre) as [Hlo0 _].
  destruct (pre_space _ _ _ _ _ Hpre) as [Hsp Hmax].
  destruct (request_size n H0 ltac:(lia)) as (Ha24 & Ha8 & Har).
  assert (Hbpn : bp <> NULL) by (unfold NULL; lia).
  assert (Hn0 : n <> 0) by lia.
  rewrite mm_realloc_paths in Hm; auto.
  2:{ rewrite Hsz. unfold OVERHEAD in *. rewrite wrap_small by lia. lia. }
  cbv zeta in Hm. rewrite Hsz in Hm.
  set (newsize := ALIGN (n + OVERHEAD)) in *.
  destruct (Z.ltb_spec newsize oldsize) as [Hlt|Hge].
  { (* only slightly smaller: nothing is done *)
    injection Hm as <- <-. right. split; [exact Hbpn|].
    exists bl, L, oldsize.
    split; [exact Hinv|]. split; [unfold OVERHEAD; lia|].
    split; [left; reflexivity|]. split; [|split].
    - intros q sq. split.
      + intros Hq. destruct (Z.eq_dec q bp) as [->|Hne]; [right|left; auto].
        destruct (tiles_unique _ _ _ _ (inv_tiles _ _ _ _ Hinv) _ _ _ _ _ Hq Hbp).
        auto.
      + intros [[Hq _]|[-> ->]]; assumption.
    - reflexivity.
    - reflexivity. }
  rewrite Ebl in Hpre, Hinv. rewrite Ebl. clear Hbp.
  unfold OVERHEAD in Hm. rewrite (wrap_small (oldsize - 16)) in Hm by lia.
  assert (Hrest :
    (if (UNPACK_STATE st (PREV_FOOTER bp) =? FREE)
        && (newsize <=? wrap (oldsize + UNPACK_SIZE st (PREV_FOOTER bp)))
     then
       Some (PREV_BLOCK st bp,
             split
               (set_mem
                  (annex (list_remove st (PREV_BLOCK st bp)) (PREV_BLOCK st bp)
                         (wrap (oldsize + UNPACK_SIZE st (PREV_FOOTER bp))))
                  (memmove
                     (mem (annex (list_remove st (PREV_BLOCK st bp))
                                 (PREV_BLOCK st bp)
                                 (wrap (oldsize + UNPACK_SIZE st (PREV_FOOTER bp)))))
                     (PREV_BLOCK st bp) bp (oldsize - 16)))
               (PREV_BLOCK st bp) newsize)
     else
       match mm_malloc fuel st n with
       | Some (bp3, st1) =>
           if negb (bp3 =? NULL)
           then Some (bp3,
                      mm_free (set_mem st1 (memcpy (mem st1) bp3 bp (oldsize - 16)))
                              bp)
           else Some (bp3, st1)
       | None => None
       end) = Some (bp2, st') ->
    (bp2 = NULL /\ st' = st)
    \/ (bp2 <> NULL /\
        realloc_post lo st (l1 ++ (bp, oldsize, ALLOCATED) :: l2)
                     bp oldsize n bp2 st')).
  { clear Hm. intros Hm.
    assert (Hmove :
      match mm_malloc fuel st n with
      | Some (bp3, st1) =>
          if negb (bp3 =? NULL)
          then Some (bp3,
                     mm_free (set_mem st1 (memcpy (mem st1) bp3 bp (oldsize - 16)))
                             bp)
          else Some (bp3, st1)
      | None => None
      end = Some (bp2, st') ->
      (bp2 = NULL /\ st' = st)
      \/ (bp2 <> NULL /\
          realloc_post lo st (l1 ++ (bp, oldsize, ALLOCATED) :: l2)
                       bp oldsize n bp2 st')).
    { clear Hm. intros Hm.
      destruct (mm_malloc fuel st n) as [[bp3 st1]|] eqn:Em; [|discriminate Hm].
      destruct (Z.eqb_spec bp3 NULL) as [E3|E3]; cbn [negb] in Hm;
        injection Hm as <- <-.
      - left. split; [exact E3|].
        destruct (mm_malloc_inv lo st _ L fuel n bp3 st1 Hinv H0 ltac:(lia) Em)
          as [(_ & E & _)|(F & _)]; [exact E|contradiction].
      - right. split; [exact E3|].
        apply (realloc_move lo st _ L fuel bp oldsize n bp3 st1 Hinv); auto;
          try lia.
        apply in_middle. auto. }
    destruct (prev_footer_read _ _ _ _ _ _ _ _ _ Hpre)
      as [[El1 Tp]|(P & sP & tP & l1' & El1 & EP & Tp & Sp & Bp)].
    - rewrite Tp in Hm. change (ALLOCATED =? FREE) with false in Hm.
      cbn [andb] in Hm. cbv iota in Hm. exact (Hmove Hm).
    - assert (HP : In (P, sP, tP) (l1 ++ (bp, oldsize, ALLOCATED) :: l2)).
      { rewrite El1. apply in_app_iff. left. apply in_app_iff. right.
        left. reflexivity. }
      destruct (pre_block _ _ _ _ _ Hpre _ _ _ HP)
        as (HP16 & HP8 & HPs & HPlo & _).
      rewrite Tp, Sp, Bp in Hm. rewrite (wrap_small (oldsize + sP)) in Hm by lia.
      destruct HPs as [EtP|EtP]; rewrite EtP in *; clear EtP.
      2:{ change (ALLOCATED =? FREE) with false in Hm.
          cbn [andb] in Hm. cbv iota in Hm. exact (Hmove Hm). }
      rewrite Z.eqb_refl in Hm. cbn [andb] in Hm.
      destruct (Z.leb_spec newsize (oldsize + sP)) as [Hfit|Hnofit];
        [|exact (Hmove Hm)].
      injection Hm as <- <-. right.
      split; [unfold NULL; lia|].
      subst l1. subst bp. rewrite <- app_assoc. simpl.
      rewrite <- app_assoc in Hinv. simpl in Hinv.
      replace (oldsize + sP) with (sP + oldsize) by lia.
      apply (realloc_grow_left lo st L l1' l2 P sP oldsize n newsize Hinv);
        lia. }
  (* the right neighbour *)
  destruct (next_header_read _ _ _ _ _ _ _ _ _ Hpre)
    as [[El2 Tn]|(sN & tN & l2' & El2 & Tn & Sn & Bn)].
  - rewrite Tn in Hm. change (ALLOCATED =? FREE) with false in Hm.
    cbn [andb] in Hm. cbv iota in Hm. exact (Hrest Hm).
  - assert (HN : In (bp + oldsize, sN, tN) (l1 ++ (bp, oldsize, ALLOCATED) :: l2)).
    { rewrite El2. apply in_middle. right. right. left. reflexivity. }
    destruct (pre_block _ _ _ _ _ Hpre _ _ _ HN)
      as (HN16 & HN8 & HNs & _ & HNhi & _).
    rewrite Tn, Sn, Bn in Hm. rewrite (wrap_small (oldsize + sN)) in Hm by lia.
    destruct HNs as [EtN|EtN]; rewrite EtN in *; clear EtN.
    2:{ change (ALLOCATED =? FREE) with false in Hm.
        cbn [andb] in Hm. cbv iota in Hm. exact (Hrest Hm). }
    rewrite Z.eqb_refl in Hm. cbn [andb] in Hm.
    destruct (Z.leb_spec newsize (oldsize + sN)) as [Hfit|Hnofit];
      [|exact (Hrest Hm)].
    injection Hm as <- <-. right. split; [exact Hbpn|].
    subst l2.
    apply (realloc_grow_right lo st L l1 l2' bp oldsize sN n newsize Hinv); lia.
Qed.

(** ** Heaps reached through the API *)

Lemma served_inv lo st live :
  served lo st live -> exists bl L, heap_inv lo st bl L /\ live_ok bl live.
Proof.
  intros Hs. induction Hs as
    [st E H0 H8 Hroom Hmax
    |st live fuel n bp st' Hs IH Hn0 Hn Hm
    |st live fuel bp m n bp2 st' Hs IH Hin H0 Hn Hns Hm
    |st live bp n Hs IH Hin
    |st live bp n x v Hs IH Hin Hx].
  - subst lo. destruct (mm_init_inv st H0 H8 Hroom Hmax) as [Hinv _].
    exists [], (fun _ => []). split; [exact Hinv|].
    split; [|split].
    + intros bp n [].
    + intros bp size [].
    + constructor.
  - destruct IH as (bl & L & Hinv & Hlive & Hall & Hnd).
    destruct (Z.eq_dec n 0) as [En|En].
    { subst n. unfold mm_malloc in Hm. simpl in Hm. injection Hm as <- <-.
      simpl. exists bl, L. split; [exact Hinv|]. split; [|split]; assumption. }
    destruct (mm_malloc_inv lo st bl L fuel n bp st' Hinv ltac:(lia) Hn Hm)
      as [(-> & -> & _)|(Hbp & bl' & L' & size' & Hinv' & Hsz & Hal & Hfresh & _)].
    { simpl. exists bl, L. split; [exact Hinv|]. split; [|split]; assumption. }
    replace (bp =? NULL) with false by (symmetry; apply Z.eqb_neq; exact Hbp).
    destruct (request_size n ltac:(lia) Hn) as (_ & _ & Hr).
    exists bl', L'. split; [exact Hinv'|]. split; [|split].
    + intros q m [E|Hq].
      * injection E as <- <-. exists size'. split; [|lia].
        apply Hal. right. auto.
      * destruct (Hlive _ _ Hq) as (sq & Hsq & Hle). exists sq.
        split; [|exact Hle]. apply Hal. left. exact Hsq.
    + intros q sq Hq. apply Hal in Hq. destruct Hq as [Hq|[-> _]].
      * right. exact (Hall _ _ Hq).
      * left. reflexivity.
    + simpl. constructor; [|exact Hnd].
      intros F. apply in_map_iff in F. destruct F as ([q m] & E & Hq).
      simpl in E. subst q.
      destruct (Hlive _ _ Hq) as (sq & Hsq & _). exact (Hfresh _ Hsq).
  - destruct IH as (bl & L & Hinv & Hlive & Hall & Hnd).
    destruct (Hlive _ _ Hin) as (size & Hb & _).
    destruct (pre_block _ _ _ _ _ (heap_pre_of_inv _ _ _ _ Hinv) _ _ _ Hb)
      as (_ & _ & _ & _ & _ & _ & _ & Hsz & _).
    rewrite Hsz in Hns.
    destruct (mm_realloc_inv lo st bl L fuel bp size n bp2 st' Hinv Hb H0 Hn Hns Hm)
      as [[-> ->]|(Hbp2 & bl' & L' & size' & Hinv' & Hsz' & Hfresh & Hal & _)].
    { simpl. exists bl, L. split; [exact Hinv|]. split; [|split]; assumption. }
    replace (bp2 =? NULL) with false by (symmetry; apply Z.eqb_neq; exact Hbp2).
    exists bl', L'. split; [exact Hinv'|]. split; [|split].
    + intros q k [E|Hq].
      * injection E as <- <-. exists size'. split; [|unfold OVERHEAD in Hsz'; lia].
        apply Hal. right. auto.
      * apply filter_In in Hq. destruct Hq as [Hq Hne].
        simpl in Hne. apply negb_true_iff in Hne. apply Z.eqb_neq in Hne.
        destruct (Hlive _ _ Hq) as (sq & Hsq & Hle). exists sq.
        split; [|exact Hle]. apply Hal. left. auto.
    + intros q sq Hq. apply Hal in Hq. destruct Hq as [[Hq Hne]|[-> _]].
      * right. pose proof (Hall _ _ Hq) as Hl. apply in_map_iff in Hl.
        destruct Hl as ([q' k] & E & Hl). simpl in E. subst q'.
        apply in_map_iff. exists (q, k). split; [reflexivity|].
        apply filter_In. split; [exact Hl|]. simpl.
        apply negb_true_iff. apply Z.eqb_neq. exact Hne.
      * left. reflexivity.
    + simpl. constructor.
      * intros F. apply in_map_iff in F. destruct F as ([q k] & E & Hq).
        simpl in E. subst q. apply filter_In in Hq. destruct Hq as [Hq Hne].
        simpl in Hne. apply negb_true_iff in Hne. apply Z.eqb_neq in Hne.
        destruct Hfresh as [F|F]; [contradiction|].
        destruct (Hlive _ _ Hq) as (sq & Hsq & _). exact (F _ Hsq).
      * clear - Hnd. induction live as [|[q k] live IH]; simpl; [constructor|].
        simpl in Hnd. apply NoDup_cons_iff in Hnd. destruct Hnd as [Hq Hnd].
        destruct (negb (q =? bp)); [|exact (IH Hnd)].
        simpl. constructor; [|exact (IH Hnd)].
        intros F. apply Hq. apply in_map_iff in F.
        destruct F as (e & E & He). apply filter_In in He.
        apply in_map_iff. exists e. tauto.
  - destruct IH as (bl & L & Hinv & Hlive & Hall & Hnd).
    destruct (Hlive _ _ Hin) as (size & Hb & _).
    destruct (mm_free_inv lo st bl L bp size Hinv Hb)
      as (bl' & L' & Hinv' & Hal & _).
    exists bl', L'. split; [exact Hinv'|]. split; [|split].
    + intros q m Hq. apply filter_In in Hq. destruct Hq as [Hq Hne].
      simpl in Hne. apply negb_true_iff in Hne. apply Z.eqb_neq in Hne.
      destruct (Hlive _ _ Hq) as (sq & Hsq & Hle). exists sq.
      split; [|exact Hle]. apply Hal. auto.
    + intros q sq Hq. apply Hal in Hq. destruct Hq as [Hq Hne].
      pose proof (Hall _ _ Hq) as Hl. apply in_map_iff in Hl.
      destruct Hl as ([q' m] & E & Hl). simpl in E. subst q'.
      apply in_map_iff. exists (q, m). split; [reflexivity|].
      apply filter_In. split; [exact Hl|]. simpl.
      apply negb_true_iff. apply Z.eqb_neq. exact Hne.
    + clear - Hnd. induction live as [|[q m] live IH]; simpl; [constructor|].
      simpl in Hnd. apply NoDup_cons_iff in Hnd. destruct Hnd as [Hq Hnd].
      destruct (negb (q =? bp)); [|exact (IH Hnd)].
      simpl. constructor; [|exact (IH Hnd)].
      intros F. apply Hq. apply in_map_iff in F.
      destruct F as (e & E & He). apply filter_In in He.
      apply in_map_iff. exists e. tauto.
  - destruct IH as (bl & L & Hinv & Hlive & Hall & Hnd).
    destruct (Hlive _ _ Hin) as (size & Hb & Hle).
    exists bl, L. split; [|split; [|split]; assumption].
    apply (client_store_inv lo st bl L bp size x v Hinv Hb). lia.
Qed.

(** ** A heap with a free block between two allocated ones *)

Lemma heap_a_c_inv : heap_inv 1000 heap_a_c blocks_a_c lists_a_c.
Proof.
  assert (Hbrk : mem_brk heap_a_c = 1168) by (vm_compute; reflexivity).
  assert (Hmax : mem_max_addr heap_a_c = 66536) by (vm_compute; reflexivity).
  constructor.
  - split; [lia|reflexivity].
  - rewrite Hbrk, Hmax. change (2 ^ 32) with 4294967296. lia.
  - split; vm_compute; reflexivity.
  - rewrite Hbrk. unfold blocks_a_c.
    apply tiles_block.
    { unfold block_ok, OVERHEAD. split; [lia|].
      repeat split; try (vm_compute; reflexivity). right. reflexivity. }
    change (1000 + 32 + 48) with 1080. apply tiles_block.
    { unfold block_ok, OVERHEAD. split; [lia|].
      repeat split; try (vm_compute; reflexivity). left. reflexivity. }
    change (1080 + 48) with 1128. apply tiles_block.
    { unfold block_ok, OVERHEAD. split; [lia|].
      repeat split; try (vm_compute; reflexivity). right. reflexivity. }
    change (1128 + 48) with (1168 + 8). apply tiles_end.
  - vm_compute. reflexivity.
  - simpl. split; [|split; [|split; exact I]]; intros [H1 H2]; discriminate.
  - intros seg Hseg. unfold lists_a_c.
    seg_cases seg Hseg; cbn [Z.eqb Pos.eqb dlist]; unfold NULL;
      (split; [|repeat constructor; simpl; tauto]);
      repeat split; try (vm_compute; reflexivity); lia.
  - intros seg bp Hseg. unfold lists_a_c, blocks_a_c. split.
    + destruct (Z.eqb_spec seg 6) as [->|Hne]; [|contradiction].
      intros [<-|[]]. exists 48. split; [right; left; reflexivity|reflexivity].
    + intros (size & [E|[E|[E|[]]]] & Hf); try discriminate E.
      injection E as <- <-. rewrite <- Hf.
      change (list_find 48 =? 6) with true. left. reflexivity.
Qed.

(** X1.  [ALIGN] rounds a size up to the next multiple of 8: for a size
    that does not wrap around at 32 bits, the result is a multiple of 8,
    it is at least the size, and no multiple of 8 lies between the size
    and the result. *)
Theorem ALIGN_least_multiple :
  forall size,
    0 <= size -> size + 7 < 2 ^ 32 ->
    ALIGN size mod 8 = 0 /\ size <= ALIGN size /\
    forall m, m mod 8 = 0 -> size <= m -> ALIGN size <= m.
Proof.
  intros size H0 H1. split; [apply ALIGN_mod8|].
  pose proof (ALIGN_round_up size H0 H1) as Hr.
  pose proof (ALIGN_mod8 size) as H8.
  split; [lia|]. intros m Hm Hle.
  revert Hr H8. generalize (ALIGN size). intros a Hr H8.
  Z.div_mod_to_equations. lia.
Qed.

Lemma ALIGN_least_multiple_witness :
  0 <= 17 /\ 17 + 7 < 2 ^ 32 /\
  ALIGN 17 mod 8 = 0 /\ 17 <= ALIGN 17 /\
  forall m, m mod 8 = 0 -> 17 <= m -> ALIGN 17 <= m.
Proof.
  assert (H0 : 0 <= 17) by lia.
  assert (H1 : 17 + 7 < 2 ^ 32) by reflexivity.
  split; [exact H0|]. split; [exact H1|].
  exact (ALIGN_least_multiple 17 H0 H1).
Defined.

(** X2.  A header or footer word written with [PACK] reads back with
    [UNPACK_SIZE] and [UNPACK_STATE].  The size read back is the size
    written with its low three bits cleared, and the state read back is
    allocated whenever the size written was odd; for a size that is a
    multiple of 8 both are read back as written, and [REPACK_STATE] then
    changes the state and keeps the size. *)
Theorem header_word_round_trip :
  forall st p size state,
    0 <= size -> size + 1 < 2 ^ 32 ->
    state = FREE \/ state = ALLOCATED ->
    let st' := set_VALUE st p (PACK size state) in
    UNPACK_SIZE st' p = size - size mod 8 /\
    UNPACK_STATE st' p = (if Z.odd size then ALLOCATED else state) /\
    (size mod 8 = 0 ->
     UNPACK_SIZE st' p = size /\ UNPACK_STATE st' p = state /\
     forall state', state' = FREE \/ state' = ALLOCATED ->
       UNPACK_SIZE (REPACK_STATE st' p state') p = size /\
       UNPACK_STATE (REPACK_STATE st' p state') p = state').
Proof.
  intros st p size state H0 H1 Hst st'.
  assert (V : VALUE st' p = size + (if Z.odd size then 0 else state)).
  { unfold st', PACK. rewrite VALUE_set_same, lor_state_bits by assumption.
    apply wrap_small. unfold FREE, ALLOCATED in Hst.
    destruct (Z.odd size); lia. }
  assert (Hodd : Z.odd size = negb (size mod 2 =? 0)).
  { rewrite Zodd_mod. destruct (Z.eqb_spec (size mod 2) 1) as [E|E];
      destruct (Z.eqb_spec (size mod 2) 0); try reflexivity;
      pose proof (Z.mod_pos_bound size 2); lia. }
  assert (S : UNPACK_SIZE st' p = size - size mod 8).
  { rewrite UNPACK_SIZE_spec, V. unfold FREE, ALLOCATED in Hst.
    rewrite Hodd. destruct (Z.eqb_spec (size mod 2) 0); simpl;
      destruct Hst; subst state; Z.div_mod_to_equations; lia. }
  assert (T : UNPACK_STATE st' p = if Z.odd size then ALLOCATED else state).
  { rewrite UNPACK_STATE_spec, V. unfold FREE, ALLOCATED in *.
    rewrite Hodd. destruct (Z.eqb_spec (size mod 2) 0); simpl;
      destruct Hst; subst state; Z.div_mod_to_equations; lia. }
  split; [exact S|]. split; [exact T|].
  intros H8.
  assert (Hev : Z.odd size = false).
  { rewrite Hodd. replace (size mod 2) with 0; [reflexivity|].
    Z.div_mod_to_equations. lia. }
  rewrite Hev in T. rewrite H8, Z.sub_0_r in S.
  split; [exact S|]. split; [exact T|].
  intros state' Hst'.
  assert (V' : VALUE (REPACK_STATE st' p state') p = size + state').
  { unfold REPACK_STATE. rewrite S, VALUE_set_same, PACK_add;
      unfold FREE, ALLOCATED in *; try lia.
    apply wrap_small. lia. }
  rewrite UNPACK_SIZE_spec, UNPACK_STATE_spec, V'.
  unfold FREE, ALLOCATED in *.
  split; destruct Hst'; subst state'; Z.div_mod_to_equations; lia.
Qed.

Lemma header_word_round_trip_witness :
  0 <= 48 /\ 48 + 1 < 2 ^ 32 /\ (FREE = FREE \/ FREE = ALLOCATED) /\
  let st' := set_VALUE heap0 2000 (PACK 48 FREE) in
  UNPACK_SIZE st' 2000 = 48 - 48 mod 8 /\
  UNPACK_STATE st' 2000 = (if Z.odd 48 then ALLOCATED else FREE) /\
  (48 mod 8 = 0 ->
   UNPACK_SIZE st' 2000 = 48 /\ UNPACK_STATE st' 2000 = FREE /\
   forall state', state' = FREE \/ state' = ALLOCATED ->
     UNPACK_SIZE (REPACK_STATE st' 2000 state') 2000 = 48 /\
     UNPACK_STATE (REPACK_STATE st' 2000 state') 2000 = state').
Proof.
  assert (H0 : 0 <= 48) by lia.
  assert (H1 : 48 + 1 < 2 ^ 32) by reflexivity.
  assert (H2 : FREE = FREE \/ FREE = ALLOCATED) by (left; reflexivity).
  split; [exact H0|]. split; [exact H1|]. split; [exact H2|].
  exact (header_word_round_trip heap0 2000 48 FREE H0 H1 H2).
Defined.

(** X3.  [list_find] yields an index inside the arrays [first] and
    [last] for every size, it yields 0 exactly for the sizes above 4096,
    and it is monotone up to 4096; so the bucket of a block that is at
    least as large as a request is one of the buckets that [find_block]
    visits for the request. *)
Theorem larger_blocks_lie_in_searched_buckets :
  forall size sq,
    size <= sq ->
    0 <= list_find sq < MAX_SEG /\
    In (list_find sq) (search_order (list_find size)) /\
    (sq <= 2 ^ (MAX_SEG - 1) -> list_find size <= list_find sq) /\
    (list_find sq = 0 <-> 2 ^ (MAX_SEG - 1) < sq).
Proof.
  intros size sq Hle. split; [apply list_find_range|].
  split; [apply search_order_covers; exact Hle|].
  split; [apply list_find_monotone; exact Hle|apply list_find_large].
Qed.

Lemma larger_blocks_lie_in_searched_buckets_witness :
  24 <= 100 /\
  0 <= list_find 100 < MAX_SEG /\
  In (list_find 100) (search_order (list_find 24)) /\
  (100 <= 2 ^ (MAX_SEG - 1) -> list_find 24 <= list_find 100) /\
  (list_find 100 = 0 <-> 2 ^ (MAX_SEG - 1) < 100).
Proof.
  assert (H : 24 <= 100) by lia.
  split; [exact H|].
  exact (larger_blocks_lie_in_searched_buckets 24 100 H).
Defined.

(** X4.  On a heap whose break is positive and 8-aligned and that has
    room for 24 bytes below 2^32, [mm_init] sets up a heap that satisfies
    the invariants: the two sentinels, no block between them, every free
    list empty; the break has moved by 24 bytes. *)
Theorem mm_init_establishes_invariants :
  forall st,
    0 < mem_brk st -> mem_brk st mod 8 = 0 ->
    mem_brk st + 24 <= mem_max_addr st -> mem_max_addr st < 2 ^ 32 ->
    heap_inv (mem_brk st) (snd (mm_init st)) [] (fun _ => []) /\
    mem_brk (snd (mm_init st)) = mem_brk st + 24.
Proof. exact mm_init_inv. Qed.

Lemma mm_init_establishes_invariants_witness :
  0 < mem_brk (fresh 1000 65536) /\ mem_brk (fresh 1000 65536) mod 8 = 0 /\
  mem_brk (fresh 1000 65536) + 24 <= mem_max_addr (fresh 1000 65536) /\
  mem_max_addr (fresh 1000 65536) < 2 ^ 32 /\
  heap_inv (mem_brk (fresh 1000 65536)) (snd (mm_init (fresh 1000 65536)))
           [] (fun _ => []) /\
  mem_brk (snd (mm_init (fresh 1000 65536))) = mem_brk (fresh 1000 65536) + 24.
Proof.
  assert (H0 : 0 < mem_brk (fresh 1000 65536)) by reflexivity.
  assert (H1 : mem_brk (fresh 1000 65536) mod 8 = 0) by reflexivity.
  assert (H2 : mem_brk (fresh 1000 65536) + 24 <= mem_max_addr (fresh 1000 65536))
    by (simpl; lia).
  assert (H3 : mem_max_addr (fresh 1000 65536) < 2 ^ 32) by reflexivity.
  split; [exact H0|]. split; [exact H1|]. split; [exact H2|]. split; [exact H3|].
  exact (mm_init_establishes_invariants (fresh 1000 65536) H0 H1 H2 H3).
Defined.

(** X5.  [mm_malloc] keeps the invariants.  On a heap that satisfies
    them with the blocks [bl], a request of [n] bytes ([0 < n], no
    wrap-around) that returns a non-null [bp] leaves a heap that
    satisfies them again; [bp] is 8-aligned and lies inside the heap, it
    was not an allocated block before, and the allocated blocks
    afterwards are the ones from before together with the block of [bp],
    whose size is at least [n + OVERHEAD]. *)
Theorem mm_malloc_keeps_invariants :
  forall lo st bl L fuel n bp st',
    heap_inv lo st bl L -> 0 < n -> n + 23 < 2 ^ 32 ->
    mm_malloc fuel st n = Some (bp, st') -> bp <> NULL ->
    exists bl' L' size',
      heap_inv lo st' bl' L' /\
      n + OVERHEAD <= size' /\ bp mod 8 = 0 /\
      lo + 32 <= bp /\ bp + size' <= mem_brk st' + 8 /\
      (forall sq, ~ In (bp, sq, ALLOCATED) bl) /\
      (forall q sq, In (q, sq, ALLOCATED) bl' <->
                    In (q, sq, ALLOCATED) bl \/ (q = bp /\ sq = size')).
Proof.
  intros lo st bl L fuel n bp st' Hinv H0 Hn Hm Hbp.
  destruct (mm_malloc_inv lo st bl L fuel n bp st' Hinv H0 Hn Hm)
    as [(F & _)|(_ & bl' & L' & size' & Hinv' & Hsz & Hal & Hfresh & _)];
    [contradiction|].
  destruct (request_size n H0 Hn) as (_ & _ & Hr).
  assert (Hin : In (bp, size', ALLOCATED) bl') by (apply Hal; right; auto).
  destruct (pre_block _ _ _ _ _ (heap_pre_of_inv _ _ _ _ Hinv') _ _ _ Hin)
    as (_ & _ & _ & Hlo & Hhi & H8 & _).
  exists bl', L', size'.
  split; [exact Hinv'|]. split; [unfold OVERHEAD in *; lia|]. split; [exact H8|].
  split; [exact Hlo|]. split; [exact Hhi|]. split; [exact Hfresh|exact Hal].
Qed.

Lemma mm_malloc_keeps_invariants_witness :
  heap_inv 1000 heap_a_c blocks_a_c lists_a_c /\ 0 < 32 /\ 32 + 23 < 2 ^ 32 /\
  match mm_malloc 9 heap_a_c 32 with
  | Some (bp, st') =>
      bp = 1080 /\ bp <> NULL /\
      exists bl' L' size',
        heap_inv 1000 st' bl' L' /\
        32 + OVERHEAD <= size' /\ bp mod 8 = 0 /\
        1000 + 32 <= bp /\ bp + size' <= mem_brk st' + 8 /\
        (forall sq, ~ In (bp, sq, ALLOCATED) blocks_a_c) /\
        (forall q sq, In (q, sq, ALLOCATED) bl' <->
                      In (q, sq, ALLOCATED) blocks_a_c \/ (q = bp /\ sq = size'))
  | None => False
  end.
Proof.
  assert (H0 : 0 < 32) by lia.
  assert (H1 : 32 + 23 < 2 ^ 32) by reflexivity.
  split; [exact heap_a_c_inv|]. split; [exact H0|]. split; [exact H1|].
  assert (Hp : option_map fst (mm_malloc 9 heap_a_c 32) = Some 1080)
    by (vm_compute; reflexivity).
  destruct (mm_malloc 9 heap_a_c 32) as [[bp st']|] eqn:E; [|discriminate Hp].
  assert (Hb : bp = 1080) by (simpl in Hp; congruence).
  assert (Hn : bp <> NULL) by (rewrite Hb; discriminate).
  split; [exact Hb|]. split; [exact Hn|].
  exact (mm_malloc_keeps_invariants 1000 heap_a_c blocks_a_c lists_a_c 9 32 bp st'
           heap_a_c_inv H0 H1 E Hn).
Defined.

(** X6.  [mm_free] keeps the invariants.  Freeing an allocated block of
    a heap that satisfies them leaves a heap that satisfies them again
    (in particular no two neighbouring blocks are both free, and every
    free block is in the list of its size); the allocated blocks
    afterwards are the ones from before without the freed one, and the
    space of the freed block lies in one free block. *)
Theorem mm_free_keeps_invariants :
  forall lo st bl L bp size,
    heap_inv lo st bl L -> In (bp, size, ALLOCATED) bl ->
    exists bl' L',
      heap_inv lo (mm_free st bp) bl' L' /\
      (forall q sq, In (q, sq, ALLOCATED) bl' <->
                    In (q, sq, ALLOCATED) bl /\ q <> bp) /\
      (exists r s', In (r, s', FREE) bl' /\ r <= bp /\ bp + size <= r + s').
Proof.
  intros lo st bl L bp size Hinv Hbp.
  destruct (mm_free_inv lo st bl L bp size Hinv Hbp)
    as (bl' & L' & H1 & H2 & _ & H3).
  exists bl', L'. split; [exact H1|]. split; assumption.
Qed.

Lemma mm_free_keeps_invariants_witness :
  heap_inv 1000 heap_a_c blocks_a_c lists_a_c /\
  In (1032, 48, ALLOCATED) blocks_a_c /\
  exists bl' L',
    heap_inv 1000 (mm_free heap_a_c 1032) bl' L' /\
    (forall q sq, In (q, sq, ALLOCATED) bl' <->
                  In (q, sq, ALLOCATED) blocks_a_c /\ q <> 1032) /\
    (exists r s', In (r, s', FREE) bl' /\ r <= 1032 /\ 1032 + 48 <= r + s').
Proof.
  assert (Hin : In (1032, 48, ALLOCATED) blocks_a_c) by (left; reflexivity).
  split; [exact heap_a_c_inv|]. split; [exact Hin|].
  exact (mm_free_keeps_invariants 1000 heap_a_c blocks_a_c lists_a_c 1032 48
           heap_a_c_inv Hin).
Defined.

(** X7.  [mm_malloc] does not write into allocated blocks: on a heap
    that satisfies the invariants, every byte of every allocated block
    (header, payload and footer) is the same after the call, whatever the
    call returns. *)
Theorem mm_malloc_leaves_allocated_blocks_alone :
  forall lo st bl L fuel n bp st' q sq x,
    heap_inv lo st bl L -> 0 < n -> n + 23 < 2 ^ 32 ->
    mm_malloc fuel st n = Some (bp, st') ->
    In (q, sq, ALLOCATED) bl -> in_block q sq x ->
    mem st' x = mem st x.
Proof.
  intros lo st bl L fuel n bp st' q sq x Hinv H0 Hn Hm Hq Hx.
  destruct (allocated_not_free _ _ _ _ _ _ _ Hinv Hq Hx) as [Hnf Hlt].
  destruct (mm_malloc_inv lo st bl L fuel n bp st' Hinv H0 Hn Hm)
    as [(_ & -> & _)|(_ & bl' & L' & size' & _ & _ & _ & _ & Hmem)];
    [reflexivity|].
  apply Hmem; assumption.
Qed.

Lemma mm_malloc_leaves_allocated_blocks_alone_witness :
  heap_inv 1000 heap_a_c blocks_a_c lists_a_c /\ 0 < 32 /\ 32 + 23 < 2 ^ 32 /\
  In (1128, 48, ALLOCATED) blocks_a_c /\ in_block 1128 48 1116 /\
  match mm_malloc 9 heap_a_c 32 with
  | Some (bp, st') => mem st' 1116 = mem heap_a_c 1116
  | None => False
  end.
Proof.
  assert (H0 : 0 < 32) by lia.
  assert (H1 : 32 + 23 < 2 ^ 32) by reflexivity.
  assert (Hin : In (1128, 48, ALLOCATED) blocks_a_c)
    by (right; right; left; reflexivity).
  assert (Hx : in_block 1128 48 1116) by (unfold in_block; lia).
  split; [exact heap_a_c_inv|]. split; [exact H0|]. split; [exact H1|].
  split; [exact Hin|]. split; [exact Hx|].
  assert (Hp : option_map fst (mm_malloc 9 heap_a_c 32) = Some 1080)
    by (vm_compute; reflexivity).
  destruct (mm_malloc 9 heap_a_c 32) as [[bp st']|] eqn:E; [|discriminate Hp].
  exact (mm_malloc_leaves_allocated_blocks_alone 1000 heap_a_c blocks_a_c
           lists_a_c 9 32 bp st' 1128 48 1116 heap_a_c_inv H0 H1 E Hin Hx).
Defined.

(** X8.  [mm_free] does not write into the other allocated blocks: on
    a heap that satisfies the invariants, freeing the allocated block
    [bp] leaves every byte of every other allocated block as it was. *)
Theorem mm_free_leaves_other_blocks_alone :
  forall lo st bl L bp size q sq x,
    heap_inv lo st bl L -> In (bp, size, ALLOCATED) bl ->
    In (q, sq, ALLOCATED) bl -> q <> bp -> in_block q sq x ->
    mem (mm_free st bp) x = mem st x.
Proof.
  intros lo st bl L bp size q sq x Hinv Hbp Hq Hne Hx.
  destruct (allocated_not_free _ _ _ _ _ _ _ Hinv Hq Hx) as [Hnf _].
  destruct (mm_free_inv lo st bl L bp size Hinv Hbp)
    as (_ & _ & _ & _ & Hmem & _).
  apply Hmem; [exact Hnf|].
  pose proof (heap_pre_of_inv _ _ _ _ Hinv) as Hpre.
  unfold in_block in *. intros F.
  destruct (pre_far _ _ _ _ _ Hpre _ _ _ _ _ _ Hq Hbp) as [(E & _)|E];
    [contradiction|lia].
Qed.

Lemma mm_free_leaves_other_blocks_alone_witness :
  heap_inv 1000 heap_a_c blocks_a_c lists_a_c /\
  In (1032, 48, ALLOCATED) blocks_a_c /\ In (1128, 48, ALLOCATED) blocks_a_c /\
  1128 <> 1032 /\ in_block 1128 48 1116 /\
  mem (mm_free heap_a_c 1032) 1116 = mem heap_a_c 1116.
Proof.
  assert (Hb : In (1032, 48, ALLOCATED) blocks_a_c) by (left; reflexivity).
  assert (Hq : In (1128, 48, ALLOCATED) blocks_a_c)
    by (right; right; left; reflexivity).
  assert (Hne : 1128 <> 1032) by discriminate.
  assert (Hx : in_block 1128 48 1116) by (unfold in_block; lia).
  split; [exact heap_a_c_inv|]. split; [exact Hb|]. split; [exact Hq|].
  split; [exact Hne|]. split; [exact Hx|].
  exact (mm_free_leaves_other_blocks_alone 1000 heap_a_c blocks_a_c lists_a_c
           1032 48 1128 48 1116 heap_a_c_inv Hb Hq Hne Hx).
Defined.

(** X9.  On a heap that satisfies the invariants, with fuel above the
    number of blocks, [find_block] finishes; it returns null exactly when
    no free block of the heap is large enough for the request, and a
    non-null result is a free block that is large enough. *)
Theorem find_block_finds_any_fit :
  forall lo st bl L fuel size,
    heap_inv lo st bl L -> (length bl < fuel)%nat ->
    exists r,
      find_block fuel st size = Some r /\
      (r = NULL <-> forall q sq, In (q, sq, FREE) bl -> sq < size) /\
      (r <> NULL -> exists sq, In (r, sq, FREE) bl /\ size <= sq).
Proof.
  intros lo st bl L fuel size Hinv Hfuel.
  exact (find_block_complete lo st bl L Hinv fuel size Hfuel).
Qed.

Lemma find_block_finds_any_fit_witness :
  heap_inv 1000 heap_a_c blocks_a_c lists_a_c /\
  (length blocks_a_c < 9)%nat /\
  exists r,
    find_block 9 heap_a_c 40 = Some r /\
    (r = NULL <-> forall q sq, In (q, sq, FREE) blocks_a_c -> sq < 40) /\
    (r <> NULL -> exists sq, In (r, sq, FREE) blocks_a_c /\ 40 <= sq).
Proof.
  assert (Hf : (length blocks_a_c < 9)%nat) by (simpl; lia).
  split; [exact heap_a_c_inv|]. split; [exact Hf|].
  exact (find_block_finds_any_fit 1000 heap_a_c blocks_a_c lists_a_c 9 40
           heap_a_c_inv Hf).
Defined.

(** X10.  The heap is extended only when no free block is large enough.
    On a heap that satisfies the invariants: when some free block has at
    least the adjusted size [ALIGN (n + OVERHEAD)], [mm_malloc] returns a
    block and the break stays where it is; when none has, a successful
    call moves the break by exactly the adjusted size, and a call that
    returns null has changed nothing and found no room for that size. *)
Theorem mm_malloc_extends_heap_only_without_fit :
  forall lo st bl L fuel n bp st',
    heap_inv lo st bl L -> (length bl < fuel)%nat ->
    0 < n -> n + 23 < 2 ^ 32 ->
    mm_malloc fuel st n = Some (bp, st') ->
    ((exists q sq, In (q, sq, FREE) bl /\ ALIGN (n + OVERHEAD) <= sq) ->
     bp <> NULL /\ mem_brk st' = mem_brk st) /\
    ((forall q sq, In (q, sq, FREE) bl -> sq < ALIGN (n + OVERHEAD)) ->
     (bp <> NULL -> mem_brk st' = mem_brk st + ALIGN (n + OVERHEAD)) /\
     (bp = NULL ->
      st' = st /\ mem_max_addr st < mem_brk st + ALIGN (n + OVERHEAD))).
Proof.
  intros lo st bl L fuel n bp st' Hinv Hfuel H0 Hn Hm.
  destruct (find_block_complete lo st bl L Hinv fuel (ALIGN (n + OVERHEAD)) Hfuel)
    as (r & Hf & Hnull & _).
  destruct (mm_malloc_brk fuel st n bp st' ltac:(lia) Hm)
    as (r' & Hf' & Hfound & Hnew).
  assert (E : r' = r) by congruence. subst r'.
  split.
  - intros (q & sq & Hq & Hsz).
    assert (Hr : r <> NULL).
    { intros F. pose proof (proj1 Hnull F _ _ Hq). lia. }
    destruct (Hfound Hr) as [-> Hb]. split; assumption.
  - intros Hno. apply (proj2 Hnull) in Hno. split.
    + intros Hbp. exact (Hnew Hno Hbp).
    + intros Hbp.
      destruct (mm_malloc_inv lo st bl L fuel n bp st' Hinv H0 Hn Hm)
        as [(_ & E1 & E2)|(F & _)]; [auto|contradiction].
Qed.

Lemma mm_malloc_extends_heap_only_without_fit_witness :
  heap_inv 1000 heap_a_c blocks_a_c lists_a_c /\ (length blocks_a_c < 9)%nat /\
  0 < 32 /\ 32 + 23 < 2 ^ 32 /\
  match mm_malloc 9 heap_a_c 32 with
  | Some (bp, st') =>
      ((exists q sq, In (q, sq, FREE) blocks_a_c /\ ALIGN (32 + OVERHEAD) <= sq) ->
       bp <> NULL /\ mem_brk st' = mem_brk heap_a_c) /\
      ((forall q sq, In (q, sq, FREE) blocks_a_c -> sq < ALIGN (32 + OVERHEAD)) ->
       (bp <> NULL -> mem_brk st' = mem_brk heap_a_c + ALIGN (32 + OVERHEAD)) /\
       (bp = NULL ->
        st' = heap_a_c /\
        mem_max_addr heap_a_c < mem_brk heap_a_c + ALIGN (32 + OVERHEAD)))
  | None => False
  end.
Proof.
  assert (Hf : (length blocks_a_c < 9)%nat) by (simpl; lia).
  assert (H0 : 0 < 32) by lia.
  assert (H1 : 32 + 23 < 2 ^ 32) by reflexivity.
  split; [exact heap_a_c_inv|]. split; [exact Hf|]. split; [exact H0|].
  split; [exact H1|].
  assert (Hp : option_map fst (mm_malloc 9 heap_a_c 32) = Some 1080)
    by (vm_compute; reflexivity).
  destruct (mm_malloc 9 heap_a_c 32) as [[bp st']|] eqn:E; [|discriminate Hp].
  exact (mm_malloc_extends_heap_only_without_fit 1000 heap_a_c blocks_a_c
           lists_a_c 9 32 bp st' heap_a_c_inv Hf H0 H1 E).
Defined.

(** X11.  Every heap that is reached from [mm_init] by calls of
    [mm_malloc], of [mm_free] on live blocks, of [mm_realloc] on live
    blocks for sizes that do not make it split the block to shrink it,
    and by stores of the client into the bytes it asked for satisfies
    the invariants; every live block is a non-null, 8-aligned allocated
    block inside the heap with room for the bytes asked for, and the
    bytes of two live blocks never overlap. *)
Theorem served_blocks_are_well_formed :
  forall lo st live,
    served lo st live ->
    heap_ok lo st /\ NoDup (map fst live) /\
    forall bp n, In (bp, n) live ->
      bp <> NULL /\ bp mod 8 = 0 /\
      lo + 32 <= bp /\ bp + n <= mem_brk st - 8 /\
      UNPACK_STATE st (HEADER bp) = ALLOCATED /\
      n + OVERHEAD <= UNPACK_SIZE st (HEADER bp) /\
      forall bp' n', In (bp', n') live -> bp' <> bp ->
        bp + n + OVERHEAD <= bp' \/ bp' + n' + OVERHEAD <= bp.
Proof.
  intros lo st live Hs.
  destruct (served_inv lo st live Hs) as (bl & L & Hinv & Hlive & _ & Hnd).
  pose proof (heap_pre_of_inv _ _ _ _ Hinv) as Hpre.
  split; [exists bl, L; exact Hinv|]. split; [exact Hnd|].
  intros bp n Hin.
  destruct (Hlive _ _ Hin) as (size & Hb & Hle).
  destruct (pre_block _ _ _ _ _ Hpre _ _ _ Hb)
    as (_ & _ & _ & Hlo & Hhi & H8 & _ & Hsz & Hst & _).
  destruct (pre_base _ _ _ _ _ Hpre) as [Hlo0 _].
  unfold OVERHEAD, NULL. rewrite Hsz, Hst.
  repeat split; try assumption; try lia.
  intros bp' n' Hin' Hne.
  destruct (Hlive _ _ Hin') as (size' & Hb' & Hle').
  destruct (pre_far _ _ _ _ _ Hpre _ _ _ _ _ _ Hb Hb') as [(E & _)|E];
    [congruence|lia].
Qed.

Lemma served_blocks_are_well_formed_witness :
  match mm_malloc 9 heap0 32 with
  | Some (bp, st') =>
      served 1000 st' [(bp, 32)] /\
      heap_ok 1000 st' /\ NoDup (map fst [(bp, 32)]) /\
      forall b n, In (b, n) [(bp, 32)] ->
        b <> NULL /\ b mod 8 = 0 /\
        1000 + 32 <= b /\ b + n <= mem_brk st' - 8 /\
        UNPACK_STATE st' (HEADER b) = ALLOCATED /\
        n + OVERHEAD <= UNPACK_SIZE st' (HEADER b) /\
        forall b' n', In (b', n') [(bp, 32)] -> b' <> b ->
          b + n + OVERHEAD <= b' \/ b' + n' + OVERHEAD <= b
  | None => False
  end.
Proof.
  assert (Hp : option_map fst (mm_malloc 9 heap0 32) = Some 1032)
    by (vm_compute; reflexivity).
  destruct (mm_malloc 9 heap0 32) as [[bp st']|] eqn:E; [|discriminate Hp].
  assert (Hb : bp = 1032) by (simpl in Hp; congruence).
  assert (Hs0 : served 1000 heap0 []).
  { apply served_init; try reflexivity. simpl. lia. }
  assert (Hs : served 1000 st' [(bp, 32)]).
  { pose proof (served_malloc 1000 heap0 [] 9 32 bp st' Hs0 ltac:(lia)
                  ltac:(reflexivity) E) as H.
    rewrite Hb in H at 1. exact H. }
  split; [exact Hs|].
  exact (served_blocks_are_well_formed 1000 st' [(bp, 32)] Hs).
Defined.

(** X12.  The heap never shrinks: [mm_init], [mm_malloc] and
    [mm_realloc] leave the break where it was or move it up, and
    [mm_free] leaves it where it was. *)
Theorem heap_never_shrinks :
  forall fuel st bp size,
    mem_brk st <= mem_brk (snd (mm_init st)) /\
    mem_brk (mm_free st bp) = mem_brk st /\
    (forall p st', mm_malloc fuel st size = Some (p, st') ->
                   mem_brk st <= mem_brk st') /\
    (forall p st', mm_realloc fuel st bp size = Some (p, st') ->
                   mem_brk st <= mem_brk st').
Proof.
  intros fuel st bp size.
  split; [apply brk_mm_init_le|]. split; [apply brk_mm_free|]. split.
  - intros p st'. apply brk_mm_malloc_le.
  - intros p st'. apply brk_mm_realloc_le.
Qed.

(** X13.  [mm_realloc] is correct on every path but the shrinking split.
    On a heap that satisfies the invariants, for an allocated block [bp]
    of size [oldsize] and a request of [n] bytes for which the block is
    not more than [OVERHEAD] bytes larger than the adjusted size
    [ALIGN (n + OVERHEAD)]: a call that returns null has changed
    nothing; a call that returns [bp2] (the block itself, kept as it is
    or grown over its free right neighbour, the free left neighbour the
    payload was moved to, or a block of [mm_malloc] the payload was
    copied to) leaves a heap that satisfies the invariants, in which
    [bp2] is an allocated block of at least [n + OVERHEAD] bytes that
    holds the old payload and that is [bp] or was not allocated before,
    the old block is no longer allocated unless it is [bp2], and the
    other allocated blocks and all their bytes are as before. *)
Theorem mm_realloc_keeps_invariants_and_payload :
  forall lo st bl L fuel bp oldsize n bp2 st',
    heap_inv lo st bl L -> In (bp, oldsize, ALLOCATED) bl ->
    0 < n -> n + 39 < 2 ^ 32 ->
    oldsize <= ALIGN (n + OVERHEAD) + OVERHEAD ->
    mm_realloc fuel st bp n = Some (bp2, st') ->
    (bp2 = NULL /\ st' = st)
    \/ (bp2 <> NULL /\
        exists bl' L' size',
          heap_inv lo st' bl' L' /\ n + OVERHEAD <= size' /\
          (bp2 = bp \/ forall sq, ~ In (bp2, sq, ALLOCATED) bl) /\
          (forall q sq, In (q, sq, ALLOCATED) bl' <->
                        (In (q, sq, ALLOCATED) bl /\ q <> bp)
                        \/ (q = bp2 /\ sq = size')) /\
          (forall i, 0 <= i < oldsize - OVERHEAD ->
                     mem st' (bp2 + i) = mem st (bp + i)) /\
          (forall q sq x, In (q, sq, ALLOCATED) bl -> q <> bp ->
                          in_block q sq x -> mem st' x = mem st x)).
Proof. exact mm_realloc_inv. Qed.

Lemma mm_realloc_keeps_invariants_and_payload_witness :
  heap_inv 1000 heap_a_c blocks_a_c lists_a_c /\
  In (1128, 48, ALLOCATED) blocks_a_c /\ 0 < 64 /\ 64 + 39 < 2 ^ 32 /\
  48 <= ALIGN (64 + OVERHEAD) + OVERHEAD /\
  match mm_realloc 9 heap_a_c 1128 64 with
  | Some (bp2, st') =>
      bp2 = 1080 /\
      ((bp2 = NULL /\ st' = heap_a_c)
       \/ (bp2 <> NULL /\
           exists bl' L' size',
             heap_inv 1000 st' bl' L' /\ 64 + OVERHEAD <= size' /\
             (bp2 = 1128 \/ forall sq, ~ In (bp2, sq, ALLOCATED) blocks_a_c) /\
             (forall q sq, In (q, sq, ALLOCATED) bl' <->
                           (In (q, sq, ALLOCATED) blocks_a_c /\ q <> 1128)
                           \/ (q = bp2 /\ sq = size')) /\
             (forall i, 0 <= i < 48 - OVERHEAD ->
                        mem st' (bp2 + i) = mem heap_a_c (1128 + i)) /\
             (forall q sq x, In (q, sq, ALLOCATED) blocks_a_c -> q <> 1128 ->
                             in_block q sq x -> mem st' x = mem heap_a_c x)))
  | None => False
  end.
Proof.
  assert (Hin : In (1128, 48, ALLOCATED) blocks_a_c)
    by (right; right; left; reflexivity).
  assert (H0 : 0 < 64) by lia.
  assert (H1 : 64 + 39 < 2 ^ 32) by reflexivity.
  assert (H2 : 48 <= ALIGN (64 + OVERHEAD) + OVERHEAD) by (vm_compute; discriminate).
  split; [exact heap_a_c_inv|]. split; [exact Hin|]. split; [exact H0|].
  split; [exact H1|]. split; [exact H2|].
  assert (Hp : option_map fst (mm_realloc 9 heap_a_c 1128 64) = Some 1080)
    by (vm_compute; reflexivity).
  destruct (mm_realloc 9 heap_a_c 1128 64) as [[bp2 st']|] eqn:E;
    [|discriminate Hp].
  split; [simpl in Hp; congruence|].
  exact (mm_realloc_keeps_invariants_and_payload 1000 heap_a_c blocks_a_c
           lists_a_c 9 1128 48 64 bp2 st' heap_a_c_inv Hin H0 H1 H2 E).
Defined.

Lemma list_add_header st bp l seg :
  seg = list_find (UNPACK_SIZE st (HEADER bp)) ->
  dlist st NULL l (first st seg) (last st seg) ->
  spaced_nodes (bp :: l) -> ~ In bp l ->
  UNPACK_SIZE (list_add st bp) (HEADER bp) = UNPACK_SIZE st (HEADER bp).
Proof.
  intros Eseg Hd Hsp Hnin. apply UNPACK_SIZE_same. rewrite HEADER_eq.
  apply list_add_VALUE; [|lia]. rewrite <- Eseg.
  destruct (dlist_tail _ _ _ _ _ Hd) as [[_ E]|[Hin _]]; [left; exact E|right].
  destruct (Hsp bp (last st seg) (or_introl eq_refl) (or_intror Hin)) as [F|F];
    [|lia].
  exfalso. apply Hnin. rewrite F. exact Hin.
Qed.

(** X14.  [list_add] appends a block at the tail of the list of its size
    class, and [list_remove] of that block gives back the list as it
    was: for a well-formed doubly linked list [l] of pairwise distinct
    nodes that are at least 16 bytes apart from each other and from the
    block [bp], the list after [list_add bp] is [l] followed by [bp],
    and after [list_remove bp] it is [l] again, with [first] and [last]
    of the bucket at its ends. *)
Theorem list_add_then_list_remove_round_trip :
  forall st bp l seg,
    seg = list_find (UNPACK_SIZE st (HEADER bp)) ->
    dlist st NULL l (first st seg) (last st seg) ->
    NoDup l -> ~ In bp l -> spaced_nodes (bp :: l) ->
    (forall x, In x l -> 0 <= x < 2 ^ 32) ->
    bp <> NULL -> 0 <= bp < 2 ^ 32 ->
    dlist (list_add st bp) NULL (l ++ [bp])
          (first (list_add st bp) seg) (last (list_add st bp) seg) /\
    dlist (list_remove (list_add st bp) bp) NULL l
          (first (list_remove (list_add st bp) bp) seg)
          (last (list_remove (list_add st bp) bp) seg).
Proof.
  intros st bp l seg Eseg Hd Hnd Hnin Hsp Hrange Hbp Hbr.
  pose proof (list_add_dlist st bp l seg Eseg Hd Hnd Hnin Hsp Hrange Hbp Hbr)
    as Hadd.
  split; [exact Hadd|].
  rewrite <- (app_nil_r l) at 1.
  apply list_remove_dlist.
  - rewrite (list_add_header st bp l seg Eseg Hd Hsp Hnin). exact Eseg.
  - exact Hadd.
  - apply (NoDup_Add (a := bp) (l := l)).
    + rewrite <- (app_nil_r l) at 1. apply Add_app.
    + split; assumption.
  - intros x y Hx Hy. apply Hsp.
    + apply in_app_iff in Hx. destruct Hx as [Hx|[Hx|[]]]; [right|left]; auto.
    + apply in_app_iff in Hy. destruct Hy as [Hy|[Hy|[]]]; [right|left]; auto.
Qed.

Lemma list_add_then_list_remove_round_trip_witness :
  6 = list_find (UNPACK_SIZE heap_a_c (HEADER 1032)) /\
  dlist heap_a_c NULL [1080] (first heap_a_c 6) (last heap_a_c 6) /\
  NoDup [1080] /\ ~ In 1032 [1080] /\ spaced_nodes [1032; 1080] /\
  (forall x, In x [1080] -> 0 <= x < 2 ^ 32) /\
  1032 <> NULL /\ 0 <= 1032 < 2 ^ 32 /\
  dlist (list_add heap_a_c 1032) NULL ([1080] ++ [1032])
        (first (list_add heap_a_c 1032) 6) (last (list_add heap_a_c 1032) 6) /\
  dlist (list_remove (list_add heap_a_c 1032) 1032) NULL [1080]
        (first (list_remove (list_add heap_a_c 1032) 1032) 6)
        (last (list_remove (list_add heap_a_c 1032) 1032) 6).
Proof.
  assert (H1 : 6 = list_find (UNPACK_SIZE heap_a_c (HEADER 1032)))
    by (vm_compute; reflexivity).
  assert (H2 : dlist heap_a_c NULL [1080] (first heap_a_c 6) (last heap_a_c 6)).
  { exact (proj1 (inv_lists _ _ _ _ heap_a_c_inv 6 ltac:(unfold MAX_SEG; lia))). }
  assert (H3 : NoDup [1080]) by (repeat constructor; simpl; tauto).
  assert (H4 : ~ In 1032 [1080]) by (simpl; intros [F|[]]; discriminate).
  assert (H5 : spaced_nodes [1032; 1080]).
  { intros x y [<-|[<-|[]]] [<-|[<-|[]]]; lia. }
  assert (H6 : forall x, In x [1080] -> 0 <= x < 2 ^ 32).
  { intros x [<-|[]]. change (2 ^ 32) with 4294967296. lia. }
  assert (H7 : 1032 <> NULL) by discriminate.
  assert (H8 : 0 <= 1032 < 2 ^ 32) by (change (2 ^ 32) with 4294967296; lia).
  split; [exact H1|]. split; [exact H2|]. split; [exact H3|].
  split; [exact H4|]. split; [exact H5|]. split; [exact H6|].
  split; [exact H7|]. split; [exact H8|].
  exact (list_add_then_list_remove_round_trip heap_a_c 1032 [1080] 6
           H1 H2 H3 H4 H5 H6 H7 H8).
Defined.

Lemma ALIGN_wraps n :
  2 ^ 32 - 23 <= n < 2 ^ 32 -> 0 <= ALIGN (n + OVERHEAD) <= 16.
Proof.
  intros Hn. rewrite ALIGN_spec. unfold OVERHEAD, wrap.
  change (2 ^ 32) with 4294967296 in *.
  Z.div_mod_to_equations. lia.
Qed.

(** X15.  [mm_malloc] does not notice that a request wraps around.  For
    a request of [n] bytes with [2^32 - 23 <= n < 2^32] the adjusted
    size [ALIGN (n + OVERHEAD)] is at most 16; on a heap that satisfies
    the invariants and has a free block, the call returns a block that
    was free (without extending the heap), and that block is smaller
    than [n] bytes. *)
Theorem mm_malloc_serves_requests_that_wrap_around :
  forall lo st bl L fuel n q sq,
    heap_inv lo st bl L -> (length bl < fuel)%nat ->
    In (q, sq, FREE) bl -> 2 ^ 32 - 23 <= n < 2 ^ 32 ->
    exists bp st' sb,
      mm_malloc fuel st n = Some (bp, st') /\ bp <> NULL /\
      mem_brk st' = mem_brk st /\
      In (bp, sb, FREE) bl /\ sb < n.
Proof.
  intros lo st bl L fuel n q sq Hinv Hfuel Hq Hn.
  pose proof (ALIGN_wraps n Hn) as Ha.
  pose proof (heap_pre_of_inv _ _ _ _ Hinv) as Hpre.
  destruct (pre_block _ _ _ _ _ Hpre _ _ _ Hq) as (Hq16 & _).
  destruct (find_block_complete lo st bl L Hinv fuel (ALIGN (n + OVERHEAD)) Hfuel)
    as (r & Hf & Hnull & Hfound).
  assert (Hr : r <> NULL).
  { intros F. pose proof (proj1 Hnull F _ _ Hq). lia. }
  destruct (Hfound Hr) as (sb & Hb & _).
  destruct (pre_block _ _ _ _ _ Hpre _ _ _ Hb) as (_ & _ & _ & Hlo & Hhi & _).
  destruct (pre_base _ _ _ _ _ Hpre) as [Hlo0 _].
  destruct (pre_space _ _ _ _ _ Hpre) as [Hsp Hmax].
  exists r, (place st r (ALIGN (n + OVERHEAD))), sb.
  split; [|split; [exact Hr|split; [apply brk_place|split; [exact Hb|lia]]]].
  unfold mm_malloc.
  replace (n =? 0) with false
    by (symmetry; apply Z.eqb_neq; change (2 ^ 32) with 4294967296 in Hn; lia).
  rewrite Hf.
  assert (Er : (r =? NULL) = false) by (apply Z.eqb_neq; exact Hr).
  rewrite Er. cbv beta iota zeta. rewrite Er. reflexivity.
Qed.

Lemma mm_malloc_serves_requests_that_wrap_around_witness :
  heap_inv 1000 heap_a_c blocks_a_c lists_a_c /\ (length blocks_a_c < 9)%nat /\
  In (1080, 48, FREE) blocks_a_c /\ 2 ^ 32 - 23 <= 4294967290 < 2 ^ 32 /\
  exists bp st' sb,
    mm_malloc 9 heap_a_c 4294967290 = Some (bp, st') /\ bp <> NULL /\
    mem_brk st' = mem_brk heap_a_c /\
    In (bp, sb, FREE) blocks_a_c /\ sb < 4294967290.
Proof.
  assert (Hf : (length blocks_a_c < 9)%nat) by (simpl; lia).
  assert (Hq : In (1080, 48, FREE) blocks_a_c) by (right; left; reflexivity).
  assert (Hn : 2 ^ 32 - 23 <= 4294967290 < 2 ^ 32)
    by (change (2 ^ 32) with 4294967296; lia).
  split; [exact heap_a_c_inv|]. split; [exact Hf|]. split; [exact Hq|].
  split; [exact Hn|].
  exact (mm_malloc_serves_requests_that_wrap_around 1000 heap_a_c blocks_a_c
           lists_a_c 9 4294967290 1080 48 heap_a_c_inv Hf Hq Hn).
Defined.



